(** * build-cache: fingerprints, staleness, package loading and the store

    A shallow embedding of [main.go] (both revisions) and [pkg.go] of
    cockroachdb/build-cache.

    - Go strings are byte strings: [string].
    - A [*Package] is identified with the key under which [packageCache]
      holds it (its full import path); the packages live in a heap
      [gmap string Package], so that sharing and the memoised
      [fingerprint] field are modelled by reference.
    - [crypto/sha1] and [encoding/hex] are library code; they are embedded
      executably (FIPS 180-1) so that digests can be computed.
    - The file system is a finite map from paths to files.
    - Recursion over the package graph is by fuel; [log.Fatal], [os.Exit]
      and a nil dereference are outcomes of their own. *)

From Stdlib Require Import ZArith Lia Ascii Permutation Sorted.
From stdpp Require Import base option list strings gmap fin_maps sorting.

#[local] Open Scope string_scope.
#[local] Open Scope list_scope.
#[local] Open Scope Z_scope.

(** ** crypto/sha1 and encoding/hex *)

Module Sha1.

Definition mask32 (x : Z) : Z := Z.land x 4294967295.

Definition rotl (n x : Z) : Z :=
  mask32 (Z.lor (Z.shiftl x n) (Z.shiftr x (32 - n))).

Definition add32 (x y : Z) : Z := mask32 (x + y).

Definition bytes_of_string (s : string) : list Z :=
  (λ a, Z.of_N (Ascii.N_of_ascii a)) <$> String.list_ascii_of_string s.

(** Big-endian encoding of [x] on [n] bytes. *)
Fixpoint be_bytes (n : nat) (x : Z) : list Z :=
  match n with
  | O => []
  | S n' => Z.land (Z.shiftr x (8 * Z.of_nat n')) 255 :: be_bytes n' x
  end.

(** Message padding: 0x80, zeros up to 56 mod 64, the bit length on 8 bytes. *)
Definition pad (msg : list Z) : list Z :=
  let len := Z.of_nat (length msg) in
  let zeros := Z.to_nat ((55 - len) mod 64) in
  msg ++ 128 :: replicate zeros 0 ++ be_bytes 8 (8 * len).

Fixpoint words (fuel : nat) (bs : list Z) : list Z :=
  match fuel, bs with
  | S f, b0 :: b1 :: b2 :: b3 :: rest =>
      (Z.shiftl b0 24 + Z.shiftl b1 16 + Z.shiftl b2 8 + b3) :: words f rest
  | _, _ => []
  end.

Fixpoint blocks (fuel : nat) (ws : list Z) : list (list Z) :=
  match fuel, ws with
  | O, _ | _, [] => []
  | S f, _ => take 16 ws :: blocks f (drop 16 ws)
  end.

(** The message schedule, most recent word first. *)
Fixpoint schedule (n : nat) (rev_w : list Z) : list Z :=
  match n with
  | O => rev_w
  | S n' =>
      let w := rotl 1 (Z.lxor (Z.lxor (nth 2 rev_w 0) (nth 7 rev_w 0))
                              (Z.lxor (nth 13 rev_w 0) (nth 15 rev_w 0))) in
      schedule n' (w :: rev_w)
  end.

Definition round_fk (t b c d : Z) : Z * Z :=
  if t <? 20 then (Z.lor (Z.land b c) (Z.land (mask32 (Z.lnot b)) d), 1518500249)
  else if t <? 40 then (Z.lxor (Z.lxor b c) d, 1859775393)
  else if t <? 60 then
    (Z.lor (Z.lor (Z.land b c) (Z.land b d)) (Z.land c d), 2400959708)
  else (Z.lxor (Z.lxor b c) d, 3395469782).

Definition state : Type := Z * Z * Z * Z * Z.

Fixpoint rounds (t : Z) (ws : list Z) (st : state) : state :=
  match ws with
  | [] => st
  | w :: ws' =>
      let '(a, b, c, d, e) := st in
      let '(f, k) := round_fk t b c d in
      let tmp := add32 (add32 (add32 (add32 (rotl 5 a) f) e) k) w in
      rounds (t + 1) ws' (tmp, a, rotl 30 b, c, d)
  end.

Definition compress (st : state) (block : list Z) : state :=
  let ws := rev (schedule 64 (rev block)) in
  let '(a, b, c, d, e) := st in
  let '(a', b', c', d', e') := rounds 0 ws st in
  (add32 a a', add32 b b', add32 c c', add32 d d', add32 e e').

Definition init : state :=
  (1732584193, 4023233417, 2562383102, 271733878, 3285377520).

(** [sha1.Sum]: the 20 bytes of the digest. *)
Definition sum (msg : string) : list Z :=
  let bs := pad (bytes_of_string msg) in
  let ws := words (length bs) bs in
  let '(a, b, c, d, e) := foldl compress init (blocks (length ws) ws) in
  be_bytes 4 a ++ be_bytes 4 b ++ be_bytes 4 c ++ be_bytes 4 d ++ be_bytes 4 e.

End Sha1.

Module Hex.

Definition digit (n : Z) : string :=
  String (Ascii.ascii_of_N (Z.to_N (if n <? 10 then 48 + n else 87 + n))) "".

(** [hex.EncodeToString]: two lowercase digits per byte. *)
Fixpoint EncodeToString (bs : list Z) : string :=
  match bs with
  | [] => ""
  | b :: bs' => digit (Z.shiftr b 4) +:+ digit (Z.land b 15) +:+ EncodeToString bs'
  end.

End Hex.

(** The hash object of [Fingerprint]: the bytes written so far.
    [h.Write] appends and, for sha1, never returns an error, so the
    [log.Fatal(err)] after each write is unreachable. *)
Definition hashWrite (h : string) (b : string) : string := h +:+ b.

Definition hashSumHex (h : string) : string := Hex.EncodeToString (Sha1.sum h).

(** ** Outcomes, files, library helpers *)

(** How a call ends: it returns, or [log.Fatal] ends the process with
    status 1, or [os.Exit] ends it, or the runtime panics (nil
    dereference, runaway recursion is [OutOfFuel]). *)
Inductive outcome (A : Type) : Type :=
| Done (a : A)
| Fatal (msg : string)
| Exit (code : Z)
| Panic
| OutOfFuel.
Arguments Done {A} a.
Arguments Fatal {A} msg.
Arguments Exit {A} code.
Arguments Panic {A}.
Arguments OutOfFuel {A}.

Definition obind {A B} (m : outcome A) (k : A → outcome B) : outcome B :=
  match m with
  | Done a => k a
  | Fatal msg => Fatal msg
  | Exit c => Exit c
  | Panic => Panic
  | OutOfFuel => OutOfFuel
  end.

Notation "x ← m ;;; k" := (obind m (λ x, k))
  (at level 20, m at level 100, k at level 200, right associativity, only parsing).
Notation "' pat ← m ;;; k" := (obind m (λ x, match x with pat => k end))
  (at level 20, pat pattern, m at level 100, k at level 200,
   right associativity, only parsing).

(** A file: content, permission bits, modification time.  Times are
    counted from the zero [time.Time], so [IsZero] is [= 0].  The file
    system is a flat map from names to files: a name does not need its
    directory to exist, a hard link is a second record of the file, and
    the times of a directory do not change when a name is added to it.
    What this leaves out of a system call of the store (a missing
    parent directory, a permission that is denied) is a [fault] of the
    environment below. *)
Record File : Type := mkFile { data : string; perm : Z; modTime : Z; IsDir : bool }.

Abbreviation FS := (gmap string File).

(** Error numbers of the system calls, with [os.IsExist] and
    [os.IsNotExist]. *)
Inductive errno : Type := EEXIST | ENOTEMPTY | ENOENT | EXDEV | EACCES | EPERM | EIO | EISDIR.

#[global] Instance errno_eq_dec : EqDecision errno.
Proof. solve_decision. Defined.

Definition IsExist (e : errno) : bool :=
  match e with EEXIST | ENOTEMPTY => true | _ => false end.

Definition IsNotExist (e : errno) : bool :=
  match e with ENOENT => true | _ => false end.

(** [runtime.Version()], [runtime.GOOS], [runtime.GOARCH]: the toolchain
    build-cache itself was compiled with. *)
Record Runtime : Type := mkRuntime { Version : string; GOOS : string; GOARCH : string }.

(** [stringList]: its arguments are strings or string slices; any other
    dynamic type panics and is excluded by [strArg]. *)
Inductive strArg : Type := Str (s : string) | Strs (l : list string).

Definition stringList (args : list strArg) : list string :=
  foldl (λ x arg, match arg with Strs l => x ++ l | Str s => x ++ [s] end) [] args.

Fixpoint contains (tags : list string) (tag : string) : bool :=
  match tags with
  | [] => false
  | t :: tags' => if decide (t = tag) then true else contains tags' tag
  end.

(** [strings.IndexByte]; [None] is Go's [-1]. *)
Fixpoint IndexByte (s : string) (c : Ascii.ascii) : option nat :=
  match s with
  | EmptyString => None
  | String a s' => if decide (a = c) then Some O else S <$> IndexByte s' c
  end.

(** The file part of [filepath.Split]: what follows the last slash. *)
Fixpoint afterLastSlash (s : string) : string :=
  match s with
  | EmptyString => EmptyString
  | String a s' =>
      match IndexByte s' "/"%char with
      | Some _ => afterLastSlash s'
      | None => if decide (a = "/"%char) then s' else s
      end
  end.

(** Go's [<] on strings is bytewise lexicographic: [String.ltb]. *)

(** [strings.Split] on a one-byte separator. *)
Fixpoint Split (s : string) (sep : Ascii.ascii) : list string :=
  match s with
  | EmptyString => [EmptyString]
  | String a s' =>
      if decide (a = sep) then EmptyString :: Split s' sep
      else match Split s' sep with
           | [] => [String a EmptyString]
           | x :: xs => String a x :: xs
           end
  end.

(** [filepath.Dir]: what precedes the last slash. *)
Definition filepath_Dir (s : string) : string :=
  let n := (String.length s - String.length (afterLastSlash s))%nat in
  match n with
  | O => "."
  | 1%nat => "/"
  | S n' => String.substring 0 n' s
  end.

(** The verb [%-40s]: padded with spaces on the right. *)
Definition padRight (n : nat) (s : string) : string :=
  s +:+ String.concat "" (replicate (n - String.length s)%nat " ").

(** A string slice under the verb [%s]. *)
Definition fmtStrings (l : list string) : string := "[" +:+ String.concat " " l +:+ "]".

Definition newline : string := String (Ascii.ascii_of_N 10) EmptyString.
Definition tab : string := String (Ascii.ascii_of_N 9) EmptyString.

(** The verb [%q] of [fmt]: the string between double quotes, with a
    backslash before a double quote or a backslash of the string.  The
    other escapes of [strconv.Quote], for bytes that are not printable,
    are left out. *)
Definition dquote : Ascii.ascii := Ascii.ascii_of_N 34.
Definition backslash : Ascii.ascii := Ascii.ascii_of_N 92.

Fixpoint escapeQuoted (s : string) : string :=
  match s with
  | EmptyString => EmptyString
  | String c s' =>
      if bool_decide (c = dquote) || bool_decide (c = backslash)
      then String backslash (String c (escapeQuoted s'))
      else String c (escapeQuoted s')
  end.

Definition quoted (s : string) : string :=
  String dquote (escapeQuoted s +:+ String dquote EmptyString).

Definition errnoString (e : errno) : string :=
  match e with
  | EEXIST => "file exists"
  | ENOTEMPTY => "directory not empty"
  | ENOENT => "no such file or directory"
  | EXDEV => "invalid cross-device link"
  | EACCES => "permission denied"
  | EPERM => "operation not permitted"
  | EIO => "input/output error"
  | EISDIR => "is a directory"
  end.

(** ** go/build *)

Module Build.

(** [token.Position]: the file name, and the line and column as
    [String()] prints them. *)
Record Position : Type := mkPosition { Filename : string; LineColumn : string }.

Definition PositionString (pos : Position) : string :=
  if decide (LineColumn pos = "") then Filename pos
  else if decide (Filename pos = "") then LineColumn pos
  else Filename pos +:+ ":" +:+ LineColumn pos.

(** [build.IsLocalImport]. *)
Definition IsLocalImport (path : string) : bool :=
  bool_decide (path = ".") || bool_decide (path = "..")
  || String.prefix "./" path || String.prefix "../" path.

Record Context : Type := mkContext {
  ctxGOOS : string;
  ctxGOARCH : string;
  Compiler : string;
  BuildTags : list string;
  InstallSuffix : string;
}.

(** The fields of [build.Package] that build-cache reads. *)
Record Package : Type := mkPackage {
  Dir : string;
  Name : string;
  ImportComment : string;
  ImportPath : string;
  Root : string;
  BinDir : string;
  Goroot : bool;
  PkgObj : string;
  GoFiles : list string;
  CgoFiles : list string;
  CFiles : list string;
  CXXFiles : list string;
  MFiles : list string;
  HFiles : list string;
  SFiles : list string;
  SwigFiles : list string;
  SwigCXXFiles : list string;
  SysoFiles : list string;
  CgoCFLAGS : list string;
  CgoCPPFLAGS : list string;
  CgoCXXFLAGS : list string;
  CgoLDFLAGS : list string;
  CgoPkgConfig : list string;
  Imports : list string;
  ImportPos : gmap string (list Position);
  TestGoFiles : list string;
  XTestGoFiles : list string;
}.

Definition zeroPackage : Package :=
  mkPackage "" "" "" "" "" "" false "" [] [] [] [] [] [] [] [] [] []
            [] [] [] [] [] [] ∅ [] [].

Definition zeroContext : Context := mkContext "" "" "" [] "".

Definition set_ImportPath (s : string) (bp : Package) : Package :=
  mkPackage (Dir bp) (Name bp) (ImportComment bp) s (Root bp) (BinDir bp)
    (Goroot bp) (PkgObj bp) (GoFiles bp) (CgoFiles bp) (CFiles bp) (CXXFiles bp)
    (MFiles bp) (HFiles bp) (SFiles bp) (SwigFiles bp) (SwigCXXFiles bp)
    (SysoFiles bp) (CgoCFLAGS bp) (CgoCPPFLAGS bp) (CgoCXXFLAGS bp)
    (CgoLDFLAGS bp) (CgoPkgConfig bp) (Imports bp) (ImportPos bp)
    (TestGoFiles bp) (XTestGoFiles bp).

Definition set_BinDir (s : string) (bp : Package) : Package :=
  mkPackage (Dir bp) (Name bp) (ImportComment bp) (ImportPath bp) (Root bp) s
    (Goroot bp) (PkgObj bp) (GoFiles bp) (CgoFiles bp) (CFiles bp) (CXXFiles bp)
    (MFiles bp) (HFiles bp) (SFiles bp) (SwigFiles bp) (SwigCXXFiles bp)
    (SysoFiles bp) (CgoCFLAGS bp) (CgoCPPFLAGS bp) (CgoCXXFLAGS bp)
    (CgoLDFLAGS bp) (CgoPkgConfig bp) (Imports bp) (ImportPos bp)
    (TestGoFiles bp) (XTestGoFiles bp).

End Build.

(** ** The environment of a run *)

(** What a run takes from outside the program: the toolchain, the
    process environment, the build metadata provider ([go/build]), the
    clock, and the other processes that share the file system.
    [others n] is what concurrent processes do to the files just before
    the [n]-th system call of the store operations, [fault n] a failure
    of that call which the model of the files does not explain.
    [Import] is [build.Import]; its error is given as the text that
    [expandScanner] and [Error] make of it, which is all that [load]
    keeps of it. *)
Record Env : Type := mkEnv {
  runtime : Runtime;
  Clean : string → string;
  progName : string;
  getenv : string → string;
  gobin : string;
  cwd : string;
  buildDefault : Build.Context;
  Import : Build.Context → string → string → Build.Package * option string;
  ImportDir : string → Build.Package;
  Rel : string → string → option string;
  now : Z;
  elapsed : string;
  others : nat → FS → FS;
  fault : nat → option errno;
  sameDevice : string → string → bool;
}.

(** [filepath.Join] of a directory and a name: the non-empty elements
    joined by a slash, then cleaned. *)
Definition filepath_Join (E : Env) (dir file : string) : string :=
  if decide (dir = "") then Clean E file
  else if decide (file = "") then Clean E dir
  else Clean E (dir +:+ "/" +:+ file).

(** ** The world of a run and its system calls *)

(** [packageCache] is the heap of packages of the run (the global of
    pkg.go, pointers being its keys); [logged] is what [log] has
    printed; [ticks] counts the system calls of the store operations. *)
Record World (H : Type) : Type := mkWorld {
  packageCache : H;
  files : FS;
  logged : list string;
  ticks : nat;
}.
Arguments mkWorld {H} _ _ _ _.
Arguments packageCache {H} _.
Arguments files {H} _.
Arguments logged {H} _.
Arguments ticks {H} _.

Definition M (H A : Type) : Type := World H → outcome A * World H.

Definition mret {H A} (a : A) : M H A := λ w, (Done a, w).

Definition mbind {H A B} (m : M H A) (k : A → M H B) : M H B :=
  λ w, match m w with
       | (Done a, w') => k a w'
       | (Fatal msg, w') => (Fatal msg, w')
       | (Exit c, w') => (Exit c, w')
       | (Panic, w') => (Panic, w')
       | (OutOfFuel, w') => (OutOfFuel, w')
       end.

Notation "x <~ m ;;; k" := (mbind m (λ x, k))
  (at level 20, m at level 100, k at level 200, right associativity, only parsing).
Notation "' pat <~ m ;;; k" := (mbind m (λ x, match x with pat => k end))
  (at level 20, pat pattern, m at level 100, k at level 200,
   right associativity, only parsing).

Definition log_Printf {H} (line : string) : M H unit :=
  λ w, (Done (), mkWorld (packageCache w) (files w) (logged w ++ [line]) (ticks w)).

(** [log.Fatal]: print, then exit with status 1. *)
Definition log_Fatal {H A} (line : string) : M H A :=
  λ w, (Fatal line, mkWorld (packageCache w) (files w) (logged w ++ [line]) (ticks w)).

Definition os_Exit {H A} (code : Z) : M H A := λ w, (Exit code, w).

(** Run a heap computation on the package cache. *)
Definition onCache {H A} (c : H → outcome (A * H)) : M H A :=
  λ w, match c (packageCache w) with
       | Done (a, hp) => (Done a, mkWorld hp (files w) (logged w) (ticks w))
       | Fatal msg => (Fatal msg, mkWorld (packageCache w) (files w) (logged w ++ [msg]) (ticks w))
       | Exit c => (Exit c, w)
       | Panic => (Panic, w)
       | OutOfFuel => (OutOfFuel, w)
       end.

Fixpoint forEach {H A} (l : list A) (body : A → M H unit) : M H unit :=
  match l with
  | [] => mret ()
  | a :: l' => u <~ body a ;;; forEach l' body
  end.

Section Sys.

Context (E : Env) {H : Type}.

(** One system call: the other processes run, the call fails with
    the injected fault if there is one, and otherwise acts on the files. *)
Definition syscall {A} (op : FS → (errno + A) * FS) : M H (errno + A) :=
  λ w,
    let fs := others E (ticks w) (files w) in
    let '(r, fs) :=
      match fault E (ticks w) with
      | Some e => (inl e, fs)
      | None => op fs
      end in
    (Done r, mkWorld (packageCache w) fs (logged w) (S (ticks w))).

Definition os_Stat (path : string) : M H (errno + File) :=
  syscall (λ fs, (match fs !! path with Some f => inr f | None => inl ENOENT end, fs)).

(** A hard link: the new name gets the file.  The two names do not
    share later changes in the model. *)
Definition os_Link (src dst : string) : M H (errno + unit) :=
  syscall (λ fs,
    match fs !! src, fs !! dst with
    | None, _ => (inl ENOENT, fs)
    | Some _, Some _ => (inl EEXIST, fs)
    | Some f, None =>
        if IsDir f then (inl EPERM, fs)
        else if sameDevice E src dst then (inr (), <[dst := f]> fs)
        else (inl EXDEV, fs)
    end).

(** [os.Open]: the handle is the file as it is when opened. *)
Definition os_Open (path : string) : M H (errno + File) :=
  syscall (λ fs, (match fs !! path with Some f => inr f | None => inl ENOENT end, fs)).

(** [os.Create]: an empty file of mode 0666, truncating an old one. *)
Definition os_Create (path : string) : M H (errno + unit) :=
  syscall (λ fs,
    match fs !! path with
    | Some f =>
        if IsDir f then (inl EISDIR, fs)
        else (inr (), <[path := mkFile "" (perm f) (now E) false]> fs)
    | None => (inr (), <[path := mkFile "" 438 (now E) false]> fs)
    end).

Definition file_Chmod (path : string) (mode : Z) : M H (errno + unit) :=
  syscall (λ fs,
    (inr (), alter (λ f, mkFile (data f) mode (modTime f) (IsDir f)) path fs)).

(** [io.Copy(dstFile, srcFile)]. *)
Definition io_Copy (dst : string) (srcFile : File) : M H (errno + unit) :=
  syscall (λ fs,
    if IsDir srcFile then (inl EISDIR, fs)
    else (inr (), alter (λ f, mkFile (data srcFile) (perm f) (modTime f) (IsDir f)) dst fs)).

Definition os_Remove (path : string) : M H (errno + unit) :=
  syscall (λ fs,
    match fs !! path with
    | Some _ => (inr (), delete path fs)
    | None => (inl ENOENT, fs)
    end).

Definition os_Mkdir (path : string) (mode : Z) : M H (errno + unit) :=
  syscall (λ fs,
    match fs !! path with
    | Some _ => (inl EEXIST, fs)
    | None => (inr (), <[path := mkFile "" mode (now E) true]> fs)
    end).

Definition os_MkdirAll (path : string) (mode : Z) : M H (errno + unit) :=
  syscall (λ fs,
    match fs !! path with
    | Some f => if IsDir f then (inr (), fs) else (inl EEXIST, fs)
    | None => (inr (), <[path := mkFile "" mode (now E) true]> fs)
    end).

(** [os.RemoveAll]: the path and everything below it; a missing path
    is no error. *)
Definition os_RemoveAll (path : string) : M H (errno + unit) :=
  syscall (λ fs,
    (inr (), filter (λ kv, kv.1 ≠ path ∧ String.prefix (path +:+ "/") kv.1 = false) fs)).

Definition os_Chtimes (path : string) (t : Z) : M H (errno + unit) :=
  syscall (λ fs,
    match fs !! path with
    | Some f => (inr (), <[path := mkFile (data f) (perm f) t (IsDir f)]> fs)
    | None => (inl ENOENT, fs)
    end).

(** [exists]: false only when [os.Stat] fails with a not-exist error. *)
Definition exists_ (path : string) : M H bool :=
  r <~ os_Stat path ;;;
  mret (match r with inl e => negb (IsNotExist e) | inr _ => true end).

(** [cacheDir]. *)
Definition cacheDir : string :=
  let d := getenv E "CACHE" in
  if decide (d = "") then getenv E "HOME" +:+ "/buildcache" else d.

End Sys.

(** ** pkg.go and the second revision of main.go *)

Module Pkg.

(** [PackageError]. *)
Record PackageError : Type := mkPackageError {
  ImportStack : list string;
  Pos : string;
  Err : string;
  isImportCycle : bool;
  hard : bool;
}.

(** [Package].  [Package_] is the embedded [*build.Package]; [imports]
    is [None] for the nil slice, which [reusePackage] tests; pointers
    to packages are heap keys. *)
Record Package : Type := mkPackage {
  Package_ : Build.Package;
  buildContext : Build.Context;
  baseImportPath : string;
  Target : string;
  Standard : bool;
  Stale : bool;
  Incomplete : bool;
  Error : option PackageError;
  imports : option (list string);
  deps : list string;
  local : bool;
  fingerprint : option string;
  race : bool;
}.

Abbreviation heap := (gmap string Package).

Definition zeroPackage : Package :=
  mkPackage Build.zeroPackage Build.zeroContext "" "" false false false None None []
            false None false.

Definition set_Package_ (x : Build.Package) (p : Package) : Package :=
  mkPackage x (buildContext p) (baseImportPath p) (Target p) (Standard p) (Stale p)
    (Incomplete p) (Error p) (imports p) (deps p) (local p) (fingerprint p) (race p).

Definition set_buildContext (x : Build.Context) (p : Package) : Package :=
  mkPackage (Package_ p) x (baseImportPath p) (Target p) (Standard p) (Stale p)
    (Incomplete p) (Error p) (imports p) (deps p) (local p) (fingerprint p) (race p).

Definition set_baseImportPath (x : string) (p : Package) : Package :=
  mkPackage (Package_ p) (buildContext p) x (Target p) (Standard p) (Stale p) (Incomplete
    p) (Error p) (imports p) (deps p) (local p) (fingerprint p) (race p).

Definition set_Target (x : string) (p : Package) : Package :=
  mkPackage (Package_ p) (buildContext p) (baseImportPath p) x (Standard p) (Stale p)
    (Incomplete p) (Error p) (imports p) (deps p) (local p) (fingerprint p) (race p).

Definition set_Standard (x : bool) (p : Package) : Package :=
  mkPackage (Package_ p) (buildContext p) (baseImportPath p) (Target p) x (Stale p)
    (Incomplete p) (Error p) (imports p) (deps p) (local p) (fingerprint p) (race p).

Definition set_Stale (x : bool) (p : Package) : Package :=
  mkPackage (Package_ p) (buildContext p) (baseImportPath p) (Target p) (Standard p) x
    (Incomplete p) (Error p) (imports p) (deps p) (local p) (fingerprint p) (race p).

Definition set_Incomplete (x : bool) (p : Package) : Package :=
  mkPackage (Package_ p) (buildContext p) (baseImportPath p) (Target p) (Standard p)
    (Stale p) x (Error p) (imports p) (deps p) (local p) (fingerprint p) (race p).

Definition set_Error (x : option PackageError) (p : Package) : Package :=
  mkPackage (Package_ p) (buildContext p) (baseImportPath p) (Target p) (Standard p)
    (Stale p) (Incomplete p) x (imports p) (deps p) (local p) (fingerprint p) (race p).

Definition set_imports (x : option (list string)) (p : Package) : Package :=
  mkPackage (Package_ p) (buildContext p) (baseImportPath p) (Target p) (Standard p)
    (Stale p) (Incomplete p) (Error p) x (deps p) (local p) (fingerprint p) (race p).

Definition set_deps (x : list string) (p : Package) : Package :=
  mkPackage (Package_ p) (buildContext p) (baseImportPath p) (Target p) (Standard p)
    (Stale p) (Incomplete p) (Error p) (imports p) x (local p) (fingerprint p) (race p).

Definition set_local (x : bool) (p : Package) : Package :=
  mkPackage (Package_ p) (buildContext p) (baseImportPath p) (Target p) (Standard p)
    (Stale p) (Incomplete p) (Error p) (imports p) (deps p) x (fingerprint p) (race p).

Definition set_fingerprint (x : option string) (p : Package) : Package :=
  mkPackage (Package_ p) (buildContext p) (baseImportPath p) (Target p) (Standard p)
    (Stale p) (Incomplete p) (Error p) (imports p) (deps p) (local p) x (race p).

Definition set_race (x : bool) (p : Package) : Package :=
  mkPackage (Package_ p) (buildContext p) (baseImportPath p) (Target p) (Standard p)
    (Stale p) (Incomplete p) (Error p) (imports p) (deps p) (local p) (fingerprint p) x.


Definition ImportPath (p : Package) : string := Build.ImportPath (Package_ p).
Definition Dir (p : Package) : string := Build.Dir (Package_ p).
Definition Root (p : Package) : string := Build.Root (Package_ p).

(** [usesSwig], [usesCgo]. *)
Definition usesSwig (p : Package) : bool :=
  bool_decide (Build.SwigFiles (Package_ p) ≠ [])
  || bool_decide (Build.SwigCXXFiles (Package_ p) ≠ []).

Definition usesCgo (p : Package) : bool :=
  bool_decide (Build.CgoFiles (Package_ p) ≠ []).

Section Fingerprint.

Context (E : Env) (fs : FS).

(** The loop over [files] of [Fingerprint]: the name, then the
    content.  [os.Open] fails on a missing file, and reading a
    directory fails in [io.Copy]; [log.Fatal] prints the error.  Every
    file of the map can be opened: a permission that is denied is not
    in this model of the files. *)
Fixpoint hashFiles (dir : string) (files : list string) (h : string) : outcome string :=
  match files with
  | [] => Done h
  | file :: files' =>
      let h := hashWrite h file in
      match fs !! filepath_Join E dir file with
      | None => Fatal ("open " +:+ filepath_Join E dir file
                       +:+ ": no such file or directory")
      | Some f =>
          if IsDir f then Fatal ("read " +:+ filepath_Join E dir file
                                 +:+ ": is a directory")
          else hashFiles dir files' (hashWrite h (data f))
      end
  end.

Definition fingerprintFlags (p : Package) : list string :=
  let bp := Package_ p in
  stringList [Str (Version (runtime E)); Str (GOOS (runtime E));
              Str (GOARCH (runtime E)); Str (ImportPath p);
              Strs (Build.CgoCFLAGS bp); Strs (Build.CgoCPPFLAGS bp);
              Strs (Build.CgoCXXFLAGS bp); Strs (Build.CgoLDFLAGS bp);
              Strs (Build.CgoPkgConfig bp)].

Definition fingerprintFiles (p : Package) : list string :=
  let bp := Package_ p in
  stringList [Strs (Build.GoFiles bp); Strs (Build.CgoFiles bp); Strs (Build.CFiles bp);
              Strs (Build.CXXFiles bp); Strs (Build.MFiles bp); Strs (Build.HFiles bp);
              Strs (Build.SFiles bp); Strs (Build.SwigFiles bp);
              Strs (Build.SwigCXXFiles bp); Strs (Build.SysoFiles bp)].

(** The loop over [p.deps] of [Fingerprint], [rec] being the
    recursive call [dep.Fingerprint()].  The result is [inl fp] for
    the early return and [inr h], the hash state, after the last
    dependency. *)
Fixpoint fingerprintDeps (rec : string → heap → outcome (string * heap))
    (prace : bool) (ds : list string) (h : string) (hp : heap)
    : outcome ((string + string) * heap) :=
  match ds with
  | [] => Done (inr h, hp)
  | dep :: ds' =>
      match hp !! dep with
      | None => Panic
      | Some d =>
          if negb prace && Standard d then fingerprintDeps rec prace ds' h hp
          else
            '(fp, hp') ← rec dep hp ;;;
            if decide (fp = "") then Done (inl fp, hp')
            else fingerprintDeps rec prace ds' (hashWrite h fp) hp'
      end
  end.

(** The method [Fingerprint] of [Package]. *)
Fixpoint Fingerprint (fuel : nat) (p : string) (hp : heap) : outcome (string * heap) :=
  match fuel with
  | O => OutOfFuel
  | S fuel' =>
      match hp !! p with
      | None => Panic
      | Some pk =>
          match fingerprint pk with
          | Some fp => Done (fp, hp)
          | None =>
              '(r, hp') ← fingerprintDeps (Fingerprint fuel') (race pk) (deps pk) "" hp ;;;
              match r with
              | inl fp => Done (fp, alter (set_fingerprint (Some fp)) p hp')
              | inr h =>
                  let h := foldl hashWrite h (fingerprintFlags pk) in
                  h ← hashFiles (Dir pk) (fingerprintFiles pk) h ;;;
                  let s := hashSumHex h in
                  Done (s, alter (set_fingerprint (Some s)) p hp')
              end
          end
      end
  end.

End Fingerprint.

(** *** The import stack *)

Definition push (stk : list string) (p : string) : list string := stk ++ [p].

Fixpoint firstDifferenceLess (s t : list string) : bool :=
  match s, t with
  | a :: s', b :: t' => if decide (a = b) then firstDifferenceLess s' t' else String.ltb a b
  | _, _ => false
  end.

(** [shorterThan]: shorter, or of the same length and smaller at the
    first component that differs. *)
Definition shorterThan (s t : list string) : bool :=
  if decide (length s = length t) then firstDifferenceLess s t
  else bool_decide (length s < length t)%nat.

(** [makeImportValid] on a byte of an ASCII path: the characters that
    are not graphic, the spaces and the listed ones become an
    underscore.  A byte above 127 is kept, as the code keeps the bytes
    of a graphic rune; the runes that are not graphic, U+FFFD and the
    bytes that are no UTF-8, which the code replaces, are not told
    apart. *)
Definition illegalChars : string :=
  "!" +:+ String (Ascii.ascii_of_N 34) "#$%&'()*,:;<=>?[\]^{|}`".

Definition makeImportValid (r : Ascii.ascii) : Ascii.ascii :=
  let n := Ascii.N_of_ascii r in
  if (n <? 33)%N || (n =? 127)%N || bool_decide (is_Some (IndexByte illegalChars r))
  then "_"%char else r.

Fixpoint strings_Map (f : Ascii.ascii → Ascii.ascii) (s : string) : string :=
  match s with
  | EmptyString => EmptyString
  | String a s' => String (f a) (strings_Map f s')
  end.

Section Load.

Context (E : Env).

(** [dirToImportPath]; the directory is slash separated. *)
Definition dirToImportPath (dir : string) : string :=
  filepath_Join E "_" (strings_Map makeImportValid dir).

(** [shortPath]. *)
Definition shortPath (path : string) : string :=
  match Rel E (cwd E) path with
  | Some rel => if bool_decide (String.length rel < String.length path)%nat then rel else path
  | None => path
  end.

(** [reusePackage]. *)
Definition reusePackage (p : string) (stk : list string) (hp : heap) : heap :=
  match hp !! p with
  | None => hp
  | Some pk =>
      let pk :=
        match imports pk with
        | None =>
            let pk :=
              match Error pk with
              | None =>
                  set_Error (Some (mkPackageError stk "" "import cycle not allowed"
                                                  true false)) pk
              | Some _ => pk
              end in
            set_Incomplete true pk
        | Some _ => pk
        end in
      let pk :=
        match Error pk with
        | Some e =>
            if negb (isImportCycle e) && shorterThan stk (ImportStack e)
            then set_Error (Some (mkPackageError stk (Pos e) (Err e)
                                                 (isImportCycle e) (hard e))) pk
            else pk
        | None => pk
        end in
      <[p := pk]> hp
  end.

Definition raceExclude (s : string) : bool :=
  bool_decide (s ∈ ["runtime/race"; "runtime/cgo"; "cmd/cgo"; "syscall"; "errors"]).
Definition cgoExclude (s : string) : bool := bool_decide (s ∈ ["runtime/cgo"]).
Definition cgoSyscallExclude (s : string) : bool :=
  bool_decide (s ∈ ["runtime/cgo"; "runtime/race"]).

Definition ImportPathOf (hp : heap) (k : string) : string :=
  from_option ImportPath "" (hp !! k).

(** [packageList.Less]. *)
Definition Less (hp : heap) (a b : string) : bool :=
  String.ltb (ImportPathOf hp a) (ImportPathOf hp b).

Fixpoint insertSorted (hp : heap) (x : string) (l : list string) : list string :=
  match l with
  | [] => [x]
  | y :: l' => if Less hp y x then y :: insertSorted hp x l' else x :: l
  end.

(** [sort.Sort(packageList(l))], as one sort that meets its contract. *)
Definition sortPackageList (hp : heap) (l : list string) : list string :=
  foldr (insertSorted hp) [] l.

(** The implicit imports that [load] appends to [p.Imports]. *)
Definition importPathsOf (pk : Package) : list string :=
  let bp := Package_ pk in
  let l := Build.Imports bp in
  let l := if usesCgo pk && (negb (Standard pk) || negb (cgoExclude (baseImportPath pk)))
           then l ++ ["runtime/cgo"] else l in
  let l := if usesCgo pk
              && (negb (Standard pk) || negb (cgoSyscallExclude (baseImportPath pk)))
           then l ++ ["syscall"] else l in
  if negb (Standard pk)
     || (bool_decide (baseImportPath pk ≠ "runtime")
         && bool_decide (baseImportPath pk ≠ "unsafe"))
  then
    let l := l ++ ["runtime"] in
    if race pk && (negb (Standard pk) || negb (raceExclude (baseImportPath pk)))
    then l ++ ["runtime/race"] else l
  else l.

(** The type of [loadImport], for the recursive call of [load]. *)
Definition loader : Type :=
  Build.Context → string → string → list string → list Build.Position → heap →
  outcome (string * heap).

(** The loop of [load] over [importPaths]: [imports] and the map
    [deps] are its local variables; [p] is read and written in the
    heap, since the recursive call can reach it again. *)
Fixpoint loadImports (rec : loader) (ctx : Build.Context) (stk : list string)
    (p : string) (paths : list string) (imps : list string) (dmap : gmap string string)
    (hp : heap) : outcome (list string * gmap string string * heap) :=
  match paths with
  | [] => Done (imps, dmap, hp)
  | path :: paths' =>
      if decide (path = "C") then loadImports rec ctx stk p paths' imps dmap hp
      else
        match hp !! p with
        | None => Panic
        | Some pk =>
            let pos := default [] (Build.ImportPos (Package_ pk) !! path) in
            '(p1, hp) ← rec ctx path (Dir pk) stk pos hp ;;;
            match hp !! p1, hp !! p with
            | Some pk1, Some pk =>
                let '(path, hp) :=
                  if local pk1 then
                    (ImportPath pk1,
                     if negb (local pk) && bool_decide (Error pk = None) then
                       let e := mkPackageError stk
                                  (match pos with
                                   | q :: _ => Build.PositionString q
                                   | [] => ""
                                   end)
                                  ("local import " +:+ quoted path +:+ " in non-local package")
                                  false false in
                       alter (set_Error (Some e)) p hp
                     else hp)
                  else (path, hp) in
                let dmap := <[path := p1]> dmap in
                let imps := imps ++ [p1] in
                let dmap := foldl (λ m dep, <[ImportPathOf hp dep := dep]> m) dmap
                                  (deps pk1) in
                let hp :=
                  if from_option Incomplete false (hp !! p1)
                  then alter (set_Incomplete true) p hp else hp in
                loadImports rec ctx stk p paths' imps dmap hp
            | _, _ => Panic
            end
        end
  end.

(** The method [load] of [Package]; [p] is already in the heap. *)
Definition load (rec : loader) (ctx : Build.Context) (stk : list string) (p : string)
    (bp : Build.Package) (err : option string) (hp : heap) : outcome heap :=
  let std := Build.Goroot bp && bool_decide (Build.ImportPath bp ≠ "")
             && negb (bool_decide (is_Some (IndexByte (Build.ImportPath bp) "."%char))) in
  let hp := alter (λ pk, set_race (contains (Build.BuildTags ctx) "race")
                           (set_Standard std (set_buildContext ctx (set_Package_ bp pk))))
                  p hp in
  match err with
  | Some msg =>
      Done (alter (λ pk, set_Error (Some (mkPackageError stk "" msg false false))
                           (set_Incomplete true pk)) p hp)
  | None =>
      match hp !! p with
      | None => Panic
      | Some pk =>
          let target :=
            if decide (Build.Name bp = "main") then
              let elem := afterLastSlash (Build.Dir bp) in
              let full := Build.ctxGOOS ctx +:+ "_" +:+ Build.ctxGOARCH ctx +:+ "/" +:+ elem in
              let elem :=
                if bool_decide (Build.ctxGOOS ctx ≠ GOOS (runtime E))
                   || bool_decide (Build.ctxGOARCH ctx ≠ GOARCH (runtime E))
                then full else elem in
              let t := if decide (Build.BinDir bp = "") then Target pk
                       else filepath_Join E (Build.BinDir bp) elem in
              if bool_decide (t ≠ "") && bool_decide (Build.ctxGOOS ctx = "windows")
              then t +:+ ".exe" else t
            else if local pk then "" else Build.PkgObj bp in
          let hp := alter (set_Target target) p hp in
          '(imps, dmap, hp) ←
            loadImports rec ctx stk p (importPathsOf pk) [] ∅ hp ;;;
          let hp := alter (set_imports (Some imps)) p hp in
          let hp := alter (set_deps (sortPackageList hp (map_to_list dmap).*2)) p hp in
          let hp :=
            if Standard pk && (bool_decide (baseImportPath pk = "unsafe")
                               || bool_decide (Build.Compiler ctx = "gccgo"))
            then alter (set_Target "") p hp else hp in
          if bool_decide (Build.CFiles bp ≠ []) && negb (usesCgo pk)
             && (negb (Standard pk) || bool_decide (baseImportPath pk ≠ "runtime"))
          then
            Done (alter (set_Error (Some (mkPackageError stk ""
                     ("C source files not allowed when not using cgo: "
                      +:+ String.concat " " (Build.CFiles bp)) false false))) p hp)
          else Done hp
      end
  end.

(** [loadImport].  The stack is passed by value: the deferred [pop]
    undoes the [push] when the call returns. *)
Fixpoint loadImport (fuel : nat) (ctx : Build.Context) (path srcDir : string)
    (stk : list string) (importPos : list Build.Position) (hp : heap)
    : outcome (string * heap) :=
  match fuel with
  | O => OutOfFuel
  | S fuel' =>
      let stk := push stk path in
      let isLocal := Build.IsLocalImport path in
      let importPath :=
        if isLocal then dirToImportPath (filepath_Join E srcDir path) else path in
      let fullImportPath :=
        if contains (Build.BuildTags ctx) "race" then importPath +:+ ":race"
        else importPath in
      match hp !! fullImportPath with
      | Some _ => Done (fullImportPath, reusePackage fullImportPath stk hp)
      | None =>
          let hp := <[fullImportPath := set_local isLocal zeroPackage]> hp in
          let '(bp, err) := Import E ctx path srcDir in
          let bp := Build.set_ImportPath fullImportPath bp in
          let bp := if decide (gobin E = "") then bp else Build.set_BinDir (gobin E) bp in
          let err :=
            match err with
            | None =>
                if negb isLocal && bool_decide (Build.ImportComment bp ≠ "")
                   && bool_decide (Build.ImportComment bp ≠ path)
                then Some ("code in directory " +:+ Build.Dir bp +:+ " expects import "
                           +:+ quoted (Build.ImportComment bp))
                else None
            | Some e => Some e
            end in
          let hp := alter (set_baseImportPath importPath) fullImportPath hp in
          hp ← load (loadImport fuel') ctx stk fullImportPath bp err hp ;;;
          let hp :=
            match importPos with
            | pos :: _ =>
                alter (λ pk,
                  match Error pk with
                  | Some e =>
                      let pos := Build.mkPosition (shortPath (Build.Filename pos))
                                                  (Build.LineColumn pos) in
                      set_Error (Some (mkPackageError (ImportStack e)
                                         (Build.PositionString pos) (Err e)
                                         (isImportCycle e) (hard e))) pk
                  | None => pk
                  end) fullImportPath hp
            | [] => hp
            end in
          Done (fullImportPath, hp)
      end
  end.

End Load.

(** *** Staleness *)

Section Stale.

Context (E : Env) (fs : FS).

(** [olderThan] of [isStale]: the file is missing or newer than [built]. *)
Definition olderThan (built : Z) (file : string) : bool :=
  match fs !! file with
  | None => true
  | Some f => built <? modTime f
  end.

(** The loop of [isStale] over [p.deps]. *)
Fixpoint staleDeps (hp : heap) (built : Z) (ds : list string) : outcome bool :=
  match ds with
  | [] => Done false
  | d :: ds' =>
      match hp !! d with
      | None => Panic
      | Some p1 =>
          if Stale p1 || (bool_decide (Target p1 ≠ "") && olderThan built (Target p1))
          then Done true
          else staleDeps hp built ds'
      end
  end.

Definition staleSrcs (pk : Package) : list string :=
  let bp := Package_ pk in
  stringList [Strs (Build.GoFiles bp); Strs (Build.CFiles bp); Strs (Build.CXXFiles bp);
              Strs (Build.MFiles bp); Strs (Build.HFiles bp); Strs (Build.SFiles bp);
              Strs (Build.CgoFiles bp); Strs (Build.SysoFiles bp);
              Strs (Build.SwigFiles bp); Strs (Build.SwigCXXFiles bp)].

(** [isStale]: the verdict and the lines it logs. *)
Definition isStale (hp : heap) (pk : Package) (topRoot : gset string)
    : outcome (bool * list string) :=
  let bp := Package_ pk in
  if Standard pk && (bool_decide (baseImportPath pk = "unsafe")
                     || bool_decide (Build.Compiler (buildContext pk) = "gccgo"))
  then Done (false, [])
  else if bool_decide (Error pk ≠ None) then Done (true, [])
  else if bool_decide (Build.GoFiles bp = []) && bool_decide (Build.CgoFiles bp = [])
          && bool_decide (Build.TestGoFiles bp = [])
          && bool_decide (Build.XTestGoFiles bp = []) && negb (usesSwig pk)
  then Done (false, [])
  else if bool_decide (Target pk = "") || Stale pk
  then Done (true, ["isStale 1: " +:+ ImportPath pk])
  else
    let built := match fs !! Target pk with Some fi => modTime fi | None => 0 end in
    if bool_decide (built = 0) then Done (true, ["isStale 2: " +:+ ImportPath pk])
    else
      depStale ← staleDeps hp built (deps pk) ;;;
      if depStale : bool then Done (true, ["isStale 3: " +:+ ImportPath pk])
      else if bool_decide (Root pk ≠ "") && negb (bool_decide (Root pk ∈ topRoot))
      then Done (false, [])
      else if existsb (λ src, olderThan built (filepath_Join E (Dir pk) src)) (staleSrcs pk)
      then Done (true, ["isStale 4: " +:+ ImportPath pk])
      else Done (false, []).

(** [walk] of [computeStale]: depth first, post-order, each package once. *)
Fixpoint walk (fuel : nat) (hp : heap) (p : string) (st : gset string * list string)
    : outcome (gset string * list string) :=
  match fuel with
  | O => OutOfFuel
  | S fuel' =>
      let '(seen, all) := st in
      if bool_decide (p ∈ seen) then Done st
      else
        match hp !! p with
        | None => Panic
        | Some pk =>
            '(seen, all) ←
              foldl (λ acc p1, st ← acc ;;; walk fuel' hp p1 st)
                    (Done ({[p]} ∪ seen, all)) (default [] (imports pk)) ;;;
            Done (seen, all ++ [p])
        end
  end.

(** [packageList] of [computeStale]. *)
Definition packageList (fuel : nat) (hp : heap) (roots : list string) : outcome (list string) :=
  '(seen, all) ← foldl (λ acc root, st ← acc ;;; walk fuel hp root st) (Done (∅, [])) roots ;;;
  Done all.

(** The last loop of [computeStale]: [p.Stale = isStale(p, topRoot)]. *)
Fixpoint markStale (topRoot : gset string) (ps : list string) (hp : heap)
    (logs : list string) : outcome (heap * list string) :=
  match ps with
  | [] => Done (hp, logs)
  | p :: ps' =>
      match hp !! p with
      | None => Panic
      | Some pk =>
          '(b, l) ← isStale hp pk topRoot ;;;
          markStale topRoot ps' (alter (set_Stale b) p hp) (logs ++ l)
      end
  end.

Definition topRootOf (hp : heap) (pkgs : list string) : gset string :=
  list_to_set (omap (λ p, Root <$> hp !! p) pkgs).

(** [computeStale]. *)
Definition computeStale (fuel : nat) (pkgs : list string) (hp : heap)
    : outcome (heap * list string) :=
  all ← packageList fuel hp pkgs ;;;
  markStale (topRootOf hp pkgs) all hp [].

End Stale.


(** *** Loading the packages of the command line *)

Definition packageBaseImportPath (s : string) : string :=
  match IndexByte s ":"%char with
  | None => s
  | Some i => String.substring 0 i s
  end.

Definition packageOptions (s : string) : list string :=
  match IndexByte s ":"%char with
  | None => []
  | Some i => Split (String.substring (S i) (String.length s - S i)%nat s) ","%char
  end.

(** The method [Error] of [PackageError]. *)
Definition PackageError_Error (e : PackageError) : string :=
  let stack := String.concat (newline +:+ tab +:+ "imports ") (ImportStack e) in
  if isImportCycle e then Err e +:+ newline +:+ "package " +:+ stack +:+ newline
  else if bool_decide (Pos e ≠ "") then Pos e +:+ ": " +:+ Err e
  else if bool_decide (ImportStack e = []) then Err e
  else "package " +:+ stack +:+ ": " +:+ Err e.

Section Main.

Context (E : Env).

(** [loadPackage]; the stack of [packagesForBuild] is empty between
    two arguments. *)
Definition loadPackage (fuel : nat) (arg : string) (stk : list string) (hp : heap)
    : outcome (string * heap) :=
  let base := packageBaseImportPath arg in
  let options := packageOptions arg in
  let base :=
    if Build.IsLocalImport base then
      let bp := ImportDir E (filepath_Join E (cwd E) base) in
      if bool_decide (Build.ImportPath bp ≠ "") && bool_decide (Build.ImportPath bp ≠ ".")
      then Build.ImportPath bp else base
    else base in
  let def := buildDefault E in
  let ctx :=
    if contains options "race" then
      Build.mkContext (Build.ctxGOOS def) (Build.ctxGOARCH def) (Build.Compiler def)
        (Build.BuildTags def ++ ["race"])
        ((if decide (Build.InstallSuffix def = "") then ""
          else Build.InstallSuffix def +:+ "_") +:+ "race")
    else def in
  loadImport E fuel ctx base (cwd E) stk [] hp.

(** The first loop of [packagesForBuild]. *)
Fixpoint loadArgs (fuel : nat) (args : list string) (set : gset string)
    (pkgs : list string) (hp : heap) : outcome (list string * heap) :=
  match args with
  | [] => Done (pkgs, hp)
  | arg :: args' =>
      if bool_decide (arg ∈ set) then loadArgs fuel args' set pkgs hp
      else
        '(p, hp) ← loadPackage fuel arg [] hp ;;;
        loadArgs fuel args' ({[arg]} ∪ set) (pkgs ++ [p]) hp
  end.

(** The inner loop of the error report: the errors of [pkg.deps],
    each printed once.  An error is identified with the package
    that holds it. *)
Fixpoint depErrors (hp : heap) (ds : list string) (printed : gset string)
    (lines : list string) : gset string * list string :=
  match ds with
  | [] => (printed, lines)
  | d :: ds' =>
      match hp !! d ≫= Error with
      | Some err =>
          if bool_decide (d ∈ printed) then depErrors hp ds' printed lines
          else depErrors hp ds' ({[d]} ∪ printed) (lines ++ [PackageError_Error err])
      | None => depErrors hp ds' printed lines
      end
  end.

Fixpoint reportErrors (hp : heap) (pkgs : list string) (printed : gset string)
    (lines : list string) : list string :=
  match pkgs with
  | [] => lines
  | p :: pkgs' =>
      match hp !! p with
      | None => lines
      | Some pk =>
          let lines :=
            match Error pk with
            | Some err => lines ++ ["can't load package: " +:+ PackageError_Error err]
            | None => lines
            end in
          let '(printed, lines) := depErrors hp (deps pk) printed lines in
          reportErrors hp pkgs' printed lines
      end
  end.

(** [packagesForBuild]: every line of the report counts one error. *)
Definition packagesForBuild (fuel : nat) (args : list string) : M heap (list string) :=
  let args := match args with [] => ["."] | _ => args end in
  pkgs <~ onCache (loadArgs fuel args ∅ []) ;;;
  λ w,
    match computeStale E (files w) fuel pkgs (packageCache w) with
    | Done (hp, lines) =>
        let report := reportErrors hp pkgs ∅ [] in
        let w := mkWorld hp (files w) (logged w ++ lines ++ report) (ticks w) in
        if bool_decide (report ≠ []) then (Exit 1, w) else (Done pkgs, w)
    | Fatal msg => (Fatal msg, w)
    | Exit c => (Exit c, w)
    | Panic => (Panic, w)
    | OutOfFuel => (OutOfFuel, w)
    end.

(** The loop of [loadAll]: the roots and their [deps], each once. *)
Fixpoint collectAll (hp : heap) (roots : list string) (seen : gset string)
    (all : list string) : list string :=
  match roots with
  | [] => all
  | root :: roots' =>
      if bool_decide (root ∈ seen) then collectAll hp roots' seen all
      else
        let '(seen, all) :=
          foldl (λ '(seen, all) dep,
                   if bool_decide (dep ∈ seen) then (seen, all)
                   else ({[dep]} ∪ seen, all ++ [dep]))
                ({[root]} ∪ seen, all ++ [root])
                (from_option deps [] (hp !! root)) in
        collectAll hp roots' seen all
  end.

(** [loadAll]. *)
Definition loadAll (fuel : nat) (args : list string) : M heap (list string) :=
  roots <~ packagesForBuild fuel args ;;;
  λ w, (Done (sortPackageList (packageCache w)
                (collectAll (packageCache w) roots ∅ [])), w).

(** [linkOrCopy]; [None] is the nil error. *)
Definition linkOrCopy (src dst : string) : M heap (option errno) :=
  there <~ exists_ E dst ;;;
  if there : bool then mret None
  else
    r <~ os_Link E src dst ;;;
    match r with
    | inr _ => mret None
    | inl e =>
        if IsExist e then mret None
        else
          r <~ os_Open E src ;;;
          match r with
          | inl err => mret (Some err)
          | inr srcFile =>
              r <~ os_Stat E src ;;;
              match r with
              | inl err => mret (Some err)
              | inr srcInfo =>
                  r <~ os_Create E dst ;;;
                  match r with
                  | inl err => mret (Some err)
                  | inr _ =>
                      r <~ file_Chmod E dst (Z.land (perm srcInfo) 511) ;;;
                      match r with
                      | inl err => u <~ os_Remove E dst ;;; mret (Some err)
                      | inr _ =>
                          r <~ io_Copy E dst srcFile ;;;
                          mret (match r with inl err => Some err | inr _ => None end)
                      end
                  end
              end
          end
    end.

(** [pkg.Fingerprint()] in the world: the files are read as they are. *)
Definition fingerprintOf (fuel : nat) (p : string) : M heap string :=
  λ w, onCache (Fingerprint E (files w) fuel p) w.

Definition getPackage (p : string) : M heap Package :=
  λ w, match packageCache w !! p with
       | Some pk => (Done pk, w)
       | None => (Panic, w)
       end.

(** [save] of the second revision of main.go. *)
Definition save (fuel : nat) (args : list string) : M heap unit :=
  let args := match args with [] => ["."] | _ => args end in
  let dir := cacheDir E in
  u <~ log_Printf ("saving " +:+ fmtStrings args +:+ " to " +:+ dir) ;;;
  r <~ os_Mkdir E dir 493 ;;;
  u <~ match r with
       | inl err => if IsExist err then mret () else log_Fatal (errnoString err)
       | inr _ => mret ()
       end ;;;
  pkgs <~ loadAll fuel args ;;;
  u <~ log_Printf ("finished loading: " +:+ elapsed E) ;;;
  forEach pkgs (λ p,
    pkg <~ getPackage p ;;;
    if Standard pkg && negb (race pkg) then mret ()
    else
      there <~ (if Stale pkg then mret false else exists_ E (Target pkg)) ;;;
      if negb there then
        log_Printf (padRight 40 "-" +:+ "  " +:+ ImportPath pkg
                    +:+ " (" +:+ Target pkg +:+ ")")
      else
        fp <~ fingerprintOf fuel p ;;;
        let dst := filepath_Join E dir fp in
        there <~ exists_ E dst ;;;
        tag <~ (if there : bool then mret " "
                else
                  err <~ linkOrCopy (Target pkg) dst ;;;
                  match err with
                  | Some e => log_Fatal (errnoString e)
                  | None => mret "*"
                  end) ;;;
        log_Printf (padRight 40 fp +:+ " " +:+ tag +:+ ImportPath pkg
                    +:+ " (" +:+ Target pkg +:+ ")")).

(** [restore] of the second revision of main.go. *)
Definition restore (fuel : nat) (args : list string) : M heap unit :=
  let args := match args with [] => ["."] | _ => args end in
  let dir := cacheDir E in
  there <~ exists_ E dir ;;;
  if negb there then
    u <~ log_Printf (dir +:+ " does not exist") ;;;
    os_Exit 0
  else
    u <~ log_Printf ("restoring " +:+ fmtStrings args +:+ " from " +:+ dir) ;;;
    pkgs <~ loadAll fuel args ;;;
    u <~ log_Printf ("finished loading: " +:+ elapsed E) ;;;
    forEach pkgs (λ p,
      pkg <~ getPackage p ;;;
      if Standard pkg && negb (race pkg) then mret ()
      else
        fp <~ fingerprintOf fuel p ;;;
        let src := filepath_Join E dir fp in
        there <~ exists_ E src ;;;
        if negb there then
          log_Printf (padRight 40 "-" +:+ "  " +:+ ImportPath pkg
                      +:+ " (" +:+ fp +:+ ":" +:+ Target pkg +:+ ")")
        else
          u <~ log_Printf (padRight 40 fp +:+ "  " +:+ ImportPath pkg
                           +:+ " (" +:+ Target pkg +:+ ")") ;;;
          u <~ os_Remove E (Target pkg) ;;;
          u <~ os_MkdirAll E (filepath_Dir (Target pkg)) 493 ;;;
          err <~ linkOrCopy src (Target pkg) ;;;
          match err with
          | Some e => log_Fatal (errnoString e)
          | None =>
              r <~ os_Chtimes E (Target pkg) (now E) ;;;
              match r with
              | inl e => log_Fatal (errnoString e)
              | inr _ => mret ()
              end
          end).

(** [clear]. *)
Definition clear (args : list string) : M heap unit :=
  let dir := cacheDir E in
  u <~ log_Printf ("clearing " +:+ dir) ;;;
  r <~ os_RemoveAll E dir ;;;
  match r with
  | inl e => log_Fatal (errnoString e)
  | inr _ => mret ()
  end.

(** [main], on the arguments left by [flag.Parse]. *)
Definition main (fuel : nat) (args : list string) : M heap unit :=
  match args with
  | "save" :: rest => save fuel rest
  | "restore" :: rest => restore fuel rest
  | "clear" :: rest => clear rest
  | _ =>
      u <~ match args with
           | a :: _ => log_Printf ("unknown command " +:+ a +:+ newline +:+ newline)
           | [] => mret ()
           end ;;;
      u <~ log_Printf ("usage: " +:+ progName E +:+ " [save|restore|clear]") ;;;
      os_Exit 1
  end.

End Main.

(** *** The loader under another order of the map of dependencies

    [load] ranges over its map [deps] in an order that the language
    leaves open, and sorts the slice with [sort.Sort], which is not
    stable.  In [load] above the range takes the order of
    [map_to_list] and the sort is [sortPackageList].  Here the two are
    parameters: [rangeOf p] is the order in which [range deps] yields
    the values of the map in the call of [load] for the unit [p], and
    [sortOf p] what [sort.Sort] makes of the slice in that call ([load]
    runs once for a unit).  Everything else is as in [load],
    [loadImport], [loadPackage] and the first loop of
    [packagesForBuild]. *)

Section LoadOrder.

Context (E : Env).
Context (rangeOf : string → gmap string string → list string).
Context (sortOf : string → heap → list string → list string).

Definition loadOrd (rec : loader) (ctx : Build.Context) (stk : list string) (p : string)
    (bp : Build.Package) (err : option string) (hp : heap) : outcome heap :=
  let std := Build.Goroot bp && bool_decide (Build.ImportPath bp ≠ "")
             && negb (bool_decide (is_Some (IndexByte (Build.ImportPath bp) "."%char))) in
  let hp := alter (λ pk, set_race (contains (Build.BuildTags ctx) "race")
                           (set_Standard std (set_buildContext ctx (set_Package_ bp pk))))
                  p hp in
  match err with
  | Some msg =>
      Done (alter (λ pk, set_Error (Some (mkPackageError stk "" msg false false))
                           (set_Incomplete true pk)) p hp)
  | None =>
      match hp !! p with
      | None => Panic
      | Some pk =>
          let target :=
            if decide (Build.Name bp = "main") then
              let elem := afterLastSlash (Build.Dir bp) in
              let full := Build.ctxGOOS ctx +:+ "_" +:+ Build.ctxGOARCH ctx +:+ "/" +:+ elem in
              let elem :=
                if bool_decide (Build.ctxGOOS ctx ≠ GOOS (runtime E))
                   || bool_decide (Build.ctxGOARCH ctx ≠ GOARCH (runtime E))
                then full else elem in
              let t := if decide (Build.BinDir bp = "") then Target pk
                       else filepath_Join E (Build.BinDir bp) elem in
              if bool_decide (t ≠ "") && bool_decide (Build.ctxGOOS ctx = "windows")
              then t +:+ ".exe" else t
            else if local pk then "" else Build.PkgObj bp in
          let hp := alter (set_Target target) p hp in
          '(imps, dmap, hp) ←
            loadImports rec ctx stk p (importPathsOf pk) [] ∅ hp ;;;
          let hp := alter (set_imports (Some imps)) p hp in
          let hp := alter (set_deps (sortOf p hp (rangeOf p dmap))) p hp in
          let hp :=
            if Standard pk && (bool_decide (baseImportPath pk = "unsafe")
                               || bool_decide (Build.Compiler ctx = "gccgo"))
            then alter (set_Target "") p hp else hp in
          if bool_decide (Build.CFiles bp ≠ []) && negb (usesCgo pk)
             && (negb (Standard pk) || bool_decide (baseImportPath pk ≠ "runtime"))
          then
            Done (alter (set_Error (Some (mkPackageError stk ""
                     ("C source files not allowed when not using cgo: "
                      +:+ String.concat " " (Build.CFiles bp)) false false))) p hp)
          else Done hp
      end
  end.

Fixpoint loadImportOrd (fuel : nat) (ctx : Build.Context) (path srcDir : string)
    (stk : list string) (importPos : list Build.Position) (hp : heap)
    : outcome (string * heap) :=
  match fuel with
  | O => OutOfFuel
  | S fuel' =>
      let stk := push stk path in
      let isLocal := Build.IsLocalImport path in
      let importPath :=
        if isLocal then dirToImportPath E (filepath_Join E srcDir path) else path in
      let fullImportPath :=
        if contains (Build.BuildTags ctx) "race" then importPath +:+ ":race"
        else importPath in
      match hp !! fullImportPath with
      | Some _ => Done (fullImportPath, reusePackage fullImportPath stk hp)
      | None =>
          let hp := <[fullImportPath := set_local isLocal zeroPackage]> hp in
          let '(bp, err) := Import E ctx path srcDir in
          let bp := Build.set_ImportPath fullImportPath bp in
          let bp := if decide (gobin E = "") then bp else Build.set_BinDir (gobin E) bp in
          let err :=
            match err with
            | None =>
                if negb isLocal && bool_decide (Build.ImportComment bp ≠ "")
                   && bool_decide (Build.ImportComment bp ≠ path)
                then Some ("code in directory " +:+ Build.Dir bp +:+ " expects import "
                           +:+ quoted (Build.ImportComment bp))
                else None
            | Some e => Some e
            end in
          let hp := alter (set_baseImportPath importPath) fullImportPath hp in
          hp ← loadOrd (loadImportOrd fuel') ctx stk fullImportPath bp err hp ;;;
          let hp :=
            match importPos with
            | pos :: _ =>
                alter (λ pk,
                  match Error pk with
                  | Some e =>
                      let pos := Build.mkPosition (shortPath E (Build.Filename pos))
                                                  (Build.LineColumn pos) in
                      set_Error (Some (mkPackageError (ImportStack e)
                                         (Build.PositionString pos) (Err e)
                                         (isImportCycle e) (hard e))) pk
                  | None => pk
                  end) fullImportPath hp
            | [] => hp
            end in
          Done (fullImportPath, hp)
      end
  end.

Definition loadPackageOrd (fuel : nat) (arg : string) (stk : list string) (hp : heap)
    : outcome (string * heap) :=
  let base := packageBaseImportPath arg in
  let options := packageOptions arg in
  let base :=
    if Build.IsLocalImport base then
      let bp := ImportDir E (filepath_Join E (cwd E) base) in
      if bool_decide (Build.ImportPath bp ≠ "") && bool_decide (Build.ImportPath bp ≠ ".")
      then Build.ImportPath bp else base
    else base in
  let def := buildDefault E in
  let ctx :=
    if contains options "race" then
      Build.mkContext (Build.ctxGOOS def) (Build.ctxGOARCH def) (Build.Compiler def)
        (Build.BuildTags def ++ ["race"])
        ((if decide (Build.InstallSuffix def = "") then ""
          else Build.InstallSuffix def +:+ "_") +:+ "race")
    else def in
  loadImportOrd fuel ctx base (cwd E) stk [] hp.

Fixpoint loadArgsOrd (fuel : nat) (args : list string) (set : gset string)
    (pkgs : list string) (hp : heap) : outcome (list string * heap) :=
  match args with
  | [] => Done (pkgs, hp)
  | arg :: args' =>
      if bool_decide (arg ∈ set) then loadArgsOrd fuel args' set pkgs hp
      else
        '(p, hp) ← loadPackageOrd fuel arg [] hp ;;;
        loadArgsOrd fuel args' ({[arg]} ∪ set) (pkgs ++ [p]) hp
  end.

End LoadOrder.

End Pkg.

(** ** The first revision of main.go, on the output of [go list -json] *)

Module GoList.

(** The fields of [Package] that the program reads. *)
Record Package : Type := mkPackage {
  Dir : string;
  ImportPath : string;
  Target : string;
  Standard : bool;
  Stale : bool;
  Root : string;
  GoFiles : list string;
  CgoFiles : list string;
  CFiles : list string;
  CXXFiles : list string;
  MFiles : list string;
  HFiles : list string;
  SFiles : list string;
  SwigFiles : list string;
  SwigCXXFiles : list string;
  SysoFiles : list string;
  CgoCFLAGS : list string;
  CgoCPPFLAGS : list string;
  CgoCXXFLAGS : list string;
  CgoLDFLAGS : list string;
  CgoPkgConfig : list string;
  Imports : list string;
  Deps : list string;
  TestImports : list string;
  fingerprint : option string;
}.

Abbreviation heap := (gmap string Package).

Definition set_fingerprint (x : option string) (p : Package) : Package :=
  mkPackage (Dir p) (ImportPath p) (Target p) (Standard p) (Stale p) (Root p)
    (GoFiles p) (CgoFiles p) (CFiles p) (CXXFiles p) (MFiles p) (HFiles p) (SFiles p)
    (SwigFiles p) (SwigCXXFiles p) (SysoFiles p) (CgoCFLAGS p) (CgoCPPFLAGS p)
    (CgoCXXFLAGS p) (CgoLDFLAGS p) (CgoPkgConfig p) (Imports p) (Deps p)
    (TestImports p) x.

(** [isStdLib]: no dot, or the first dot after the first slash. *)
Definition isStdLib (pkgName : string) : bool :=
  match IndexByte pkgName "."%char with
  | None => true
  | Some dot =>
      match IndexByte pkgName "/"%char with
      | None => true
      | Some slash => bool_decide (slash < dot)%nat
      end
  end.

(** [packageList.Less]. *)
Definition Less (a b : Package) : bool := String.ltb (ImportPath a) (ImportPath b).

Section Fingerprint.

Context (E : Env) (fs : FS).

(** [addFile]: the name, then the content. *)
Definition addFile (p : Package) (h : string) (file : string) : outcome string :=
  let h := hashWrite h file in
  match fs !! filepath_Join E (Dir p) file with
  | None => Fatal ("open " +:+ filepath_Join E (Dir p) file
                   +:+ ": no such file or directory")
  | Some f =>
      if IsDir f then Fatal ("read " +:+ filepath_Join E (Dir p) file
                             +:+ ": is a directory")
      else Done (hashWrite h (data f))
  end.

Fixpoint addFiles (p : Package) (h : string) (files : list string) : outcome string :=
  match files with
  | [] => Done h
  | file :: files' => h ← addFile p h file ;;; addFiles p h files'
  end.

Definition addFlags (h : string) (flags : list string) : string :=
  foldl hashWrite h flags.

(** The loop over [p.Deps] of [Fingerprint]. *)
Fixpoint fingerprintDeps (rec : string → heap → outcome (string * heap))
    (ds : list string) (h : string) (pkgs : heap) : outcome ((string + string) * heap) :=
  match ds with
  | [] => Done (inr h, pkgs)
  | dep :: ds' =>
      if isStdLib dep then fingerprintDeps rec ds' h pkgs
      else
        match pkgs !! dep with
        | None => Fatal (dep +:+ " not found!")
        | Some _ =>
            '(fp, pkgs) ← rec dep pkgs ;;;
            if decide (fp = "") then Done (inl fp, pkgs)
            else fingerprintDeps rec ds' (hashWrite h fp) pkgs
        end
  end.

(** The method [Fingerprint] of [Package]; [p] is the key of the
    package in [pkgs]. *)
Fixpoint Fingerprint (fuel : nat) (p : string) (pkgs : heap) : outcome (string * heap) :=
  match fuel with
  | O => OutOfFuel
  | S fuel' =>
      match pkgs !! p with
      | None => Panic
      | Some pk =>
          match fingerprint pk with
          | Some fp => Done (fp, pkgs)
          | None =>
              let h := addFlags "" [Version (runtime E); GOOS (runtime E);
                                    GOARCH (runtime E); ImportPath pk] in
              h ← addFiles pk h (GoFiles pk) ;;;
              h ← addFiles pk h (CgoFiles pk) ;;;
              h ← addFiles pk h (CFiles pk) ;;;
              h ← addFiles pk h (CXXFiles pk) ;;;
              h ← addFiles pk h (MFiles pk) ;;;
              h ← addFiles pk h (HFiles pk) ;;;
              h ← addFiles pk h (SFiles pk) ;;;
              h ← addFiles pk h (SwigFiles pk) ;;;
              h ← addFiles pk h (SwigCXXFiles pk) ;;;
              h ← addFiles pk h (SysoFiles pk) ;;;
              let h := addFlags h (CgoCFLAGS pk) in
              let h := addFlags h (CgoCPPFLAGS pk) in
              let h := addFlags h (CgoCXXFLAGS pk) in
              let h := addFlags h (CgoLDFLAGS pk) in
              let h := addFlags h (CgoPkgConfig pk) in
              '(r, pkgs) ← fingerprintDeps (Fingerprint fuel') (Deps pk) h pkgs ;;;
              match r with
              | inl fp => Done (fp, alter (set_fingerprint (Some fp)) p pkgs)
              | inr h =>
                  let s := hashSumHex h in
                  Done (s, alter (set_fingerprint (Some s)) p pkgs)
              end
          end
      end
  end.

End Fingerprint.

Section Main.

(** [goList] runs [go list -json]: the package, or the message of
    the fatal error. *)
Context (E : Env) (goList : string → string + Package).

(** [loadPackages]. *)
Fixpoint loadPackages (fuel : nat) (importPath : string) (pkgs : heap)
    : outcome (string * heap) :=
  match fuel with
  | O => OutOfFuel
  | S fuel' =>
      match pkgs !! importPath with
      | Some _ => Done (importPath, pkgs)
      | None =>
          match goList importPath with
          | inl msg => Fatal msg
          | inr pkg =>
              let pkgs := <[ImportPath pkg := pkg]> pkgs in
              pkgs ← foldl (λ acc dep,
                              pkgs ← acc ;;;
                              if isStdLib dep then Done pkgs
                              else '(q, pkgs) ← loadPackages fuel' dep pkgs ;;; Done pkgs)
                           (Done pkgs) (Deps pkg) ;;;
              Done (ImportPath pkg, pkgs)
          end
      end
  end.

Fixpoint insertSorted (pkgs : heap) (x : string) (l : list string) : list string :=
  match l with
  | [] => [x]
  | y :: l' =>
      if String.ltb (from_option ImportPath "" (pkgs !! y))
                    (from_option ImportPath "" (pkgs !! x))
      then y :: insertSorted pkgs x l' else x :: l
  end.

(** [load]: the map, and its packages sorted by import path.  The
    two [range] loops over the map take its entries in some order. *)
Definition load (fuel : nat) (dir : string) : outcome (heap * list string) :=
  '(root, pkgMap) ← loadPackages fuel dir ∅ ;;;
  let rootPath := from_option ImportPath "" (pkgMap !! root) in
  let rootPkgs := filter (λ kv, String.prefix rootPath kv.1 = true) (map_to_list pkgMap) in
  pkgMap ← foldl (λ acc dep,
                    pkgs ← acc ;;;
                    if isStdLib dep then Done pkgs
                    else '(q, pkgs) ← loadPackages fuel dep pkgs ;;; Done pkgs)
                 (Done pkgMap) (rootPkgs.*2 ≫= TestImports) ;;;
  Done (pkgMap, foldr (insertSorted pkgMap) [] (map_to_list pkgMap).*1).

Definition fingerprintOf (fuel : nat) (p : string) : M heap string :=
  λ w, onCache (Fingerprint E (files w) fuel p) w.

Definition usage {A} (cmd : string) (args : list string) (k : string → M heap A)
    : M heap A :=
  if bool_decide (2 < length args)%nat
  then log_Fatal ("usage: " +:+ progName E +:+ " " +:+ cmd +:+ " [package-path]")
  else k (match args with [a] => a | _ => "." end).

(** [save]. *)
Definition save (fuel : nat) (args : list string) : M heap unit :=
  usage "save" args (λ path,
    let dir := cacheDir E in
    u <~ log_Printf ("saving " +:+ path +:+ " to " +:+ dir) ;;;
    r <~ os_Mkdir E dir 493 ;;;
    u <~ match r with
         | inl err => if IsExist err then mret () else log_Fatal (errnoString err)
         | inr _ => mret ()
         end ;;;
    pkgList <~ onCache (λ _ : heap,
                 '(pkgMap, pkgList) ← load fuel path ;;; Done (pkgList, pkgMap)) ;;;
    forEach pkgList (λ p,
      λ w,
        match packageCache w !! p with
        | None => (Panic, w)
        | Some pkg =>
            (there <~ (if Stale pkg then mret false else exists_ E (Target pkg)) ;;;
             if negb there then log_Printf (padRight 40 "-" +:+ "  " +:+ ImportPath pkg)
             else
               fp <~ fingerprintOf fuel p ;;;
               r <~ os_Link E (Target pkg) (filepath_Join E dir fp) ;;;
               tag <~ match r with
                      | inl err =>
                          if IsExist err then mret " " else log_Fatal (errnoString err)
                      | inr _ => mret "*"
                      end ;;;
               log_Printf (padRight 40 fp +:+ " " +:+ tag +:+ ImportPath pkg)) w
        end)).

(** [restore]. *)
Definition restore (fuel : nat) (args : list string) : M heap unit :=
  usage "restore" args (λ path,
    let dir := cacheDir E in
    there <~ exists_ E dir ;;;
    if negb there then
      u <~ log_Printf (dir +:+ " does not exist") ;;;
      os_Exit 0
    else
      u <~ log_Printf ("restoring " +:+ path +:+ " from " +:+ dir) ;;;
      pkgList <~ onCache (λ _ : heap,
                   '(pkgMap, pkgList) ← load fuel path ;;; Done (pkgList, pkgMap)) ;;;
      forEach pkgList (λ p,
        λ w,
          match packageCache w !! p with
          | None => (Panic, w)
          | Some pkg =>
              (fp <~ fingerprintOf fuel p ;;;
               let src := filepath_Join E dir fp in
               there <~ exists_ E src ;;;
               if negb there then
                 log_Printf (padRight 40 "-" +:+ "  " +:+ ImportPath pkg)
               else
                 u <~ log_Printf (padRight 40 fp +:+ "  " +:+ ImportPath pkg) ;;;
                 u <~ os_Remove E (Target pkg) ;;;
                 r <~ os_Link E src (Target pkg) ;;;
                 match r with
                 | inl e => log_Fatal (errnoString e)
                 | inr _ =>
                     r <~ os_Chtimes E (Target pkg) (now E) ;;;
                     match r with
                     | inl e => log_Fatal (errnoString e)
                     | inr _ => mret ()
                     end
                 end) w
          end)).

End Main.

End GoList.

(** ** Notions used to state the properties of pkg.go *)

Module PkgSpec.
Import Pkg.

(** Two heaps hold the same packages up to the memoised fingerprints. *)
Definition same_graph (hp hp' : heap) : Prop :=
  ∀ k, set_fingerprint None <$> hp !! k = set_fingerprint None <$> hp' !! k.

(** [d] is a dependency that [Fingerprint] of a package with race flag
    [prace] does not skip. *)
Definition included (prace : bool) (d : Package) : bool :=
  negb (negb prace && Standard d).

(** Two file systems hold the same files under the same names, with
    the same bytes and the same permission bits; only the modification
    times may differ. *)
Definition same_content (fs1 fs2 : FS) : Prop :=
  ∀ path, (λ f, (data f, perm f, IsDir f)) <$> fs1 !! path
          = (λ f, (data f, perm f, IsDir f)) <$> fs2 !! path.

(** No package of the heap has the indeterminate sentinel as its
    memoised fingerprint. *)
Definition no_sentinel (hp : heap) : Prop :=
  ∀ k pk s, hp !! k = Some pk → fingerprint pk = Some s → s ≠ "".

(** The digest of a call that returned. *)
Definition digestOf (o : outcome (string * heap)) : option string :=
  match o with Done (fp, _) => Some fp | _ => None end.


(** What two runs may differ in when only standard-library units were
    changed.  [P] is a set of units closed under dependencies, none of
    whose non-standard members is a race variant.  At every key the
    two heaps hold the same package, which then, when it is in [P]
    and not standard, finds its owned files unchanged, or they hold
    two standard packages. *)
Definition differ_in_std (E : Env) (fs1 fs2 : FS) (P : string → Prop)
    (hp1 hp2 : heap) : Prop :=
  ∀ k,
    match hp1 !! k, hp2 !! k with
    | Some a, Some b =>
        (a = b ∧ (P k → Standard a = false →
                  race a = false
                  ∧ (∀ d, d ∈ deps a → P d)
                  ∧ ∀ file, file ∈ fingerprintFiles a →
                      fs1 !! filepath_Join E (Dir a) file
                      = fs2 !! filepath_Join E (Dir a) file))
        ∨ (Standard a = true ∧ Standard b = true)
    | None, None => True
    | _, _ => False
    end.

(** Two calls end the same way, with heaps related by [R] when they return. *)
Definition same_outcome {A} (R : heap → heap → Prop) (o1 o2 : outcome (A * heap)) : Prop :=
  match o1, o2 with
  | Done (a1, h1), Done (a2, h2) => a1 = a2 ∧ R h1 h2
  | Fatal m1, Fatal m2 => m1 = m2
  | Exit c1, Exit c2 => c1 = c2
  | Panic, Panic => True
  | OutOfFuel, OutOfFuel => True
  | _, _ => False
  end.


(** The bytes that the loop over the files writes to the hash: for each
    file its name, then its content.  [None] when a file cannot be read. *)
Fixpoint filesInput (E : Env) (fs : FS) (dir : string) (files : list string) : option string :=
  match files with
  | [] => Some ""
  | file :: files' =>
      match fs !! filepath_Join E dir file with
      | None => None
      | Some f =>
          if IsDir f then None
          else rest ← filesInput E fs dir files'; Some (file +:+ data f +:+ rest)
      end
  end.

(** The bytes that the loop over [p.deps] writes to the hash: the
    digests [rec d] of the dependencies that are not skipped, in the
    order of [p.deps]. *)
Fixpoint depsInput (rec : string → option string) (hp : heap) (prace : bool)
    (ds : list string) : option string :=
  match ds with
  | [] => Some ""
  | d :: ds' =>
      match hp !! d with
      | None => None
      | Some dk =>
          if included prace dk then
            fp ← rec d; rest ← depsInput rec hp prace ds'; Some (fp +:+ rest)
          else depsInput rec hp prace ds'
      end
  end.

(** The order in which [Fingerprint] feeds the hash, as a function of
    the package graph alone (no memo): the digests of the dependencies,
    then the toolchain identity and the import path, then the flag
    lists, then the files. *)
Definition digestInput (E : Env) (pk : Package) (depsBytes filesBytes : string) : string :=
  let bp := Package_ pk in
  depsBytes
  +:+ String.concat "" [Version (runtime E); GOOS (runtime E); GOARCH (runtime E); ImportPath pk]
  +:+ String.concat "" (Build.CgoCFLAGS bp ++ Build.CgoCPPFLAGS bp ++ Build.CgoCXXFLAGS bp
                        ++ Build.CgoLDFLAGS bp ++ Build.CgoPkgConfig bp)
  +:+ filesBytes.

Fixpoint digest (E : Env) (fs : FS) (n : nat) (hp : heap) (k : string) : option string :=
  match n with
  | O => None
  | S n' =>
      pk ← hp !! k;
      a ← depsInput (digest E fs n' hp) hp (race pk) (deps pk);
      c ← filesInput E fs (Dir pk) (fingerprintFiles pk);
      Some (hashSumHex (digestInput E pk a c))
  end.

(** Every memoised fingerprint of the heap is the digest of its package. *)
Definition consistent (E : Env) (fs : FS) (hp : heap) : Prop :=
  ∀ k pk fp, hp !! k = Some pk → fingerprint pk = Some fp → ∃ n, digest E fs n hp k = Some fp.


(** The order that the specification words give: the toolchain identity
    and the import path, then the flag lists, then the contents of the
    files, last the fingerprints of the dependencies. *)
Definition specOrderInput (E : Env) (pk : Package) (filesBytes depsBytes : string) : string :=
  let bp := Package_ pk in
  String.concat "" [Version (runtime E); GOOS (runtime E); GOARCH (runtime E); ImportPath pk]
  +:+ String.concat "" (Build.CgoCFLAGS bp ++ Build.CgoCPPFLAGS bp ++ Build.CgoCXXFLAGS bp
                        ++ Build.CgoLDFLAGS bp ++ Build.CgoPkgConfig bp)
  +:+ filesBytes
  +:+ depsBytes.


(** The [Stale] flag that the evaluator has left on a package. *)
Definition staleOf (hp : heap) (k : string) : option bool := Stale <$> hp !! k.

(** The heap that [computeStale] returns, when it does. *)
Definition evaluated (o : outcome (heap * list string)) : option heap :=
  match o with Done (hp, _) => Some hp | _ => None end.


(** The contract of [sort.Sort] on a [packageList], which is not a
    stable sort: the result is a permutation of the slice in which no
    element is [Less] than an earlier one. *)
Definition noLess (hp : heap) (a b : string) : Prop := Less hp b a = false.

Definition sortSort (hp : heap) (l r : list string) : Prop :=
  l ≡ₚ r ∧ Sorted (noLess hp) r.


(** The direct imports of a unit, as [walk] ranges over them. *)
Definition importsOf (hp : heap) (k : string) : list string :=
  default [] (hp !! k ≫= imports).

(** The import graph has no cycle: a rank decreases along every import,
    and every imported unit is in the heap. *)
Definition acyclic_imports (rk : string → nat) (hp : heap) : Prop :=
  ∀ k d, d ∈ importsOf hp k → is_Some (hp !! d) ∧ (rk d < rk k)%nat.

(** [d] is a direct or transitive import of [k]. *)
Inductive reaches (hp : heap) : string → string → Prop :=
| reaches_import k d : d ∈ importsOf hp k → reaches hp k d
| reaches_trans k m d : m ∈ importsOf hp k → reaches hp m d → reaches hp k d.

(** [x] comes before [y] in the list. *)
Definition before (l : list string) (x y : string) : Prop :=
  ∃ i j, (i < j)%nat ∧ l !! i = Some x ∧ l !! j = Some y.

(** Post-order: every import of a listed unit is listed before it. *)
Definition postorder (hp : heap) (all : list string) : Prop :=
  ∀ x y, x ∈ all → y ∈ importsOf hp x → before all y x.

(** The units that [isStale] reports fresh before it looks at their
    dependencies: the fake builtin packages, and the packages without
    load error that own no Go source. *)
Definition never_stale (pk : Package) : bool :=
  let bp := Package_ pk in
  (Standard pk && (bool_decide (baseImportPath pk = "unsafe")
                   || bool_decide (Build.Compiler (buildContext pk) = "gccgo")))
  || (bool_decide (Error pk = None)
      && (bool_decide (Build.GoFiles bp = []) && bool_decide (Build.CgoFiles bp = [])
          && bool_decide (Build.TestGoFiles bp = [])
          && bool_decide (Build.XTestGoFiles bp = []) && negb (usesSwig pk))).

(** Two heaps hold the same packages up to the [Stale] flags. *)
Definition same_but_stale (hp hp' : heap) : Prop :=
  ∀ k, set_Stale false <$> hp !! k = set_Stale false <$> hp' !! k.


(** What a walk (or a loop of walks) towards [targets] leaves of the
    set [seen] and the list [all]: new units are appended, all of them
    unseen before; the list stays duplicate free and in post-order; the
    targets are listed.  It runs out of fuel only below the rank of a
    target. *)
Definition walked (rk : string → nat) (hp : heap) (fuel : nat) (targets : list string) (seen : gset string)
    (all : list string) (o : outcome (gset string * list string)) : Prop :=
  match o with
  | Done (seen', all') =>
      ∃ new, all' = all ++ new
             ∧ (∀ x, x ∈ seen' ↔ x ∈ seen ∨ x ∈ new)
             ∧ (∀ x, x ∈ new → (x ∉ seen) ∧ is_Some (hp !! x))
             ∧ NoDup all' ∧ postorder hp all'
             ∧ (∀ t, t ∈ targets → t ∈ all')
  | OutOfFuel => ∃ t, t ∈ targets ∧ (fuel ≤ rk t)%nat
  | _ => False
  end.


(** What the loader has left on a unit. *)
Definition incompleteOf (hp : heap) (k : string) : bool :=
  from_option Incomplete false (hp !! k).

Definition hasError (hp : heap) (k : string) : bool :=
  bool_decide (hp !! k ≫= Error ≠ None).

(** A unit resolved without flaw: it is not [Incomplete], its imports
    are resolved, and they are resolved without flaw.  The definition
    is inductive, so such units lie on no import cycle. *)
Inductive Complete (hp : heap) : string → Prop :=
| Complete_intro k pk l :
    hp !! k = Some pk → imports pk = Some l → Incomplete pk = false →
    (∀ m, m ∈ l → Complete hp m) → Complete hp k.

(** A unit whose imports are resolved and from which every path of
    imports meets a unit with a recorded error after finitely many steps. *)
Inductive ErrorBounded (hp : heap) : string → Prop :=
| ErrorBounded_intro k pk l :
    hp !! k = Some pk → imports pk = Some l →
    (∀ m, m ∈ l → hasError hp m = false → ErrorBounded hp m) → ErrorBounded hp k.


(** What may happen to a package between two calls of [loadImport]
    that do not load it: its imports stay, [Incomplete] can be set
    while the imports are nil, a recorded error stays recorded. *)
Definition grows (a b : Package) : Prop :=
  imports b = imports a
  ∧ (imports a ≠ None → Incomplete b = Incomplete a)
  ∧ (Incomplete a = true → Incomplete b = true)
  ∧ (Error a ≠ None → Error b ≠ None).

Definition heap_ext (hp hp' : heap) : Prop :=
  ∀ k a, hp !! k = Some a → ∃ b, hp' !! k = Some b ∧ grows a b.

(** The invariant of the loader.  [A] is the set of the units whose
    [load] has not returned yet. *)
Record LoadInv (A : gset string) (hp : heap) : Prop := mkLoadInv {
  inv_active : ∀ k, k ∈ A → ∃ pk, hp !! k = Some pk ∧ imports pk = None;
  inv_failed : ∀ k pk, hp !! k = Some pk → k ∉ A → imports pk = None →
               Incomplete pk = true ∧ Error pk ≠ None;
  inv_dom : ∀ k pk l m, hp !! k = Some pk → imports pk = Some l → m ∈ l → is_Some (hp !! m);
  inv_complete : ∀ k pk, hp !! k = Some pk → imports pk ≠ None → Incomplete pk = false →
                 Complete hp k;
  inv_bounded : ∀ k pk, hp !! k = Some pk → imports pk ≠ None → ErrorBounded hp k;
  inv_cause : ∀ k pk l, hp !! k = Some pk → imports pk = Some l → Incomplete pk = true →
              Error pk ≠ None ∨ ∃ m, m ∈ l ∧ incompleteOf hp m = true;
}.

(** What [loadImport] promises of the unit it returns: where its
    imports are nil, it is [Incomplete] and carries an error. *)
Definition returned (hp : heap) (k : string) : Prop :=
  ∃ pk, hp !! k = Some pk ∧ (imports pk = None → Incomplete pk = true ∧ Error pk ≠ None).


(** Where [Incomplete] has been set on a unit of the first heap, the
    second heap records an error for it. *)
Definition flagged (hp hp' : heap) : Prop :=
  ∀ k a b, hp !! k = Some a → hp' !! k = Some b →
           Incomplete a = false → Incomplete b = true → Error b ≠ None.

(** What a call of [loadImport] (or of the loader of one argument)
    does while the units of [A] are in progress: it does not panic,
    and when it returns a unit, the invariant holds again. *)
Definition loads_ok (A : gset string) (hp : heap) (o : outcome (string * heap)) : Prop :=
  match o with
  | Done (k, hp') => heap_ext hp hp' ∧ flagged hp hp' ∧ LoadInv A hp' ∧ returned hp' k
  | OutOfFuel => True
  | _ => False
  end.

(** The invariant of the loop of [load] over the import paths of [p]:
    the units imported so far have been returned, [p] is [Incomplete]
    when one of them is, and it is so only for a recorded error or for
    an [Incomplete] import. *)
Definition loop_inv (p : string) (hp : heap) (imps : list string) : Prop :=
  (∀ m, m ∈ imps → returned hp m ∧ (incompleteOf hp m = true → incompleteOf hp p = true))
  ∧ (incompleteOf hp p = true →
     hasError hp p = true ∨ ∃ m, m ∈ imps ∧ incompleteOf hp m = true).

(** A change of a package in progress that the invariant allows. *)
Definition safe (f : Package → Package) : Prop :=
  ∀ pk, imports (f pk) = imports pk
        ∧ (Incomplete pk = true → Incomplete (f pk) = true)
        ∧ (Error pk ≠ None → Error (f pk) ≠ None).

(** A change that keeps [imports] and [Incomplete] and drops no error. *)
Definition strict (f : Package → Package) : Prop :=
  ∀ pk, imports (f pk) = imports pk
        ∧ Incomplete (f pk) = Incomplete pk
        ∧ (Error pk ≠ None → Error (f pk) ≠ None).

(** The state of the loader with respect to the heap [hp0] at the
    entry of a call of [loadImport]. *)
Definition St (A : gset string) (hp0 hp : heap) : Prop :=
  heap_ext hp0 hp ∧ flagged hp0 hp ∧ LoadInv A hp.

(** The heap that the loader leaves, when it returns. *)
Definition loaded (o : outcome (list string * heap)) : heap :=
  match o with Done (_, hp) => hp | _ => ∅ end.

(** The key of [packageCache] under which [loadImport] files a request. *)
Definition fullImportPathOf (E : Env) (ctx : Build.Context) (path srcDir : string)
    : string :=
  let importPath :=
    if Build.IsLocalImport path then dirToImportPath E (filepath_Join E srcDir path)
    else path in
  if contains (Build.BuildTags ctx) "race" then importPath +:+ ":race" else importPath.

(** The import paths that [load] can add to those of the provider. *)
Definition implicitImports : list string :=
  ["runtime/cgo"; "syscall"; "runtime"; "runtime/race"].

(** [P] is a set of import paths closed under the imports that the
    provider reports and that [load] adds. *)
Definition closed (E : Env) (P : list string) : Prop :=
  ∀ ctx path srcDir path',
    path ∈ P → path' ∈ Build.Imports (Import E ctx path srcDir).1 ++ implicitImports →
    path' ≠ "C" → path' ∈ P.

(** [K] holds the key of every request for a path of [P]. *)
Definition keyed (E : Env) (P : list string) (K : gset string) : Prop :=
  ∀ ctx path srcDir, path ∈ P → fullImportPathOf E ctx path srcDir ∈ K.




(** The units not yet loaded, among those of [K]. *)
Definition pending (K : gset string) (hp : heap) : nat := size (K ∖ dom hp).



(** ** Notions used to state further properties *)

(** Every unit of the heap is filed under its own import path. *)
Definition filed (hp : heap) : Prop := ∀ k pk, hp !! k = Some pk → ImportPath pk = k.

(** Every dependency of a unit is one of its direct or transitive imports. *)
Definition deps_reached (hp : heap) : Prop :=
  ∀ k pk d, hp !! k = Some pk → d ∈ deps pk → reaches hp k d.

(** The units of the first heap are in the second, with the same
    imports and the same dependencies. *)
Definition same_edges (hp hp' : heap) : Prop :=
  ∀ k pk, hp !! k = Some pk →
          ∃ pk', hp' !! k = Some pk' ∧ imports pk' = imports pk ∧ deps pk' = deps pk.

(** A change of a package that keeps its imports and dependencies. *)
Definition keeps_edges (f : Package → Package) : Prop :=
  ∀ pk, imports (f pk) = imports pk ∧ deps (f pk) = deps pk.

(** The entries of the map [deps] of [load] are imports, or reached
    from an import. *)
Definition deps_map_ok (hp : heap) (imps : list string) (dmap : gmap string string) : Prop :=
  ∀ k v, dmap !! k = Some v → v ∈ imps ∨ ∃ m, m ∈ imps ∧ reaches hp m v.

(** A lowercase hexadecimal digit. *)
Definition isHexDigit (c : Ascii.ascii) : bool :=
  let n := Ascii.N_of_ascii c in
  ((48 <=? n)%N && (n <=? 57)%N) || ((97 <=? n)%N && (n <=? 102)%N).

(** The form of a digest: forty lowercase hexadecimal digits. *)
Definition isDigest (s : string) : Prop :=
  String.length s = 40%nat ∧ forallb isHexDigit (String.list_ascii_of_string s) = true.

(** The memoised fingerprints are the sentinel or digests. *)
Definition memos_ok (hp : heap) : Prop :=
  ∀ k pk s, hp !! k = Some pk → fingerprint pk = Some s → s = "" ∨ isDigest s.

(** The memoised fingerprints of the first heap are those of the second. *)
Definition memos_kept (hp hp' : heap) : Prop :=
  ∀ k pk s, hp !! k = Some pk → fingerprint pk = Some s →
            ∃ pk', hp' !! k = Some pk' ∧ fingerprint pk' = Some s.

(** A run without interference: no other process touches the files,
    and no system call fails for a reason outside the model. *)
Definition quiet (E : Env) : Prop :=
  (∀ n fs, others E n fs = fs) ∧ (∀ n, fault E n = None).

(** A computation that keeps the files of [fs0] as they are. *)
Definition keepsFiles {A} (fs0 : FS) (m : M heap A) : Prop :=
  ∀ w o w', fs0 ⊆ files w → m w = (o, w') → fs0 ⊆ files w'.

(** ** Notions used to state the independence of the map order *)

(** [range deps] yields the values of the map, each once, in some
    order, which may differ from one call of [load] to the other. *)
Definition rangeOrder (rangeOf : string → gmap string string → list string) : Prop :=
  ∀ p m, rangeOf p m ≡ₚ (map_to_list m).*2.

(** [sort.Sort] meets its contract on every slice, in every call of [load]. *)
Definition sortContract (sortOf : string → heap → list string → list string) : Prop :=
  ∀ p hp l, sortSort hp l (sortOf p hp l).

(** Every dependency of a unit of the heap is a unit of the heap. *)
Definition deps_in_heap (hp : heap) : Prop :=
  ∀ k pk d, hp !! k = Some pk → d ∈ deps pk → is_Some (hp !! d).
(** Two loaders that agree, and keep what the loader keeps. *)
Definition agree (rec1 rec2 : loader) : Prop :=
  ∀ ctx path srcDir stk pos (hp : heap),
    filed hp → deps_in_heap hp →
    rec1 ctx path srcDir stk pos hp = rec2 ctx path srcDir stk pos hp
    ∧ match rec2 ctx path srcDir stk pos hp with
      | Done (_, hp') => filed hp' ∧ deps_in_heap hp' ∧ dom hp ⊆ dom hp'
      | _ => True
      end.

End PkgSpec.

(** ** Notions used to state the properties of the first revision *)

Module GoListSpec.
Import GoList.

(** The source files of a package in the order in which [Fingerprint]
    hashes them, and its flags likewise. *)
Definition allFiles (p : Package) : list string :=
  GoFiles p ++ CgoFiles p ++ CFiles p ++ CXXFiles p ++ MFiles p ++ HFiles p
  ++ SFiles p ++ SwigFiles p ++ SwigCXXFiles p ++ SysoFiles p.

Definition allFlags (p : Package) : list string :=
  CgoCFLAGS p ++ CgoCPPFLAGS p ++ CgoCXXFLAGS p ++ CgoLDFLAGS p ++ CgoPkgConfig p.

(** The memoised fingerprints of the dependencies that are not in the
    standard library, in the order of the list; [None] when one of them
    is not in the map, or has no fingerprint yet, or has the sentinel. *)
Fixpoint depsMemo (pkgs : heap) (ds : list string) : option string :=
  match ds with
  | [] => Some ""
  | d :: ds' =>
      if isStdLib d then depsMemo pkgs ds'
      else
        dk ← pkgs !! d;
        fp ← fingerprint dk;
        if decide (fp = "") then None
        else rest ← depsMemo pkgs ds'; Some (fp +:+ rest)
  end.

(** The bytes that [Fingerprint] hashes for a package, in their order. *)
Definition digestInput (E : Env) (p : Package) (filesBytes depsBytes : string) : string :=
  String.concat "" [Version (runtime E); GOOS (runtime E); GOARCH (runtime E); ImportPath p]
  +:+ filesBytes +:+ String.concat "" (allFlags p) +:+ depsBytes.

(** Every package of the map is filed under its own import path. *)
Definition filed (pkgs : heap) : Prop := ∀ k pk, pkgs !! k = Some pk → ImportPath pk = k.

(** Every package of the map outside [S] has its dependencies outside
    the standard library in the map. *)
Definition depsLoaded (S : gset string) (pkgs : heap) : Prop :=
  ∀ k pk d, pkgs !! k = Some pk → k ∉ S → d ∈ Deps pk → isStdLib d = false →
            is_Some (pkgs !! d).

(** [go list] answers a request for an import path outside the
    standard library with the package of that import path. *)
Definition canonical (goList : string → string + Package) : Prop :=
  ∀ d pkg, isStdLib d = false → goList d = inr pkg → ImportPath pkg = d.

(** The loop of [loadPackages] and of [load] over a list of import
    paths, [f] being the recursive call. *)
Definition loadEach (f : string → heap → outcome (string * heap)) (ds : list string)
    (acc : outcome heap) : outcome heap :=
  foldl (λ acc dep,
           pkgs ← acc ;;;
           if isStdLib dep then Done pkgs
           else '(q, pkgs) ← f dep pkgs ;;; Done pkgs)
        acc ds.

End GoListSpec.

(** ** Concrete packages, files and environments *)

Module Examples.

Definition env : Env :=
  mkEnv (mkRuntime "go1.4" "linux" "amd64") (λ s, s) "build-cache"
        (λ k, if decide (k = "HOME") then "/home/u" else "")
        "" "/w" (Build.mkContext "linux" "amd64" "gc" [] "")
        (λ _ _ _, (Build.zeroPackage, Some "no provider"))
        (λ _, Build.zeroPackage) (λ _ _, None) 1000 "1ms"
        (λ _ fs, fs) (λ _, None) (λ _ _, true).

(** A [build.Package] with a directory, an import path, a root and Go files. *)
Definition bpkg (dir path root : string) (gofiles : list string) : Build.Package :=
  Build.mkPackage dir "p" "" path root "" false "" gofiles [] [] [] [] [] [] [] [] []
                  [] [] [] [] [] [] ∅ [] [].

(** A loaded package: sources, target, dependencies. *)
Definition pkg (dir path root : string) (gofiles : list string) (target : string)
    (std race : bool) (ds : list string) : Pkg.Package :=
  Pkg.mkPackage (bpkg dir path root gofiles) (Build.mkContext "linux" "amd64" "gc" [] "")
                path target std false false None (Some ds) ds false None race.

Definition file (content : string) (mtime : Z) : File := mkFile content 420 mtime false.

(** Unit [a] depends on the ordinary unit [b]; neither is in the
    standard library. *)
Definition heapAB : gmap string Pkg.Package :=
  {[ "a" := pkg "/w/a" "a" "/w" [] "/w/pkg/a.a" false false ["b"];
     "b" := pkg "/w/b" "b" "/w" ["b.go"] "/w/pkg/b.a" false false [] ]}.

Definition filesAB : FS :=
  {[ "/w/b/b.go" := file "package b" 10;
     "/w/pkg/a.a" := file "A" 20;
     "/w/pkg/b.a" := file "B" 20 ]}.




(** Unit [r] owns one Go file; [heapRenamed] and [filesRenamed] are
    the same unit after that file is renamed from [a.go] to [b.go],
    content and modification time unchanged. *)
Definition heapR : gmap string Pkg.Package :=
  {[ "r" := pkg "/w/r" "r" "/w" ["a.go"] "/w/pkg/r.a" false false [] ]}.
Definition filesR : FS := {[ "/w/r/a.go" := file "package r" 10 ]}.
Definition heapRenamed : gmap string Pkg.Package :=
  {[ "r" := pkg "/w/r" "r" "/w" ["b.go"] "/w/pkg/r.a" false false [] ]}.
Definition filesRenamed : FS := {[ "/w/r/b.go" := file "package r" 10 ]}.
Definition filesTouched : FS := {[ "/w/r/a.go" := file "package r" 99 ]}.


(** Unit [u] depends on the standard-library unit [fmt]; the two file
    systems differ in the bytes of the file of [fmt] only. *)
Definition heapStd : gmap string Pkg.Package :=
  {[ "u" := pkg "/w/u" "u" "/w" ["u.go"] "/w/pkg/u.a" false false ["fmt"];
     "fmt" := pkg "/go/src/fmt" "fmt" "/go" ["print.go"] "/go/pkg/fmt.a" true false [] ]}.
Definition filesStd : FS :=
  {[ "/w/u/u.go" := file "package u" 10; "/go/src/fmt/print.go" := file "package fmt" 5 ]}.
Definition filesStdEdited : FS :=
  {[ "/w/u/u.go" := file "package u" 10;
     "/go/src/fmt/print.go" := file "package fmt // edited" 5 ]}.

(** The same two units as race variants. *)
Definition heapStdRace : gmap string Pkg.Package :=
  {[ "u:race" := pkg "/w/u" "u:race" "/w" ["u.go"] "/w/pkg/race/u.a" false true ["fmt:race"];
     "fmt:race" := pkg "/go/src/fmt" "fmt:race" "/go" ["print.go"] "/go/pkg/race/fmt.a"
                       true true [] ]}.


(** Unit [a] depends on unit [b]; neither owns a file, so that only the
    order of the writes to the hash is at stake. *)
Definition pkgOrderA : Pkg.Package := pkg "/w/a" "a" "/w" [] "/w/pkg/a.a" false false ["b"].
Definition pkgOrderB : Pkg.Package := pkg "/w/b" "b" "/w" [] "/w/pkg/b.a" false false [].
Definition heapOrder : gmap string Pkg.Package := {[ "a" := pkgOrderA; "b" := pkgOrderB ]}.


(** A package with its direct imports given apart from its dependencies. *)
Definition pkgI (dir path root : string) (gofiles : list string) (target : string)
    (imps ds : list string) : Pkg.Package :=
  Pkg.set_imports (Some imps) (pkg dir path root gofiles target false false ds).

(** The requested unit [r] lives in the tree [/w]; it imports [x], which
    imports [y], both in the tree [/other].  The artifact of [y] is
    newer than the artifact of [x]; every source file is old. *)
Definition heapOutside : gmap string Pkg.Package :=
  {[ "r" := pkgI "/w/r" "r" "/w" ["r.go"] "/w/pkg/r.a" ["x"] ["x"; "y"];
     "x" := pkgI "/other/x" "x" "/other" ["x.go"] "/other/pkg/x.a" ["y"] ["y"];
     "y" := pkgI "/other/y" "y" "/other" ["y.go"] "/other/pkg/y.a" [] [] ]}.

Definition filesOutside : FS :=
  {[ "/w/r/r.go" := file "package r" 1;
     "/other/x/x.go" := file "package x" 1;
     "/other/y/y.go" := file "package y" 1;
     "/w/pkg/r.a" := file "R" 50;
     "/other/pkg/x.a" := file "X" 20;
     "/other/pkg/y.a" := file "Y" 30 ]}.

(** A rank that decreases along the imports of [heapOutside]. *)
Definition rankOutside (k : string) : nat :=
  if decide (k = "r") then 2%nat else if decide (k = "x") then 1%nat else 0%nat.

(** The same tree with the artifact of [y] older than the one of [x],
    and the source of [x] newer than its artifact. *)
Definition filesOutsideTouched : FS :=
  {[ "/w/r/r.go" := file "package r" 1;
     "/other/x/x.go" := file "package x" 99;
     "/other/y/y.go" := file "package y" 1;
     "/w/pkg/r.a" := file "R" 50;
     "/other/pkg/x.a" := file "X" 20;
     "/other/pkg/y.a" := file "Y" 10 ]}.

(** Unit [meta] owns no Go source (only a header file) and imports
    [broken], which could not be loaded. *)
Definition pkgBroken : Pkg.Package :=
  Pkg.set_Incomplete true
    (Pkg.set_Error (Some (Pkg.mkPackageError ["meta"; "broken"] "" "no such package" false false))
       (Pkg.set_imports None (pkg "/w/broken" "broken" "/w" [] "" false false []))).
Definition pkgMeta : Pkg.Package :=
  Pkg.set_Package_
    (Build.mkPackage "/w/meta" "meta" "" "meta" "/w" "" false "/w/pkg/meta.a" [] [] [] [] []
                     ["meta.h"] [] [] [] [] [] [] [] [] [] ["broken"] ∅ [] [])
    (pkgI "/w/meta" "meta" "/w" [] "/w/pkg/meta.a" ["broken"] ["broken"]).
Definition heapMeta : gmap string Pkg.Package := {[ "meta" := pkgMeta; "broken" := pkgBroken ]}.


(** A concurrent writer inserts the store entry [/cache/abc] after the
    first system call of this process (the existence check) and before
    its second one (the hard link). *)
Definition envRace : Env :=
  mkEnv (mkRuntime "go1.4" "linux" "amd64") (λ s, s) "build-cache"
        (λ k, if decide (k = "CACHE") then "/cache" else "")
        "" "/w" (Build.mkContext "linux" "amd64" "gc" [] "")
        (λ _ _ _, (Build.zeroPackage, Some "no provider"))
        (λ _, Build.zeroPackage) (λ _ _, None) 1000 "1ms"
        (λ n fs, if decide (n = 1%nat) then <["/cache/abc" := file "A" 7]> fs else fs)
        (λ _, None) (λ _ _, true).

Definition worldRace : World (gmap string Pkg.Package) :=
  mkWorld ∅ {[ "/w/pkg/a.a" := file "A" 5 ]} [] 0.

(** A world whose cache directory [/home/u/buildcache] does not exist. *)
Definition worldNoCache : World (gmap string Pkg.Package) :=
  mkWorld heapAB filesAB [] 0.


(** The provider of a workspace in which [A] imports [B] and [B]
    imports [A]; [D] imports nothing; [runtime] is in the Go root. *)
Definition bpkgImports (dir path root : string) (goroot : bool) (imps : list string)
    : Build.Package :=
  Build.mkPackage dir path "" path root "" goroot (root +:+ "/pkg/" +:+ path +:+ ".a")
                  [path +:+ ".go"] [] [] [] [] [] [] [] [] []
                  [] [] [] [] [] imps ∅ [] [].

Definition importCycle (ctx : Build.Context) (path srcDir : string)
    : Build.Package * option string :=
  if decide (path = "A") then (bpkgImports "/w/src/A" "A" "/w" false ["B"], None)
  else if decide (path = "B") then (bpkgImports "/w/src/B" "B" "/w" false ["A"], None)
  else if decide (path = "D") then (bpkgImports "/w/src/D" "D" "/w" false [], None)
  else if decide (path = "runtime")
  then (bpkgImports "/go/src/runtime" "runtime" "/go" true [], None)
  else (Build.zeroPackage, Some ("cannot find package " +:+ path)).

Definition envCycle : Env :=
  mkEnv (mkRuntime "go1.4" "linux" "amd64") (λ s, s) "build-cache"
        (λ k, if decide (k = "HOME") then "/home/u" else "")
        "" "/w" (Build.mkContext "linux" "amd64" "gc" [] "")
        importCycle (λ _, Build.zeroPackage) (λ _ _, None) 1000 "1ms"
        (λ _ fs, fs) (λ _, None) (λ _ _, true).

(** The heap left by the request for [A] and [D] in that workspace. *)
Definition heapCycle : Pkg.heap :=
  PkgSpec.loaded (Pkg.loadArgs envCycle 15 ["A"; "D"] ∅ [] ∅).





(** A unit whose load failed, found through the imports [a], [b]. *)
Definition errMissing : Pkg.PackageError :=
  Pkg.mkPackageError ["a"; "b"; "c"] "" "cannot find package" false false.

Definition pkgFailed : Pkg.Package :=
  Pkg.set_Incomplete true (Pkg.set_Error (Some errMissing) Pkg.zeroPackage).

Definition heapFailed : Pkg.heap := {[ "c" := pkgFailed ]}.

(** The provider of a workspace in which [A] imports [B], which
    imports nothing; [runtime] is in the Go root. *)
Definition importChain (ctx : Build.Context) (path srcDir : string)
    : Build.Package * option string :=
  if decide (path = "A")
  then (bpkgImports "/w/src/A" "A" "/w" false ["B"], None)
  else if decide (path = "B")
  then (bpkgImports "/w/src/B" "B" "/w" false [], None)
  else if decide (path = "runtime")
  then (bpkgImports "/go/src/runtime" "runtime" "/go" true [], None)
  else (Build.zeroPackage, Some ("cannot find package " +:+ path)).

Definition envChain : Env :=
  mkEnv (mkRuntime "go1.4" "linux" "amd64") (λ s, s) "build-cache"
        (λ k, if decide (k = "HOME") then "/home/u" else "")
        "" "/w" (Build.mkContext "linux" "amd64" "gc" [] "")
        importChain (λ _, Build.zeroPackage) (λ _ _, None) 1000 "1ms"
        (λ _ fs, fs) (λ _, None) (λ _ _, true).

(** The world at the start of a run: no package is loaded, no file
    exists, nothing is logged. *)
Definition worldStart : World Pkg.heap := mkWorld ∅ ∅ [] 0.

(** The world left by [loadAll] for the request of [A]. *)
Definition worldChain : World Pkg.heap := (Pkg.loadAll envChain 15 ["A"] worldStart).2.

(** An environment in which the cache is on another device than the
    workspace, so that hard links from one to the other fail. *)
Definition envOtherDevice : Env :=
  mkEnv (mkRuntime "go1.4" "linux" "amd64") (λ s, s) "build-cache"
        (λ k, if decide (k = "HOME") then "/home/u" else "")
        "" "/w" (Build.mkContext "linux" "amd64" "gc" [] "")
        (λ _ _ _, (Build.zeroPackage, Some "no provider"))
        (λ _, Build.zeroPackage) (λ _ _, None) 1000 "1ms"
        (λ _ fs, fs) (λ _, None) (λ _ _, false).

(** The same, with a failure of the seventh system call (the copy of
    [linkOrCopy]) or of the sixth (its chmod). *)
Definition envCopyFails : Env :=
  mkEnv (mkRuntime "go1.4" "linux" "amd64") (λ s, s) "build-cache"
        (λ k, if decide (k = "HOME") then "/home/u" else "")
        "" "/w" (Build.mkContext "linux" "amd64" "gc" [] "")
        (λ _ _ _, (Build.zeroPackage, Some "no provider"))
        (λ _, Build.zeroPackage) (λ _ _, None) 1000 "1ms"
        (λ _ fs, fs) (λ n, if decide (n = 6%nat) then Some EIO else None) (λ _ _, false).

Definition envChmodFails : Env :=
  mkEnv (mkRuntime "go1.4" "linux" "amd64") (λ s, s) "build-cache"
        (λ k, if decide (k = "HOME") then "/home/u" else "")
        "" "/w" (Build.mkContext "linux" "amd64" "gc" [] "")
        (λ _ _ _, (Build.zeroPackage, Some "no provider"))
        (λ _, Build.zeroPackage) (λ _ _, None) 1000 "1ms"
        (λ _ fs, fs) (λ n, if decide (n = 5%nat) then Some EPERM else None) (λ _ _, false).

(** A world with the artifacts of [filesAB] and no cache entry. *)
Definition worldAB : World Pkg.heap := mkWorld heapAB filesAB [] 0.

(** The answers of [go list] in a workspace in which [x.io/a] depends
    on [fmt] and on [x.io/b], which depends on nothing. *)
Definition gpkg (path : string) (gofiles ds : list string) (fp : option string)
    : GoList.Package :=
  GoList.mkPackage ("/w/src/" +:+ path) path ("/w/pkg/" +:+ path +:+ ".a") false false "/w"
                   gofiles [] [] [] [] [] [] [] [] [] [] [] [] [] [] ds ds [] fp.

Definition goListXY (path : string) : string + GoList.Package :=
  if decide (path = "x.io/a") then inr (gpkg "x.io/a" ["a.go"] ["fmt"; "x.io/b"] None)
  else if decide (path = "x.io/b") then inr (gpkg "x.io/b" ["b.go"] [] None)
  else inl ("can't load package: " +:+ path).

Definition heapXY : GoList.heap :=
  {[ "x.io/a" := gpkg "x.io/a" ["a.go"] ["fmt"; "x.io/b"] None;
     "x.io/b" := gpkg "x.io/b" ["b.go"] [] None ]}.

Definition filesXY : FS :=
  {[ "/w/src/x.io/a/a.go" := file "package a" 10;
     "/w/src/x.io/b/b.go" := file "package b" 10 ]}.

(** The same map once [x.io/b] has its fingerprint. *)
Definition digestB : string :=
  hashSumHex (GoListSpec.digestInput env (gpkg "x.io/b" ["b.go"] [] None)
                ("b.go" +:+ "package b") "").

Definition heapXYmemo : GoList.heap :=
  {[ "x.io/a" := gpkg "x.io/a" ["a.go"] ["fmt"; "x.io/b"] None;
     "x.io/b" := gpkg "x.io/b" ["b.go"] [] (Some digestB) ]}.

(** A map that lacks the dependency of [x.io/a]. *)
Definition heapX : GoList.heap :=
  {[ "x.io/a" := gpkg "x.io/a" ["a.go"] ["fmt"; "x.io/b"] None ]}.

(** An order of [range] other than the one of the model: the reverse
    one in the call of [load] for [A], the one of the model elsewhere. *)
Definition rangeReverse (p : string) (m : gmap string string) : list string :=
  if decide (p = "A") then reverse (map_to_list m).*2 else (map_to_list m).*2.

End Examples.

(** * Theorems *)

(** ** The digest library *)

Example sha1_empty : hashSumHex "" = "da39a3ee5e6b4b0d3255bfef95601890afd80709".
Proof. vm_compute. reflexivity. Qed.

Example sha1_abc : hashSumHex "abc" = "a9993e364706816aba3e25717850c26c9cd0d89d".
Proof. vm_compute. reflexivity. Qed.

Example sha1_two_blocks :
  hashSumHex "abcdbcdecdefdefgefghfghighijhijkijkljklmklmnlmnomnopnopq"
  = "84983e441c3bd26ebaae4aa1f95129e5e54670f1".
Proof. vm_compute. reflexivity. Qed.

(** A hex digest is never the empty string, the indeterminate sentinel. *)
Lemma hashSumHex_nonempty (h : string) : hashSumHex h ≠ "".
Proof.
  unfold hashSumHex, Sha1.sum.
  destruct (foldl Sha1.compress Sha1.init _) as [[[[a b] c] d] e].
  cbn [Sha1.be_bytes app Hex.EncodeToString].
  unfold Hex.digit at 1. cbn [String.append]. discriminate.
Qed.

(** ** Strings and the hash state *)

Lemma append_cons (x : Ascii.ascii) (a b : string) : String x a +:+ b = String x (a +:+ b).
Proof. reflexivity. Qed.

Lemma append_assoc (a b c : string) : (a +:+ b) +:+ c = a +:+ (b +:+ c).
Proof. induction a as [|x a IH]; [reflexivity|]. by rewrite !append_cons, IH. Qed.

Lemma append_empty_r (a : string) : a +:+ "" = a.
Proof. induction a as [|x a IH]; [reflexivity|]. by rewrite append_cons, IH. Qed.

Lemma concat_cons (x : string) (l : list string) :
  String.concat "" (x :: l) = x +:+ String.concat "" l.
Proof. destruct l; [by rewrite append_empty_r|reflexivity]. Qed.

Lemma concat_app (l1 l2 : list string) :
  String.concat "" (l1 ++ l2) = String.concat "" l1 +:+ String.concat "" l2.
Proof.
  induction l1 as [|x l1 IH]; [reflexivity|].
  rewrite <- app_comm_cons, !concat_cons, IH. by rewrite append_assoc.
Qed.

Lemma foldl_hashWrite (h : string) (l : list string) :
  foldl hashWrite h l = h +:+ String.concat "" l.
Proof.
  revert h. induction l as [|x l IH]; intros h; [by rewrite append_empty_r|].
  cbn [foldl]. rewrite IH, concat_cons. unfold hashWrite. by rewrite append_assoc.
Qed.

Lemma stringList_acc (acc : list string) (args : list strArg) :
  foldl (λ x arg, match arg with Strs l => x ++ l | Str s => x ++ [s] end) acc args
  = acc ++ stringList args.
Proof.
  unfold stringList. revert acc. induction args as [|a args IH]; intros acc; cbn [foldl].
  - by rewrite app_nil_r.
  - rewrite IH. rewrite (IH (match a with Str s => [] ++ [s] | Strs l => [] ++ l end)).
    destruct a; by rewrite app_assoc.
Qed.

Lemma stringList_cons_Strs (l : list string) (args : list strArg) :
  stringList (Strs l :: args) = l ++ stringList args.
Proof. unfold stringList at 1. cbn [foldl]. by rewrite stringList_acc. Qed.

Lemma stringList_cons_Str (s : string) (args : list strArg) :
  stringList (Str s :: args) = s :: stringList args.
Proof. unfold stringList at 1. cbn [foldl]. by rewrite stringList_acc. Qed.


(** ** Fingerprints of pkg.go *)

Module PkgFacts.
Import Pkg PkgSpec.

Lemma same_graph_refl (hp : heap) : same_graph hp hp.
Proof. by intros k. Qed.

Lemma same_graph_trans (h1 h2 h3 : heap) :
  same_graph h1 h2 → same_graph h2 h3 → same_graph h1 h3.
Proof. intros H12 H23 k. by rewrite H12. Qed.

Lemma same_graph_alter (hp : heap) p fp :
  same_graph hp (alter (set_fingerprint fp) p hp).
Proof.
  intros k. destruct (decide (p = k)) as [->|Hne].
  - rewrite lookup_alter_eq. by destruct (hp !! k).
  - by rewrite lookup_alter_ne.
Qed.

Lemma same_graph_lookup (hp hp' : heap) k pk :
  same_graph hp hp' → hp !! k = Some pk →
  ∃ pk', hp' !! k = Some pk' ∧ set_fingerprint None pk = set_fingerprint None pk'.
Proof.
  intros Hs Hk. specialize (Hs k). rewrite Hk in Hs.
  destruct (hp' !! k) as [pk'|]; simpl in Hs; [|discriminate].
  exists pk'. split; [done|]. congruence.
Qed.

Section Facts.

Context (E : Env) (fs : FS).


(** The loop changes the heap only as its recursive calls do. *)
Lemma fingerprintDeps_same_graph rec prace ds h (hp hp' : heap) r :
  (∀ d h1 h2 fp, rec d h1 = Done (fp, h2) → same_graph h1 h2) →
  fingerprintDeps rec prace ds h hp = Done (r, hp') → same_graph hp hp'.
Proof.
  intros Hrec. revert h hp. induction ds as [|d ds IH]; intros h hp; cbn [fingerprintDeps].
  { intros [= <- <-]. apply same_graph_refl. }
  destruct (hp !! d) as [dk|]; [|discriminate].
  destruct (negb prace && Standard dk); [apply IH|].
  destruct (rec d hp) as [[fp hp1]| | | |] eqn:Hd; cbn [obind]; try discriminate.
  destruct (decide (fp = "")).
  - intros [= <- <-]. eauto.
  - intros Hl. eapply same_graph_trans; eauto.
Qed.

(** A call of [Fingerprint] changes nothing but memoised fingerprints. *)
Lemma Fingerprint_same_graph fuel p (hp hp' : heap) fp :
  Fingerprint E fs fuel p hp = Done (fp, hp') → same_graph hp hp'.
Proof.
  revert p hp hp' fp. induction fuel as [|fuel IH]; intros p hp hp' fp; [discriminate|].
  cbn [Fingerprint].
  destruct (hp !! p) as [pk|] eqn:Hp; [|discriminate].
  destruct (fingerprint pk) as [m|]; [by intros [= <- <-]; apply same_graph_refl|].
  destruct (fingerprintDeps _ _ _ _ _) as [[r hp1]| | | |] eqn:Hl;
    cbn [obind]; try discriminate.
  assert (same_graph hp hp1) as H1.
  { eapply fingerprintDeps_same_graph; [|exact Hl]. eauto. }
  destruct r as [fp'|h].
  - intros [= <- <-]. eapply same_graph_trans; [exact H1|apply same_graph_alter].
  - destruct (hashFiles _ _ _ _ _) as [h'| | | |]; cbn [obind]; try discriminate.
    intros [= <- <-]. eapply same_graph_trans; [exact H1|apply same_graph_alter].
Qed.

(** A memoised package answers from the memo and leaves the heap as it is. *)
Lemma Fingerprint_memoised fuel p (hp : heap) pk fp :
  hp !! p = Some pk → fingerprint pk = Some fp →
  Fingerprint E fs (S fuel) p hp = Done (fp, hp).
Proof. intros Hp Hm. cbn [Fingerprint]. by rewrite Hp, Hm. Qed.

Lemma no_sentinel_alter (hp : heap) p s :
  no_sentinel hp → s ≠ "" → no_sentinel (alter (set_fingerprint (Some s)) p hp).
Proof.
  intros Hok Hs k pk s' Hk Hf. destruct (decide (k = p)) as [->|Hne].
  - rewrite lookup_alter_eq in Hk. destruct (hp !! p); [|done].
    injection Hk as <-. simpl in Hf. by injection Hf as <-.
  - rewrite lookup_alter_ne in Hk by done. by apply (Hok k pk).
Qed.

Lemma fingerprintDeps_no_sentinel (rec : string → heap → outcome (string * heap)) prace :
  (∀ p (hp : heap),
     no_sentinel hp →
     match rec p hp with
     | Done (fp, hp') => fp ≠ "" ∧ no_sentinel hp'
     | _ => True
     end) →
  ∀ ds h (hp : heap),
    no_sentinel hp →
    match fingerprintDeps rec prace ds h hp with
    | Done (r, hp') => no_sentinel hp' ∧ ∃ h', r = inr h'
    | _ => True
    end.
Proof.
  intros Hrec. induction ds as [|d ds IH]; intros h hp Hok; cbn [fingerprintDeps];
    [by eauto|].
  destruct (hp !! d) as [dk|]; [|done].
  destruct (negb prace && Standard dk); [by apply IH|].
  specialize (Hrec d hp Hok). destruct (rec d hp) as [[fp hp1]| | | |]; try done.
  cbn [obind]. destruct Hrec as [Hfp Hok1].
  destruct (decide (fp = "")); [done|by apply IH].
Qed.

(** From a heap without memoised sentinel, [Fingerprint] never returns
    the sentinel, and memoises none. *)
Lemma Fingerprint_no_sentinel fuel :
  ∀ p (hp : heap),
    no_sentinel hp →
    match Fingerprint E fs fuel p hp with
    | Done (fp, hp') => fp ≠ "" ∧ no_sentinel hp'
    | _ => True
    end.
Proof.
  induction fuel as [|fuel IH]; intros p hp Hok; [done|]. cbn [Fingerprint].
  destruct (hp !! p) as [pk|] eqn:Hp; [|done].
  destruct (fingerprint pk) as [fp|] eqn:Hf; [split; [by apply (Hok p pk)|done]|].
  pose proof (fingerprintDeps_no_sentinel (Fingerprint E fs fuel) (race pk) IH
                (deps pk) "" hp Hok) as Hd.
  destruct (fingerprintDeps _ _ _ _ _) as [[r hp1]| | | |]; try done. cbn [obind].
  destruct Hd as [Hok1 [h ->]].
  destruct (hashFiles _ _ _ _ _) as [h'| | | |]; try done. cbn [obind].
  split; [apply hashSumHex_nonempty|].
  apply no_sentinel_alter; [done|apply hashSumHex_nonempty].
Qed.


End Facts.



Section Content.

Context (E : Env).

Lemma hashFiles_same_content fs1 fs2 dir files h :
  same_content fs1 fs2 → hashFiles E fs1 dir files h = hashFiles E fs2 dir files h.
Proof.
  intros Hs. revert h. induction files as [|file files IH]; intros h; [reflexivity|].
  cbn [hashFiles]. specialize (Hs (filepath_Join E dir file)).
  destruct (fs1 !! _) as [f1|], (fs2 !! _) as [f2|]; simpl in Hs; try discriminate;
    [|reflexivity].
  injection Hs as Hd _ Hi. rewrite Hd, Hi. destruct (IsDir f2); [reflexivity|apply IH].
Qed.

Lemma fingerprintDeps_ext rec1 rec2 prace ds h (hp : heap) :
  (∀ d hp, rec1 d hp = rec2 d hp) →
  fingerprintDeps rec1 prace ds h hp = fingerprintDeps rec2 prace ds h hp.
Proof.
  intros Hrec. revert h hp. induction ds as [|d ds IH]; intros h hp; [reflexivity|].
  cbn [fingerprintDeps]. destruct (hp !! d) as [dk|]; [|reflexivity].
  destruct (negb prace && Standard dk); [apply IH|].
  rewrite Hrec. destruct (rec2 d hp) as [[fp hp']| | | |]; cbn [obind]; try reflexivity.
  destruct (decide (fp = "")); [reflexivity|apply IH].
Qed.

(** C5, amended.  The digest of a unit does not depend on the
    timestamps of the owned source files: on two file systems that
    differ only in modification times, [Fingerprint] ends the same
    way, with the same digest and the same memoised heap.  (It does
    depend on the names of the files: see the counterexample below.) *)
Theorem Fingerprint_ignores_timestamps fs1 fs2 fuel p (hp : heap) :
  same_content fs1 fs2 →
  Fingerprint E fs1 fuel p hp = Fingerprint E fs2 fuel p hp.
Proof.
  intros Hs. revert p hp. induction fuel as [|fuel IH]; intros p hp; [reflexivity|].
  cbn [Fingerprint]. destruct (hp !! p) as [pk|]; [|reflexivity].
  destruct (fingerprint pk); [reflexivity|].
  rewrite (fingerprintDeps_ext (Fingerprint E fs1 fuel) (Fingerprint E fs2 fuel)) by done.
  destruct (fingerprintDeps _ _ _ _ _) as [[[fp|h] hp1]| | | |]; cbn [obind];
    try reflexivity.
  by rewrite (hashFiles_same_content fs1 fs2).
Qed.

End Content.

Lemma Fingerprint_ignores_timestamps_witness :
  same_content Examples.filesR Examples.filesTouched
  ∧ Fingerprint Examples.env Examples.filesR 1 "r" Examples.heapR
    = Fingerprint Examples.env Examples.filesTouched 1 "r" Examples.heapR.
Proof.
  assert (same_content Examples.filesR Examples.filesTouched) as Hs.
  { intros path. unfold Examples.filesR, Examples.filesTouched.
    destruct (decide (path = "/w/r/a.go")) as [->|Hne].
    - by rewrite !lookup_singleton_eq.
    - by rewrite !lookup_singleton_ne. }
  split; [exact Hs|].
  apply (Fingerprint_ignores_timestamps Examples.env _ _ 1 "r" Examples.heapR Hs).
Defined.

(** C5 as stated fails: renaming the one source file of a unit, its
    bytes and everything else unchanged, changes the digest here,
    because the file name is written to the hash before the content. *)
Lemma Fingerprint_rename_changes_digest :
  digestOf (Fingerprint Examples.env Examples.filesR 1 "r" Examples.heapR)
    = Some "2f0c15bc993320f683da63cd345bafafa0d69259"
  ∧ digestOf (Fingerprint Examples.env Examples.filesRenamed 1 "r" Examples.heapRenamed)
    = Some "69aafe57bb64b7636d2ed93f6e8400133a927e65"
  ∧ digestOf (Fingerprint Examples.env Examples.filesR 1 "r" Examples.heapR)
    ≠ digestOf (Fingerprint Examples.env Examples.filesRenamed 1 "r" Examples.heapRenamed).
Proof. vm_compute. repeat split; discriminate. Qed.


Section StandardLibrary.

Context (E : Env) (fs1 fs2 : FS).

Lemma hashFiles_agree dir files h :
  (∀ file, file ∈ files → fs1 !! filepath_Join E dir file = fs2 !! filepath_Join E dir file) →
  hashFiles E fs1 dir files h = hashFiles E fs2 dir files h.
Proof.
  revert h. induction files as [|file files IH]; intros h Hag; [reflexivity|].
  cbn [hashFiles]. rewrite (Hag file) by left.
  destruct (fs2 !! _) as [f|]; [|reflexivity].
  destruct (IsDir f); [reflexivity|]. apply IH. intros f' Hin. apply Hag. by right.
Qed.

Lemma differ_in_std_alter P (hp1 hp2 : heap) x k :
  differ_in_std E fs1 fs2 P hp1 hp2 →
  differ_in_std E fs1 fs2 P (alter (set_fingerprint x) k hp1)
                (alter (set_fingerprint x) k hp2).
Proof.
  intros Hinv j. specialize (Hinv j). destruct (decide (k = j)) as [->|Hne].
  - rewrite !lookup_alter_eq.
    destruct (hp1 !! j) as [a|], (hp2 !! j) as [b|]; simpl; try done.
    destruct Hinv as [[-> Hns]|[Ha Hb]]; [left|right]; done.
  - by rewrite !lookup_alter_ne.
Qed.

(** The loop over the dependencies of a unit that is no race
    variant, in two runs that differ in standard units only. *)
Lemma fingerprintDeps_differ_in_std P rec1 rec2 ds h (hp1 hp2 : heap) :
  (∀ d (h1 h2 : heap) dk,
     differ_in_std E fs1 fs2 P h1 h2 → P d → h1 !! d = Some dk → Standard dk = false →
     same_outcome (differ_in_std E fs1 fs2 P) (rec1 d h1) (rec2 d h2)) →
  (∀ d, d ∈ ds → P d) →
  differ_in_std E fs1 fs2 P hp1 hp2 →
  same_outcome (differ_in_std E fs1 fs2 P)
    (fingerprintDeps rec1 false ds h hp1) (fingerprintDeps rec2 false ds h hp2).
Proof.
  intros Hrec. revert h hp1 hp2.
  induction ds as [|d ds IH]; intros h hp1 hp2 HP Hinv; cbn [fingerprintDeps]; [done|].
  assert (∀ d', d' ∈ ds → P d') as HP' by (intros; apply HP; by right).
  pose proof (Hinv d) as Hd.
  destruct (hp1 !! d) as [a|] eqn:Ha, (hp2 !! d) as [b|] eqn:Hb; try done.
  destruct Hd as [[<- Hns]|[Hsa Hsb]].
  - destruct (Standard a) eqn:Hstd; cbn [negb andb]; [by apply IH|].
    assert (P d) as HPd by (apply HP; left).
    specialize (Hrec d hp1 hp2 a Hinv HPd Ha Hstd).
    destruct (rec1 d hp1) as [[f1 h1']| | | |], (rec2 d hp2) as [[f2 h2']| | | |];
      cbn [obind]; try done.
    destruct Hrec as [<- Hinv']. destruct (decide (f1 = "")); [done|by apply IH].
  - rewrite Hsa, Hsb. cbn [negb andb]. by apply IH.
Qed.

Lemma Fingerprint_differ_in_std P fuel p pk (hp1 hp2 : heap) :
  differ_in_std E fs1 fs2 P hp1 hp2 → P p → hp1 !! p = Some pk → Standard pk = false →
  same_outcome (differ_in_std E fs1 fs2 P)
    (Fingerprint E fs1 fuel p hp1) (Fingerprint E fs2 fuel p hp2).
Proof.
  revert p pk hp1 hp2.
  induction fuel as [|fuel IH]; intros p pk hp1 hp2 Hinv HPp Hp Hstd; [done|].
  cbn [Fingerprint]. pose proof (Hinv p) as Hpp. rewrite Hp in *.
  destruct (hp2 !! p) as [b|]; [|done].
  destruct Hpp as [[<- Hns]|[Hsa _]]; [|congruence].
  destruct (Hns HPp Hstd) as (Hrace & Hdeps & Hfiles).
  destruct (fingerprint pk); [done|]. rewrite Hrace.
  assert (same_outcome (differ_in_std E fs1 fs2 P)
            (fingerprintDeps (Fingerprint E fs1 fuel) false (deps pk) "" hp1)
            (fingerprintDeps (Fingerprint E fs2 fuel) false (deps pk) "" hp2)) as Hloop.
  { apply fingerprintDeps_differ_in_std; [|done|done]. intros; eapply IH; eauto. }
  destruct (fingerprintDeps _ _ _ _ hp1) as [[r1 h1']| | | |],
           (fingerprintDeps _ _ _ _ hp2) as [[r2 h2']| | | |];
    cbn [obind]; try done.
  destruct Hloop as [<- Hinv'].
  destruct r1 as [fp|h].
  - split; [done|by apply differ_in_std_alter].
  - rewrite (hashFiles_agree _ _ _ Hfiles).
    destruct (hashFiles _ _ _ _ _); cbn [obind]; try done.
    split; [done|by apply differ_in_std_alter].
Qed.

(** C3, amended.  For a unit that is no race variant, [Fingerprint]
    takes in no fingerprint of a standard-library dependency.  Let
    [P] be a set of units closed under dependencies, none of whose
    non-standard members is a race variant.  Two runs whose heaps
    and files differ only in standard-library units (their file
    lists, flags, memoised fingerprints, and the bytes of their
    files) give a non-standard unit of [P] the same digest, or both
    give none. *)
Theorem Fingerprint_ignores_standard_deps P fuel p pk (hp1 hp2 : heap) :
  differ_in_std E fs1 fs2 P hp1 hp2 → P p → hp1 !! p = Some pk → Standard pk = false →
  digestOf (Fingerprint E fs1 fuel p hp1) = digestOf (Fingerprint E fs2 fuel p hp2).
Proof.
  intros Hinv HPp Hp Hstd.
  pose proof (Fingerprint_differ_in_std P fuel p pk hp1 hp2 Hinv HPp Hp Hstd) as H.
  destruct (Fingerprint E fs1 fuel p hp1) as [[f1 h1]| | | |],
           (Fingerprint E fs2 fuel p hp2) as [[f2 h2]| | | |]; simpl in *; try done.
  by destruct H as [-> _].
Qed.

End StandardLibrary.


Lemma Fingerprint_ignores_standard_deps_witness :
  differ_in_std Examples.env Examples.filesStd Examples.filesStdEdited (λ _, True)
                Examples.heapStd Examples.heapStd
  ∧ digestOf (Fingerprint Examples.env Examples.filesStd 2 "u" Examples.heapStd)
    = digestOf (Fingerprint Examples.env Examples.filesStdEdited 2 "u" Examples.heapStd).
Proof.
  assert (differ_in_std Examples.env Examples.filesStd Examples.filesStdEdited (λ _, True)
                        Examples.heapStd Examples.heapStd) as Hinv.
  { intros k. unfold Examples.heapStd.
    destruct (decide (k = "u")) as [->|Hu].
    - rewrite lookup_insert_eq. left. split; [done|]. intros _ _.
      split; [done|]. split; [done|].
      intros file Hin. apply list_elem_of_singleton in Hin as ->. reflexivity.
    - rewrite lookup_insert_ne by done.
      destruct (decide (k = "fmt")) as [->|Hf].
      + rewrite lookup_singleton_eq. by right.
      + by rewrite lookup_singleton_ne. }
  split; [exact Hinv|].
  apply (Fingerprint_ignores_standard_deps Examples.env _ _ (λ _, True) 2 "u"
           (Examples.pkg "/w/u" "u" "/w" ["u.go"] "/w/pkg/u.a" false false ["fmt"])
           _ _ Hinv I); reflexivity.
Defined.

(** C3 as stated fails for a race variant: its digest takes in the
    fingerprint of its standard-library dependency, so editing a file
    of that dependency changes the digest of the dependent. *)
Lemma Fingerprint_race_includes_standard_deps :
  digestOf (Fingerprint Examples.env Examples.filesStd 2 "u:race" Examples.heapStdRace)
    = Some "b416c520d8dc6cc2465e7ec2c7cf92a36d295466"
  ∧ digestOf (Fingerprint Examples.env Examples.filesStdEdited 2 "u:race"
                Examples.heapStdRace)
    = Some "f78024acff76d51c71a2fd1be9fedd7faaf2de0a"
  ∧ digestOf (Fingerprint Examples.env Examples.filesStd 2 "u:race" Examples.heapStdRace)
    ≠ digestOf (Fingerprint Examples.env Examples.filesStdEdited 2 "u:race"
                  Examples.heapStdRace).
Proof. vm_compute. repeat split; discriminate. Qed.


Lemma erase_fields (a b : Package) :
  set_fingerprint None a = set_fingerprint None b →
  deps a = deps b ∧ race a = race b ∧ Standard a = Standard b ∧ Package_ a = Package_ b.
Proof.
  intros H. repeat split.
  - exact (f_equal deps H).
  - exact (f_equal race H).
  - exact (f_equal Standard H).
  - exact (f_equal Package_ H).
Qed.

Section Digest.

Context (E : Env) (fs : FS).

Lemma hashFiles_filesInput dir files h c :
  filesInput E fs dir files = Some c → hashFiles E fs dir files h = Done (h +:+ c).
Proof.
  revert h c. induction files as [|file files IH]; intros h c; cbn [filesInput hashFiles].
  { intros [= <-]. by rewrite append_empty_r. }
  destruct (fs !! _) as [f|]; [|discriminate].
  destruct (IsDir f); [discriminate|].
  destruct (filesInput E fs dir files) as [rest|]; [|discriminate].
  intros [= <-]. rewrite (IH _ rest eq_refl). unfold hashWrite. by rewrite !append_assoc.
Qed.

Lemma hashFiles_Done dir files h h' :
  hashFiles E fs dir files h = Done h' →
  ∃ c, filesInput E fs dir files = Some c ∧ h' = h +:+ c.
Proof.
  revert h h'. induction files as [|file files IH]; intros h h'; cbn [filesInput hashFiles].
  { intros [= <-]. exists "". by rewrite append_empty_r. }
  destruct (fs !! _) as [f|]; [|discriminate].
  destruct (IsDir f); [discriminate|].
  intros (c & -> & ->)%IH. eexists. split; [reflexivity|].
  unfold hashWrite. by rewrite !append_assoc.
Qed.

Lemma fingerprintFlags_input pk h a c :
  h = a →
  foldl hashWrite h (fingerprintFlags E pk) +:+ c = digestInput E pk a c.
Proof.
  intros ->. rewrite foldl_hashWrite. unfold fingerprintFlags, digestInput.
  rewrite !stringList_cons_Str, !stringList_cons_Strs. unfold stringList at 1. cbn [foldl].
  rewrite app_nil_r.
  change (?x :: ?y :: ?z :: ?w :: ?l) with ([x; y; z; w] ++ l).
  rewrite concat_app. by rewrite !append_assoc.
Qed.

Lemma depsInput_ext rec1 rec2 (hp : heap) prace ds :
  (∀ d, rec1 d = rec2 d) → depsInput rec1 hp prace ds = depsInput rec2 hp prace ds.
Proof.
  intros Hrec. induction ds as [|d ds IH]; [reflexivity|]. cbn [depsInput].
  destruct (hp !! d) as [dk|]; [|reflexivity].
  destruct (included prace dk); [|exact IH]. by rewrite Hrec, IH.
Qed.

Lemma depsInput_same_graph rec (hp hp' : heap) prace ds :
  same_graph hp hp' → depsInput rec hp prace ds = depsInput rec hp' prace ds.
Proof.
  intros Hsg. induction ds as [|d ds IH]; [reflexivity|]. cbn [depsInput].
  pose proof (Hsg d) as Hd.
  destruct (hp !! d) as [a|], (hp' !! d) as [b|]; simpl in Hd; try discriminate; [|done].
  apply (inj Some) in Hd. apply erase_fields in Hd as (_ & _ & Hstd & _).
  unfold included. by rewrite Hstd, IH.
Qed.

Lemma digest_same_graph n (hp hp' : heap) k :
  same_graph hp hp' → digest E fs n hp k = digest E fs n hp' k.
Proof.
  intros Hsg. revert k. induction n as [|n IH]; intros k; [reflexivity|]. cbn [digest].
  pose proof (Hsg k) as Hk.
  destruct (hp !! k) as [a|], (hp' !! k) as [b|]; simpl in Hk; try discriminate; [|done].
  apply (inj Some) in Hk. apply erase_fields in Hk as (Hdeps & Hrace & _ & Hbp). simpl.
  rewrite <- Hdeps, <- Hrace.
  rewrite (depsInput_ext (digest E fs n hp) (digest E fs n hp')) by done.
  rewrite (depsInput_same_graph _ hp hp') by done.
  unfold Dir, fingerprintFiles, digestInput, ImportPath. by rewrite Hbp.
Qed.

Lemma depsInput_mono rec1 rec2 (hp : heap) prace ds a :
  (∀ d fp, rec1 d = Some fp → rec2 d = Some fp) →
  depsInput rec1 hp prace ds = Some a → depsInput rec2 hp prace ds = Some a.
Proof.
  intros Hrec. revert a. induction ds as [|d ds IH]; intros a; [done|]. cbn [depsInput].
  destruct (hp !! d) as [dk|]; [|done].
  destruct (included prace dk); [|apply IH].
  destruct (rec1 d) as [fp|] eqn:Hd; [|done]. rewrite (Hrec _ _ Hd). simpl.
  destruct (depsInput rec1 hp prace ds) as [rest|]; [|done].
  by rewrite (IH rest eq_refl).
Qed.

#[local] Arguments digest : simpl never.

Lemma digest_unfold n (hp : heap) k :
  digest E fs (S n) hp k =
  (pk ← hp !! k;
   a ← depsInput (digest E fs n hp) hp (race pk) (deps pk);
   c ← filesInput E fs (Dir pk) (fingerprintFiles pk);
   Some (hashSumHex (digestInput E pk a c))).
Proof. reflexivity. Qed.

Lemma digest_S n (hp : heap) k fp :
  digest E fs n hp k = Some fp → digest E fs (S n) hp k = Some fp.
Proof.
  revert k fp. induction n as [|n IH]; intros k fp; [discriminate|].
  rewrite (digest_unfold (S n)), (digest_unfold n).
  destruct (hp !! k) as [pk|]; [|done]. simpl.
  destruct (depsInput (digest E fs n hp) _ _ _) as [a|] eqn:Ha; [|done].
  by rewrite (depsInput_mono _ (digest E fs (S n) hp) _ _ _ _ IH Ha).
Qed.

Lemma digest_le n m (hp : heap) k fp :
  (n ≤ m)%nat → digest E fs n hp k = Some fp → digest E fs m hp k = Some fp.
Proof. induction 1; [done|]. intros. apply digest_S. auto. Qed.

Lemma digest_det n m (hp : heap) k a b :
  digest E fs n hp k = Some a → digest E fs m hp k = Some b → a = b.
Proof.
  intros Ha Hb. apply (digest_le n (n `max` m)) in Ha; [|lia].
  apply (digest_le m (n `max` m)) in Hb; [|lia]. congruence.
Qed.

Lemma digest_nonempty n (hp : heap) k fp : digest E fs n hp k = Some fp → fp ≠ "".
Proof.
  destruct n as [|n]; [by change (digest E fs 0 hp k) with (@None string)|].
  rewrite digest_unfold.
  destruct (hp !! k) as [pk|]; [|discriminate]. simpl.
  destruct (depsInput _ _ _ _); [|discriminate]. simpl.
  destruct (filesInput _ _ _ _); [|discriminate]. simpl.
  intros [= <-]. apply hashSumHex_nonempty.
Qed.

End Digest.

Section Refinement.

Context (E : Env) (fs : FS).

#[local] Arguments digest : simpl never.

Lemma consistent_alter (hp hp1 : heap) p s n :
  consistent E fs hp1 → same_graph hp hp1 → digest E fs n hp p = Some s →
  consistent E fs (alter (set_fingerprint (Some s)) p hp1).
Proof.
  intros Hc Hsg Hd k pk fp Hk Hfp.
  assert (same_graph hp1 (alter (set_fingerprint (Some s)) p hp1)) as Hsa
    by apply same_graph_alter.
  destruct (decide (p = k)) as [->|Hne].
  - rewrite lookup_alter_eq in Hk. destruct (hp1 !! k) as [pk1|]; [|done].
    simpl in Hk. injection Hk as <-. simpl in Hfp. injection Hfp as <-.
    exists n. rewrite <- (digest_same_graph E fs n hp) by (by eapply same_graph_trans). done.
  - rewrite lookup_alter_ne in Hk by done.
    destruct (Hc k pk fp Hk Hfp) as [m Hm]. exists m.
    by rewrite <- (digest_same_graph E fs m hp1).
Qed.

Lemma fingerprintDeps_refines n (hp0 hp : heap) prace ds a h :
  (∀ p (hp : heap) fp,
     consistent E fs hp → digest E fs n hp p = Some fp →
     ∃ hp', Fingerprint E fs n p hp = Done (fp, hp') ∧ consistent E fs hp' ∧ same_graph hp hp') →
  same_graph hp0 hp → consistent E fs hp →
  depsInput (digest E fs n hp0) hp0 prace ds = Some a →
  ∃ hp', fingerprintDeps (Fingerprint E fs n) prace ds h hp = Done (inr (h +:+ a), hp')
         ∧ consistent E fs hp' ∧ same_graph hp0 hp'.
Proof.
  intros IH. revert a h hp. induction ds as [|d ds IHds]; intros a h hp Hsg Hc;
    cbn [depsInput fingerprintDeps].
  { intros [= <-]. exists hp. by rewrite append_empty_r. }
  destruct (hp0 !! d) as [dk0|] eqn:Hd0; [|discriminate].
  destruct (same_graph_lookup _ _ _ _ Hsg Hd0) as (dk & Hd & Heq). rewrite Hd.
  apply erase_fields in Heq as (_ & _ & Hstd & _).
  unfold included. rewrite Hstd.
  destruct (negb prace && Standard dk); cbn [negb]; [by apply IHds|].
  destruct (digest E fs n hp0 d) as [fp|] eqn:Hfp; [|discriminate]. simpl.
  destruct (depsInput _ _ _ ds) as [rest|] eqn:Hrest; [|discriminate].
  intros [= <-].
  rewrite (digest_same_graph E fs n hp0 hp) in Hfp by done.
  destruct (IH d hp fp Hc Hfp) as (hp1 & -> & Hc1 & Hsg1). cbn [obind].
  destruct (decide (fp = "")) as [->|_]; [by apply digest_nonempty in Hfp|].
  destruct (IHds rest (hashWrite h fp) hp1) as (hp' & -> & Hc' & Hsg'); [|done|done|].
  { by eapply same_graph_trans. }
  exists hp'. unfold hashWrite. by rewrite append_assoc.
Qed.

(** [Fingerprint] refines [digest]: where the digest of the graph is
    defined within depth [n], the call with fuel [n] returns it. *)
Lemma Fingerprint_refines n p (hp : heap) fp :
  consistent E fs hp → digest E fs n hp p = Some fp →
  ∃ hp', Fingerprint E fs n p hp = Done (fp, hp') ∧ consistent E fs hp' ∧ same_graph hp hp'.
Proof.
  revert p hp fp. induction n as [|n IH]; intros p hp fp Hc; [discriminate|].
  rewrite digest_unfold. intros Hd. cbn [Fingerprint].
  destruct (hp !! p) as [pk|] eqn:Hp; [|discriminate]. simpl in Hd.
  destruct (depsInput _ _ _ _) as [a|] eqn:Ha; [|discriminate]. simpl in Hd.
  destruct (filesInput _ _ _ _) as [c|] eqn:Hfiles; [|discriminate]. simpl in Hd.
  injection Hd as <-.
  assert (digest E fs (S n) hp p = Some (hashSumHex (digestInput E pk a c))) as Hdig.
  { rewrite digest_unfold, Hp. simpl. rewrite Ha. simpl. by rewrite Hfiles. }
  destruct (fingerprint pk) as [m|] eqn:Hm.
  { exists hp. destruct (Hc p pk m Hp Hm) as [k Hk].
    rewrite (digest_det E fs _ _ _ _ _ _ Hk Hdig). split; [done|]. split; [done|].
    apply same_graph_refl. }
  destruct (fingerprintDeps_refines n hp hp (race pk) (deps pk) a "" IH
              (same_graph_refl hp) Hc Ha) as (hp1 & -> & Hc1 & Hsg1).
  cbn [obind].
  rewrite (hashFiles_filesInput E fs _ _ _ c Hfiles). cbn [obind].
  rewrite (fingerprintFlags_input E pk _ a c) by reflexivity.
  eexists. split; [reflexivity|]. split.
  - by eapply consistent_alter.
  - eapply same_graph_trans; [exact Hsg1|apply same_graph_alter].
Qed.

End Refinement.

Section Order.

Context (E : Env) (fs : FS).

(** A heap without memoised fingerprints, as the loader leaves it, is consistent. *)
Lemma fresh_consistent (hp : heap) :
  (∀ k pk, hp !! k = Some pk → fingerprint pk = None) → consistent E fs hp.
Proof. intros Hfresh k pk fp Hk Hfp. rewrite (Hfresh k pk Hk) in Hfp. discriminate. Qed.

(** The files are hashed by category in this order, each category in
    the order of the provider. *)
Lemma fingerprintFiles_order (pk : Package) :
  fingerprintFiles pk =
  let bp := Package_ pk in
  Build.GoFiles bp ++ Build.CgoFiles bp ++ Build.CFiles bp ++ Build.CXXFiles bp
  ++ Build.MFiles bp ++ Build.HFiles bp ++ Build.SFiles bp ++ Build.SwigFiles bp
  ++ Build.SwigCXXFiles bp ++ Build.SysoFiles bp.
Proof.
  unfold fingerprintFiles. rewrite !stringList_cons_Strs. unfold stringList. cbn [foldl].
  by rewrite app_nil_r.
Qed.

(** C1, amended.  [Fingerprint] feeds the hash in this order: first the
    fingerprints of the units of [p.deps] (the direct and transitive
    dependencies), in the order of that list, without the
    standard-library ones unless [p] is a race variant; then the
    toolchain identity (version, OS, architecture) and the import path;
    then the five flag lists in the order of the provider; last, for
    every owned source file in the fixed category order and, within a
    category, in the order of the provider, the name of the file and
    then its bytes.  Where these inputs exist ([depsInput], [filesInput])
    the call returns the hex SHA-1 of their concatenation in that order
    and memoises it. *)
Theorem Fingerprint_hash_order n p pk a c (hp : heap) :
  consistent E fs hp → hp !! p = Some pk → fingerprint pk = None →
  depsInput (digest E fs n hp) hp (race pk) (deps pk) = Some a →
  filesInput E fs (Dir pk) (fingerprintFiles pk) = Some c →
  ∃ hp', Fingerprint E fs (S n) p hp = Done (hashSumHex (digestInput E pk a c), hp')
         ∧ fingerprint <$> hp' !! p = Some (Some (hashSumHex (digestInput E pk a c))).
Proof.
  intros Hc Hp Hm Ha Hfiles.
  assert (digest E fs (S n) hp p = Some (hashSumHex (digestInput E pk a c))) as Hdig.
  { rewrite digest_unfold, Hp. simpl. rewrite Ha. simpl. by rewrite Hfiles. }
  destruct (Fingerprint_refines E fs (S n) p hp _ Hc Hdig) as (hp' & Hrun & _ & Hsg).
  exists hp'. split; [exact Hrun|].
  revert Hrun. cbn [Fingerprint]. rewrite Hp, Hm.
  destruct (fingerprintDeps _ _ _ _ _) as [[[fp|h] hp1]| | | |] eqn:Hl; cbn [obind];
    try discriminate.
  - intros [= Hfp <-].
    assert (same_graph hp hp1) as Hsg1.
    { eapply fingerprintDeps_same_graph; [|exact Hl].
      intros. eapply Fingerprint_same_graph; eauto. }
    destruct (same_graph_lookup _ _ _ _ Hsg1 Hp) as (pk1 & Hp1 & _).
    by rewrite lookup_alter_eq, Hp1, Hfp.
  - destruct (hashFiles _ _ _ _ _) as [h'| | | |]; cbn [obind]; try discriminate.
    intros [= Hfp <-].
    assert (same_graph hp hp1) as Hsg1.
    { eapply fingerprintDeps_same_graph; [|exact Hl].
      intros. eapply Fingerprint_same_graph; eauto. }
    destruct (same_graph_lookup _ _ _ _ Hsg1 Hp) as (pk1 & Hp1 & _).
    by rewrite lookup_alter_eq, Hp1, Hfp.
Qed.

End Order.


Lemma Fingerprint_hash_order_witness :
  ∃ hp',
    Fingerprint Examples.env Examples.filesAB 2 "a" Examples.heapAB
    = Done (hashSumHex ("b2a1bfc48ae9d51fd4e8b34e2a4907970086591e" +:+ "go1.4linuxamd64a"), hp')
    ∧ fingerprint <$> hp' !! "a"
      = Some (Some (hashSumHex ("b2a1bfc48ae9d51fd4e8b34e2a4907970086591e"
                                +:+ "go1.4linuxamd64a"))).
Proof.
  assert (consistent Examples.env Examples.filesAB Examples.heapAB) as Hc.
  { apply fresh_consistent. intros k pk Hk. unfold Examples.heapAB in Hk.
    apply lookup_insert_Some in Hk as [[_ <-]|[_ Hk]]; [reflexivity|].
    apply lookup_singleton_Some in Hk as [_ <-]. reflexivity. }
  apply (Fingerprint_hash_order Examples.env Examples.filesAB 1 "a"
           (Examples.pkg "/w/a" "a" "/w" [] "/w/pkg/a.a" false false ["b"])
           "b2a1bfc48ae9d51fd4e8b34e2a4907970086591e" "" Examples.heapAB Hc);
    vm_compute; reflexivity.
Defined.

(** C1 as stated fails.  Unit [a] depends on unit [b], and neither owns
    a file.  The code writes the fingerprint of [b] to the hash before
    the toolchain identity and the import path of [a]; the order of the
    specification, identity first and dependencies last, gives another
    digest. *)
Lemma Fingerprint_not_in_spec_order :
  digestOf (Fingerprint Examples.env ∅ 2 "b" Examples.heapOrder)
    = Some "e76c20e39d3a976b6cedea740ed438f40bfebe05"
  ∧ digestOf (Fingerprint Examples.env ∅ 2 "a" Examples.heapOrder)
    = Some (hashSumHex ("e76c20e39d3a976b6cedea740ed438f40bfebe05" +:+ "go1.4linuxamd64a"))
  ∧ digestOf (Fingerprint Examples.env ∅ 2 "a" Examples.heapOrder)
    ≠ Some (hashSumHex (specOrderInput Examples.env Examples.pkgOrderA ""
                          "e76c20e39d3a976b6cedea740ed438f40bfebe05")).
Proof. vm_compute. repeat split; discriminate. Qed.


(** ** Staleness *)

Section StaleFacts.

Context (E : Env) (fs : FS).

(** C8, amended.  A unit whose root is not empty and not the root of a
    requested unit is reported fresh whatever the modification times of
    its own source files, provided the earlier rules do not make it
    stale: it has no load error, it has an install target and is not
    flagged stale already, its artifact exists, and no dependency is
    stale or has a missing or newer artifact. *)
Theorem isStale_outside_requested_roots (hp : heap) pk topRoot fi :
  Root pk ≠ "" → Root pk ∉ topRoot →
  Error pk = None → Target pk ≠ "" → Stale pk = false →
  fs !! Target pk = Some fi → modTime fi ≠ 0 →
  staleDeps fs hp (modTime fi) (deps pk) = Done false →
  isStale E fs hp pk topRoot = Done (false, []).
Proof.
  intros Hroot Htop Herr Htarget Hstale Hfi Hbuilt Hdeps. unfold isStale.
  destruct (Standard pk && _); [reflexivity|].
  rewrite Herr. rewrite bool_decide_false by (intros H; by apply H).
  destruct (bool_decide (Build.GoFiles _ = []) && _ && _ && _ && _); [reflexivity|].
  rewrite (bool_decide_false (Target pk = "")) by done. rewrite Hstale. cbn [orb].
  rewrite Hfi. rewrite bool_decide_false by done. rewrite Hdeps. cbn [obind].
  rewrite (bool_decide_true (Root pk ≠ "")) by done.
  by rewrite (bool_decide_false (Root pk ∈ topRoot)) by done.
Qed.

End StaleFacts.

Lemma isStale_outside_requested_roots_witness :
  isStale Examples.env Examples.filesOutsideTouched Examples.heapOutside
    (Examples.pkgI "/other/x" "x" "/other" ["x.go"] "/other/pkg/x.a" ["y"] ["y"]) {["/w"]}
  = Done (false, []).
Proof.
  apply (isStale_outside_requested_roots Examples.env Examples.filesOutsideTouched
           Examples.heapOutside _ {["/w"]} (Examples.file "X" 20)); done.
Defined.

(** C8 as stated fails: [x] lies in a tree that holds no requested unit,
    yet the evaluator marks it stale, because the artifact of its
    dependency [y] has a later modification time than its own. *)
Lemma computeStale_outside_roots_stale :
  (evaluated (computeStale Examples.env Examples.filesOutside 5 ["r"] Examples.heapOutside)
   ≫= λ hp, staleOf hp "x") = Some true
  ∧ (Root <$> Examples.heapOutside !! "x") = Some "/other"
  ∧ "/other" ∉ topRootOf Examples.heapOutside ["r"].
Proof.
  split; [vm_compute; reflexivity|]. split; [reflexivity|].
  vm_compute. discriminate.
Qed.

(** C7 as stated fails: [broken] is a dependency of [meta] and is marked
    stale (it has a load error), but [meta], which owns no Go source,
    is marked fresh. *)
Lemma computeStale_no_source_not_stale :
  (Examples.heapMeta !! "meta" ≫= λ pk, Some (deps pk)) = Some ["broken"]
  ∧ (evaluated (computeStale Examples.env ∅ 5 ["meta"] Examples.heapMeta)
     ≫= λ hp, staleOf hp "broken") = Some true
  ∧ (evaluated (computeStale Examples.env ∅ 5 ["meta"] Examples.heapMeta)
     ≫= λ hp, staleOf hp "meta") = Some false.
Proof. vm_compute. done. Qed.


(** ** The store and the commands *)

Section StoreFacts.

Context (E : Env).

(** C9.  An insert through [linkOrCopy] reports success (the nil error)
    whenever the existence check finds the destination, and whenever
    the check does not find it but the hard link then fails with an
    already-exists error, as it does when a concurrent writer completes
    the same insert between the check and the link. *)
Theorem linkOrCopy_already_exists_is_success src dst (w : World heap) :
  (∃ w1, exists_ E dst w = (Done true, w1))
  ∨ (∃ w1 w2 e, exists_ E dst w = (Done false, w1)
                ∧ os_Link E src dst w1 = (Done (inl e), w2) ∧ IsExist e = true) →
  ∃ w', linkOrCopy E src dst w = (Done None, w').
Proof.
  intros [(w1 & Hex)|(w1 & w2 & e & Hex & Hlink & He)]; unfold linkOrCopy, mbind.
  - rewrite Hex. by exists w1.
  - rewrite Hex, Hlink, He. by exists w2.
Qed.

(** The race of C9 in terms of the files: the destination is absent at
    the check and present, by the work of another process, at the link. *)
Lemma linkOrCopy_lost_race src dst (w : World heap) :
  let fs1 := others E (ticks w) (files w) in
  let fs2 := others E (S (ticks w)) fs1 in
  fault E (ticks w) = None → fault E (S (ticks w)) = None →
  fs1 !! dst = None → is_Some (fs2 !! src) → is_Some (fs2 !! dst) →
  linkOrCopy E src dst w
  = (Done None, mkWorld (packageCache w) fs2 (logged w) (S (S (ticks w)))).
Proof.
  intros fs1 fs2 Hf1 Hf2 Habsent [f Hsrc] [g Hdst].
  unfold linkOrCopy, mbind, exists_, mbind, os_Stat, os_Link, syscall, mret. cbn.
  fold fs1. rewrite Hf1, Habsent. cbn. rewrite Hf2. fold fs2. by rewrite Hsrc, Hdst.
Qed.

(** C10.  When the cache directory does not exist, [restore] prints one
    line and exits with status 0.  The heap of packages is as before
    (no unit was loaded, no fingerprint computed) and the files are as
    the other processes left them at the existence check, the only
    system call made. *)
Theorem restore_without_cache_dir fuel args (w : World heap) :
  fault E (ticks w) = Some ENOENT
  ∨ (fault E (ticks w) = None ∧ others E (ticks w) (files w) !! cacheDir E = None) →
  restore E fuel args w
  = (Exit 0, mkWorld (packageCache w) (others E (ticks w) (files w))
                     (logged w ++ [cacheDir E +:+ " does not exist"]) (S (ticks w))).
Proof.
  intros Hmissing.
  unfold restore, mbind, exists_, mbind, os_Stat, syscall, mret, log_Printf, os_Exit. cbn.
  destruct Hmissing as [->|[-> ->]]; reflexivity.
Qed.

End StoreFacts.

Lemma linkOrCopy_already_exists_witness :
  ∃ w', linkOrCopy Examples.envRace "/w/pkg/a.a" "/cache/abc" Examples.worldRace
        = (Done None, w').
Proof.
  apply (linkOrCopy_already_exists_is_success Examples.envRace "/w/pkg/a.a" "/cache/abc"
           Examples.worldRace).
  right. eexists _, _, EEXIST. repeat split; vm_compute; reflexivity.
Defined.

Lemma restore_without_cache_dir_witness :
  restore Examples.env 5 ["a"] Examples.worldNoCache
  = (Exit 0, mkWorld Examples.heapAB Examples.filesAB
                     ["/home/u/buildcache does not exist"] 1).
Proof.
  apply (restore_without_cache_dir Examples.env 5 ["a"] Examples.worldNoCache).
  right. split; reflexivity.
Defined.


(** ** The order of the dependency list *)

Lemma ltb_false_le (a b : string) : String.ltb b a = false ↔ String.le a b.
Proof.
  unfold String.le, String.ltb, String.leb. rewrite (String.compare_antisym a b).
  destruct (String.compare b a); simpl; naive_solver.
Qed.

Section DepsOrder.

Context (hp : heap).

#[local] Instance noLess_trans : Transitive (noLess hp).
Proof.
  intros a b c. unfold noLess, Less. rewrite !ltb_false_le. apply transitivity.
Qed.

Lemma Less_noLess a b : Less hp a b = true → noLess hp a b.
Proof.
  unfold noLess, Less. intros H. apply ltb_false_le.
  destruct (total String.le (ImportPathOf hp a) (ImportPathOf hp b)) as [|Hba]; [done|].
  apply ltb_false_le in Hba. congruence.
Qed.

Lemma noLess_same_path a b :
  noLess hp a b → noLess hp b a → ImportPathOf hp a = ImportPathOf hp b.
Proof. unfold noLess, Less. rewrite !ltb_false_le. apply (anti_symm String.le). Qed.

Lemma insertSorted_perm x l : insertSorted hp x l ≡ₚ x :: l.
Proof.
  induction l as [|y l IH]; [reflexivity|]. cbn [insertSorted].
  destruct (Less hp y x); [|reflexivity]. rewrite IH. apply Permutation_swap.
Qed.

Lemma insertSorted_sorted x l :
  Sorted (noLess hp) l → Sorted (noLess hp) (insertSorted hp x l).
Proof.
  induction 1 as [|y l Hl IH Hhd]; cbn [insertSorted]; [by repeat constructor|].
  destruct (Less hp y x) eqn:Hyx.
  - constructor; [done|]. destruct Hhd as [|z l Hyz]; cbn [insertSorted].
    + constructor. by apply Less_noLess.
    + destruct (Less hp z x); constructor; [done|]. by apply Less_noLess.
  - constructor; [by constructor|]. by constructor.
Qed.

(** The sort of the model meets the contract of [sort.Sort]. *)
Lemma sortPackageList_sortSort l : sortSort hp l (sortPackageList hp l).
Proof.
  split.
  - induction l as [|x l IH]; [reflexivity|]. unfold sortPackageList. cbn [foldr].
    rewrite insertSorted_perm. by constructor.
  - induction l as [|x l IH]; [constructor|]. by apply insertSorted_sorted.
Qed.

(** Two sorted permutations of the same packages are the same list,
    when an import path names one package. *)
Lemma sortSort_unique l1 l2 r1 r2 :
  l1 ≡ₚ l2 →
  (∀ a b, a ∈ l1 → b ∈ l1 → ImportPathOf hp a = ImportPathOf hp b → a = b) →
  sortSort hp l1 r1 → sortSort hp l2 r2 → r1 = r2.
Proof.
  intros Hperm Hinj [Hp1 Hs1] [Hp2 Hs2].
  apply (Sorted_unique_strong (noLess hp)); [|done|done|].
  - intros a b Ha Hb Hab Hba. apply Hinj.
    + by rewrite Hp1.
    + by rewrite Hperm, Hp2.
    + by apply noLess_same_path.
  - by rewrite <- Hp1, Hperm.
Qed.

End DepsOrder.

(** ** The post-order walk of [computeStale] *)

Section Walk.

Context (rk : string → nat) (hp : heap).

Lemma before_app_r l l' x y : before l x y → before (l ++ l') x y.
Proof.
  intros (i & j & Hij & Hi & Hj). exists i, j.
  split; [done|]. split; by apply lookup_app_l_Some.
Qed.

Lemma before_snoc l x y : x ∈ l → before (l ++ [y]) x y.
Proof.
  intros (i & Hi)%list_elem_of_lookup. exists i, (length l).
  split; [by eapply lookup_lt_Some|]. split; [by apply lookup_app_l_Some|].
  by rewrite list_lookup_middle.
Qed.

Lemma before_trans l x y z : NoDup l → before l x y → before l y z → before l x z.
Proof.
  intros Hnd (i & j & Hij & Hi & Hj) (j' & k & Hjk & Hj' & Hk).
  assert (j = j') as <- by (eapply NoDup_lookup; eauto).
  exists i, k. split; [lia|done].
Qed.

Lemma before_elem_of l x y : before l x y → x ∈ l ∧ y ∈ l.
Proof.
  intros (i & j & _ & Hi & Hj). split; by eapply list_elem_of_lookup_2.
Qed.

(** In a duplicate-free list, what comes before [y] is in the part that
    precedes [y]. *)
Lemma before_split l1 l2 x y : NoDup (l1 ++ y :: l2) → before (l1 ++ y :: l2) x y → x ∈ l1.
Proof.
  intros Hnd (i & j & Hij & Hi & Hj).
  assert (j = length l1) as ->.
  { eapply NoDup_lookup; [exact Hnd|exact Hj|]. by rewrite list_lookup_middle. }
  rewrite lookup_app_l in Hi by done. by eapply list_elem_of_lookup_2.
Qed.

Lemma postorder_app_r all new :
  postorder hp all → (∀ x y, x ∈ new → y ∈ importsOf hp x → before (all ++ new) y x) →
  postorder hp (all ++ new).
Proof.
  intros Hpo Hnew x y [Hx|Hx]%elem_of_app Hy; [|by apply Hnew].
  apply before_app_r. by apply Hpo.
Qed.

Lemma walked_refl fuel targets seen all :
  NoDup all → postorder hp all → (∀ t, t ∈ targets → t ∈ all) →
  walked rk hp fuel targets seen all (Done (seen, all)).
Proof.
  intros Hnd Hpo Ht. exists []. rewrite app_nil_r. split_and!; try done.
  - intros x. split; [by left|]. by intros [Hx|Hx%elem_of_nil].
  - by intros x Hx%elem_of_nil.
Qed.

Lemma foldl_walk_stuck fuel (o : outcome (gset string * list string)) l :
  (∀ st, o ≠ Done st) →
  foldl (λ acc p1, st ← acc ;;; walk fuel hp p1 st) o l = o.
Proof.
  intros Ho. induction l as [|y l IH]; [done|]. cbn [foldl].
  destruct o as [st| | | |]; [by destruct (Ho st)|exact IH..].
Qed.

(** A loop of walks, given the property of each walk. *)
Lemma foldl_walked fuel (Q : string → Prop) l :
  (∀ p seen all,
     p ∈ l → is_Some (hp !! p) →
     (∀ x, x ∈ all → x ∈ seen) → (∀ x, x ∈ seen → x ∈ all ∨ (rk p < rk x)%nat) →
     NoDup all → postorder hp all →
     walked rk hp fuel [p] seen all (walk fuel hp p (seen, all))) →
  ∀ seen all,
    (∀ y, y ∈ l → is_Some (hp !! y) ∧ ∀ x, Q x → (rk y < rk x)%nat) →
    (∀ x, x ∈ all → x ∈ seen) → (∀ x, x ∈ seen → x ∈ all ∨ Q x) →
    NoDup all → postorder hp all →
    walked rk hp fuel l seen all
      (foldl (λ acc p1, st ← acc ;;; walk fuel hp p1 st) (Done (seen, all)) l).
Proof.
  induction l as [|y l IH]; intros Hwalk seen all Hl Hsub Hseen Hnd Hpo.
  { apply walked_refl; [done|done|]. by intros t Ht%elem_of_nil. }
  cbn [foldl obind].
  destruct (Hl y) as [Hy HQ]; [by left|].
  assert (walked rk hp fuel [y] seen all (walk fuel hp y (seen, all))) as Hw.
  { apply Hwalk; [by left|done|done| |done|done].
    intros x Hx. destruct (Hseen x Hx); [by left|right; by apply HQ]. }
  destruct (walk fuel hp y (seen, all)) as [[seen1 all1]| | | |]; try done.
  - destruct Hw as (new1 & -> & Hs1 & Hn1 & Hnd1 & Hpo1 & Ht1).
    specialize (IH (λ p s a Hp, Hwalk p s a (list_elem_of_further _ _ _ Hp)) seen1 (all ++ new1)).
    assert (walked rk hp fuel l seen1 (all ++ new1)
              (foldl (λ acc p1, st ← acc ;;; walk fuel hp p1 st)
                     (Done (seen1, all ++ new1)) l)) as Hrest.
    { apply IH.
      - intros z Hz. apply Hl. by right.
      - intros x [Hx|Hx]%elem_of_app; apply Hs1; [left; by apply Hsub|by right].
      - intros x [Hx|Hx]%Hs1; [|left; apply elem_of_app; by right].
        destruct (Hseen x Hx); [left; apply elem_of_app; by left|by right].
      - done.
      - done. }
    destruct (foldl _ _ l) as [[seen2 all2]| | | |]; try done.
    + destruct Hrest as (new2 & -> & Hs2 & Hn2 & Hnd2 & Hpo2 & Ht2).
      exists (new1 ++ new2). rewrite app_assoc. split; [done|]. split; [|split; [|split; [|split]]].
      * intros x. rewrite Hs2, Hs1, elem_of_app. tauto.
      * intros x [Hx|Hx]%elem_of_app; [by apply Hn1|].
        destruct (Hn2 x Hx) as [Hns Hsome]. split; [|done].
        intros Hxs. apply Hns, Hs1. by left.
      * done.
      * done.
      * intros t [->|Ht]%elem_of_cons; [|by apply Ht2].
        apply elem_of_app. left. apply Ht1. by left.
    + destruct Hrest as (t & Ht & Hfuel). exists t. split; [by right|done].
  - rewrite foldl_walk_stuck by done.
    destruct Hw as (t & ->%list_elem_of_singleton & Hfuel). exists y. split; [by left|done].
Qed.

Lemma importsOf_lookup p pk : hp !! p = Some pk → default [] (imports pk) = importsOf hp p.
Proof. intros Hp. unfold importsOf. by rewrite Hp. Qed.

(** One walk, in a graph without import cycle. *)
Lemma walk_walked fuel p seen all :
  acyclic_imports rk hp → is_Some (hp !! p) →
  (∀ x, x ∈ all → x ∈ seen) → (∀ x, x ∈ seen → x ∈ all ∨ (rk p < rk x)%nat) →
  NoDup all → postorder hp all →
  walked rk hp fuel [p] seen all (walk fuel hp p (seen, all)).
Proof.
  intros Hacyc. revert p seen all.
  induction fuel as [|fuel IH]; intros p seen all [pk Hp] Hsub Hseen Hnd Hpo.
  { exists p. split; [by left|lia]. }
  cbn [walk]. case_bool_decide as Hin.
  { apply walked_refl; [done|done|].
    intros t ->%list_elem_of_singleton. destruct (Hseen p Hin); [done|lia]. }
  rewrite Hp, (importsOf_lookup p pk Hp).
  assert (walked rk hp fuel (importsOf hp p) ({[p]} ∪ seen) all
            (foldl (λ acc p1, st ← acc ;;; walk fuel hp p1 st)
                   (Done ({[p]} ∪ seen, all)) (importsOf hp p))) as Hloop.
  { apply (foldl_walked fuel (λ x, (rk p ≤ rk x)%nat)).
    - intros. by apply IH.
    - intros y Hy. destruct (Hacyc p y Hy) as [Hsome Hlt]. split; [done|]. intros; lia.
    - intros x Hx. apply elem_of_union. right. by apply Hsub.
    - intros x [Hx%elem_of_singleton|Hx]%elem_of_union; [subst; right; lia|].
      destruct (Hseen x Hx); [by left|right; lia].
    - done.
    - done. }
  destruct (foldl _ _ _) as [[seen1 all1]| | | |]; try done; cbn [obind].
  - destruct Hloop as (new1 & -> & Hs1 & Hn1 & Hnd1 & Hpo1 & Ht1).
    assert (p ∉ all ++ new1) as Hp1.
    { intros [Hx|Hx]%elem_of_app; [by apply Hin, Hsub|].
      apply (Hn1 p Hx), elem_of_union. left. by apply elem_of_singleton. }
    exists (new1 ++ [p]). rewrite app_assoc. split_and!; [done| | | | |].
    + intros x. split.
      * intros [[Hx%elem_of_singleton|Hx]%elem_of_union|Hx]%Hs1.
        -- subst. right. apply elem_of_app. right. by left.
        -- by left.
        -- right. apply elem_of_app. by left.
      * intros [Hx|[Hx|Hx%list_elem_of_singleton]%elem_of_app]; apply Hs1.
        -- left. apply elem_of_union. by right.
        -- by right.
        -- subst. left. apply elem_of_union. left. by apply elem_of_singleton.
    + intros x [Hx|Hx%list_elem_of_singleton]%elem_of_app; [|by subst].
      destruct (Hn1 x Hx) as [Hns Hsome]. split; [|done].
      intros Hxs. apply Hns, elem_of_union. by right.
    + apply NoDup_app. split; [done|]. split; [|apply NoDup_singleton].
      by intros x Hx ->%list_elem_of_singleton.
    + apply postorder_app_r; [done|].
      intros x y ->%list_elem_of_singleton Hy. apply before_snoc. by apply Ht1.
    + intros t ->%list_elem_of_singleton. apply elem_of_app. right. by left.
  - destruct Hloop as (t & Ht & Hfuel). exists p. split; [by left|].
    destruct (Hacyc p t Ht) as [_ Hlt]. lia.
Qed.

(** [packageList]: the roots and all they reach, in post-order. *)
Lemma packageList_walked fuel roots :
  acyclic_imports rk hp → (∀ r, r ∈ roots → is_Some (hp !! r)) →
  match packageList fuel hp roots with
  | Done all =>
      NoDup all ∧ postorder hp all ∧ (∀ r, r ∈ roots → r ∈ all)
      ∧ ∀ x, x ∈ all → is_Some (hp !! x)
  | OutOfFuel => ∃ r, r ∈ roots ∧ (fuel ≤ rk r)%nat
  | _ => False
  end.
Proof.
  intros Hacyc Hroots. unfold packageList.
  assert (walked rk hp fuel roots ∅ []
            (foldl (λ acc root, st ← acc ;;; walk fuel hp root st) (Done (∅, [])) roots))
    as Hloop.
  { apply (foldl_walked fuel (λ _, False)).
    - intros. by apply walk_walked.
    - intros y Hy. split; [by apply Hroots|done].
    - by intros x Hx%elem_of_nil.
    - by intros x Hx%elem_of_empty.
    - constructor.
    - by intros x y Hx%elem_of_nil. }
  destruct (foldl _ _ _) as [[seen1 all1]| | | |]; try done; cbn [obind].
  destruct Hloop as (new1 & -> & Hs1 & Hn1 & Hnd1 & Hpo1 & Ht1).
  split_and!; try done. intros x Hx. by apply Hn1.
Qed.

(** What a listed unit reaches is listed before it. *)
Lemma reaches_before all x y :
  NoDup all → postorder hp all → x ∈ all → reaches hp x y → before all y x.
Proof.
  intros Hnd Hpo Hx Hr. induction Hr as [k d Hd|k m d Hm Hr IH]; [by apply Hpo|].
  pose proof (Hpo k m Hx Hm) as Hmk.
  eapply before_trans; [done| |exact Hmk]. apply IH. by apply before_elem_of in Hmk as [? _].
Qed.

End Walk.
(** ** The marks of [computeStale] *)

Lemma stale_fields (a b : Package) :
  set_Stale false a = set_Stale false b →
  deps a = deps b ∧ never_stale a = never_stale b ∧ imports a = imports b.
Proof.
  intros H. repeat split.
  - exact (f_equal deps H).
  - unfold never_stale, usesSwig.
    by rewrite (f_equal Standard H : Standard a = Standard b),
               (f_equal baseImportPath H : baseImportPath a = baseImportPath b),
               (f_equal buildContext H : buildContext a = buildContext b),
               (f_equal Error H : Error a = Error b),
               (f_equal Package_ H : Package_ a = Package_ b).
  - exact (f_equal imports H).
Qed.

Lemma same_but_stale_refl (hp : heap) : same_but_stale hp hp.
Proof. by intros k. Qed.

Lemma same_but_stale_trans (h1 h2 h3 : heap) :
  same_but_stale h1 h2 → same_but_stale h2 h3 → same_but_stale h1 h3.
Proof. intros H12 H23 k. by rewrite H12. Qed.

Lemma same_but_stale_alter (hp : heap) p b :
  same_but_stale hp (alter (set_Stale b) p hp).
Proof.
  intros k. destruct (decide (p = k)) as [->|Hne].
  - rewrite lookup_alter_eq. by destruct (hp !! k).
  - by rewrite lookup_alter_ne.
Qed.

Lemma same_but_stale_lookup (hp hp' : heap) k pk :
  same_but_stale hp hp' → hp !! k = Some pk →
  ∃ pk', hp' !! k = Some pk' ∧ set_Stale false pk = set_Stale false pk'.
Proof.
  intros Hs Hk. specialize (Hs k). rewrite Hk in Hs.
  destruct (hp' !! k) as [pk'|]; simpl in Hs; [|discriminate].
  exists pk'. split; [done|]. congruence.
Qed.

Section Marks.

Context (E : Env) (fs : FS).

Lemma staleDeps_stale_dep (hp : heap) built ds d r :
  staleDeps fs hp built ds = Done r → d ∈ ds → staleOf hp d = Some true → r = true.
Proof.
  intros Hrun Hd Hstale. induction ds as [|d' ds IH]; [by apply elem_of_nil in Hd|].
  cbn [staleDeps] in Hrun. destruct (hp !! d') as [p1|] eqn:Hd'; [|discriminate].
  destruct (Stale p1 || _) eqn:Hc; [by injection Hrun as <-|].
  apply elem_of_cons in Hd as [->|Hd]; [|by apply IH].
  unfold staleOf in Hstale. rewrite Hd' in Hstale. simpl in Hstale.
  apply (inj Some) in Hstale. by rewrite Hstale in Hc.
Qed.

(** The rule of [isStale] on stale dependencies: a unit that is not
    reported fresh before its dependencies are looked at is stale when
    one of them carries the [Stale] flag. *)
Lemma isStale_dep_stale (hp : heap) pk topRoot d b lg :
  isStale E fs hp pk topRoot = Done (b, lg) →
  never_stale pk = false → d ∈ deps pk → staleOf hp d = Some true → b = true.
Proof.
  unfold isStale, never_stale. intros Hrun Hns Hd Hstale.
  apply orb_false_iff in Hns as [Hfake Hnosrc]. rewrite Hfake in Hrun.
  destruct (bool_decide (Error pk ≠ None)) eqn:Herr; [by injection Hrun as <-|].
  apply bool_decide_eq_false in Herr.
  rewrite bool_decide_true in Hnosrc by (by destruct (Error pk); [destruct Herr|]).
  cbn [andb] in Hnosrc. rewrite Hnosrc in Hrun.
  destruct (bool_decide (Target pk = "") || Stale pk); [by injection Hrun as <-|].
  destruct (bool_decide (_ = 0)); [by injection Hrun as <-|].
  destruct (staleDeps _ _ _ _) as [r| | | |] eqn:Hdeps; cbn [obind] in Hrun; try discriminate.
  rewrite (staleDeps_stale_dep _ _ _ _ _ Hdeps Hd Hstale) in Hrun. by injection Hrun as <-.
Qed.

Lemma markStale_app topRoot l1 l2 (hp : heap) logs :
  markStale E fs topRoot (l1 ++ l2) hp logs =
  match markStale E fs topRoot l1 hp logs with
  | Done (hp1, logs1) => markStale E fs topRoot l2 hp1 logs1
  | other => other
  end.
Proof.
  revert hp logs. induction l1 as [|p l1 IH]; intros hp logs; [reflexivity|].
  cbn [app markStale]. destruct (hp !! p) as [pk|]; [|reflexivity].
  destruct (isStale _ _ _ _ _) as [[b l]| | | |]; cbn [obind]; try reflexivity. apply IH.
Qed.

Lemma markStale_frame topRoot ps (hp hp' : heap) logs logs' :
  markStale E fs topRoot ps hp logs = Done (hp', logs') →
  same_but_stale hp hp' ∧ ∀ x, x ∉ ps → hp' !! x = hp !! x.
Proof.
  revert hp logs. induction ps as [|p ps IH]; intros hp logs; cbn [markStale].
  { intros [= <- <-]. split; [apply same_but_stale_refl|done]. }
  destruct (hp !! p) as [pk|] eqn:Hp; [|discriminate].
  destruct (isStale _ _ _ _ _) as [[b l]| | | |]; cbn [obind]; try discriminate.
  intros [Hs Hframe]%IH. split.
  - eapply same_but_stale_trans; [apply same_but_stale_alter|exact Hs].
  - intros x Hx. apply not_elem_of_cons in Hx as [Hne Hx].
    rewrite (Hframe x Hx). by rewrite lookup_alter_ne.
Qed.

(** The mark of a unit is the verdict of [isStale] in the heap that the
    units listed before it have left, and these keep their marks. *)
Lemma markStale_mark topRoot l1 U l2 (hp hp' : heap) logs logs' :
  NoDup (l1 ++ U :: l2) →
  markStale E fs topRoot (l1 ++ U :: l2) hp logs = Done (hp', logs') →
  ∃ hpU pkU b lg,
    same_but_stale hp hpU ∧ hpU !! U = Some pkU
    ∧ isStale E fs hpU pkU topRoot = Done (b, lg)
    ∧ staleOf hp' U = Some b
    ∧ ∀ d, d ∈ l1 → staleOf hpU d = staleOf hp' d.
Proof.
  intros Hnd. rewrite markStale_app.
  destruct (markStale E fs topRoot l1 hp logs) as [[hpU logsU]| | | |] eqn:H1; try discriminate.
  cbn [markStale]. destruct (hpU !! U) as [pkU|] eqn:HU; [|discriminate].
  destruct (isStale _ _ _ _ _) as [[b lg]| | | |] eqn:Hb; cbn [obind]; try discriminate.
  intros [_ Hframe]%markStale_frame.
  apply NoDup_app in Hnd as (_ & Hdisj & [HU2 _]%NoDup_cons).
  exists hpU, pkU, b, lg. split; [by apply markStale_frame in H1 as [? _]|].
  split; [done|]. split; [done|]. split.
  - unfold staleOf. by rewrite (Hframe U HU2), lookup_alter_eq, HU.
  - intros d Hd. unfold staleOf.
    assert (d ≠ U) as Hne by (intros ->; apply (Hdisj U Hd); by left).
    rewrite Hframe, lookup_alter_ne; [done|done|].
    intros Hd2. apply (Hdisj d Hd). by right.
Qed.

Lemma staleDeps_returns (hp : heap) built ds :
  (∀ d, d ∈ ds → is_Some (hp !! d)) → ∃ r, staleDeps fs hp built ds = Done r.
Proof.
  induction ds as [|d ds IH]; intros Hin; [by exists false|]. cbn [staleDeps].
  destruct (Hin d) as [p1 ->]; [by left|].
  destruct (Stale p1 || _); [by exists true|]. apply IH. intros; apply Hin. by right.
Qed.

Lemma isStale_returns (hp : heap) pk topRoot :
  (∀ d, d ∈ deps pk → is_Some (hp !! d)) → ∃ b lg, isStale E fs hp pk topRoot = Done (b, lg).
Proof.
  intros Hin. unfold isStale.
  repeat (match goal with |- context [if ?c then _ else _] => destruct c end; [by eauto|]).
  destruct (staleDeps_returns hp
              match fs !! Target pk with Some fi => modTime fi | None => 0 end
              (deps pk) Hin) as [r ->].
  cbn [obind]. repeat (match goal with |- context [if ?c then _ else _] => destruct c end);
    by eauto.
Qed.

Lemma markStale_returns topRoot ps (hp0 hp : heap) logs :
  same_but_stale hp0 hp →
  (∀ p pk d, p ∈ ps → hp0 !! p = Some pk → d ∈ deps pk → is_Some (hp0 !! d)) →
  (∀ p, p ∈ ps → is_Some (hp0 !! p)) →
  ∃ hp' logs', markStale E fs topRoot ps hp logs = Done (hp', logs').
Proof.
  revert hp logs. induction ps as [|p ps IH]; intros hp logs Hs Hdeps Hin; [by eexists _, _|].
  cbn [markStale]. destruct (Hin p) as [pk0 Hp0]; [by left|].
  destruct (same_but_stale_lookup _ _ _ _ Hs Hp0) as (pk & Hp & Heq). rewrite Hp.
  apply stale_fields in Heq as (Hd & _ & _).
  destruct (isStale_returns hp pk topRoot) as (b & lg & ->).
  { intros d Hd'. rewrite <- Hd in Hd'.
    destruct (Hdeps p pk0 d) as [dk Hdk]; [by left|done|done|].
    destruct (same_but_stale_lookup _ _ _ _ Hs Hdk) as (dk' & -> & _). done. }
  cbn [obind]. apply IH.
  - eapply same_but_stale_trans; [exact Hs|apply same_but_stale_alter].
  - intros q qk d Hq. apply Hdeps. by right.
  - intros q Hq. apply Hin. by right.
Qed.

End Marks.

Section Monotone.

Context (E : Env) (fs : FS) (rk : string → nat) (hp : heap).

Hypothesis Hacyclic : acyclic_imports rk hp.
Hypothesis Hdeps : ∀ k pk d, hp !! k = Some pk → d ∈ deps pk → reaches hp k d.

Lemma reaches_in_heap k d : reaches hp k d → is_Some (hp !! d).
Proof. induction 1 as [k d Hd|]; [by apply (Hacyclic k d)|done]. Qed.

(** In a graph without import cycle the evaluator returns, given fuel
    above the rank of the roots. *)
Lemma computeStale_returns fuel roots :
  (∀ r, r ∈ roots → is_Some (hp !! r) ∧ (rk r < fuel)%nat) →
  ∃ hp' logs, computeStale E fs fuel roots hp = Done (hp', logs).
Proof.
  intros Hroots. unfold computeStale.
  pose proof (packageList_walked rk hp fuel roots Hacyclic
                (λ r Hr, proj1 (Hroots r Hr))) as Hlist.
  destruct (packageList fuel hp roots) as [all| | | |]; try done; cbn [obind].
  - destruct Hlist as (_ & _ & _ & Hin).
    apply (markStale_returns E fs _ all hp hp []); [apply same_but_stale_refl| |done].
    intros p pk d _ Hp Hd. eapply reaches_in_heap, Hdeps; eauto.
  - destruct Hlist as (r & Hr & Hfuel). destruct (Hroots r Hr). lia.
Qed.

(** C7, amended.  In an import graph without cycle, whose dependency
    lists hold transitive imports, let [D] be a dependency of a unit
    [U] that the evaluator visits (a requested unit or a unit that one
    reaches), and let [U] be neither a fake builtin package nor a
    package without load error that owns no Go source.  If the
    evaluator marks [D] stale, it marks [U] stale. *)
Theorem computeStale_stale_dependency fuel roots U D pkU (hp' : heap) logs :
  (∀ r, r ∈ roots → is_Some (hp !! r)) →
  computeStale E fs fuel roots hp = Done (hp', logs) →
  hp !! U = Some pkU → D ∈ deps pkU →
  U ∈ roots ∨ (∃ r, r ∈ roots ∧ reaches hp r U) →
  never_stale pkU = false →
  staleOf hp' D = Some true → staleOf hp' U = Some true.
Proof.
  intros Hroots Hrun HU HD Hvisited Hns HstaleD. unfold computeStale in Hrun.
  pose proof (packageList_walked rk hp fuel roots Hacyclic Hroots) as Hlist.
  destruct (packageList fuel hp roots) as [all| | | |]; try done; cbn [obind] in Hrun.
  destruct Hlist as (Hnd & Hpo & Hin & _).
  assert (U ∈ all) as HUall.
  { destruct Hvisited as [Hr|(r & Hr & Hreach)]; [by apply Hin|].
    by apply (reaches_before hp all r U Hnd Hpo (Hin r Hr)), before_elem_of in Hreach as [? _]. }
  assert (before all D U) as Hbefore.
  { apply (reaches_before hp all U D Hnd Hpo HUall). eapply Hdeps; eauto. }
  apply list_elem_of_split in HUall as (l1 & l2 & ->).
  apply before_split in Hbefore; [|done].
  destruct (markStale_mark E fs _ l1 U l2 hp hp' [] logs Hnd Hrun)
    as (hpU & pkU' & b & lg & Hs & HU' & Hb & Hmark & Hkeep).
  rewrite Hmark. f_equal.
  destruct (same_but_stale_lookup _ _ _ _ Hs HU) as (pk2 & HU2 & Heq).
  rewrite HU' in HU2. injection HU2 as <-.
  apply stale_fields in Heq as (Hd & Hn & _).
  eapply (isStale_dep_stale E fs hpU pkU'); [exact Hb|by rewrite <- Hn|by rewrite <- Hd|].
  by rewrite (Hkeep D Hbefore).
Qed.

End Monotone.

Lemma heapOutside_acyclic : acyclic_imports Examples.rankOutside Examples.heapOutside.
Proof.
  intros k d. unfold importsOf, Examples.heapOutside.
  destruct (decide (k = "r")) as [->|Hr].
  { rewrite lookup_insert_eq. intros ->%list_elem_of_singleton.
    split; [eexists; reflexivity|vm_compute; lia]. }
  rewrite lookup_insert_ne by done.
  destruct (decide (k = "x")) as [->|Hx].
  { rewrite lookup_insert_eq. intros ->%list_elem_of_singleton.
    split; [eexists; reflexivity|vm_compute; lia]. }
  rewrite lookup_insert_ne by done.
  destruct (decide (k = "y")) as [->|Hy].
  { rewrite lookup_singleton_eq. by intros ?%elem_of_nil. }
  rewrite lookup_singleton_ne by done. by intros ?%elem_of_nil.
Qed.

Lemma heapOutside_deps k pk d :
  Examples.heapOutside !! k = Some pk → d ∈ deps pk → reaches Examples.heapOutside k d.
Proof.
  unfold Examples.heapOutside. intros Hk.
  apply lookup_insert_Some in Hk as [[<- <-]|[_ Hk]].
  { intros [->|[->|[]%elem_of_nil]%elem_of_cons]%elem_of_cons.
    - apply reaches_import. vm_compute. by left.
    - apply (reaches_trans _ "r" "x" "y"); [vm_compute; by left|].
      apply reaches_import. vm_compute. by left. }
  apply lookup_insert_Some in Hk as [[<- <-]|[_ Hk]].
  { intros [->|[]%elem_of_nil]%elem_of_cons. apply reaches_import. vm_compute. by left. }
  apply lookup_singleton_Some in Hk as [<- <-]. by intros ?%elem_of_nil.
Qed.

Lemma computeStale_stale_dependency_witness :
  staleOf (default ∅ (evaluated (computeStale Examples.env Examples.filesOutside 5 ["r"]
                                   Examples.heapOutside))) "r" = Some true.
Proof.
  apply (computeStale_stale_dependency Examples.env Examples.filesOutside Examples.rankOutside
           Examples.heapOutside heapOutside_acyclic heapOutside_deps 5 ["r"] "r" "x"
           (Examples.pkgI "/w/r" "r" "/w" ["r.go"] "/w/pkg/r.a" ["x"] ["x"; "y"])
           _ ["isStale 3: x"; "isStale 3: r"]).
  - intros r ->%list_elem_of_singleton. by eexists.
  - vm_compute. reflexivity.
  - reflexivity.
  - by left.
  - left. by left.
  - reflexivity.
  - vm_compute. reflexivity.
Defined.


(** ** The loader and import cycles *)

Lemma grows_refl a : grows a a.
Proof. by repeat split. Qed.

Lemma grows_trans a b c : grows a b → grows b c → grows a c.
Proof.
  intros (Hi1 & Hc1 & Hu1 & He1) (Hi2 & Hc2 & Hu2 & He2). split_and!.
  - congruence.
  - intros Hn. rewrite Hc2, Hc1; [done|done|congruence].
  - auto.
  - auto.
Qed.

Lemma heap_ext_refl (hp : heap) : heap_ext hp hp.
Proof. intros k a Hk. exists a. split; [done|apply grows_refl]. Qed.

Lemma heap_ext_trans (h1 h2 h3 : heap) : heap_ext h1 h2 → heap_ext h2 h3 → heap_ext h1 h3.
Proof.
  intros H12 H23 k a Hk. destruct (H12 k a Hk) as (b & Hb & Hab).
  destruct (H23 k b Hb) as (c & Hc & Hbc). exists c. split; [done|by eapply grows_trans].
Qed.

Lemma heap_ext_alter (hp : heap) f p :
  (∀ pk, hp !! p = Some pk → grows pk (f pk)) → heap_ext hp (alter f p hp).
Proof.
  intros Hf k a Hk. destruct (decide (p = k)) as [->|Hne].
  - rewrite lookup_alter_eq, Hk. exists (f a). split; [done|by apply Hf].
  - rewrite lookup_alter_ne by done. exists a. split; [done|apply grows_refl].
Qed.

Lemma heap_ext_insert_new (hp : heap) p x : hp !! p = None → heap_ext hp (<[p := x]> hp).
Proof.
  intros Hp k a Hk. exists a. split; [|apply grows_refl].
  rewrite lookup_insert_ne; [done|]. intros ->. congruence.
Qed.

Lemma heap_ext_insert (hp : heap) p a b :
  hp !! p = Some a → grows a b → heap_ext hp (<[p := b]> hp).
Proof.
  intros Hp Hab k c Hk. destruct (decide (p = k)) as [->|Hne].
  - rewrite lookup_insert_eq. exists b. split; [done|]. congruence.
  - rewrite lookup_insert_ne by done. exists c. split; [done|apply grows_refl].
Qed.

Lemma incompleteOf_ext (hp hp' : heap) m :
  heap_ext hp hp' → incompleteOf hp m = true → incompleteOf hp' m = true.
Proof.
  unfold incompleteOf. intros Hext. destruct (hp !! m) as [a|] eqn:Hm; [|done]. simpl.
  destruct (Hext m a Hm) as (b & -> & _ & _ & Hu & _). simpl. exact Hu.
Qed.

Lemma hasError_ext (hp hp' : heap) m :
  heap_ext hp hp' → hasError hp m = true → hasError hp' m = true.
Proof.
  unfold hasError. intros Hext Hm%bool_decide_eq_true. apply bool_decide_eq_true.
  destruct (hp !! m) as [a|] eqn:Ha; [|done]. simpl in Hm.
  destruct (Hext m a Ha) as (b & -> & _ & _ & _ & He). simpl. by apply He.
Qed.

Lemma Complete_ext (hp hp' : heap) k : heap_ext hp hp' → Complete hp k → Complete hp' k.
Proof.
  intros Hext. induction 1 as [k pk l Hk Hl Hinc _ IH].
  destruct (Hext k pk Hk) as (b & Hb & Hi & Hc & _).
  apply (Complete_intro hp' k b l); [done|congruence| |done].
  rewrite Hc; [done|congruence].
Qed.

Lemma ErrorBounded_ext (hp hp' : heap) k :
  heap_ext hp hp' →
  (∀ k pk l m, hp !! k = Some pk → imports pk = Some l → m ∈ l → is_Some (hp !! m)) →
  ErrorBounded hp k → ErrorBounded hp' k.
Proof.
  intros Hext Hdom. induction 1 as [k pk l Hk Hl _ IH].
  destruct (Hext k pk Hk) as (b & Hb & Hi & _).
  apply (ErrorBounded_intro hp' k b l); [done|congruence|].
  intros m Hm Hne. apply IH; [done|].
  destruct (hasError hp m) eqn:He; [|done].
  by rewrite (hasError_ext hp hp' m Hext He) in Hne.
Qed.

(** The invariant lives on through changes that add no unit. *)
Lemma LoadInv_ext A (hp hp' : heap) :
  LoadInv A hp → heap_ext hp hp' → (∀ k, is_Some (hp' !! k) → is_Some (hp !! k)) →
  LoadInv A hp'.
Proof.
  intros [Ha Hf Hd Hc Hb Hg] Hext Hsame.
  assert (∀ k b, hp' !! k = Some b → ∃ a, hp !! k = Some a ∧ grows a b) as Hback.
  { intros k b Hk. destruct (Hsame k) as [a Hka]; [by eexists|].
    exists a. split; [done|]. destruct (Hext k a Hka) as (b' & Hb' & Hg'). congruence. }
  split.
  - intros k Hk. destruct (Ha k Hk) as (a & Hka & Hi).
    destruct (Hext k a Hka) as (b & Hkb & Hib & _). exists b. split; [done|congruence].
  - intros k b Hk HA Hi. destruct (Hback k b Hk) as (a & Hka & Hia & _ & Hu & He).
    destruct (Hf k a Hka HA) as [Hinc Herr]; [congruence|]. auto.
  - intros k b l m Hk Hi Hm. destruct (Hback k b Hk) as (a & Hka & Hia & _).
    destruct (Hd k a l m Hka) as [c Hc']; [congruence|done|].
    destruct (Hext m c Hc') as (c' & -> & _). by eexists.
  - intros k b Hk Hi Hinc. destruct (Hback k b Hk) as (a & Hka & Hia & Hca & _).
    apply (Complete_ext hp hp' k Hext). apply (Hc k a Hka); [congruence|].
    rewrite <- Hca; [done|congruence].
  - intros k b Hk Hi. destruct (Hback k b Hk) as (a & Hka & Hia & _).
    apply (ErrorBounded_ext hp hp' k Hext Hd). apply (Hb k a Hka). congruence.
  - intros k b l Hk Hi Hinc. destruct (Hback k b Hk) as (a & Hka & Hia & Hca & _).
    destruct (Hg k a l Hka) as [He|(m & Hm & Hmi)]; [congruence| | |].
    + rewrite <- Hca; [done|congruence].
    + left. destruct (Hext k a Hka) as (b' & Hb' & _ & _ & _ & He').
      assert (b' = b) as -> by congruence. auto.
    + right. exists m. split; [done|]. by apply (incompleteOf_ext hp hp').
Qed.

Lemma LoadInv_empty : LoadInv ∅ ∅.
Proof.
  split; intros k pk; by rewrite ?lookup_empty.
Qed.

(** A new unit enters the heap in progress. *)
Lemma LoadInv_new A (hp : heap) p x :
  LoadInv A hp → hp !! p = None → imports x = None →
  LoadInv ({[p]} ∪ A) (<[p := x]> hp).
Proof.
  intros [Ha Hf Hd Hc Hb Hg] Hp Hx.
  pose proof (heap_ext_insert_new hp p x Hp) as Hext.
  assert (∀ k pk, <[p := x]> hp !! k = Some pk → imports pk ≠ None → hp !! k = Some pk)
    as Hold.
  { intros k pk Hk Hi. apply lookup_insert_Some in Hk as [[_ <-]|[_ Hk]]; [done|done]. }
  split.
  - intros k [->%elem_of_singleton|Hk]%elem_of_union.
    + exists x. by rewrite lookup_insert_eq.
    + destruct (Ha k Hk) as (pk & Hpk & Hi). exists pk. split; [|done].
      rewrite lookup_insert_ne; [done|]. intros ->. congruence.
  - intros k pk Hk HA Hi. apply not_elem_of_union in HA as [Hkp%not_elem_of_singleton HA].
    rewrite lookup_insert_ne in Hk by done. by apply (Hf k pk).
  - intros k pk l m Hk Hi Hm. apply Hold in Hk; [|congruence].
    destruct (Hd k pk l m Hk Hi Hm) as [c Hc']. destruct (Hext m c Hc') as (c' & -> & _).
    by eexists.
  - intros k pk Hk Hi Hinc. apply (Complete_ext hp _ k Hext). by apply (Hc k pk); [apply Hold|..].
  - intros k pk Hk Hi. apply (ErrorBounded_ext hp _ k Hext Hd). by apply (Hb k pk); [apply Hold|].
  - intros k pk l Hk Hi Hinc. apply Hold in Hk; [|congruence].
    destruct (Hg k pk l Hk Hi Hinc) as [He|(m & Hm & Hmi)]; [by left|right].
    exists m. split; [done|]. by apply (incompleteOf_ext hp).
Qed.

(** A unit whose load failed leaves the units in progress. *)
Lemma LoadInv_retire_failed A (hp : heap) p pk :
  LoadInv ({[p]} ∪ A) hp → hp !! p = Some pk → Incomplete pk = true → Error pk ≠ None →
  LoadInv A hp.
Proof.
  intros [Ha Hf Hd Hc Hb Hg] Hp Hinc Herr. split; try done.
  - intros k Hk. apply Ha, elem_of_union. by right.
  - intros k pk' Hk HA Hi. destruct (decide (k = p)) as [->|Hne].
    + assert (pk' = pk) as -> by congruence. done.
    + apply (Hf k pk' Hk); [|done]. intros [?%elem_of_singleton|?]%elem_of_union; done.
Qed.

Lemma Complete_alter (hp : heap) f p pk k :
  hp !! p = Some pk → imports pk = None → Complete hp k → Complete (alter f p hp) k.
Proof.
  intros Hp Hi. induction 1 as [k pk' l Hk Hl Hinc _ IH].
  apply (Complete_intro _ k pk' l); [|done..].
  rewrite lookup_alter_ne; [done|]. intros ->. congruence.
Qed.

Lemma hasError_alter (hp : heap) f p m :
  (∀ pk, hp !! p = Some pk → Error pk ≠ None → Error (f pk) ≠ None) →
  hasError hp m = true → hasError (alter f p hp) m = true.
Proof.
  intros Hf. unfold hasError. intros Hm%bool_decide_eq_true. apply bool_decide_eq_true.
  destruct (decide (p = m)) as [->|Hne]; [|by rewrite lookup_alter_ne].
  rewrite lookup_alter_eq. destruct (hp !! m) as [a|]; [|done]. simpl in *. by apply Hf.
Qed.

Lemma ErrorBounded_alter (hp : heap) f p pk k :
  hp !! p = Some pk → imports pk = None → (Error pk ≠ None → Error (f pk) ≠ None) →
  ErrorBounded hp k → ErrorBounded (alter f p hp) k.
Proof.
  intros Hp Hi Hf. induction 1 as [k pk' l Hk Hl _ IH].
  apply (ErrorBounded_intro _ k pk' l); [|done|].
  - rewrite lookup_alter_ne; [done|]. intros ->. congruence.
  - intros m Hm Hne. apply IH; [done|].
    destruct (hasError hp m) eqn:He; [|done].
    rewrite (hasError_alter hp f p m) in Hne; [done| |done].
    intros pk2 Hp2. assert (pk2 = pk) as -> by congruence. done.
Qed.

(** A unit whose imports are resolved leaves the units in progress. *)
Lemma LoadInv_retire_loaded A (hp : heap) p pk f imps :
  LoadInv ({[p]} ∪ A) hp → p ∉ A → hp !! p = Some pk → imports pk = None →
  imports (f pk) = Some imps → Incomplete (f pk) = Incomplete pk →
  (Error pk ≠ None → Error (f pk) ≠ None) →
  (∀ m, m ∈ imps → returned hp m ∧ (incompleteOf hp m = true → Incomplete pk = true)) →
  (Incomplete pk = true → Error pk ≠ None ∨ ∃ m, m ∈ imps ∧ incompleteOf hp m = true) →
  LoadInv A (alter f p hp).
Proof.
  intros [Ha Hf Hd Hc Hb Hg] HpA Hp Hi Hfi Hfc Hfe Himps Hcause.
  assert (∀ k, k ≠ p → alter f p hp !! k = hp !! k) as Hne
    by (intros; by rewrite lookup_alter_ne).
  assert (alter f p hp !! p = Some (f pk)) as Hpp by (by rewrite lookup_alter_eq, Hp).
  assert (∀ m, incompleteOf (alter f p hp) m = incompleteOf hp m) as Hinc.
  { intros m. unfold incompleteOf. destruct (decide (m = p)) as [->|Hm].
    - by rewrite Hpp, Hp.
    - by rewrite Hne. }
  assert (∀ m, hasError hp m = true → hasError (alter f p hp) m = true) as Herr.
  { intros m. apply hasError_alter. intros pk2 Hp2. by assert (pk2 = pk) as -> by congruence. }
  assert (∀ m, is_Some (hp !! m) → is_Some (alter f p hp !! m)) as Hdom.
  { intros m [c Hm]. destruct (decide (m = p)) as [->|Hmp]; [by eexists|].
    rewrite Hne by done. by eexists. }
  assert (∀ m pkm, m ∈ imps → hp !! m = Some pkm → hasError hp m = false →
          imports pkm ≠ None) as Hnoerr.
  { intros m pkm Hm Hpm He Him. destruct (Himps m Hm) as [(pk2 & Hpk2 & Hret) _].
    assert (pk2 = pkm) as -> by congruence. destruct (Hret Him) as [_ He2].
    unfold hasError in He. rewrite Hpm in He. simpl in He.
    by apply bool_decide_eq_false in He. }
  split.
  - intros k Hk. assert (k ≠ p) as Hkp by (by intros ->). rewrite Hne by done.
    apply Ha, elem_of_union. by right.
  - intros k pk' Hk HA Hi'. destruct (decide (k = p)) as [->|Hkp].
    + rewrite Hpp in Hk. injection Hk as <-. congruence.
    + rewrite Hne in Hk by done. apply (Hf k pk' Hk); [|done].
      intros [?%elem_of_singleton|?]%elem_of_union; done.
  - intros k pk' l m Hk Hi' Hm. apply Hdom. destruct (decide (k = p)) as [->|Hkp].
    + rewrite Hpp in Hk. injection Hk as <-. assert (l = imps) as -> by congruence.
      destruct (Himps m Hm) as [(pk2 & Hpk2 & _) _]. by eexists.
    + rewrite Hne in Hk by done. by eapply Hd.
  - intros k pk' Hk Hi' Hinc'. destruct (decide (k = p)) as [->|Hkp].
    + rewrite Hpp in Hk. injection Hk as <-. apply (Complete_intro _ p (f pk) imps); [done..|].
      intros m Hm. apply (Complete_alter hp f p pk m Hp Hi).
      destruct (Himps m Hm) as [(pkm & Hpm & Hret) Hprop].
      assert (Incomplete pkm = false) as Hmc.
      { destruct (Incomplete pkm) eqn:Hx; [|done].
        rewrite Hprop in Hfc; [congruence|]. unfold incompleteOf. by rewrite Hpm. }
      apply (Hc m pkm Hpm); [|done]. intros Him. destruct (Hret Him). congruence.
    + rewrite Hne in Hk by done. apply (Complete_alter hp f p pk k Hp Hi). by apply (Hc k pk').
  - intros k pk' Hk Hi'. destruct (decide (k = p)) as [->|Hkp].
    + rewrite Hpp in Hk. injection Hk as <-.
      apply (ErrorBounded_intro _ p (f pk) imps); [done..|].
      intros m Hm He. apply (ErrorBounded_alter hp f p pk m Hp Hi Hfe).
      destruct (Himps m Hm) as [(pkm & Hpm & Hret) _].
      assert (hasError hp m = false) as He0.
      { destruct (hasError hp m) eqn:Hx; [|done]. by rewrite (Herr m Hx) in He. }
      apply (Hb m pkm Hpm). by apply (Hnoerr m pkm).
    + rewrite Hne in Hk by done.
      apply (ErrorBounded_alter hp f p pk k Hp Hi Hfe). by apply (Hb k pk').
  - intros k pk' l Hk Hi' Hinc'. destruct (decide (k = p)) as [->|Hkp].
    + rewrite Hpp in Hk. injection Hk as <-. assert (l = imps) as -> by congruence.
      rewrite Hfc in Hinc'. destruct (Hcause Hinc') as [He|(m & Hm & Hmi)]; [left; auto|].
      right. exists m. by rewrite Hinc.
    + rewrite Hne in Hk by done.
      destruct (Hg k pk' l Hk Hi' Hinc') as [He|(m & Hm & Hmi)]; [by left|].
      right. exists m. by rewrite Hinc.
Qed.

Lemma flagged_refl (hp : heap) : flagged hp hp.
Proof. intros k a b Ha Hb. assert (a = b) as -> by congruence. congruence. Qed.

Lemma flagged_trans (h1 h2 h3 : heap) :
  heap_ext h1 h2 → heap_ext h2 h3 → flagged h1 h2 → flagged h2 h3 → flagged h1 h3.
Proof.
  intros He12 He23 H12 H23 k a c Ha Hc Hia Hic.
  destruct (He12 k a Ha) as (b & Hb & _).
  destruct (He23 k b Hb) as (c' & Hc' & _ & _ & _ & He). assert (c' = c) as -> by congruence.
  destruct (Incomplete b) eqn:Hib.
  - apply He. by apply (H12 k a b).
  - by apply (H23 k b c).
Qed.

Lemma returned_ext (hp hp' : heap) m : heap_ext hp hp' → returned hp m → returned hp' m.
Proof.
  intros Hext (a & Ha & Hret). destruct (Hext m a Ha) as (b & Hb & Hi & _ & Hu & He).
  exists b. split; [done|]. intros Hib. destruct Hret as [? ?]; [congruence|]. auto.
Qed.

(** Once returned, a unit keeps its [Incomplete] flag. *)
Lemma returned_incompleteOf (hp hp' : heap) m :
  heap_ext hp hp' → returned hp m → incompleteOf hp' m = incompleteOf hp m.
Proof.
  intros Hext (a & Ha & Hret). destruct (Hext m a Ha) as (b & Hb & Hi & Hc & Hu & _).
  unfold incompleteOf. rewrite Ha, Hb. simpl.
  destruct (imports a) eqn:Hia; [apply Hc; congruence|].
  destruct Hret as [Hinc _]; [done|]. rewrite Hinc. auto.
Qed.

Lemma heap_ext_alter_safe (hp : heap) f p pk :
  safe f → hp !! p = Some pk → imports pk = None → heap_ext hp (alter f p hp).
Proof.
  intros Hf Hp Hi. apply heap_ext_alter. intros pk' Hp'. assert (pk' = pk) as -> by congruence.
  destruct (Hf pk) as (H1 & H2 & H3). split_and!; [done|congruence|done|done].
Qed.

Lemma LoadInv_alter_safe A (hp : heap) f p :
  safe f → p ∈ A → LoadInv A hp → LoadInv A (alter f p hp).
Proof.
  intros Hf Hp Hinv. destruct (inv_active A hp Hinv p Hp) as (pk & Hpk & Hi).
  apply (LoadInv_ext A hp); [done|by apply (heap_ext_alter_safe hp f p pk)|].
  intros k Hk. by apply lookup_alter_is_Some in Hk.
Qed.

Lemma heap_ext_alter_new (hp0 hp : heap) f p :
  hp0 !! p = None → heap_ext hp0 hp → heap_ext hp0 (alter f p hp).
Proof.
  intros Hp Hext k a Hk. destruct (Hext k a Hk) as (b & Hb & Hg). exists b. split; [|done].
  rewrite lookup_alter_ne; [done|]. intros ->. congruence.
Qed.

Lemma flagged_alter_new (hp0 hp : heap) f p :
  hp0 !! p = None → flagged hp0 hp → flagged hp0 (alter f p hp).
Proof.
  intros Hp Hfl k a b Ha Hb. apply (Hfl k a b Ha).
  rewrite lookup_alter_ne in Hb; [done|]. intros ->. congruence.
Qed.

Lemma safe_set_Error e : safe (set_Error (Some e)).
Proof. intros pk. by split_and!. Qed.

Lemma safe_set_Incomplete : safe (set_Incomplete true).
Proof. intros pk. by split_and!. Qed.

Lemma strict_safe f : strict f → safe f.
Proof. intros Hf pk. destruct (Hf pk) as (H1 & H2 & H3). split_and!; [done|congruence|done]. Qed.

Lemma strict_grows f pk : strict f → grows pk (f pk).
Proof. intros Hf. destruct (Hf pk) as (H1 & H2 & H3). split_and!; [done|done|congruence|done]. Qed.

Lemma St_alter_active A (hp0 hp : heap) p f :
  safe f → p ∈ A → hp0 !! p = None → St A hp0 hp → St A hp0 (alter f p hp).
Proof.
  intros Hf HpA Hp0 (Hext & Hfl & Hinv). split_and!.
  - by apply heap_ext_alter_new.
  - by apply flagged_alter_new.
  - by apply LoadInv_alter_safe.
Qed.

Lemma St_alter_strict A (hp0 hp : heap) p f :
  strict f → hp0 !! p = None → St A hp0 hp → St A hp0 (alter f p hp).
Proof.
  intros Hf Hp0 (Hext & Hfl & Hinv). split_and!.
  - by apply heap_ext_alter_new.
  - by apply flagged_alter_new.
  - apply (LoadInv_ext A hp); [done| |].
    + apply heap_ext_alter. intros pk _. by apply strict_grows.
    + intros k Hk. by apply lookup_alter_is_Some in Hk.
Qed.

Lemma incompleteOf_alter_strict (hp : heap) p f k :
  strict f → incompleteOf (alter f p hp) k = incompleteOf hp k.
Proof.
  intros Hf. unfold incompleteOf. destruct (decide (k = p)) as [->|Hne].
  - rewrite lookup_alter_eq. destruct (hp !! p) as [pk|]; [|done]. simpl.
    by destruct (Hf pk) as (_ & -> & _).
  - by rewrite lookup_alter_ne.
Qed.

Lemma St_returned A (hp0 hp : heap) p :
  St A hp0 hp → p ∉ A → is_Some (hp !! p) → returned hp p.
Proof.
  intros (_ & _ & Hinv) HpA [pk Hpk]. exists pk. split; [done|].
  intros Hi. by apply (inv_failed A hp Hinv p pk).
Qed.

Ltac solve_strict :=
  let pk := fresh "pk" in
  intros pk; simpl; split_and!; try done; destruct (Error pk); simpl; done.

Lemma heap_ext_dom (hp hp' : heap) : heap_ext hp hp' → dom hp ⊆ dom hp'.
Proof.
  intros Hext k [a Ha]%elem_of_dom. destruct (Hext k a Ha) as (b & Hb & _).
  apply elem_of_dom. by eexists.
Qed.

Lemma pending_mono K (hp hp' : heap) n :
  (pending K hp < n)%nat → heap_ext hp hp' → (pending K hp' < n)%nat.
Proof.
  intros Hn Hext%heap_ext_dom. unfold pending in *.
  assert (K ∖ dom hp' ⊆ K ∖ dom hp) as Hsub%subseteq_size by set_solver. lia.
Qed.

Lemma pending_insert K (hp : heap) p x n :
  p ∈ K → hp !! p = None → (pending K hp < S n)%nat →
  (pending K (<[p := x]> hp) < n)%nat.
Proof.
  intros HpK Hp Hn. unfold pending in *. rewrite dom_insert_L.
  assert (K ∖ dom hp = {[p]} ∪ K ∖ ({[p]} ∪ dom hp)) as Heq.
  { apply set_eq. intros k. rewrite elem_of_union, !elem_of_difference, elem_of_union,
      elem_of_singleton. apply not_elem_of_dom in Hp.
    destruct (decide (k = p)) as [->|]; naive_solver. }
  rewrite Heq, size_union, size_singleton in Hn by set_solver. lia.
Qed.

Lemma importPathsOf_incl pk q :
  q ∈ importPathsOf pk → q ∈ Build.Imports (Package_ pk) ++ implicitImports.
Proof.
  unfold importPathsOf, implicitImports.
  repeat match goal with |- context [if ?c then _ else _] => destruct c end;
    rewrite ?elem_of_app, ?elem_of_cons, ?elem_of_nil; naive_solver.
Qed.

Section Loader.

Context (E : Env) (P : list string) (K : gset string).
Hypothesis Hclosed : closed E P.
Hypothesis Hkeyed : keyed E P K.

(** [reusePackage] on a unit of the heap. *)
Lemma reusePackage_ok A (hp : heap) p pk stk :
  hp !! p = Some pk → LoadInv A hp →
  loads_ok A hp (Done (p, reusePackage p stk hp)).
Proof.
  intros Hp Hinv. unfold reusePackage. rewrite Hp.
  set (pk1 := match imports pk with
              | None => set_Incomplete true
                          match Error pk with
                          | None => set_Error (Some (mkPackageError stk "" "import cycle not allowed"
                                                                    true false)) pk
                          | Some _ => pk
                          end
              | Some _ => pk
              end).
  set (pk2 := match Error pk1 with
              | Some e => if negb (isImportCycle e) && shorterThan stk (ImportStack e)
                          then set_Error (Some (mkPackageError stk (Pos e) (Err e)
                                                  (isImportCycle e) (hard e))) pk1
                          else pk1
              | None => pk1
              end).
  assert (imports pk1 = imports pk ∧ (imports pk ≠ None → pk1 = pk)
          ∧ (imports pk = None → Incomplete pk1 = true ∧ Error pk1 ≠ None)
          ∧ (Error pk ≠ None → Error pk1 ≠ None)) as (H1i & H1s & H1n & H1e).
  { unfold pk1. destruct (imports pk) eqn:Hi.
    - split_and!; try done.
    - destruct (Error pk) eqn:He; simpl; rewrite ?Hi, ?He; split_and!; try done.
      all: intros _; split; done. }
  assert (imports pk2 = imports pk1 ∧ Incomplete pk2 = Incomplete pk1
          ∧ (Error pk1 ≠ None → Error pk2 ≠ None)) as (H2i & H2c & H2e).
  { unfold pk2. destruct (Error pk1) as [e|] eqn:He; [|done].
    destruct (negb (isImportCycle e) && shorterThan stk (ImportStack e)); [|by rewrite He].
    simpl. split_and!; done. }
  assert (grows pk pk2) as Hg.
  { split_and!.
    - congruence.
    - intros Hn. rewrite H2c. by rewrite (H1s Hn).
    - intros Hinc. rewrite H2c. destruct (imports pk) eqn:Hi; [by rewrite H1s|].
      by destruct H1n.
    - auto. }
  split_and!.
  - by apply (heap_ext_insert hp p pk pk2).
  - intros k a b Ha Hb Hia Hib. destruct (decide (p = k)) as [->|Hne].
    + rewrite lookup_insert_eq in Hb. injection Hb as <-. assert (a = pk) as -> by congruence.
      destruct (imports pk) eqn:Hi.
      * rewrite H2c, H1s in Hib by done. congruence.
      * apply H2e. by destruct H1n.
    + rewrite lookup_insert_ne in Hb by done. congruence.
  - apply (LoadInv_ext A hp); [done|by apply (heap_ext_insert hp p pk pk2)|].
    intros k [b Hk]. destruct (decide (p = k)) as [->|Hne]; [by eexists|].
    rewrite lookup_insert_ne in Hk by done. by eexists.
  - exists pk2. rewrite lookup_insert_eq. split; [done|]. intros Hi.
    rewrite H2c. destruct H1n as [? ?]; [congruence|]. auto.
Qed.

(** The loop of [load] over the import paths of [p], a unit in
    progress that was not in the heap [hp0] when its load began. *)
Lemma loadImports_ok (rec : loader) (T : heap → Prop) ctx stk p A (hp0 : heap) :
  (∀ hp hp', T hp → heap_ext hp hp' → T hp') →
  (∀ ctx path srcDir stk pos A (hp : heap),
     LoadInv A hp →
     loads_ok A hp (rec ctx path srcDir stk pos hp)
     ∧ (path ∈ P → T hp → rec ctx path srcDir stk pos hp ≠ OutOfFuel)) →
  p ∈ A → hp0 !! p = None →
  ∀ paths imps dmap (hp : heap),
    heap_ext hp0 hp → flagged hp0 hp → LoadInv A hp → loop_inv p hp imps →
    match loadImports rec ctx stk p paths imps dmap hp with
    | Done (imps', _, hp') =>
        heap_ext hp0 hp' ∧ flagged hp0 hp' ∧ LoadInv A hp' ∧ loop_inv p hp' imps'
    | OutOfFuel => ¬ ((∀ q, q ∈ paths → q ≠ "C" → q ∈ P) ∧ T hp)
    | _ => False
    end.
Proof.
  intros Tmono Hrec HpA Hp0.
  induction paths as [|path paths IH]; intros imps dmap hp Hext0 Hfl0 Hinv Hloop;
    cbn [loadImports]; [done|].
  destruct (decide (path = "C")) as [HC|HC].
  { specialize (IH imps dmap hp Hext0 Hfl0 Hinv Hloop).
    destruct (loadImports _ _ _ _ _ _ _ _) as [[[? ?] ?]| | | |]; try done.
    intros [HP HT]. apply IH. split; [|done]. intros q Hq. apply HP. by right. }
  destruct (inv_active A hp Hinv p HpA) as (pk & Hpk & Hpi). rewrite Hpk.
  specialize (Hrec ctx path (Dir pk) stk
                (default [] (Build.ImportPos (Package_ pk) !! path)) A hp Hinv).
  destruct (rec _ _ _ _ _ _) as [[p1 hp1]| | | |] eqn:Hr; cbn [obind];
    try (by destruct Hrec as [? _]).
  2:{ intros [HP HT]. destruct Hrec as [_ Hne]. apply Hne; [|done|done].
      apply HP; [by left|done]. }
  destruct Hrec as [(Hext1 & Hfl1 & Hinv1 & Hret1) _].
  destruct Hret1 as (pk1 & Hpk1 & Hret1). rewrite Hpk1.
  destruct (inv_active A hp1 Hinv1 p HpA) as (pkp & Hpkp & Hppi). rewrite Hpkp.
  (* the error of a local import in a package that is not local *)
  set (e := mkPackageError stk _ _ false false).
  set (hp2 := if local pk1 && (negb (local pkp) && bool_decide (Error pkp = None))
              then alter (set_Error (Some e)) p hp1 else hp1).
  assert (heap_ext hp1 hp2 ∧ LoadInv A hp2 ∧ incompleteOf hp2 p = incompleteOf hp1 p
          ∧ (∀ k, is_Some (hp2 !! k) → is_Some (hp1 !! k))
          ∧ heap_ext hp0 hp2 ∧ flagged hp0 hp2) as (Hext2 & Hinv2 & Hinc2 & Hdom2 & Hext02 & Hfl02).
  { assert (heap_ext hp0 hp1) as Hext01 by (by eapply heap_ext_trans).
    assert (flagged hp0 hp1) as Hfl01 by (by eapply (flagged_trans hp0 hp hp1)).
    unfold hp2.
    destruct (local pk1 && (negb (local pkp) && bool_decide (Error pkp = None))).
    - split_and!.
      + apply (heap_ext_alter_safe hp1 _ p pkp); [apply safe_set_Error|done|done].
      + apply LoadInv_alter_safe; [apply safe_set_Error|done|done].
      + unfold incompleteOf. by rewrite lookup_alter_eq, Hpkp.
      + intros k Hk. by apply lookup_alter_is_Some in Hk.
      + by apply heap_ext_alter_new.
      + by apply flagged_alter_new.
    - split_and!; try done. apply heap_ext_refl. }
  set (hp3 := if from_option Incomplete false (hp2 !! p1)
              then alter (set_Incomplete true) p hp2 else hp2).
  destruct (inv_active A hp2 Hinv2 p HpA) as (pkp2 & Hpkp2 & Hppi2).
  assert (heap_ext hp2 hp3 ∧ LoadInv A hp3 ∧ heap_ext hp0 hp3 ∧ flagged hp0 hp3
          ∧ (incompleteOf hp2 p1 = true → incompleteOf hp3 p = true)
          ∧ (incompleteOf hp2 p1 = false → hp3 = hp2))
    as (Hext3 & Hinv3 & Hext03 & Hfl03 & Hset3 & Hsame3).
  { unfold hp3, incompleteOf. destruct (from_option Incomplete false (hp2 !! p1)).
    - split_and!; try done.
      + apply (heap_ext_alter_safe hp2 _ p pkp2); [apply safe_set_Incomplete|done|done].
      + apply LoadInv_alter_safe; [apply safe_set_Incomplete|done|done].
      + by apply heap_ext_alter_new.
      + by apply flagged_alter_new.
      + intros _. by rewrite lookup_alter_eq, Hpkp2.
    - split_and!; try done. apply heap_ext_refl. }
  assert (heap_ext hp hp3) as Hext
    by (eapply heap_ext_trans; [exact Hext1|]; by eapply heap_ext_trans).
  assert (returned hp2 p1) as Hret2.
  { apply (returned_ext hp1 hp2 p1 Hext2). by exists pk1. }
  assert (loop_inv p hp3 (imps ++ [p1])) as Hloop3.
  { destruct Hloop as [Himps Hcause]. split.
    - intros m [Hm|Hm%list_elem_of_singleton]%elem_of_app.
      + destruct (Himps m Hm) as [Hretm Hprop]. split; [by apply (returned_ext hp hp3)|].
        rewrite (returned_incompleteOf hp hp3 m Hext Hretm). intros Hmi.
        apply (incompleteOf_ext hp hp3 p Hext). by apply Hprop.
      + subst m. split; [by apply (returned_ext hp2 hp3)|].
        rewrite (returned_incompleteOf hp2 hp3 p1 Hext3 Hret2). exact Hset3.
    - assert (heap_ext hp hp2) as Hext' by exact (heap_ext_trans hp hp1 hp2 Hext1 Hext2).
      intros Hpinc. destruct (incompleteOf hp2 p1) eqn:Hp1inc.
      + right. exists p1. split; [apply elem_of_app; right; by left|].
        by rewrite (returned_incompleteOf hp2 hp3 p1 Hext3 Hret2).
      + rewrite (Hsame3 eq_refl) in Hpinc |- *. rewrite Hinc2 in Hpinc.
        destruct (incompleteOf hp p) eqn:Hp_inc.
        * destruct (Hcause eq_refl) as [He|(m & Hm & Hmi)].
          -- left. by apply (hasError_ext hp hp2).
          -- right. exists m. split; [apply elem_of_app; by left|].
             by apply (incompleteOf_ext hp hp2).
        * left. apply (hasError_ext hp1 hp2 p Hext2). unfold hasError.
          apply bool_decide_eq_true. rewrite Hpkp. simpl.
          apply (Hfl1 p pk pkp Hpk Hpkp).
          -- unfold incompleteOf in Hp_inc. by rewrite Hpk in Hp_inc.
          -- unfold incompleteOf in Hpinc. by rewrite Hpkp in Hpinc. }
  specialize (IH (imps ++ [p1])
                (foldl (λ m dep, <[ImportPathOf hp2 dep := dep]> m)
                       (<[(if local pk1 then ImportPath pk1 else path) := p1]> dmap)
                       (deps pk1)) hp3 Hext03 Hfl03 Hinv3 Hloop3).
  unfold hp3, hp2 in IH.
  destruct (local pk1); simpl in IH |- *;
    destruct (loadImports _ _ _ _ _ _ _ _) as [[[? ?] ?]| | | |]; try done;
    intros [HP HT]; apply IH;
    (split; [intros q Hq; apply HP; by right|by apply (Tmono hp)]).
Qed.

(** [load] of a unit [p] whose load began in the heap [hp0]: when it
    returns, [p] is no longer in progress. *)
Lemma load_ok (rec : loader) (T : heap → Prop) ctx stk p bp err A (hp0 hp : heap) :
  (∀ hp hp', T hp → heap_ext hp hp' → T hp') →
  (∀ ctx path srcDir stk pos A (hp : heap),
     LoadInv A hp →
     loads_ok A hp (rec ctx path srcDir stk pos hp)
     ∧ (path ∈ P → T hp → rec ctx path srcDir stk pos hp ≠ OutOfFuel)) →
  p ∉ A → hp0 !! p = None → St ({[p]} ∪ A) hp0 hp → incompleteOf hp p = false →
  match load E rec ctx stk p bp err hp with
  | Done hp' => St A hp0 hp' ∧ is_Some (hp' !! p)
  | OutOfFuel =>
      ¬ ((∀ q, q ∈ Build.Imports bp ++ implicitImports → q ≠ "C" → q ∈ P) ∧ T hp)
  | _ => False
  end.
Proof.
  intros Tmono Hrec HpA Hp0 HSt Hinc. unfold load.
  assert (p ∈ ({[p]} ∪ A : gset string)) as HpA' by set_solver.
  lazymatch goal with
  | |- context [alter ?f p hp] =>
      assert (strict f) as Hf1 by solve_strict;
      pose proof (St_alter_strict _ hp0 hp p f Hf1 Hp0 HSt) as HSt1;
      pose proof (incompleteOf_alter_strict hp p f p Hf1) as Hinc1;
      rewrite Hinc in Hinc1;
      assert (heap_ext hp (alter f p hp)) as HextT
        by (apply heap_ext_alter; intros pk ?; exact (strict_grows f pk Hf1));
      assert (∀ pk1, alter f p hp !! p = Some pk1 → Package_ pk1 = bp) as Hbp
        by (intros pk1; rewrite lookup_alter_eq; destruct (hp !! p); simpl;
            intros [= <-]; done);
      set (hp1 := alter f p hp) in *
  end.
  clearbody hp1. clear HSt Hinc.
  destruct err as [msg|].
  - lazymatch goal with
    | |- context [alter ?f p hp1] =>
        assert (safe f) as Hf2 by (intros pk; by split_and!);
        pose proof (St_alter_active _ hp0 hp1 p f Hf2 HpA' Hp0 HSt1) as HSt2;
        pose proof (lookup_alter_eq f hp1 p) as Hl2;
        set (hp2 := alter f p hp1) in *
    end.
    destruct HSt1 as (_ & _ & Hinv1).
    destruct (inv_active _ hp1 Hinv1 p HpA') as (pk1 & Hpk1 & _).
    rewrite Hpk1 in Hl2. simpl in Hl2.
    destruct HSt2 as (Hext2 & Hfl2 & Hinv2). split; [|by eexists].
    split_and!; [done|done|]. by eapply LoadInv_retire_failed.
  - destruct (HSt1) as (_ & _ & Hinv1).
    destruct (inv_active _ hp1 Hinv1 p HpA') as (pk1 & Hpk1 & Hi1).
    rewrite Hpk1.
    lazymatch goal with
    | |- context [alter ?f p hp1] =>
        assert (strict f) as Hf2 by solve_strict;
        pose proof (St_alter_strict _ hp0 hp1 p f Hf2 Hp0 HSt1) as HSt2;
        pose proof (incompleteOf_alter_strict hp1 p f p Hf2) as Hinc2;
        rewrite Hinc1 in Hinc2;
        assert (heap_ext hp1 (alter f p hp1)) as HextT2
          by (apply heap_ext_alter; intros pk' ?; exact (strict_grows f pk' Hf2));
        set (hp2 := alter f p hp1) in *
    end.
    clearbody hp2. destruct HSt2 as (Hext2 & Hfl2 & Hinv2).
    assert (loop_inv p hp2 []) as Hloop.
    { split; [by intros m ?%elem_of_nil|]. intros ?. congruence. }
    pose proof (loadImports_ok rec T ctx stk p _ hp0 Tmono Hrec HpA' Hp0
                  (importPathsOf pk1) [] ∅ hp2 Hext2 Hfl2 Hinv2 Hloop) as Hl.
    destruct (loadImports _ _ _ _ _ _ _ _) as [[[imps dmap] hp3]| | | |]; try done.
    2:{ cbn [obind]. intros [HP HT]. apply Hl. split.
        - intros q Hq%importPathsOf_incl. apply HP. by rewrite (Hbp pk1 Hpk1) in Hq.
        - apply (Tmono hp1); [|done]. by apply (Tmono hp). }
    cbn [obind]. destruct Hl as (Hext3 & Hfl3 & Hinv3 & Himps & Hcause).
    destruct (inv_active _ hp3 Hinv3 p HpA') as (pk3 & Hpk3 & Hi3).
    assert (St A hp0 (alter (set_imports (Some imps)) p hp3)) as HSt4.
    { split_and!; [by apply heap_ext_alter_new|by apply flagged_alter_new|].
      apply (LoadInv_retire_loaded A hp3 p pk3 _ imps); try done.
      - intros m Hm. destruct (Himps m Hm) as [Hr Hp]. split; [done|].
        intros Hmi. specialize (Hp Hmi). unfold incompleteOf in Hp.
        by rewrite Hpk3 in Hp.
      - intros Hpi. destruct Hcause as [He|Hm].
        + unfold incompleteOf. by rewrite Hpk3.
        + left. apply bool_decide_eq_true in He. by rewrite Hpk3 in He.
        + by right. }
    set (hp4 := alter (set_imports (Some imps)) p hp3) in *.
    assert (is_Some (hp4 !! p)) as Hs4
      by (unfold hp4; rewrite lookup_alter_eq, Hpk3; by eexists).
    clearbody hp4.
    lazymatch goal with
    | |- context [alter ?f p hp4] =>
        assert (strict f) as Hf5 by solve_strict;
        pose proof (St_alter_strict _ hp0 hp4 p f Hf5 Hp0 HSt4) as HSt5;
        assert (is_Some (alter f p hp4 !! p)) as Hs5
          by (by apply lookup_alter_is_Some);
        set (hp5 := alter f p hp4) in *
    end.
    clearbody hp5.
    lazymatch goal with
    | |- context [if ?c then alter ?f p hp5 else hp5] =>
        assert (St A hp0 (if c then alter f p hp5 else hp5)
                ∧ is_Some ((if c then alter f p hp5 else hp5) !! p)) as [HSt6 Hs6];
        [destruct c; [split; [apply St_alter_strict; [solve_strict|done|done]
                            |by apply lookup_alter_is_Some]|done]|];
        set (hp6 := if c then alter f p hp5 else hp5) in *
    end.
    clearbody hp6.
    lazymatch goal with
    | |- match (if ?c then _ else _) with _ => _ end => destruct c
    end.
    + split; [apply St_alter_strict; [solve_strict|done|done]
             |by apply lookup_alter_is_Some].
    + done.
Qed.

(** [loadImport] keeps the invariant of the loader, and neither
    panics nor exits; it returns when its fuel exceeds the number of
    the units of [K] that are not yet loaded. *)
Lemma loadImport_ok fuel :
  ∀ ctx path srcDir stk pos A (hp : heap),
    LoadInv A hp →
    loads_ok A hp (loadImport E fuel ctx path srcDir stk pos hp)
    ∧ (path ∈ P → (pending K hp < fuel)%nat →
       loadImport E fuel ctx path srcDir stk pos hp ≠ OutOfFuel).
Proof.
  induction fuel as [|fuel IH]; intros ctx path srcDir stk pos A hp Hinv;
    [split; [done|lia]|].
  cbn [loadImport].
  pose proof (Hkeyed ctx path srcDir) as HK. unfold fullImportPathOf in HK.
  set (p := if contains (Build.BuildTags ctx) "race" then _ else _) in *.
  clearbody p.
  destruct (hp !! p) as [pk|] eqn:Hp;
    [split; [by apply (reusePackage_ok A hp p pk)|done]|].
  pose proof (Hclosed ctx path srcDir) as HC.
  destruct (Import E ctx path srcDir) as [bp err]. simpl in HC.
  assert (p ∉ A) as HpA.
  { intros HA. destruct (inv_active A hp Hinv p HA) as (? & ? & _). congruence. }
  assert (p ∈ ({[p]} ∪ A : gset string)) as HpA' by set_solver.
  lazymatch goal with
  | |- context [<[p := ?x]> hp] =>
      pose proof (LoadInv_new A hp p x Hinv Hp eq_refl) as Hinv1;
      pose proof (heap_ext_insert_new hp p x Hp) as Hext1;
      pose proof (pending_insert K hp p x fuel) as Hpend1;
      assert (incompleteOf (<[p := x]> hp) p = false) as Hinc1
        by (unfold incompleteOf; by rewrite lookup_insert_eq);
      assert (flagged hp (<[p := x]> hp)) as Hfl1;
      [intros k a b Ha Hb; rewrite lookup_insert_ne in Hb by congruence;
       congruence|];
      set (hp1 := <[p := x]> hp) in *
  end.
  clearbody hp1.
  assert (St ({[p]} ∪ A) hp hp1) as HSt1 by done.
  lazymatch goal with
  | |- context [alter ?f p hp1] =>
      assert (strict f) as Hf2 by solve_strict;
      pose proof (St_alter_strict _ hp hp1 p f Hf2 Hp HSt1) as HSt2;
      pose proof (incompleteOf_alter_strict hp1 p f p Hf2) as Hinc2;
      rewrite Hinc1 in Hinc2;
      assert (heap_ext hp1 (alter f p hp1)) as HextT2
        by (apply heap_ext_alter; intros pk' ?; exact (strict_grows f pk' Hf2));
      set (hp2 := alter f p hp1) in *
  end.
  clearbody hp2.
  lazymatch goal with
  | |- context [load E ?r ?c ?s p ?b ?e hp2] =>
      pose proof (load_ok r (λ h, (pending K h < fuel)%nat) c s p b e A hp hp2
                    (λ h h', pending_mono K h h' fuel) IH HpA Hp HSt2 Hinc2) as Hl;
      assert (Build.Imports b = Build.Imports bp) as Hb
        by (destruct (decide (gobin E = "")); done);
      rewrite Hb in Hl;
      destruct (load E r c s p b e hp2) as [hp3| | | |]; try done
  end.
  2:{ split; [done|]. intros HP Hpend _. apply Hl. split; [intros q; by apply HC|].
      apply (pending_mono K hp1); [|done]. by apply Hpend1; [apply HK| |]. }
  cbn [obind]. destruct Hl as [HSt3 Hs3]. split; [|done].
  lazymatch goal with
  | |- loads_ok A hp (Done (p, ?h)) =>
      assert (St A hp h ∧ is_Some (h !! p)) as [HSt4 Hs4]
  end.
  { destruct pos as [|q pos]; [done|].
    split; [apply St_alter_strict; [solve_strict|done|done]
           |by apply lookup_alter_is_Some]. }
  destruct (HSt4) as (Hext4 & Hfl4 & Hinv4). split_and!; try done.
  by apply (St_returned A hp).
Qed.

End Loader.












Lemma closed_nil E : closed E [].
Proof. by intros ctx path srcDir path' ?%elem_of_nil. Qed.

Lemma keyed_nil E : keyed E [] ∅.
Proof. by intros ctx path srcDir ?%elem_of_nil. Qed.










End PkgFacts.

(** * Further properties of the code *)

Module PkgMore.
Import Pkg PkgSpec PkgFacts.

(** ** Arguments of the command line *)

Lemma append_empty_l s : "" +:+ s = s.
Proof. reflexivity. Qed.

Lemma IndexByte_app_found b c o :
  IndexByte b c = None → IndexByte (b +:+ String c o) c = Some (String.length b).
Proof.
  induction b as [|a b IH]; simpl.
  - intros _. by rewrite decide_True.
  - destruct (decide (a = c)); [done|].
    destruct (IndexByte b c); [done|]. intros _. by rewrite IH.
Qed.

Lemma substring_prefix b s : String.substring 0 (String.length b) (b +:+ s) = b.
Proof.
  induction b as [|a b IH]; simpl.
  - by destruct s.
  - rewrite ?append_cons. simpl. by rewrite IH.
Qed.

Lemma substring_all s : String.substring 0 (String.length s) s = s.
Proof. induction s as [|a s IH]; simpl; [done|by rewrite IH]. Qed.

Lemma substring_suffix b c o :
  String.substring (S (String.length b))
    (String.length (b +:+ String c o) - S (String.length b))%nat (b +:+ String c o) = o.
Proof.
  induction b as [|a b IH].
  - simpl. rewrite Nat.sub_0_r. apply substring_all.
  - rewrite ?append_cons. simpl String.length. simpl String.substring. exact IH.
Qed.

(** [strings.Split] and [strings.Join] on the separator are inverse. *)
Lemma Split_nonempty s sep : Split s sep ≠ [].
Proof.
  induction s as [|a s IH]; simpl; [done|].
  destruct (decide (a = sep)); [done|]. by destruct (Split s sep).
Qed.

Lemma concat_Split s sep :
  String.concat (String sep "") (Split s sep) = s.
Proof.
  induction s as [|a s IH]; simpl; [done|].
  pose proof (Split_nonempty s sep) as Hne.
  destruct (decide (a = sep)) as [->|Hne'].
  - destruct (Split s sep) as [|x xs] eqn:Hs; [done|].
    change (String.concat (String sep "") ("" :: x :: xs))
      with ("" +:+ String sep "" +:+ String.concat (String sep "") (x :: xs)).
    by rewrite IH.
  - destruct (Split s sep) as [|x xs] eqn:Hs; [done|].
    destruct xs as [|y ys].
    + simpl in IH |- *. by rewrite IH.
    + change (String.concat (String sep "") (String a x :: y :: ys))
        with (String a x +:+ String sep "" +:+ String.concat (String sep "") (y :: ys)).
      change (String.concat (String sep "") (x :: y :: ys))
        with (x +:+ String sep "" +:+ String.concat (String sep "") (y :: ys)) in IH.
      rewrite append_cons. by rewrite IH.
Qed.

(** X1.  An argument [base:opts] whose base holds no colon is split at
    its first colon: [packageBaseImportPath] gives [base],
    [packageOptions] gives the comma separated fields of [opts], and
    joining them again gives the argument back. *)
Theorem packageArg_split (base opts : string) :
  IndexByte base ":"%char = None →
  packageBaseImportPath (base +:+ ":" +:+ opts) = base
  ∧ packageOptions (base +:+ ":" +:+ opts) = Split opts ","%char
  ∧ packageBaseImportPath (base +:+ ":" +:+ opts) +:+ ":"
    +:+ String.concat "," (packageOptions (base +:+ ":" +:+ opts))
    = base +:+ ":" +:+ opts.
Proof.
  intros Hb. unfold packageBaseImportPath, packageOptions.
  change (":" +:+ opts) with (String ":"%char opts).
  rewrite (IndexByte_app_found base ":"%char opts Hb).
  rewrite substring_prefix, substring_suffix. split_and!; [done|done|].
  by rewrite (concat_Split opts ","%char).
Qed.

Lemma packageArg_split_witness :
  packageBaseImportPath ("net/http" +:+ ":" +:+ "race,x") = "net/http"
  ∧ packageOptions ("net/http" +:+ ":" +:+ "race,x") = Split "race,x" ","%char
  ∧ packageBaseImportPath ("net/http" +:+ ":" +:+ "race,x") +:+ ":"
    +:+ String.concat "," (packageOptions ("net/http" +:+ ":" +:+ "race,x"))
    = "net/http" +:+ ":" +:+ "race,x".
Proof. apply (packageArg_split "net/http" "race,x"). reflexivity. Defined.

(** ** The import stack *)

Lemma ltb_true_not_le (a b : string) : String.ltb a b = true ↔ ¬ String.le b a.
Proof.
  rewrite <-ltb_false_le. destruct (String.ltb a b); naive_solver.
Qed.

Lemma ltb_irrefl (a : string) : String.ltb a a = false.
Proof. by apply ltb_false_le. Qed.

Lemma ltb_asym (a b : string) : String.ltb a b = true → String.ltb b a = false.
Proof.
  rewrite ltb_true_not_le, ltb_false_le. intros H.
  by destruct (total String.le a b).
Qed.

Lemma ltb_trans (a b c : string) :
  String.ltb a b = true → String.ltb b c = true → String.ltb a c = true.
Proof.
  rewrite !ltb_true_not_le. intros Hab Hbc Hca.
  destruct (total String.le a b) as [Hle|]; [|done].
  apply Hbc. by transitivity a.
Qed.

Lemma ltb_total (a b : string) :
  a ≠ b → String.ltb a b = true ∨ String.ltb b a = true.
Proof.
  intros Hne. destruct (String.ltb a b) eqn:Hab; [by left|right].
  destruct (String.ltb b a) eqn:Hba; [done|]. exfalso. apply Hne.
  apply ltb_false_le in Hab, Hba. by apply (anti_symm String.le).
Qed.

Lemma firstDifferenceLess_irrefl s : firstDifferenceLess s s = false.
Proof. induction s as [|a s IH]; simpl; [done|]. by rewrite decide_True. Qed.

Lemma firstDifferenceLess_asym s t :
  firstDifferenceLess s t = true → firstDifferenceLess t s = false.
Proof.
  revert t. induction s as [|a s IH]; intros [|b t]; simpl; try done.
  destruct (decide (a = b)) as [->|Hne].
  - rewrite decide_True by done. apply IH.
  - rewrite decide_False by done. apply ltb_asym.
Qed.

Lemma firstDifferenceLess_trans s t u :
  length s = length t → length t = length u →
  firstDifferenceLess s t = true → firstDifferenceLess t u = true →
  firstDifferenceLess s u = true.
Proof.
  revert t u. induction s as [|a s IH]; intros [|b t] [|c u]; simpl; try done.
  intros [= Hst] [= Htu].
  destruct (decide (a = b)) as [->|Hab], (decide (b = c)) as [->|Hbc].
  - by apply IH.
  - done.
  - rewrite decide_False by done. done.
  - intros H1 H2. destruct (decide (a = c)) as [->|Hac].
    + apply ltb_asym in H1. congruence.
    + by apply (ltb_trans a b c).
Qed.

Lemma firstDifferenceLess_total s t :
  length s = length t → s ≠ t →
  firstDifferenceLess s t = true ∨ firstDifferenceLess t s = true.
Proof.
  revert t. induction s as [|a s IH]; intros [|b t]; simpl; try done.
  intros [= Hst] Hne. destruct (decide (a = b)) as [->|Hab].
  - rewrite decide_True by done. apply IH; [done|]. congruence.
  - rewrite decide_False by done. by apply ltb_total.
Qed.

Lemma shorterThan_irrefl s : shorterThan s s = false.
Proof. unfold shorterThan. rewrite decide_True by done. apply firstDifferenceLess_irrefl. Qed.

Lemma shorterThan_asym s t : shorterThan s t = true → shorterThan t s = false.
Proof.
  unfold shorterThan. destruct (decide (length s = length t)) as [Heq|Hne].
  - rewrite decide_True by done. apply firstDifferenceLess_asym.
  - rewrite decide_False by done. intros H%bool_decide_eq_true.
    apply bool_decide_eq_false. lia.
Qed.

Lemma shorterThan_trans s t u :
  shorterThan s t = true → shorterThan t u = true → shorterThan s u = true.
Proof.
  unfold shorterThan.
  destruct (decide (length s = length t)) as [Hst|Hst],
           (decide (length t = length u)) as [Htu|Htu].
  - rewrite decide_True by congruence. by apply firstDifferenceLess_trans.
  - rewrite decide_False by congruence. intros _ H%bool_decide_eq_true.
    apply bool_decide_eq_true. lia.
  - rewrite decide_False by congruence. intros H%bool_decide_eq_true _.
    apply bool_decide_eq_true. lia.
  - intros H1%bool_decide_eq_true H2%bool_decide_eq_true.
    rewrite decide_False by lia. apply bool_decide_eq_true. lia.
Qed.

Lemma shorterThan_total s t :
  s ≠ t → shorterThan s t = true ∨ shorterThan t s = true.
Proof.
  unfold shorterThan. intros Hne. destruct (decide (length s = length t)) as [Heq|Hlen].
  - rewrite decide_True by done. by apply firstDifferenceLess_total.
  - rewrite decide_False by done.
    destruct (decide (length s < length t)%nat).
    + left. by apply bool_decide_eq_true.
    + right. apply bool_decide_eq_true. lia.
Qed.

(** X2.  [shorterThan] is a strict total order on import stacks: no
    stack is shorter than itself, of two different stacks exactly one
    is shorter than the other, and the relation is transitive.  So the
    shortest stack that [reusePackage] keeps is well defined. *)
Theorem shorterThan_strict_total_order :
  (∀ s, shorterThan s s = false)
  ∧ (∀ s t, shorterThan s t = true → shorterThan t s = false)
  ∧ (∀ s t u, shorterThan s t = true → shorterThan t u = true → shorterThan s u = true)
  ∧ (∀ s t, s ≠ t → shorterThan s t = true ∨ shorterThan t s = true).
Proof.
  split_and!.
  - apply shorterThan_irrefl.
  - apply shorterThan_asym.
  - apply shorterThan_trans.
  - apply shorterThan_total.
Qed.

(** ** [reusePackage] and the cache of [loadImport] *)

(** X3.  [reusePackage] discards no state of the package it is given:
    it writes only the fields [Error] and [Incomplete], never clears
    the flag [Incomplete], keeps the text, the position and the kind
    of an error that is already recorded, and leaves a resolved package
    without error exactly as it is. *)
Theorem reusePackage_keeps_state (p : string) (stk : list string) (hp : heap) pk :
  hp !! p = Some pk →
  ∃ pk', reusePackage p stk hp = <[p := pk']> hp
    ∧ set_Error None (set_Incomplete false pk') = set_Error None (set_Incomplete false pk)
    ∧ (Incomplete pk = true → Incomplete pk' = true)
    ∧ (∀ e, Error pk = Some e →
         ∃ e', Error pk' = Some e' ∧ Err e' = Err e ∧ Pos e' = Pos e
               ∧ isImportCycle e' = isImportCycle e ∧ hard e' = hard e)
    ∧ (imports pk ≠ None → Error pk = None → pk' = pk).
Proof.
  intros Hp. unfold reusePackage. rewrite Hp. eexists. split; [reflexivity|].
  destruct pk as [bp bc base tg std stale inc err imps ds loc fp rc]. simpl.
  destruct imps as [l|]; simpl.
  - destruct err as [e|]; simpl.
    + destruct (negb (isImportCycle e) && shorterThan stk (ImportStack e)); simpl;
        split_and!; try done; intros e0 [= <-]; eexists; by split_and!.
    + split_and!; done.
  - destruct err as [e|]; simpl.
    + destruct (negb (isImportCycle e) && shorterThan stk (ImportStack e)); simpl;
        split_and!; try done; intros e0 [= <-]; eexists; by split_and!.
    + split_and!; done.
Qed.

Lemma reusePackage_keeps_state_witness :
  ∃ pk', reusePackage "c" ["a"; "c"] Examples.heapFailed = <["c" := pk']> Examples.heapFailed
    ∧ set_Error None (set_Incomplete false pk')
      = set_Error None (set_Incomplete false Examples.pkgFailed)
    ∧ (Incomplete Examples.pkgFailed = true → Incomplete pk' = true)
    ∧ (∀ e, Error Examples.pkgFailed = Some e →
         ∃ e', Error pk' = Some e' ∧ Err e' = Err e ∧ Pos e' = Pos e
               ∧ isImportCycle e' = isImportCycle e ∧ hard e' = hard e)
    ∧ (imports Examples.pkgFailed ≠ None → Error Examples.pkgFailed = None
       → pk' = Examples.pkgFailed).
Proof.
  apply (reusePackage_keeps_state "c" ["a"; "c"] Examples.heapFailed Examples.pkgFailed).
  reflexivity.
Defined.

(** X4.  The import stack of a recorded error only gets shorter: after
    [reusePackage], the stack of an error that is no import cycle is
    the given stack if that is shorter than the recorded one, and the
    recorded one otherwise, so neither of the two is shorter than what
    is kept.  The error of an import cycle keeps the stack that
    describes the cycle. *)
Theorem reusePackage_shortest_stack (p : string) (stk : list string) (hp : heap) pk e :
  hp !! p = Some pk → Error pk = Some e →
  ∃ pk' e', reusePackage p stk hp !! p = Some pk' ∧ Error pk' = Some e'
    ∧ (isImportCycle e = true → e' = e)
    ∧ (isImportCycle e = false →
         ImportStack e' = (if shorterThan stk (ImportStack e) then stk else ImportStack e)
         ∧ shorterThan stk (ImportStack e') = false
         ∧ shorterThan (ImportStack e) (ImportStack e') = false).
Proof.
  intros Hp He. unfold reusePackage. rewrite Hp. rewrite lookup_insert_eq.
  pose proof shorterThan_irrefl as Hirr. pose proof shorterThan_asym as Hasym.
  assert (∀ pk1, Error pk1 = Some e →
    ∃ pk' e',
      Some match Error pk1 with
           | Some e0 =>
               if negb (isImportCycle e0) && shorterThan stk (ImportStack e0)
               then set_Error (Some (mkPackageError stk (Pos e0) (Err e0)
                                       (isImportCycle e0) (hard e0))) pk1
               else pk1
           | None => pk1
           end = Some pk' ∧ Error pk' = Some e'
      ∧ (isImportCycle e = true → e' = e)
      ∧ (isImportCycle e = false →
           ImportStack e' = (if shorterThan stk (ImportStack e) then stk else ImportStack e)
           ∧ shorterThan stk (ImportStack e') = false
           ∧ shorterThan (ImportStack e) (ImportStack e') = false)) as Hstep.
  { intros pk1 He1. rewrite He1. destruct (isImportCycle e) eqn:Hc; simpl.
    - exists pk1, e. by split_and!.
    - destruct (shorterThan stk (ImportStack e)) eqn:Hs.
      + eexists _, _. split_and!; [reflexivity|reflexivity|done|]. intros _. simpl.
        split_and!; [done|apply Hirr|by apply Hasym].
      + exists pk1, e. split_and!; try done; intros _; split_and!; try done; apply Hirr. }
  destruct (imports pk) as [l|]; [by apply Hstep|].
  rewrite He. by apply Hstep.
Qed.

Lemma reusePackage_shortest_stack_witness :
  ∃ pk' e', reusePackage "c" ["a"; "c"] Examples.heapFailed !! "c" = Some pk'
    ∧ Error pk' = Some e'
    ∧ (isImportCycle Examples.errMissing = true → e' = Examples.errMissing)
    ∧ (isImportCycle Examples.errMissing = false →
         ImportStack e' = (if shorterThan ["a"; "c"] (ImportStack Examples.errMissing)
                           then ["a"; "c"] else ImportStack Examples.errMissing)
         ∧ shorterThan ["a"; "c"] (ImportStack e') = false
         ∧ shorterThan (ImportStack Examples.errMissing) (ImportStack e') = false).
Proof.
  apply (reusePackage_shortest_stack "c" ["a"; "c"] Examples.heapFailed Examples.pkgFailed
           Examples.errMissing); reflexivity.
Defined.

(** X5.  A request for a unit that the cache holds resolved and
    without error returns that unit and leaves every package as it is,
    whatever the provider would answer: the same pointer each time. *)
Theorem loadImport_cache_hit E fuel ctx path srcDir stk pos (hp : heap) pk :
  hp !! fullImportPathOf E ctx path srcDir = Some pk →
  imports pk ≠ None → Error pk = None →
  loadImport E (S fuel) ctx path srcDir stk pos hp
  = Done (fullImportPathOf E ctx path srcDir, hp).
Proof.
  intros Hp Hi He. cbn [loadImport].
  change (if contains (Build.BuildTags ctx) "race" then _ else _)
    with (fullImportPathOf E ctx path srcDir).
  rewrite Hp. unfold reusePackage. rewrite Hp.
  destruct (imports pk); [|done]. rewrite He. by rewrite insert_id.
Qed.

Lemma loadImport_cache_hit_witness :
  loadImport Examples.env 1 (buildDefault Examples.env) "b" "/w" ["a"] [] Examples.heapAB
  = Done ("b", Examples.heapAB).
Proof.
  apply (loadImport_cache_hit Examples.env 0 (buildDefault Examples.env) "b" "/w" ["a"] []
           Examples.heapAB (Examples.pkg "/w/b" "b" "/w" ["b.go"] "/w/pkg/b.a" false false []));
    [reflexivity|discriminate|reflexivity].
Defined.

(** X6.  When the provider fails to describe a unit that is not in the
    cache, [loadImport] files the unit with the provider's message as
    its error, on the import stack that led to it, marks it
    [Incomplete], resolves none of its imports, and changes no other
    unit of the cache. *)
Theorem loadImport_provider_error E fuel ctx path srcDir stk pos (hp : heap) bp msg :
  hp !! fullImportPathOf E ctx path srcDir = None →
  Import E ctx path srcDir = (bp, Some msg) →
  ∃ pk e,
    loadImport E (S fuel) ctx path srcDir stk pos hp
    = Done (fullImportPathOf E ctx path srcDir,
            <[fullImportPathOf E ctx path srcDir := pk]> hp)
    ∧ Incomplete pk = true ∧ imports pk = None ∧ deps pk = []
    ∧ Error pk = Some e ∧ Err e = msg ∧ ImportStack e = stk ++ [path]
    ∧ isImportCycle e = false.
Proof.
  intros Hp HI. cbn [loadImport].
  change (if contains (Build.BuildTags ctx) "race" then _ else _)
    with (fullImportPathOf E ctx path srcDir).
  rewrite Hp, HI. unfold load. cbn [obind].
  destruct pos as [|q pos]; rewrite !alter_insert_eq; eexists _, _;
    (split; [reflexivity|]); by split_and!.
Qed.

Lemma loadImport_provider_error_witness :
  ∃ pk e,
    loadImport Examples.env 1 (buildDefault Examples.env) "c" "/w" ["a"] [] Examples.heapAB
    = Done ("c", <["c" := pk]> Examples.heapAB)
    ∧ Incomplete pk = true ∧ imports pk = None ∧ deps pk = []
    ∧ Error pk = Some e ∧ Err e = "no provider" ∧ ImportStack e = ["a"; "c"]
    ∧ isImportCycle e = false.
Proof.
  apply (loadImport_provider_error Examples.env 0 (buildDefault Examples.env) "c" "/w" ["a"] []
           Examples.heapAB Build.zeroPackage "no provider"); reflexivity.
Defined.

(** ** Units are filed under their import path *)

Lemma filed_alter (hp : heap) f p :
  (∀ pk, ImportPath (f pk) = ImportPath pk) → filed hp → filed (alter f p hp).
Proof.
  intros Hf Hhp k pk. destruct (decide (k = p)) as [->|Hne].
  - rewrite lookup_alter_eq. destruct (hp !! p) as [pk0|] eqn:Hk; [|done].
    intros [= <-]. rewrite Hf. by apply Hhp.
  - rewrite lookup_alter_ne by done. apply Hhp.
Qed.

Lemma reusePackage_filed p stk (hp : heap) : filed hp → filed (reusePackage p stk hp).
Proof.
  intros Hhp. unfold reusePackage. destruct (hp !! p) as [pk|] eqn:Hp; [|done].
  intros k pk'. destruct (decide (k = p)) as [->|Hne].
  - rewrite lookup_insert_eq. intros [= <-].
    transitivity (ImportPath pk); [|by apply Hhp]. clear Hp Hhp.
    destruct pk as [bp bc base tg std stale inc err imps ds loc fp rc]. simpl.
    destruct imps, err as [e|]; simpl; try done;
      by destruct (negb (isImportCycle e) && shorterThan stk (ImportStack e)).
  - rewrite lookup_insert_ne by done. apply Hhp.
Qed.

Ltac keeps_path :=
  let pk := fresh "pk" in
  intros pk; simpl; try done; destruct (Error pk); done.

Section Filed.

Context (E : Env).

Lemma loadImports_filed (rec : loader) ctx stk p :
  (∀ ctx path srcDir stk pos (hp : heap),
     filed hp →
     match rec ctx path srcDir stk pos hp with
     | Done (_, hp') => filed hp'
     | _ => True
     end) →
  ∀ paths imps dmap (hp : heap),
    filed hp →
    match loadImports rec ctx stk p paths imps dmap hp with
    | Done (_, _, hp') => filed hp'
    | _ => True
    end.
Proof.
  intros Hrec. induction paths as [|path paths IH]; intros imps dmap hp Hhp;
    cbn [loadImports]; [done|].
  destruct (decide (path = "C")); [by apply IH|].
  destruct (hp !! p) as [pk|]; [|done].
  specialize (Hrec ctx path (Dir pk) stk
                (default [] (Build.ImportPos (Package_ pk) !! path)) hp Hhp).
  destruct (rec _ _ _ _ _ _) as [[p1 hp1]| | | |]; try done. cbn [obind].
  destruct (hp1 !! p1) as [pk1|]; [|done]. destruct (hp1 !! p) as [pkp|]; [|done].
  destruct (local pk1).
  - destruct (negb (local pkp) && bool_decide (Error pkp = None));
      match goal with
      | |- context [if ?c then alter ?f p ?h else ?h] =>
          assert (filed (if c then alter f p h else h))
            by (destruct c; [apply filed_alter; [keeps_path|]|];
                try (apply filed_alter; [keeps_path|]); done)
      end; by apply IH.
  - match goal with
    | |- context [if ?c then alter ?f p ?h else ?h] =>
        assert (filed (if c then alter f p h else h))
          by (destruct c; [apply filed_alter; [keeps_path|]|]; done)
    end; by apply IH.
Qed.

Lemma load_filed (rec : loader) ctx stk p bp err (hp : heap) :
  (∀ ctx path srcDir stk pos (hp : heap),
     filed hp →
     match rec ctx path srcDir stk pos hp with
     | Done (_, hp') => filed hp'
     | _ => True
     end) →
  Build.ImportPath bp = p →
  (∀ k pk, hp !! k = Some pk → k ≠ p → ImportPath pk = k) →
  match load E rec ctx stk p bp err hp with
  | Done hp' => filed hp'
  | _ => True
  end.
Proof.
  intros Hrec Hbp Hhp. unfold load.
  match goal with
  | |- context [alter ?f p hp] =>
      assert (filed (alter f p hp)) as H1;
      [|set (hp1 := alter f p hp) in *; clearbody hp1]
  end.
  { intros k pk. destruct (decide (k = p)) as [->|Hne].
    - rewrite lookup_alter_eq. destruct (hp !! p); [|done]. by intros [= <-].
    - rewrite lookup_alter_ne by done. intros Hk. by apply Hhp. }
  destruct err as [msg|]; [apply filed_alter; [keeps_path|done]|].
  destruct (hp1 !! p) as [pk1|]; [|done].
  match goal with
  | |- context [loadImports rec ctx stk p ?ps [] ∅ (alter ?f p hp1)] =>
      pose proof (loadImports_filed rec ctx stk p Hrec ps [] ∅ (alter f p hp1)
                    (filed_alter hp1 f p ltac:(keeps_path) H1)) as Hl;
      destruct (loadImports rec ctx stk p ps [] ∅ (alter f p hp1))
        as [[[imps dmap] hp3]| | | |]; try done
  end.
  cbn [obind].
  assert (∀ (h : heap) f, filed h → (∀ pk, ImportPath (f pk) = ImportPath pk) →
                          filed (alter f p h)) as Hstep
    by (intros; by apply filed_alter).
  repeat match goal with
         | |- context [if ?c then _ else _] => destruct c
         end;
    repeat (apply Hstep; [|keeps_path]); done.
Qed.

Lemma loadImport_filed fuel :
  ∀ ctx path srcDir stk pos (hp : heap),
    filed hp →
    match loadImport E fuel ctx path srcDir stk pos hp with
    | Done (_, hp') => filed hp'
    | _ => True
    end.
Proof.
  induction fuel as [|fuel IH]; intros ctx path srcDir stk pos hp Hhp; [done|].
  cbn [loadImport].
  set (p := if contains (Build.BuildTags ctx) "race" then _ else _). clearbody p.
  destruct (hp !! p) as [pk|] eqn:Hp; [by apply reusePackage_filed|].
  destruct (Import E ctx path srcDir) as [bp err].
  match goal with
  | |- context [load E ?r ?c ?s p ?b ?e ?h] =>
      pose proof (load_filed r c s p b e h IH) as Hl;
      destruct (load E r c s p b e h) as [hp3| | | |]; try done
  end.
  cbn [obind].
  assert (filed hp3) as H3.
  { apply Hl.
    - by destruct (decide (gobin E = "")).
    - intros k pk Hk Hne. rewrite lookup_alter_ne, lookup_insert_ne in Hk by done.
      by apply Hhp. }
  destruct pos as [|q pos]; [done|]. apply filed_alter; [keeps_path|done].
Qed.

Lemma loadArgs_filed fuel args :
  ∀ set pkgs (hp : heap),
    filed hp →
    match loadArgs E fuel args set pkgs hp with
    | Done (_, hp') => filed hp'
    | _ => True
    end.
Proof.
  induction args as [|arg args IH]; intros set pkgs hp Hhp; cbn [loadArgs]; [done|].
  destruct (bool_decide (arg ∈ set)); [by apply IH|].
  unfold loadPackage.
  match goal with
  | |- context [loadImport E fuel ?c ?b ?d ?s ?ps hp] =>
      pose proof (loadImport_filed fuel c b d s ps hp Hhp) as Hl;
      destruct (loadImport E fuel c b d s ps hp) as [[k hp1]| | | |]; try done
  end.
  cbn [obind]. by apply IH.
Qed.

End Filed.

(** X7.  The loader files every unit under its own import path: in
    the cache left by the loading of the arguments, the import path of
    a unit is its key, so two different units never have the same
    import path. *)
Theorem loadArgs_units_filed E fuel args (hp : heap) pkgs hp' :
  filed hp → loadArgs E fuel args ∅ [] hp = Done (pkgs, hp') →
  (∀ k pk, hp' !! k = Some pk → ImportPath pk = k)
  ∧ (∀ a b, is_Some (hp' !! a) → is_Some (hp' !! b) →
            ImportPathOf hp' a = ImportPathOf hp' b → a = b).
Proof.
  intros Hhp Hrun. pose proof (loadArgs_filed E fuel args ∅ [] hp Hhp) as Hf.
  rewrite Hrun in Hf. split; [done|].
  intros a b [pa Ha] [pb Hb]. unfold ImportPathOf. rewrite Ha, Hb. simpl.
  by rewrite (Hf a pa Ha), (Hf b pb Hb).
Qed.

Lemma loadArgs_units_filed_witness :
  (∀ k pk, Examples.heapCycle !! k = Some pk → ImportPath pk = k)
  ∧ (∀ a b, is_Some (Examples.heapCycle !! a) → is_Some (Examples.heapCycle !! b) →
            ImportPathOf Examples.heapCycle a = ImportPathOf Examples.heapCycle b → a = b).
Proof.
  apply (loadArgs_units_filed Examples.envCycle 15 ["A"; "D"] ∅ ["A"; "D"]).
  - intros k pk Hk. by rewrite lookup_empty in Hk.
  - vm_compute. reflexivity.
Defined.

(** ** The arguments of a request *)

Lemma loadArgs_seen (E : Env) fuel a args :
  ∀ set pkgs (hp : heap),
    a ∈ args ∨ a ∈ set →
    loadArgs E fuel (args ++ [a]) set pkgs hp = loadArgs E fuel args set pkgs hp.
Proof.
  induction args as [|b args IH]; intros set pkgs hp Ha.
  - destruct Ha as [Ha|Ha]; [by apply elem_of_nil in Ha|].
    simpl. by rewrite bool_decide_eq_true_2.
  - cbn [app loadArgs]. destruct (bool_decide (b ∈ set)) eqn:Hb.
    + apply IH. apply bool_decide_eq_true in Hb.
      destruct Ha as [[->|Ha]%elem_of_cons|Ha]; auto.
    + destruct (loadPackage E fuel b [] hp) as [[p hp1]| | | |]; try done.
      cbn [obind]. apply IH.
      destruct Ha as [[->|Ha]%elem_of_cons|Ha]; [right|by left|right]; set_solver.
Qed.

(** X8.  An argument that is given a second time is not loaded again:
    the request with the repeated argument loads the same packages, in
    the same order, into the same cache. *)
Theorem loadArgs_repeated_argument (E : Env) fuel a args (hp : heap) :
  a ∈ args →
  loadArgs E fuel (args ++ [a]) ∅ [] hp = loadArgs E fuel args ∅ [] hp.
Proof. intros Ha. apply loadArgs_seen. by left. Qed.

Lemma loadArgs_repeated_argument_witness :
  loadArgs Examples.envCycle 15 (["A"; "D"] ++ ["A"]) ∅ [] ∅
  = loadArgs Examples.envCycle 15 ["A"; "D"] ∅ [] ∅.
Proof.
  apply (loadArgs_repeated_argument Examples.envCycle 15 "A" ["A"; "D"] ∅). by left.
Defined.

(** ** The walk of [computeStale] *)

Section Reached.

Context (hp : heap).

Lemma foldl_walk_reached fuel l :
  (∀ p seen all seen' all',
     p ∈ l → walk fuel hp p (seen, all) = Done (seen', all') →
     ∀ x, x ∈ all' → x ∈ all ∨ x = p ∨ reaches hp p x) →
  ∀ seen all seen' all',
    foldl (λ acc p1, st ← acc ;;; walk fuel hp p1 st) (Done (seen, all)) l
    = Done (seen', all') →
    ∀ x, x ∈ all' → x ∈ all ∨ ∃ m, m ∈ l ∧ (x = m ∨ reaches hp m x).
Proof.
  induction l as [|y l IH]; intros Hwalk seen all seen' all' Hrun x Hx.
  { injection Hrun as <- <-. by left. }
  cbn [foldl obind] in Hrun.
  destruct (walk fuel hp y (seen, all)) as [[seen1 all1]| | | |] eqn:Hy;
    try (rewrite foldl_walk_stuck in Hrun by done; discriminate).
  destruct (IH (λ p s a s' a' Hp, Hwalk p s a s' a' (list_elem_of_further _ _ _ Hp))
              seen1 all1 seen' all' Hrun x Hx) as [Hx1|(m & Hm & Hxm)].
  - destruct (Hwalk y seen all seen1 all1 (list_elem_of_here _ _) Hy x Hx1)
      as [?|Hxy]; [by left|].
    right. exists y. split; [by left|done].
  - right. exists m. split; [by right|done].
Qed.

Lemma walk_reached fuel :
  ∀ p seen all seen' all',
    walk fuel hp p (seen, all) = Done (seen', all') →
    ∀ x, x ∈ all' → x ∈ all ∨ x = p ∨ reaches hp p x.
Proof.
  induction fuel as [|fuel IH]; intros p seen all seen' all' Hrun x Hx; [done|].
  cbn [walk] in Hrun. destruct (bool_decide (p ∈ seen)).
  { injection Hrun as <- <-. by left. }
  destruct (hp !! p) as [pk|] eqn:Hp; [|done].
  destruct (foldl _ _ _) as [[seen1 all1]| | | |] eqn:Hloop; try done.
  cbn [obind] in Hrun. injection Hrun as <- <-.
  apply elem_of_app in Hx as [Hx|Hx%list_elem_of_singleton]; [|by right; left].
  destruct (foldl_walk_reached fuel (default [] (imports pk))
              (λ p s a s' a' _, IH p s a s' a') _ _ _ _ Hloop x Hx)
    as [?|(m & Hm & Hxm)]; [by left|].
  right. right. rewrite (importsOf_lookup hp p pk Hp) in Hm.
  destruct Hxm as [->|Hr]; [by apply reaches_import|by eapply reaches_trans].
Qed.

Lemma packageList_reached fuel roots all :
  packageList fuel hp roots = Done all →
  ∀ x, x ∈ all → ∃ r, r ∈ roots ∧ (x = r ∨ reaches hp r x).
Proof.
  unfold packageList. intros Hrun x Hx.
  destruct (foldl _ _ _) as [[seen1 all1]| | | |] eqn:Hloop; try done.
  cbn [obind] in Hrun. injection Hrun as <-.
  destruct (foldl_walk_reached fuel roots (λ p s a s' a' _, walk_reached fuel p s a s' a')
              _ _ _ _ Hloop x Hx) as [[]%elem_of_nil|?]; done.
Qed.

End Reached.

(** X9.  In an import graph without cycle, and with fuel above the
    rank of the roots, [packageList] returns the roots and the units
    they reach, and no other unit, each exactly once, and every unit
    after all the units it imports. *)
Theorem packageList_postorder (rk : string → nat) (hp : heap) fuel roots :
  acyclic_imports rk hp →
  (∀ r, r ∈ roots → is_Some (hp !! r) ∧ (rk r < fuel)%nat) →
  ∃ all,
    packageList fuel hp roots = Done all
    ∧ NoDup all
    ∧ (∀ x, x ∈ all ↔ ∃ r, r ∈ roots ∧ (x = r ∨ reaches hp r x))
    ∧ (∀ x y, x ∈ all → y ∈ importsOf hp x → before all y x).
Proof.
  intros Hac Hroots.
  pose proof (packageList_walked rk hp fuel roots Hac (λ r Hr, proj1 (Hroots r Hr))) as Hw.
  destruct (packageList fuel hp roots) as [all| | | |] eqn:Hrun; try done.
  2:{ destruct Hw as (r & Hr & Hle). destruct (Hroots r Hr). lia. }
  destruct Hw as (Hnd & Hpo & Hin & Hsome). exists all. split_and!; try done.
  intros x. split; [by apply (packageList_reached hp fuel roots)|].
  intros (r & Hr & [->|Hreach]); [by apply Hin|].
  pose proof (reaches_before hp all r x Hnd Hpo (Hin r Hr) Hreach) as Hb.
  by apply before_elem_of in Hb as [? _].
Qed.

Lemma packageList_postorder_witness :
  ∃ all,
    packageList 5 Examples.heapOutside ["r"] = Done all
    ∧ NoDup all
    ∧ (∀ x, x ∈ all ↔ ∃ r, r ∈ ["r"] ∧ (x = r ∨ reaches Examples.heapOutside r x))
    ∧ (∀ x y, x ∈ all → y ∈ importsOf Examples.heapOutside x → before all y x).
Proof.
  apply (packageList_postorder Examples.rankOutside Examples.heapOutside 5 ["r"]
           heapOutside_acyclic).
  intros r ->%list_elem_of_singleton. split; [by eexists|]. vm_compute. lia.
Defined.

(** X10.  [computeStale] writes nothing but the flag [Stale], and only
    on the units it visits: the other fields of every package stay, no
    package is added or removed, and a package that is neither a root
    nor reached from a root is left exactly as it is. *)
Theorem computeStale_frame E fs fuel roots (hp hp' : heap) logs :
  computeStale E fs fuel roots hp = Done (hp', logs) →
  (∀ k, set_Stale false <$> hp !! k = set_Stale false <$> hp' !! k)
  ∧ (∀ x, x ∉ roots → (∀ r, r ∈ roots → ¬ reaches hp r x) → hp' !! x = hp !! x).
Proof.
  unfold computeStale. intros Hrun.
  destruct (packageList fuel hp roots) as [all| | | |] eqn:Hall; try done.
  cbn [obind] in Hrun.
  destruct (markStale_frame E fs _ _ _ _ _ _ Hrun) as [Hsame Hframe].
  split; [exact Hsame|]. intros x Hx Hnr. apply Hframe. intros Hxall.
  destruct (packageList_reached hp fuel roots all Hall x Hxall) as (r & Hr & [->|Hreach]);
    [done|by apply (Hnr r)].
Qed.

Lemma computeStale_frame_witness :
  (∀ k, set_Stale false <$> Examples.heapOutside !! k
        = set_Stale false
            <$> default ∅ (evaluated (computeStale Examples.env Examples.filesOutside 5
                                        ["r"] Examples.heapOutside)) !! k)
  ∧ (∀ x, x ∉ ["r"] → (∀ r, r ∈ ["r"] → ¬ reaches Examples.heapOutside r x) →
          default ∅ (evaluated (computeStale Examples.env Examples.filesOutside 5
                                  ["r"] Examples.heapOutside)) !! x
          = Examples.heapOutside !! x).
Proof.
  apply (computeStale_frame Examples.env Examples.filesOutside 5 ["r"] Examples.heapOutside
           _ ["isStale 3: x"; "isStale 3: r"]).
  vm_compute. reflexivity.
Defined.

(** ** What a fresh verdict of [isStale] means *)

Lemma olderThan_false fs built file :
  olderThan fs built file = false ↔ ∃ f, fs !! file = Some f ∧ modTime f ≤ built.
Proof.
  unfold olderThan. destruct (fs !! file) as [f|]; [|split; [done|by intros (? & ? & _)]].
  rewrite Z.ltb_ge. split; [by exists f|by intros (? & [= <-] & ?)].
Qed.

Lemma staleDeps_fresh fs (hp : heap) built ds :
  staleDeps fs hp built ds = Done false →
  ∀ d, d ∈ ds →
    ∃ pd, hp !! d = Some pd ∧ Stale pd = false
          ∧ (Target pd ≠ "" → ∃ fd, fs !! Target pd = Some fd ∧ modTime fd ≤ built).
Proof.
  induction ds as [|d' ds IH]; intros Hrun d Hd; [by apply elem_of_nil in Hd|].
  cbn [staleDeps] in Hrun. destruct (hp !! d') as [p1|] eqn:Hd'; [|done].
  destruct (Stale p1 || _) eqn:Hc; [done|].
  apply elem_of_cons in Hd as [->|Hd]; [|by apply IH].
  apply orb_false_iff in Hc as [Hs Ht]. exists p1. split_and!; [done|done|].
  intros Hne. apply olderThan_false.
  apply andb_false_iff in Ht as [Ht|Ht]; [|done].
  by apply bool_decide_eq_false in Ht.
Qed.

(** X11.  What [isStale] guarantees when it reports fresh a unit that is
    no fake builtin package and owns Go source: the verdict logs
    nothing; the unit has no load error, has an install target and was
    not flagged stale before; its artifact exists, with a modification
    time that is not zero; no dependency is flagged stale or has an
    artifact missing or newer than the unit's; and, unless the unit's
    root is that of no requested unit, every source file exists and is
    not newer than the artifact. *)
Theorem isStale_fresh_sound E fs (hp : heap) pk topRoot lg :
  isStale E fs hp pk topRoot = Done (false, lg) → never_stale pk = false →
  lg = [] ∧ Error pk = None ∧ Target pk ≠ "" ∧ Stale pk = false
  ∧ ∃ fi, fs !! Target pk = Some fi ∧ modTime fi ≠ 0
      ∧ (∀ d, d ∈ deps pk →
           ∃ pd, hp !! d = Some pd ∧ Stale pd = false
                 ∧ (Target pd ≠ "" →
                    ∃ fd, fs !! Target pd = Some fd ∧ modTime fd ≤ modTime fi))
      ∧ (Root pk = "" ∨ Root pk ∈ topRoot →
         ∀ src, src ∈ staleSrcs pk →
           ∃ f, fs !! filepath_Join E (Dir pk) src = Some f ∧ modTime f ≤ modTime fi).
Proof.
  unfold isStale, never_stale. intros Hrun Hns.
  apply orb_false_iff in Hns as [Hfake Hsrc]. rewrite Hfake in Hrun.
  destruct (bool_decide (Error pk ≠ None)) eqn:He; [done|].
  apply bool_decide_eq_false in He. apply dec_stable in He.
  rewrite He in Hsrc. rewrite bool_decide_eq_true_2 in Hsrc by done.
  rewrite andb_true_l in Hsrc. rewrite Hsrc in Hrun.
  destruct (bool_decide (Target pk = "") || Stale pk) eqn:Ht; [done|].
  apply orb_false_iff in Ht as [Ht%bool_decide_eq_false Hst].
  destruct (bool_decide (_ = 0)) eqn:Hb; [done|]. apply bool_decide_eq_false in Hb.
  destruct (fs !! Target pk) as [fi|] eqn:Hfi; [|done].
  destruct (staleDeps fs hp (modTime fi) (deps pk)) as [[]| | | |] eqn:Hd; try done.
  cbn [obind] in Hrun.
  pose proof (staleDeps_fresh fs hp (modTime fi) (deps pk) Hd) as Hdeps.
  destruct (bool_decide (Root pk ≠ "") && negb (bool_decide (Root pk ∈ topRoot))) eqn:Hr.
  - injection Hrun as <-. split_and!; try done. exists fi. split_and!; try done.
    apply andb_true_iff in Hr as [Hr1%bool_decide_eq_true Hr2%negb_true_iff].
    apply bool_decide_eq_false in Hr2. by intros [?|?].
  - destruct (existsb _ _) eqn:Hex; [done|]. injection Hrun as <-.
    split_and!; try done. exists fi. split_and!; try done.
    intros _ src Hsrc'. apply olderThan_false.
    destruct (olderThan fs (modTime fi) (filepath_Join E (Dir pk) src)) eqn:Ho; [|done].
    assert (existsb (λ src, olderThan fs (modTime fi) (filepath_Join E (Dir pk) src))
                    (staleSrcs pk) = true) as Hex'; [|congruence].
    apply existsb_exists. exists src. split; [by apply list_elem_of_In|done].
Qed.

Lemma isStale_fresh_sound_witness :
  let pk := Examples.pkgI "/other/y" "y" "/other" ["y.go"] "/other/pkg/y.a" [] [] in
  ([] : list string) = [] ∧ Error pk = None ∧ Target pk ≠ "" ∧ Stale pk = false
  ∧ ∃ fi, Examples.filesOutside !! Target pk = Some fi ∧ modTime fi ≠ 0
      ∧ (∀ d, d ∈ deps pk →
           ∃ pd, Examples.heapOutside !! d = Some pd ∧ Stale pd = false
                 ∧ (Target pd ≠ "" →
                    ∃ fd, Examples.filesOutside !! Target pd = Some fd
                          ∧ modTime fd ≤ modTime fi))
      ∧ (Root pk = "" ∨ Root pk ∈ ({["/other"]} : gset string) →
         ∀ src, src ∈ staleSrcs pk →
           ∃ f, Examples.filesOutside !! filepath_Join Examples.env (Dir pk) src = Some f
                ∧ modTime f ≤ modTime fi).
Proof.
  apply (isStale_fresh_sound Examples.env Examples.filesOutside Examples.heapOutside
           (Examples.pkgI "/other/y" "y" "/other" ["y.go"] "/other/pkg/y.a" [] [])
           {["/other"]} []).
  - vm_compute. reflexivity.
  - reflexivity.
Defined.

(** ** The dependencies of a unit are its transitive imports *)

Lemma reaches_mono (hp hp' : heap) a b :
  (∀ k x, x ∈ importsOf hp k → x ∈ importsOf hp' k) → reaches hp a b → reaches hp' a b.
Proof.
  intros Hsub. induction 1 as [k d Hd|k m d Hm _ IH].
  - apply reaches_import. by apply Hsub.
  - eapply reaches_trans; [by apply Hsub|done].
Qed.

Lemma same_edges_refl (hp : heap) : same_edges hp hp.
Proof. intros k pk Hk. by exists pk. Qed.

Lemma same_edges_trans (h1 h2 h3 : heap) :
  same_edges h1 h2 → same_edges h2 h3 → same_edges h1 h3.
Proof.
  intros H12 H23 k pk Hk. destruct (H12 k pk Hk) as (pk2 & Hk2 & Hi2 & Hd2).
  destruct (H23 k pk2 Hk2) as (pk3 & Hk3 & Hi3 & Hd3). exists pk3.
  split_and!; [done|congruence|congruence].
Qed.

Lemma same_edges_importsOf (hp hp' : heap) k x :
  same_edges hp hp' → x ∈ importsOf hp k → x ∈ importsOf hp' k.
Proof.
  intros Hs. unfold importsOf. destruct (hp !! k) as [pk|] eqn:Hk;
    [|by intros ?%elem_of_nil].
  destruct (Hs k pk Hk) as (pk' & -> & Hi & _). simpl. by rewrite Hi.
Qed.

Lemma same_edges_alter (hp : heap) f p :
  keeps_edges f → same_edges hp (alter f p hp).
Proof.
  intros Hf k pk Hk. destruct (decide (k = p)) as [->|Hne].
  - exists (f pk). rewrite lookup_alter_eq, Hk. destruct (Hf pk). by split_and!.
  - exists pk. by rewrite lookup_alter_ne.
Qed.

Lemma same_edges_alter_new (hp0 hp : heap) f p :
  hp0 !! p = None → same_edges hp0 hp → same_edges hp0 (alter f p hp).
Proof.
  intros Hp Hs k pk Hk. destruct (Hs k pk Hk) as (pk' & Hk' & ?). exists pk'.
  rewrite lookup_alter_ne by congruence. done.
Qed.

Lemma deps_reached_same_edges (hp hp' : heap) :
  same_edges hp hp' → (∀ k, is_Some (hp' !! k) → is_Some (hp !! k)) →
  deps_reached hp → deps_reached hp'.
Proof.
  intros Hs Hdom Hq k pk' d Hk Hd. destruct (Hdom k) as [pk Hk0]; [by eexists|].
  destruct (Hs k pk Hk0) as (pk2 & Hk2 & _ & Hd2).
  assert (pk2 = pk') as -> by congruence.
  apply (reaches_mono hp hp'); [intros k0 x0; by apply same_edges_importsOf|].
  apply (Hq k pk d Hk0). by rewrite <-Hd2.
Qed.

Lemma deps_reached_alter (hp : heap) f p :
  keeps_edges f → deps_reached hp → deps_reached (alter f p hp).
Proof.
  intros Hf. apply deps_reached_same_edges; [by apply same_edges_alter|].
  intros k Hk. by apply lookup_alter_is_Some in Hk.
Qed.

Lemma reusePackage_edges p stk (hp : heap) pk :
  hp !! p = Some pk →
  ∃ f, reusePackage p stk hp = alter f p hp ∧ keeps_edges f.
Proof.
  intros Hp.
  exists (λ pk,
    let pk1 := match imports pk with
               | None =>
                   set_Incomplete true
                     match Error pk with
                     | None => set_Error (Some (mkPackageError stk ""
                                                  "import cycle not allowed" true false)) pk
                     | Some _ => pk
                     end
               | Some _ => pk
               end in
    match Error pk1 with
    | Some e =>
        if negb (isImportCycle e) && shorterThan stk (ImportStack e)
        then set_Error (Some (mkPackageError stk (Pos e) (Err e)
                                (isImportCycle e) (hard e))) pk1
        else pk1
    | None => pk1
    end).
  split.
  - unfold reusePackage. rewrite Hp. apply map_eq. intros k.
    destruct (decide (k = p)) as [->|Hne].
    + by rewrite lookup_insert_eq, lookup_alter_eq, Hp.
    + by rewrite lookup_insert_ne, lookup_alter_ne.
  - intros [bp bc base tg std stale inc err imps ds loc fp rc]. simpl.
    destruct imps, err as [e|]; simpl; try done;
      by destruct (negb (isImportCycle e) && shorterThan stk (ImportStack e)).
Qed.

Lemma foldl_insert_lookup (g : string → string) l (m0 : gmap string string) k v :
  foldl (λ m dep, <[g dep := dep]> m) m0 l !! k = Some v → m0 !! k = Some v ∨ v ∈ l.
Proof.
  revert m0. induction l as [|d l IH]; intros m0; cbn [foldl]; [by left|].
  intros [H|H]%IH; [|right; by right].
  apply lookup_insert_Some in H as [[_ <-]|[_ H]]; [right; by left|by left].
Qed.

Ltac keeps_edges_tac :=
  let pk := fresh "pk" in
  intros pk; simpl; try done; destruct (Error pk); done.

Section DepsReached.

Context (E : Env).

Lemma loadImports_deps (rec : loader) ctx stk p :
  (∀ ctx path srcDir stk pos (hp : heap),
     deps_reached hp →
     match rec ctx path srcDir stk pos hp with
     | Done (_, hp') => deps_reached hp' ∧ same_edges hp hp'
     | _ => True
     end) →
  ∀ paths imps dmap (hp : heap),
    deps_reached hp → deps_map_ok hp imps dmap →
    match loadImports rec ctx stk p paths imps dmap hp with
    | Done (imps', dmap', hp') =>
        deps_reached hp' ∧ same_edges hp hp' ∧ deps_map_ok hp' imps' dmap'
    | _ => True
    end.
Proof.
  intros Hrec. induction paths as [|path paths IH]; intros imps dmap hp Hq Hm;
    cbn [loadImports]; [by split_and!; [|apply same_edges_refl|]|].
  destruct (decide (path = "C")); [by apply IH|].
  destruct (hp !! p) as [pk|]; [|done].
  specialize (Hrec ctx path (Dir pk) stk
                (default [] (Build.ImportPos (Package_ pk) !! path)) hp Hq).
  destruct (rec _ _ _ _ _ _) as [[p1 hp1]| | | |]; try done. cbn [obind].
  destruct Hrec as [Hq1 Hs1].
  destruct (hp1 !! p1) as [pk1|] eqn:Hp1; [|done].
  destruct (hp1 !! p) as [pkp|]; [|done].
  set (e := mkPackageError stk _ _ false false).
  set (hp2 := if local pk1 && (negb (local pkp) && bool_decide (Error pkp = None))
              then alter (set_Error (Some e)) p hp1 else hp1).
  assert (deps_reached hp2 ∧ same_edges hp1 hp2) as [Hq2 Hs2].
  { unfold hp2. destruct (local pk1 && _).
    - split; [apply deps_reached_alter|apply same_edges_alter]; by try keeps_edges_tac.
    - split; [done|apply same_edges_refl]. }
  set (hp3 := if from_option Incomplete false (hp2 !! p1)
              then alter (set_Incomplete true) p hp2 else hp2).
  assert (deps_reached hp3 ∧ same_edges hp2 hp3) as [Hq3 Hs3].
  { unfold hp3. destruct (from_option Incomplete false (hp2 !! p1)).
    - split; [apply deps_reached_alter|apply same_edges_alter]; by try keeps_edges_tac.
    - split; [done|apply same_edges_refl]. }
  assert (same_edges hp hp3) as Hs
    by (eapply same_edges_trans; [exact Hs1|]; by eapply same_edges_trans).
  assert (same_edges hp1 hp3) as Hs13 by (by eapply same_edges_trans).
  assert (∀ key, deps_map_ok hp3 (imps ++ [p1])
            (foldl (λ m dep, <[ImportPathOf hp2 dep := dep]> m) (<[key := p1]> dmap)
                   (deps pk1))) as Hm3.
  { intros key k v [Hv|Hv]%foldl_insert_lookup.
    - apply lookup_insert_Some in Hv as [[_ <-]|[_ Hv]].
      + left. apply elem_of_app. right. by left.
      + destruct (Hm k v Hv) as [Hin|(m & Hin & Hr)].
        * left. apply elem_of_app. by left.
        * right. exists m. split; [apply elem_of_app; by left|].
          apply (reaches_mono hp hp3); [|done].
          intros k0 x0. by apply same_edges_importsOf.
    - right. exists p1. split; [apply elem_of_app; right; by left|].
      apply (reaches_mono hp1 hp3); [|by apply (Hq1 p1 pk1 v)].
      intros k0 x0. by apply same_edges_importsOf. }
  unfold hp3, hp2 in *.
  destruct (local pk1); simpl in *;
    match goal with
    | |- context [loadImports rec ctx stk p paths ?i ?d ?h] =>
        specialize (IH i d h Hq3 (Hm3 _));
        destruct (loadImports rec ctx stk p paths i d h) as [[[imps' dmap'] hp']| | | |];
        try done;
        destruct IH as (? & ? & ?); split_and!; [done| |done];
        by eapply same_edges_trans
    end.
Qed.

Lemma load_deps (rec : loader) ctx stk p bp err (hp0 hp : heap) pk0 :
  (∀ ctx path srcDir stk pos (hp : heap),
     deps_reached hp →
     match rec ctx path srcDir stk pos hp with
     | Done (_, hp') => deps_reached hp' ∧ same_edges hp hp'
     | _ => True
     end) →
  hp0 !! p = None → same_edges hp0 hp → deps_reached hp →
  hp !! p = Some pk0 → imports pk0 = None → deps pk0 = [] →
  match load E rec ctx stk p bp err hp with
  | Done hp' => deps_reached hp' ∧ same_edges hp0 hp'
  | _ => True
  end.
Proof.
  intros Hrec Hp0 Hs0 Hq Hp Hi0 Hd0. unfold load.
  match goal with
  | |- context [alter ?f p hp] =>
      assert (keeps_edges f) as Hf1 by keeps_edges_tac;
      pose proof (deps_reached_alter hp f p Hf1 Hq) as Hq1;
      pose proof (same_edges_alter_new hp0 hp f p Hp0 Hs0) as Hs1;
      assert (∃ pk1, alter f p hp !! p = Some pk1 ∧ imports pk1 = None ∧ deps pk1 = [])
        as (pk1 & Hp1 & Hi1 & Hd1)
        by (exists (f pk0); rewrite lookup_alter_eq, Hp; destruct (Hf1 pk0);
            split_and!; [done|congruence|congruence]);
      set (hp1 := alter f p hp) in *; clearbody hp1
  end.
  destruct err as [msg|].
  { split; [apply deps_reached_alter; [keeps_edges_tac|done]
           |by apply same_edges_alter_new]. }
  rewrite Hp1.
  match goal with
  | |- context [loadImports rec ctx stk p ?ps [] ∅ (alter ?f p hp1)] =>
      assert (keeps_edges f) as Hf2 by keeps_edges_tac;
      pose proof (deps_reached_alter hp1 f p Hf2 Hq1) as Hq2;
      pose proof (same_edges_alter_new hp0 hp1 f p Hp0 Hs1) as Hs2;
      assert (∃ pk2, alter f p hp1 !! p = Some pk2 ∧ imports pk2 = None ∧ deps pk2 = [])
        as (pk2 & Hp2 & Hi2 & Hd2)
        by (exists (f pk1); rewrite lookup_alter_eq, Hp1; destruct (Hf2 pk1);
            split_and!; [done|congruence|congruence]);
      set (hp2 := alter f p hp1) in *; clearbody hp2;
      pose proof (loadImports_deps rec ctx stk p Hrec ps [] ∅ hp2 Hq2) as Hl;
      destruct (loadImports rec ctx stk p ps [] ∅ hp2)
        as [[[imps dmap] hp3]| | | |]; try done
  end.
  cbn [obind].
  destruct Hl as (Hq3 & Hs3 & Hm3); [by intros k v Hk; rewrite lookup_empty in Hk|].
  destruct (Hs3 p pk2 Hp2) as (pk3 & Hp3 & Hi3 & Hd3).
  rewrite Hi2 in Hi3. rewrite Hd2 in Hd3.
  (* the imports are set: the edges of [p] appear *)
  set (hp4 := alter (set_imports (Some imps)) p hp3).
  assert (∀ k x, x ∈ importsOf hp3 k → x ∈ importsOf hp4 k) as Hsub.
  { intros k x. unfold importsOf, hp4. destruct (decide (k = p)) as [->|Hne].
    - rewrite Hp3. simpl. rewrite Hi3. by intros ?%elem_of_nil.
    - by rewrite lookup_alter_ne. }
  assert (importsOf hp4 p = imps) as Himps
    by (unfold importsOf, hp4; by rewrite lookup_alter_eq, Hp3).
  assert (deps_reached hp4) as Hq4.
  { intros k pk d Hk Hd. unfold hp4 in Hk. destruct (decide (k = p)) as [->|Hne].
    - rewrite lookup_alter_eq, Hp3 in Hk. injection Hk as <-. simpl in Hd.
      rewrite Hd3 in Hd. by apply elem_of_nil in Hd.
    - rewrite lookup_alter_ne in Hk by done.
      apply (reaches_mono hp3 hp4 k d Hsub). by apply (Hq3 k pk). }
  assert (same_edges hp0 hp4) as Hs4.
  { apply same_edges_alter_new; [done|]. eapply same_edges_trans; [exact Hs2|done]. }
  (* the dependencies are set *)
  set (ds := sortPackageList hp4 (map_to_list dmap).*2).
  set (hp5 := alter (set_deps ds) p hp4).
  assert (∀ k, importsOf hp5 k = importsOf hp4 k) as Hsame.
  { intros k. unfold importsOf, hp5. destruct (decide (k = p)) as [->|Hne].
    - rewrite lookup_alter_eq. by destruct (hp4 !! p).
    - by rewrite lookup_alter_ne. }
  assert (deps_reached hp5) as Hq5.
  { intros k pk d Hk Hd. unfold hp5 in Hk. destruct (decide (k = p)) as [->|Hne].
    - rewrite lookup_alter_eq in Hk. destruct (hp4 !! p) as [pk4|]; [|done].
      injection Hk as <-. simpl in Hd.
      assert (d ∈ (map_to_list dmap).*2) as Hin.
      { destruct (sortPackageList_sortSort hp4 (map_to_list dmap).*2) as [Hperm _].
        by rewrite Hperm. }
      apply list_elem_of_fmap in Hin as ([k' v] & -> & Hkv%elem_of_map_to_list).
      simpl. apply (reaches_mono hp4 hp5); [intros ? ?; by rewrite Hsame|].
      destruct (Hm3 k' v Hkv) as [Hv|(m & Hm & Hr)].
      + apply reaches_import. by rewrite Himps.
      + eapply (reaches_trans _ p m v); [by rewrite Himps|].
        by apply (reaches_mono hp3 hp4 m v Hsub).
    - rewrite lookup_alter_ne in Hk by done.
      apply (reaches_mono hp4 hp5); [intros ? ?; by rewrite Hsame|].
      by apply (Hq4 k pk). }
  assert (same_edges hp0 hp5) as Hs5 by (by apply same_edges_alter_new).
  clearbody hp5.
  assert (∀ (h : heap) f, deps_reached h ∧ same_edges hp0 h → keeps_edges f →
                          deps_reached (alter f p h) ∧ same_edges hp0 (alter f p h))
    as Hstep.
  { intros h f [? ?] Hf. split; [by apply deps_reached_alter|by apply same_edges_alter_new]. }
  repeat match goal with
         | |- context [if ?c then _ else _] => destruct c
         end;
    repeat (apply Hstep; [|keeps_edges_tac]); done.
Qed.

Lemma loadImport_deps fuel :
  ∀ ctx path srcDir stk pos (hp : heap),
    deps_reached hp →
    match loadImport E fuel ctx path srcDir stk pos hp with
    | Done (_, hp') => deps_reached hp' ∧ same_edges hp hp'
    | _ => True
    end.
Proof.
  induction fuel as [|fuel IH]; intros ctx path srcDir stk pos hp Hq; [done|].
  cbn [loadImport].
  set (p := if contains (Build.BuildTags ctx) "race" then _ else _). clearbody p.
  destruct (hp !! p) as [pk|] eqn:Hp.
  { destruct (reusePackage_edges p (push stk path) hp pk Hp) as (f & -> & Hf).
    split; [by apply deps_reached_alter|by apply same_edges_alter]. }
  destruct (Import E ctx path srcDir) as [bp err].
  match goal with
  | |- context [alter ?f p (<[p := ?x]> hp)] =>
      assert (deps_reached (alter f p (<[p := x]> hp))) as Hq1;
      [|assert (same_edges hp (alter f p (<[p := x]> hp))) as Hs1;
        [|assert (alter f p (<[p := x]> hp) !! p = Some (f x)) as Hp1
            by (by rewrite lookup_alter_eq, lookup_insert_eq);
          set (hp1 := alter f p (<[p := x]> hp)) in *; clearbody hp1]]
  end.
  { apply deps_reached_alter; [keeps_edges_tac|].
    intros k pk d Hk Hd. apply lookup_insert_Some in Hk as [[_ <-]|[Hne Hk]].
    - by apply elem_of_nil in Hd.
    - apply (reaches_mono hp); [|by apply (Hq k pk)].
      intros k' x. unfold importsOf. destruct (decide (k' = p)) as [->|Hne'].
      + rewrite Hp. by intros ?%elem_of_nil.
      + by rewrite lookup_insert_ne. }
  { apply same_edges_alter_new; [done|]. intros k pk Hk. exists pk.
    rewrite lookup_insert_ne by congruence. done. }
  match goal with
  | |- context [load E ?r ?c ?s p ?b ?e hp1] =>
      pose proof (load_deps r c s p b e hp hp1 _ IH Hp Hs1 Hq1 Hp1 eq_refl eq_refl) as Hl;
      destruct (load E r c s p b e hp1) as [hp3| | | |]; try done
  end.
  cbn [obind]. destruct Hl as [Hq3 Hs3].
  destruct pos as [|q pos]; [done|].
  split; [apply deps_reached_alter; [keeps_edges_tac|done]|by apply same_edges_alter_new].
Qed.

Lemma loadArgs_deps fuel args :
  ∀ set pkgs (hp : heap),
    deps_reached hp →
    match loadArgs E fuel args set pkgs hp with
    | Done (_, hp') => deps_reached hp'
    | _ => True
    end.
Proof.
  induction args as [|arg args IH]; intros set pkgs hp Hq; cbn [loadArgs]; [done|].
  destruct (bool_decide (arg ∈ set)); [by apply IH|].
  unfold loadPackage.
  match goal with
  | |- context [loadImport E fuel ?c ?b ?d ?s ?ps hp] =>
      pose proof (loadImport_deps fuel c b d s ps hp Hq) as Hl;
      destruct (loadImport E fuel c b d s ps hp) as [[k hp1]| | | |]; try done
  end.
  cbn [obind]. destruct Hl as [Hq1 _]. by apply IH.
Qed.

End DepsReached.

(** X12.  The dependency list that [load] gives a unit holds only units
    that the unit imports, directly or through other units: in the
    cache left by the loading of the arguments, every dependency of a
    unit is reached from it along imports. *)
Theorem loadArgs_deps_are_imports E fuel args (hp : heap) pkgs hp' :
  (∀ k pk d, hp !! k = Some pk → d ∈ deps pk → reaches hp k d) →
  loadArgs E fuel args ∅ [] hp = Done (pkgs, hp') →
  ∀ k pk d, hp' !! k = Some pk → d ∈ deps pk → reaches hp' k d.
Proof.
  intros Hq Hrun. pose proof (loadArgs_deps E fuel args ∅ [] hp Hq) as Hl.
  by rewrite Hrun in Hl.
Qed.

Lemma loadArgs_deps_are_imports_witness : deps_reached Examples.heapCycle.
Proof.
  unfold deps_reached.
  apply (loadArgs_deps_are_imports Examples.envCycle 15 ["A"; "D"] ∅ ["A"; "D"]).
  - intros k pk d Hk. by rewrite lookup_empty in Hk.
  - vm_compute. reflexivity.
Defined.

(** ** The form of a digest *)

Lemma length_append (a b : string) :
  String.length (a +:+ b) = (String.length a + String.length b)%nat.
Proof. induction a as [|c a IH]; simpl; [done|]. by rewrite IH. Qed.

Lemma list_ascii_append (a b : string) :
  String.list_ascii_of_string (a +:+ b)
  = String.list_ascii_of_string a ++ String.list_ascii_of_string b.
Proof. induction a as [|c a IH]; simpl; [done|]. by rewrite IH. Qed.

Lemma land_255_range x : 0 ≤ Z.land x 255 < 256.
Proof.
  change 255 with (Z.ones 8). rewrite Z.land_ones by lia.
  apply Z.mod_pos_bound. lia.
Qed.

Lemma be_bytes_range n x : Forall (λ b, 0 ≤ b < 256) (Sha1.be_bytes n x).
Proof.
  induction n as [|n IH]; simpl; [constructor|].
  constructor; [apply land_255_range|done].
Qed.

Lemma be_bytes_length n x : length (Sha1.be_bytes n x) = n.
Proof. induction n as [|n IH]; simpl; [done|]. by rewrite IH. Qed.

Lemma sum_bytes msg :
  length (Sha1.sum msg) = 20%nat ∧ Forall (λ b, 0 ≤ b < 256) (Sha1.sum msg).
Proof.
  unfold Sha1.sum. destruct (foldl Sha1.compress _ _) as [[[[a b] c] d] e].
  split.
  - rewrite !length_app, !be_bytes_length. done.
  - rewrite !Forall_app. split_and!; apply be_bytes_range.
Qed.

Lemma digit_hex n :
  0 ≤ n < 16 →
  String.length (Hex.digit n) = 1%nat
  ∧ forallb isHexDigit (String.list_ascii_of_string (Hex.digit n)) = true.
Proof.
  intros Hn.
  assert (n = 0 ∨ n = 1 ∨ n = 2 ∨ n = 3 ∨ n = 4 ∨ n = 5 ∨ n = 6 ∨ n = 7 ∨ n = 8
          ∨ n = 9 ∨ n = 10 ∨ n = 11 ∨ n = 12 ∨ n = 13 ∨ n = 14 ∨ n = 15) as Hcases by lia.
  repeat destruct Hcases as [->|Hcases]; try subst n; by vm_compute.
Qed.

Lemma EncodeToString_hex bs :
  Forall (λ b, 0 ≤ b < 256) bs →
  String.length (Hex.EncodeToString bs) = (2 * length bs)%nat
  ∧ forallb isHexDigit (String.list_ascii_of_string (Hex.EncodeToString bs)) = true.
Proof.
  induction 1 as [|b bs Hb _ [IHl IHh]]; [done|]. cbn [Hex.EncodeToString].
  assert (0 ≤ Z.shiftr b 4 < 16) as H1.
  { rewrite Z.shiftr_div_pow2 by lia. change (2 ^ 4) with 16.
    split; [apply Z.div_pos; lia|apply Z.div_lt_upper_bound; lia]. }
  assert (0 ≤ Z.land b 15 < 16) as H2.
  { change 15 with (Z.ones 4). rewrite Z.land_ones by lia. apply Z.mod_pos_bound. lia. }
  destruct (digit_hex _ H1) as [Hl1 Hh1], (digit_hex _ H2) as [Hl2 Hh2].
  split.
  - rewrite !length_append, Hl1, Hl2, IHl. simpl. lia.
  - rewrite !list_ascii_append, !forallb_app, Hh1, Hh2, IHh. done.
Qed.

Lemma hashSumHex_isDigest h : isDigest (hashSumHex h).
Proof.
  unfold isDigest, hashSumHex. destruct (sum_bytes h) as [Hlen Hrange].
  destruct (EncodeToString_hex _ Hrange) as [Hl Hh]. by rewrite Hl, Hlen.
Qed.

Section Format.

Context (E : Env) (fs : FS).

Lemma memos_ok_alter (hp : heap) p s :
  memos_ok hp → s = "" ∨ isDigest s → memos_ok (alter (set_fingerprint (Some s)) p hp).
Proof.
  intros Hok Hs k pk s' Hk Hf. destruct (decide (k = p)) as [->|Hne].
  - rewrite lookup_alter_eq in Hk. destruct (hp !! p); [|done].
    injection Hk as <-. simpl in Hf. by injection Hf as <-.
  - rewrite lookup_alter_ne in Hk by done. by apply (Hok k pk).
Qed.

Lemma fingerprintDeps_format (rec : string → heap → outcome (string * heap)) prace :
  (∀ p (hp : heap),
     memos_ok hp →
     match rec p hp with
     | Done (fp, hp') => (fp = "" ∨ isDigest fp) ∧ memos_ok hp'
     | _ => True
     end) →
  ∀ ds h (hp : heap),
    memos_ok hp →
    match fingerprintDeps rec prace ds h hp with
    | Done (r, hp') => memos_ok hp' ∧ (∀ fp, r = inl fp → fp = "")
    | _ => True
    end.
Proof.
  intros Hrec. induction ds as [|d ds IH]; intros h hp Hok; cbn [fingerprintDeps];
    [by split|].
  destruct (hp !! d) as [dk|]; [|done].
  destruct (negb prace && Standard dk); [by apply IH|].
  specialize (Hrec d hp Hok). destruct (rec d hp) as [[fp hp1]| | | |]; try done.
  cbn [obind]. destruct Hrec as [_ Hok1].
  destruct (decide (fp = "")) as [->|]; [|by apply IH].
  split; [done|]. by intros ? [= <-].
Qed.

Lemma Fingerprint_format fuel :
  ∀ p (hp : heap),
    memos_ok hp →
    match Fingerprint E fs fuel p hp with
    | Done (fp, hp') => (fp = "" ∨ isDigest fp) ∧ memos_ok hp'
    | _ => True
    end.
Proof.
  induction fuel as [|fuel IH]; intros p hp Hok; [done|]. cbn [Fingerprint].
  destruct (hp !! p) as [pk|] eqn:Hp; [|done].
  destruct (fingerprint pk) as [fp|] eqn:Hf; [split; [by apply (Hok p pk)|done]|].
  pose proof (fingerprintDeps_format (Fingerprint E fs fuel) (race pk) IH (deps pk) "" hp Hok)
    as Hd.
  destruct (fingerprintDeps _ _ _ _ _) as [[r hp1]| | | |]; try done. cbn [obind].
  destruct Hd as [Hok1 Hr]. destruct r as [fp|h].
  - rewrite (Hr fp eq_refl). split; [by left|]. apply memos_ok_alter; [done|by left].
  - destruct (hashFiles _ _ _ _ _) as [h'| | | |]; try done. cbn [obind].
    split; [right; apply hashSumHex_isDigest|].
    apply memos_ok_alter; [done|]. right. apply hashSumHex_isDigest.
Qed.

End Format.

(** X13.  [Fingerprint] returns, and memoises, only the indeterminate
    sentinel or a digest of forty lowercase hexadecimal digits, given
    that the fingerprints already memoised are of that form. *)
Theorem Fingerprint_digest_format E fs fuel p (hp : heap) fp hp' :
  (∀ k pk s, hp !! k = Some pk → fingerprint pk = Some s → s = "" ∨ isDigest s) →
  Fingerprint E fs fuel p hp = Done (fp, hp') →
  (fp = "" ∨ isDigest fp)
  ∧ (∀ k pk s, hp' !! k = Some pk → fingerprint pk = Some s → s = "" ∨ isDigest s).
Proof.
  intros Hok Hrun. pose proof (Fingerprint_format E fs fuel p hp Hok) as H.
  by rewrite Hrun in H.
Qed.

Lemma Fingerprint_digest_format_witness :
  ("b2a1bfc48ae9d51fd4e8b34e2a4907970086591e" = ""
   ∨ isDigest "b2a1bfc48ae9d51fd4e8b34e2a4907970086591e")
  ∧ (∀ k pk s,
       alter (set_fingerprint (Some "b2a1bfc48ae9d51fd4e8b34e2a4907970086591e")) "b"
             Examples.heapAB !! k = Some pk →
       fingerprint pk = Some s → s = "" ∨ isDigest s).
Proof.
  apply (Fingerprint_digest_format Examples.env Examples.filesAB 1 "b" Examples.heapAB).
  - intros k pk s Hk. unfold Examples.heapAB in Hk.
    apply lookup_insert_Some in Hk as [[_ <-]|[_ Hk]]; [discriminate|].
    apply lookup_singleton_Some in Hk as [_ <-]. discriminate.
  - vm_compute. reflexivity.
Defined.

(** ** The memoised fingerprints *)

Section Memo.

Context (E : Env) (fs : FS).

Lemma memos_kept_refl (hp : heap) : memos_kept hp hp.
Proof. intros k pk s Hk Hf. by exists pk. Qed.

Lemma memos_kept_trans (h1 h2 h3 : heap) :
  memos_kept h1 h2 → memos_kept h2 h3 → memos_kept h1 h3.
Proof.
  intros H12 H23 k pk s Hk Hf. destruct (H12 k pk s Hk Hf) as (pk2 & Hk2 & Hf2).
  by apply (H23 k pk2 s).
Qed.

Lemma fingerprintDeps_memos (rec : string → heap → outcome (string * heap)) prace :
  (∀ p (hp : heap),
     match rec p hp with Done (_, hp') => memos_kept hp hp' | _ => True end) →
  ∀ ds h (hp : heap),
    match fingerprintDeps rec prace ds h hp with
    | Done (_, hp') => memos_kept hp hp'
    | _ => True
    end.
Proof.
  intros Hrec. induction ds as [|d ds IH]; intros h hp; cbn [fingerprintDeps];
    [apply memos_kept_refl|].
  destruct (hp !! d) as [dk|]; [|done].
  destruct (negb prace && Standard dk); [by apply IH|].
  specialize (Hrec d hp). destruct (rec d hp) as [[fp hp1]| | | |]; try done.
  cbn [obind]. destruct (decide (fp = "")); [done|].
  specialize (IH (hashWrite h fp) hp1).
  destruct (fingerprintDeps _ _ _ _ _) as [[r hp2]| | | |]; try done.
  by eapply memos_kept_trans.
Qed.

Lemma memos_kept_alter (hp hp1 : heap) p pk s :
  hp !! p = Some pk → fingerprint pk = None → memos_kept hp hp1 →
  memos_kept hp (alter (set_fingerprint (Some s)) p hp1).
Proof.
  intros Hp Hf Hk k pk' s' Hk' Hf'. destruct (decide (k = p)) as [->|Hne].
  - congruence.
  - rewrite lookup_alter_ne by done. by apply (Hk k pk').
Qed.

Lemma Fingerprint_memos fuel :
  ∀ p (hp : heap),
    match Fingerprint E fs fuel p hp with
    | Done (_, hp') => memos_kept hp hp'
    | _ => True
    end.
Proof.
  induction fuel as [|fuel IH]; intros p hp; [done|]. cbn [Fingerprint].
  destruct (hp !! p) as [pk|] eqn:Hp; [|done].
  destruct (fingerprint pk) as [fp|] eqn:Hf; [apply memos_kept_refl|].
  pose proof (fingerprintDeps_memos (Fingerprint E fs fuel) (race pk) IH (deps pk) "" hp)
    as Hd.
  destruct (fingerprintDeps _ _ _ _ _) as [[r hp1]| | | |]; try done. cbn [obind].
  destruct r as [fp|h]; [by eapply memos_kept_alter|].
  destruct (hashFiles _ _ _ _ _) as [h'| | | |]; try done. cbn [obind].
  by eapply memos_kept_alter.
Qed.

Lemma Fingerprint_sets_memo fuel p (hp : heap) fp hp' :
  Fingerprint E fs fuel p hp = Done (fp, hp') →
  ∃ pk', hp' !! p = Some pk' ∧ fingerprint pk' = Some fp.
Proof.
  intros Hrun. pose proof (Fingerprint_same_graph E fs fuel p hp hp' fp Hrun) as Hsg.
  destruct fuel as [|fuel]; [done|]. cbn [Fingerprint] in Hrun.
  destruct (hp !! p) as [pk|] eqn:Hp; [|done].
  destruct (fingerprint pk) as [fp0|] eqn:Hf.
  { injection Hrun as <- <-. by exists pk. }
  destruct (same_graph_lookup hp hp' p pk Hsg Hp) as (pk' & Hp' & _).
  destruct (fingerprintDeps _ _ _ _ _) as [[r hp1]| | | |]; try done. cbn [obind] in Hrun.
  assert (∀ s, hp' = alter (set_fingerprint (Some s)) p hp1 →
               ∃ pk', hp' !! p = Some pk' ∧ fingerprint pk' = Some s) as Hset.
  { intros s ->. rewrite lookup_alter_eq in Hp' |- *.
    destruct (hp1 !! p) as [pk1|]; [|done]. simpl. eexists. split; reflexivity. }
  destruct r as [fp1|h].
  - injection Hrun as <- <-. by apply Hset.
  - destruct (hashFiles _ _ _ _ _) as [h'| | | |]; try done. cbn [obind] in Hrun.
    injection Hrun as <- <-. by apply Hset.
Qed.

End Memo.

(** X14.  [Fingerprint] memoises what it returns and never changes a
    fingerprint that is already memoised: after a call that returned
    [fp] for a unit, every later call for that unit returns [fp] again
    and leaves every package as it is. *)
Theorem Fingerprint_memo_stable E fs fuel p (hp : heap) fp hp' :
  Fingerprint E fs fuel p hp = Done (fp, hp') →
  (∀ k pk s, hp !! k = Some pk → fingerprint pk = Some s →
             ∃ pk', hp' !! k = Some pk' ∧ fingerprint pk' = Some s)
  ∧ (∀ fuel', Fingerprint E fs (S fuel') p hp' = Done (fp, hp')).
Proof.
  intros Hrun. split.
  - pose proof (Fingerprint_memos E fs fuel p hp) as H. by rewrite Hrun in H.
  - intros fuel'. destruct (Fingerprint_sets_memo E fs fuel p hp fp hp' Hrun)
      as (pk' & Hp' & Hf').
    by apply (Fingerprint_memoised E fs fuel' p hp' pk').
Qed.

Lemma Fingerprint_memo_stable_witness :
  let hp' := alter (set_fingerprint (Some "b2a1bfc48ae9d51fd4e8b34e2a4907970086591e")) "b"
                   Examples.heapAB in
  (∀ k pk s, Examples.heapAB !! k = Some pk → fingerprint pk = Some s →
             ∃ pk', hp' !! k = Some pk' ∧ fingerprint pk' = Some s)
  ∧ (∀ fuel', Fingerprint Examples.env Examples.filesAB (S fuel') "b" hp'
              = Done ("b2a1bfc48ae9d51fd4e8b34e2a4907970086591e", hp')).
Proof.
  apply (Fingerprint_memo_stable Examples.env Examples.filesAB 1 "b" Examples.heapAB).
  vm_compute. reflexivity.
Defined.

Lemma hashFiles_unreadable E fs dir files h :
  filesInput E fs dir files = None → ∃ msg, hashFiles E fs dir files h = Fatal msg.
Proof.
  revert h. induction files as [|file files IH]; intros h; cbn [filesInput hashFiles];
    [done|].
  destruct (fs !! _) as [f|]; [|by eauto]. destruct (IsDir f); [by eauto|].
  destruct (filesInput E fs dir files); [done|]. intros _. by apply IH.
Qed.

Lemma heapAB_no_sentinel : no_sentinel Examples.heapAB.
Proof.
  intros k pk s Hk Hf. unfold Examples.heapAB in Hk.
  apply lookup_insert_Some in Hk as [[_ <-]|[_ Hk]]; [done|].
  by apply lookup_singleton_Some in Hk as [_ <-].
Qed.

(** X15.  A unit without memoised fingerprint that has a source file
    which is missing, or is a directory, gets no fingerprint: in a
    cache that holds no memoised sentinel, [Fingerprint] does not
    return for it, whatever the fuel; and once the fingerprints of its
    dependencies have been computed, the call ends in [log.Fatal]. *)
Theorem Fingerprint_unreadable_source E fs p (hp : heap) pk :
  hp !! p = Some pk → fingerprint pk = None →
  filesInput E fs (Dir pk) (fingerprintFiles pk) = None →
  no_sentinel hp →
  (∀ fuel fp hp', Fingerprint E fs fuel p hp ≠ Done (fp, hp'))
  ∧ (∀ fuel r hp1,
       fingerprintDeps (Fingerprint E fs fuel) (race pk) (deps pk) "" hp = Done (r, hp1) →
       ∃ msg, Fingerprint E fs (S fuel) p hp = Fatal msg).
Proof.
  intros Hp Hf Hfiles Hok.
  assert (∀ fuel r hp1,
            fingerprintDeps (Fingerprint E fs fuel) (race pk) (deps pk) "" hp = Done (r, hp1) →
            ∃ msg, Fingerprint E fs (S fuel) p hp = Fatal msg) as Hfatal.
  { intros fuel r hp1 Hd. cbn [Fingerprint]. rewrite Hp, Hf.
    pose proof (fingerprintDeps_no_sentinel (Fingerprint E fs fuel) (race pk)
                  (Fingerprint_no_sentinel E fs fuel) (deps pk) "" hp Hok) as Hns.
    rewrite Hd in Hns. destruct Hns as [_ [h ->]]. rewrite Hd. cbn [obind].
    destruct (hashFiles_unreadable E fs (Dir pk) (fingerprintFiles pk)
                (foldl hashWrite h (fingerprintFlags E pk)) Hfiles) as [msg ->].
    by exists msg. }
  split; [|exact Hfatal].
  intros [|fuel] fp hp' Hrun; [done|].
  destruct (fingerprintDeps (Fingerprint E fs fuel) (race pk) (deps pk) "" hp)
    as [[r hp1]| | | |] eqn:Hd.
  - destruct (Hfatal fuel r hp1 Hd) as [msg Hmsg]. congruence.
  - cbn [Fingerprint] in Hrun. by rewrite Hp, Hf, Hd in Hrun.
  - cbn [Fingerprint] in Hrun. by rewrite Hp, Hf, Hd in Hrun.
  - cbn [Fingerprint] in Hrun. by rewrite Hp, Hf, Hd in Hrun.
  - cbn [Fingerprint] in Hrun. by rewrite Hp, Hf, Hd in Hrun.
Qed.

Lemma Fingerprint_unreadable_source_witness :
  (∀ fuel fp hp', Fingerprint Examples.env ∅ fuel "b" Examples.heapAB ≠ Done (fp, hp'))
  ∧ (∀ fuel r hp1,
       fingerprintDeps (Fingerprint Examples.env ∅ fuel) false [] "" Examples.heapAB
       = Done (r, hp1) →
       ∃ msg, Fingerprint Examples.env ∅ (S fuel) "b" Examples.heapAB = Fatal msg).
Proof.
  apply (Fingerprint_unreadable_source Examples.env ∅ "b" Examples.heapAB
           (Examples.pkg "/w/b" "b" "/w" ["b.go"] "/w/pkg/b.a" false false []));
    [reflexivity|reflexivity|reflexivity|exact heapAB_no_sentinel].
Defined.

(** ** The packages of a request *)

Lemma collectDeps_spec (ds : list string) (seen : gset string) (all : list string) :
  (∀ x, x ∈ seen ↔ x ∈ all) → NoDup all →
  let r := foldl (λ '(seen, all) dep,
                    if bool_decide (dep ∈ seen) then (seen, all)
                    else ({[dep]} ∪ seen, all ++ [dep]))
                 (seen, all) ds in
  (∀ x, x ∈ r.1 ↔ x ∈ r.2) ∧ NoDup r.2 ∧ (∀ x, x ∈ r.2 ↔ x ∈ all ∨ x ∈ ds).
Proof.
  revert seen all. induction ds as [|d ds IH]; intros seen all Hs Hnd; cbn [foldl].
  { split_and!; [done|done|]. intros x. rewrite elem_of_nil. tauto. }
  destruct (bool_decide (d ∈ seen)) eqn:Hd.
  - apply bool_decide_eq_true in Hd. destruct (IH seen all Hs Hnd) as (H1 & H2 & H3).
    split_and!; [done|done|]. intros x. rewrite H3, elem_of_cons.
    split; [tauto|]. intros [?|[->|?]]; [tauto| |tauto]. left. by apply Hs.
  - apply bool_decide_eq_false in Hd.
    destruct (IH ({[d]} ∪ seen) (all ++ [d])) as (H1 & H2 & H3).
    + intros x. rewrite elem_of_union, elem_of_singleton, elem_of_app,
        list_elem_of_singleton, Hs. tauto.
    + apply NoDup_app. split_and!; [done| |apply NoDup_singleton].
      intros x Hx ->%list_elem_of_singleton. by apply Hd, Hs.
    + split_and!; [done|done|]. intros x.
      rewrite H3, elem_of_app, list_elem_of_singleton, elem_of_cons. tauto.
Qed.

Lemma collectAll_spec (hp : heap) roots :
  ∀ (seen : gset string) all,
    (∀ x, x ∈ seen ↔ x ∈ all) → NoDup all →
    NoDup (collectAll hp roots seen all)
    ∧ (∀ x, x ∈ all ∨ x ∈ roots → x ∈ collectAll hp roots seen all)
    ∧ (∀ x, x ∈ collectAll hp roots seen all →
            x ∈ all ∨ x ∈ roots ∨ ∃ r, r ∈ roots ∧ x ∈ from_option deps [] (hp !! r)).
Proof.
  induction roots as [|root roots IH]; intros seen all Hs Hnd; cbn [collectAll].
  { split_and!; [done| |by left]. by intros x [?|[]%elem_of_nil]. }
  destruct (bool_decide (root ∈ seen)) eqn:Hr.
  - apply bool_decide_eq_true in Hr. destruct (IH seen all Hs Hnd) as (H1 & H2 & H3).
    split_and!; [done| |].
    + intros x [?|[->|?]%elem_of_cons]; apply H2; [by left|left; by apply Hs|by right].
    + intros x [?|[?|(r & Hrr & Hx)]]%H3; [by left|right; left; by right|].
      right. right. exists r. split; [by right|done].
  - apply bool_decide_eq_false in Hr.
    pose proof (collectDeps_spec (from_option deps [] (hp !! root))
                  ({[root]} ∪ seen) (all ++ [root])) as Hd.
    destruct (foldl _ _ _) as [seen1 all1]. simpl in Hd.
    destruct Hd as (Hs1 & Hnd1 & Hall1).
    { intros x. rewrite elem_of_union, elem_of_singleton, elem_of_app,
        list_elem_of_singleton, Hs. tauto. }
    { apply NoDup_app. split_and!; [done| |apply NoDup_singleton].
      intros x Hx ->%list_elem_of_singleton. by apply Hr, Hs. }
    destruct (IH seen1 all1 Hs1 Hnd1) as (H1 & H2 & H3). split_and!; [done| |].
    + intros x [?|[->|?]%elem_of_cons]; apply H2.
      * left. apply Hall1. left. apply elem_of_app. by left.
      * left. apply Hall1. left. apply elem_of_app. right. by left.
      * by right.
    + intros x [Hx|[?|(r & Hrr & Hx)]]%H3.
      * apply Hall1 in Hx as [[?| ->%list_elem_of_singleton]%elem_of_app|Hx].
        -- by left.
        -- right. left. by left.
        -- right. right. exists root. split; [by left|done].
      * right. left. by right.
      * right. right. exists r. split; [by right|done].
Qed.

(** X16.  [loadAll] returns each package once, in the order of the
    import paths: the list has no duplicate, no package of it has a
    smaller import path than an earlier one, it holds every requested
    package, and it holds nothing but the requested packages and their
    dependencies. *)
Theorem loadAll_each_once E fuel args (w : World heap) l w' :
  loadAll E fuel args w = (Done l, w') →
  ∃ roots,
    packagesForBuild E fuel args w = (Done roots, w')
    ∧ NoDup l ∧ Sorted (noLess (packageCache w')) l
    ∧ (∀ r, r ∈ roots → r ∈ l)
    ∧ (∀ x, x ∈ l →
         x ∈ roots ∨ ∃ r, r ∈ roots ∧ x ∈ from_option deps [] (packageCache w' !! r)).
Proof.
  unfold loadAll, mbind. intros Hrun.
  destruct (packagesForBuild E fuel args w) as [[roots| | | |] w1]; try done.
  injection Hrun as <- <-. exists roots. split; [done|].
  destruct (collectAll_spec (packageCache w1) roots ∅ []) as (Hnd & Hin & Hout).
  { intros x. rewrite elem_of_empty, elem_of_nil. tauto. }
  { constructor. }
  destruct (sortPackageList_sortSort (packageCache w1)
              (collectAll (packageCache w1) roots ∅ [])) as [Hperm Hsorted].
  split_and!.
  - by rewrite <-Hperm.
  - done.
  - intros r Hr. rewrite <-Hperm. apply Hin. by right.
  - intros x Hx. rewrite <-Hperm in Hx.
    destruct (Hout x Hx) as [[]%elem_of_nil|[?|?]]; [by left|by right].
Qed.

Lemma loadAll_each_once_witness :
  ∃ roots,
    packagesForBuild Examples.envChain 15 ["A"] Examples.worldStart
    = (Done roots, Examples.worldChain)
    ∧ NoDup ["A"; "B"; "runtime"]
    ∧ Sorted (noLess (packageCache Examples.worldChain)) ["A"; "B"; "runtime"]
    ∧ (∀ r, r ∈ roots → r ∈ ["A"; "B"; "runtime"])
    ∧ (∀ x, x ∈ ["A"; "B"; "runtime"] →
         x ∈ roots
         ∨ ∃ r, r ∈ roots
                ∧ x ∈ from_option deps [] (packageCache Examples.worldChain !! r)).
Proof.
  apply (loadAll_each_once Examples.envChain 15 ["A"] Examples.worldStart).
  vm_compute. reflexivity.
Defined.

(** ** The error report of [packagesForBuild] *)

Lemma loadArgs_in_heap E fuel args :
  ∀ set pkgs (hp : heap) pkgs' hp',
    LoadInv ∅ hp → (∀ p, p ∈ pkgs → is_Some (hp !! p)) →
    loadArgs E fuel args set pkgs hp = Done (pkgs', hp') →
    LoadInv ∅ hp' ∧ ∀ p, p ∈ pkgs' → is_Some (hp' !! p).
Proof.
  induction args as [|arg args IH]; intros set pkgs hp pkgs' hp' Hinv Hin;
    cbn [loadArgs].
  { by intros [= <- <-]. }
  destruct (bool_decide (arg ∈ set)); [by apply IH|].
  unfold loadPackage.
  match goal with
  | |- context [loadImport E fuel ?c ?b ?d ?s ?ps hp] =>
      destruct (loadImport_ok E [] ∅ (closed_nil E) (keyed_nil E) fuel c b d s ps ∅ hp Hinv)
        as [Hok _];
      destruct (loadImport E fuel c b d s ps hp) as [[k hp1]| | | |]; try done
  end.
  cbn [obind]. destruct Hok as (Hext & _ & Hinv1 & (pk & Hk & _)).
  apply IH; [done|].
  intros p [Hp| ->%list_elem_of_singleton]%elem_of_app; [|by eexists].
  destruct (Hin p Hp) as [a Ha]. destruct (Hext p a Ha) as (b & Hb & _). by eexists.
Qed.

Lemma depErrors_silent (hp : heap) ds :
  ∀ printed lines printed' lines',
    depErrors hp ds printed lines = (printed', lines') → lines' = [] →
    lines = [] ∧ printed' = printed
    ∧ ∀ d, d ∈ ds → d ∉ printed → hp !! d ≫= Error = None.
Proof.
  induction ds as [|d ds IH]; intros printed lines printed' lines'; cbn [depErrors].
  { intros [= <- <-] ->. split_and!; [done|done|]. by intros d ?%elem_of_nil. }
  destruct (hp !! d ≫= Error) as [err|] eqn:He.
  - destruct (bool_decide (d ∈ printed)) eqn:Hd.
    + intros Hrun Hl. destruct (IH _ _ _ _ Hrun Hl) as (H1 & H2 & H3).
      split_and!; [done|done|]. apply bool_decide_eq_true in Hd.
      intros d' [->|Hd']%elem_of_cons; [done|by apply H3].
    + intros Hrun Hl. destruct (IH _ _ _ _ Hrun Hl) as (H1 & _).
      by apply app_eq_nil in H1 as [_ ?].
  - intros Hrun Hl. destruct (IH _ _ _ _ Hrun Hl) as (H1 & H2 & H3).
    split_and!; [done|done|]. intros d' [->|Hd']%elem_of_cons; [done|by apply H3].
Qed.

Lemma reportErrors_silent (hp : heap) pkgs :
  ∀ printed lines,
    (∀ p, p ∈ pkgs → is_Some (hp !! p)) →
    reportErrors hp pkgs printed lines = [] →
    lines = []
    ∧ ∀ p, p ∈ pkgs →
        ∃ pk, hp !! p = Some pk ∧ Error pk = None
              ∧ ∀ d, d ∈ deps pk → d ∉ printed → hp !! d ≫= Error = None.
Proof.
  induction pkgs as [|p pkgs IH]; intros printed lines Hin; cbn [reportErrors].
  { intros ->. split; [done|]. by intros p ?%elem_of_nil. }
  destruct (Hin p) as [pk Hp]; [by left|]. rewrite Hp.
  destruct (depErrors hp (deps pk) printed _) as [printed1 lines1] eqn:Hd.
  intros Hrun.
  destruct (IH printed1 lines1 (λ q Hq, Hin q (list_elem_of_further _ _ _ Hq)) Hrun)
    as [Hl1 Hrest].
  destruct (depErrors_silent hp (deps pk) _ _ _ _ Hd Hl1) as (Hl & -> & Hdeps).
  destruct (Error pk) as [err|] eqn:He; [by apply app_eq_nil in Hl as [_ ?]|].
  split; [done|]. intros q [->|Hq]%elem_of_cons; [|by apply Hrest].
  exists pk. by split_and!.
Qed.

(** X17.  [packagesForBuild] returns only when nothing failed to load:
    starting from the empty cache, every package it returns is in the
    cache without error, and so is every dependency of it.  Otherwise
    the call does not return (it exits after its report). *)
Theorem packagesForBuild_no_errors E fuel args (w : World heap) pkgs w' :
  packageCache w = ∅ →
  packagesForBuild E fuel args w = (Done pkgs, w') →
  ∀ p, p ∈ pkgs →
    ∃ pk, packageCache w' !! p = Some pk ∧ Error pk = None
          ∧ ∀ d pd, d ∈ deps pk → packageCache w' !! d = Some pd → Error pd = None.
Proof.
  intros Hempty. unfold packagesForBuild, mbind, onCache. rewrite Hempty.
  destruct (loadArgs E fuel _ ∅ [] ∅) as [[roots hp1]| | | |] eqn:Hload; try done.
  simpl.
  destruct (loadArgs_in_heap E fuel _ _ _ _ _ _ LoadInv_empty
              (λ p (Hp : p ∈ []), False_rect _ (proj1 (elem_of_nil p) Hp)) Hload)
    as [_ Hin].
  destruct (computeStale E (files w) fuel roots hp1) as [[hp2 lines]| | | |] eqn:Hst;
    try done.
  destruct (bool_decide (reportErrors hp2 roots ∅ [] ≠ [])) eqn:Hrep; [done|].
  intros [= <- <-]. simpl.
  apply bool_decide_eq_false in Hrep. apply dec_stable in Hrep.
  unfold computeStale in Hst.
  destruct (packageList fuel hp1 roots) as [all| | | |]; try done. cbn [obind] in Hst.
  destruct (markStale_frame E (files w) _ _ _ _ _ _ Hst) as [Hsame _].
  destruct (reportErrors_silent hp2 roots ∅ []) as [_ Hok]; [|done|].
  { intros p Hp. destruct (Hin p Hp) as [a Ha].
    destruct (same_but_stale_lookup hp1 hp2 p a Hsame Ha) as (b & Hb & _). by eexists. }
  intros p Hp. destruct (Hok p Hp) as (pk & Hk & He & Hdeps). exists pk.
  split_and!; [done|done|]. intros d pd Hd Hpd.
  specialize (Hdeps d Hd (not_elem_of_empty d)). by rewrite Hpd in Hdeps.
Qed.

Lemma packagesForBuild_no_errors_witness :
  ∃ pk, packageCache Examples.worldChain !! "A" = Some pk ∧ Error pk = None
        ∧ ∀ d pd, d ∈ deps pk → packageCache Examples.worldChain !! d = Some pd →
                  Error pd = None.
Proof.
  apply (packagesForBuild_no_errors Examples.envChain 15 ["A"] Examples.worldStart ["A"]
           Examples.worldChain).
  - reflexivity.
  - vm_compute. reflexivity.
  - apply list_elem_of_here.
Defined.

(** ** The store *)

Section Store.

Context (E : Env).

Lemma syscall_at {A} (op : FS → (errno + A) * FS) (w : World heap) :
  others E (ticks w) (files w) = files w → fault E (ticks w) = None →
  syscall E op w
  = (Done (op (files w)).1,
     mkWorld (packageCache w) (op (files w)).2 (logged w) (S (ticks w))).
Proof. intros Ho Hf. unfold syscall. rewrite Ho, Hf. by destruct (op (files w)). Qed.

Lemma syscall_fault {A} (op : FS → (errno + A) * FS) (w : World heap) e :
  others E (ticks w) (files w) = files w → fault E (ticks w) = Some e →
  syscall E op w
  = (Done (inl e), mkWorld (packageCache w) (files w) (logged w) (S (ticks w))).
Proof. intros Ho Hf. unfold syscall. by rewrite Ho, Hf. Qed.

(** [linkOrCopy] up to its hard link, the destination being absent and
    the link failing for the two names being on different devices. *)
Lemma linkOrCopy_to_create src dst (w : World heap) f :
  (∀ n fs, others E n fs = fs) →
  (∀ i, (i < 5)%nat → fault E (ticks w + i) = None) →
  files w !! src = Some f → IsDir f = false → files w !! dst = None →
  sameDevice E src dst = false →
  linkOrCopy E src dst w
  = (r <~ file_Chmod E dst (Z.land (perm f) 511) ;;;
     match r with
     | inl err => u <~ os_Remove E dst ;;; mret (Some err)
     | inr _ =>
         r <~ io_Copy E dst f ;;;
         mret (match r with inl err => Some err | inr _ => None end)
     end)
      (mkWorld (packageCache w) (<[dst := mkFile "" 438 (now E) false]> (files w))
               (logged w) (ticks w + 5)).
Proof.
  intros Ho Hf Hsrc Hfile Hdst Hdev.
  pose proof (Hf 0%nat ltac:(lia)) as H0. pose proof (Hf 1%nat ltac:(lia)) as H1.
  pose proof (Hf 2%nat ltac:(lia)) as H2. pose proof (Hf 3%nat ltac:(lia)) as H3.
  pose proof (Hf 4%nat ltac:(lia)) as H4.
  rewrite Nat.add_0_r in H0.
  replace (ticks w + 1)%nat with (S (ticks w)) in H1 by lia.
  replace (ticks w + 2)%nat with (S (S (ticks w))) in H2 by lia.
  replace (ticks w + 3)%nat with (S (S (S (ticks w)))) in H3 by lia.
  replace (ticks w + 4)%nat with (S (S (S (S (ticks w))))) in H4 by lia.
  replace (ticks w + 5)%nat with (S (S (S (S (S (ticks w)))))) by lia.
  unfold linkOrCopy at 1, mbind at 1, exists_, mbind at 1, os_Stat.
  rewrite syscall_at by done. cbn. rewrite Hdst. cbn.
  unfold mbind at 1, os_Link. rewrite syscall_at by done. cbn.
  rewrite Hsrc, Hdst, Hfile, Hdev. cbn.
  unfold mbind at 1, os_Open. rewrite syscall_at by done. cbn. rewrite Hsrc. cbn.
  unfold mbind at 1, os_Stat. rewrite syscall_at by done. cbn. rewrite Hsrc. cbn.
  unfold mbind at 1, os_Create. rewrite syscall_at by done. cbn. rewrite Hdst. cbn.
  reflexivity.
Qed.

(** An insert at a destination that does not exist, without
    interference: by a hard link on one device, by a copy otherwise. *)
Lemma linkOrCopy_fresh src dst (w : World heap) f :
  (∀ n fs, others E n fs = fs) → (∀ n, fault E n = None) →
  files w !! src = Some f → IsDir f = false → files w !! dst = None →
  ∃ w' g,
    linkOrCopy E src dst w = (Done None, w')
    ∧ files w' = <[dst := g]> (files w) ∧ data g = data f ∧ IsDir g = false
    ∧ (if sameDevice E src dst then g = f
       else perm g = Z.land (perm f) 511)
    ∧ packageCache w' = packageCache w ∧ logged w' = logged w.
Proof.
  intros Ho Hf Hsrc Hfile Hdst. destruct (sameDevice E src dst) eqn:Hdev.
  - unfold linkOrCopy, mbind at 1, exists_, mbind at 1, os_Stat.
    rewrite syscall_at by done. cbn. rewrite Hdst. cbn.
    unfold mbind at 1, os_Link. rewrite syscall_at by done. cbn.
    rewrite Hsrc, Hdst, Hfile, Hdev. cbn. eexists _, f. by split_and!.
  - rewrite (linkOrCopy_to_create src dst w f) by done.
    unfold mbind at 1, file_Chmod. rewrite syscall_at by done. cbn.
    unfold mbind at 1, io_Copy. rewrite syscall_at by done. cbn. rewrite Hfile. cbn.
    rewrite !alter_insert_eq. cbn. eexists _, _. by split_and!.
Qed.

(** X18.  In a run without interference, an insert of a regular file
    at a destination that does not exist succeeds and creates the
    destination with the bytes of the source: as another name of the
    source file when the two are on one device, and otherwise as a
    copy with the permission bits of the source.  No other file, no
    package and no log line changes. *)
Theorem linkOrCopy_copies src dst (w : World heap) f :
  quiet E → files w !! src = Some f → IsDir f = false → files w !! dst = None →
  ∃ w' g,
    linkOrCopy E src dst w = (Done None, w')
    ∧ files w' = <[dst := g]> (files w) ∧ data g = data f ∧ IsDir g = false
    ∧ (if sameDevice E src dst then g = f
       else perm g = Z.land (perm f) 511)
    ∧ packageCache w' = packageCache w ∧ logged w' = logged w.
Proof. intros [Ho Hf]. by apply linkOrCopy_fresh. Qed.

(** X19.  In a run without interference, an insert whose source does
    not exist fails with the not-exist error of [os.Open] and creates
    nothing: the files are as before. *)
Theorem linkOrCopy_missing_source src dst (w : World heap) :
  quiet E → files w !! src = None → files w !! dst = None →
  ∃ w', linkOrCopy E src dst w = (Done (Some ENOENT), w')
        ∧ files w' = files w ∧ packageCache w' = packageCache w ∧ logged w' = logged w.
Proof.
  intros [Ho Hf] Hsrc Hdst.
  unfold linkOrCopy, mbind at 1, exists_, mbind at 1, os_Stat.
  rewrite syscall_at by done. cbn. rewrite Hdst. cbn.
  unfold mbind at 1, os_Link. rewrite syscall_at by done. cbn. rewrite Hsrc. cbn.
  unfold mbind at 1, os_Open. rewrite syscall_at by done. cbn. rewrite Hsrc. cbn.
  eexists. by split_and!.
Qed.

(** X20.  When the copy of an insert fails after the destination has
    been created, [linkOrCopy] returns the error and leaves the
    destination in place, empty: the entry exists without the bytes of
    the source. *)
Theorem linkOrCopy_failed_copy_leaves_entry src dst (w : World heap) f e :
  (∀ n fs, others E n fs = fs) →
  (∀ i, (i < 6)%nat → fault E (ticks w + i) = None) → fault E (ticks w + 6) = Some e →
  files w !! src = Some f → IsDir f = false → files w !! dst = None →
  sameDevice E src dst = false →
  ∃ w', linkOrCopy E src dst w = (Done (Some e), w')
        ∧ files w' = <[dst := mkFile "" (Z.land (perm f) 511) (now E) false]> (files w).
Proof.
  intros Ho Hf He Hsrc Hfile Hdst Hdev.
  rewrite (linkOrCopy_to_create src dst w f) by (try done; intros; apply Hf; lia).
  unfold mbind at 1, file_Chmod. rewrite syscall_at by (try done; apply Hf; lia). cbn.
  unfold mbind at 1, io_Copy.
  rewrite (syscall_fault _ _ e)
    by (try done; cbn; replace (S (ticks w + 5)) with (ticks w + 6)%nat by lia; done).
  cbn. rewrite alter_insert_eq. cbn. eexists. by split.
Qed.

(** X21.  When the chmod of an insert fails, [linkOrCopy] removes the
    destination it has just created and returns the error: the files
    are as before. *)
Theorem linkOrCopy_failed_chmod_cleans_up src dst (w : World heap) f e :
  (∀ n fs, others E n fs = fs) →
  (∀ i, (i < 5)%nat → fault E (ticks w + i) = None) →
  fault E (ticks w + 5) = Some e → fault E (ticks w + 6) = None →
  files w !! src = Some f → IsDir f = false → files w !! dst = None →
  sameDevice E src dst = false →
  ∃ w', linkOrCopy E src dst w = (Done (Some e), w') ∧ files w' = files w.
Proof.
  intros Ho Hf He Hrm Hsrc Hfile Hdst Hdev.
  rewrite (linkOrCopy_to_create src dst w f) by done.
  unfold mbind at 1, file_Chmod. rewrite (syscall_fault _ _ e) by done. cbn.
  unfold mbind at 1, os_Remove.
  rewrite syscall_at
    by (try done; cbn; replace (S (ticks w + 5)) with (ticks w + 6)%nat by lia; done).
  cbn. rewrite lookup_insert_eq. cbn. rewrite delete_insert_eq by done.
  eexists. split; [reflexivity|]. cbn. by apply delete_id.
Qed.

(** What [linkOrCopy] can do to the files of a run without
    interference: nothing, or create the destination. *)
Lemma linkOrCopy_writes_destination src dst (w : World heap) o w' :
  quiet E → linkOrCopy E src dst w = (o, w') →
  files w' = files w ∨ files w !! dst = None ∧ ∃ g, files w' = <[dst := g]> (files w).
Proof.
  intros [Ho Hf] Hrun.
  unfold linkOrCopy, mbind at 1, exists_, mbind at 1, os_Stat at 1 in Hrun.
  rewrite syscall_at in Hrun by done. cbn in Hrun.
  destruct (files w !! dst) as [g0|] eqn:Hdst; cbn in Hrun.
  { injection Hrun as <- <-. by left. }
  unfold mbind at 1, os_Link in Hrun. rewrite syscall_at in Hrun by done. cbn in Hrun.
  rewrite Hdst in Hrun.
  destruct (files w !! src) as [f|] eqn:Hsrc; cbn in Hrun.
  2:{ unfold mbind at 1, os_Open in Hrun. rewrite syscall_at in Hrun by done.
      cbn in Hrun. rewrite Hsrc in Hrun. cbn in Hrun. injection Hrun as <- <-. by left. }
  assert (∀ n,
            (r <~ os_Open E src ;;;
             match r with
             | inl err => mret (Some err)
             | inr srcFile =>
                 r <~ os_Stat E src ;;;
                 match r with
                 | inl err => mret (Some err)
                 | inr srcInfo =>
                     r <~ os_Create E dst ;;;
                     match r with
                     | inl err => mret (Some err)
                     | inr _ =>
                         r <~ file_Chmod E dst (Z.land (perm srcInfo) 511) ;;;
                         match r with
                         | inl err => u <~ os_Remove E dst ;;; mret (Some err)
                         | inr _ =>
                             r <~ io_Copy E dst srcFile ;;;
                             mret (match r with inl err => Some err | inr _ => None end)
                         end
                     end
                 end
             end) (mkWorld (packageCache w) (files w) (logged w) n) = (o, w') →
            files w' = files w
            ∨ files w !! dst = None ∧ ∃ g, files w' = <[dst := g]> (files w)) as Hcopy.
  { intros n Hc.
    unfold mbind at 1, os_Open in Hc. rewrite syscall_at in Hc by done. cbn in Hc.
    rewrite Hsrc in Hc. cbn in Hc.
    unfold mbind at 1, os_Stat in Hc. rewrite syscall_at in Hc by done. cbn in Hc.
    rewrite Hsrc in Hc. cbn in Hc.
    unfold mbind at 1, os_Create in Hc. rewrite syscall_at in Hc by done. cbn in Hc.
    rewrite Hdst in Hc. cbn in Hc.
    unfold mbind at 1, file_Chmod in Hc. rewrite syscall_at in Hc by done. cbn in Hc.
    unfold mbind at 1, io_Copy in Hc. rewrite syscall_at in Hc by done. cbn in Hc.
    rewrite !alter_insert_eq in Hc.
    destruct (IsDir f); cbn in Hc; rewrite ?alter_insert_eq in Hc;
      injection Hc as <- <-; right; (split; [done|]); by eexists. }
  rewrite Hdst in Hcopy.
  destruct (IsDir f) eqn:Hd; cbn in Hrun; [exact (Hcopy _ Hrun)|].
  destruct (sameDevice E src dst); cbn in Hrun; [|exact (Hcopy _ Hrun)].
  injection Hrun as <- <-. right. split; [done|]. by eexists.
Qed.

Lemma keepsFiles_mret {A} fs0 (a : A) : keepsFiles fs0 (mret a : M heap A).
Proof. by intros w o w' Hs [= <- <-]. Qed.

Lemma keepsFiles_bind {A B} fs0 (m : M heap A) (k : A → M heap B) :
  keepsFiles fs0 m → (∀ a, keepsFiles fs0 (k a)) → keepsFiles fs0 (mbind m k).
Proof.
  intros Hm Hk w o w' Hs. unfold mbind.
  destruct (m w) as [[a| | | |] w1] eqn:Hmw;
    try (intros [= <- <-]; by apply (Hm w _ w1 Hs Hmw)).
  apply (Hk a). by apply (Hm w _ w1 Hs Hmw).
Qed.

Lemma keepsFiles_same {A} fs0 (m : M heap A) :
  (∀ w o w', m w = (o, w') → files w' = files w) → keepsFiles fs0 m.
Proof. intros Hm w o w' Hs Hrun. by rewrite (Hm w o w' Hrun). Qed.

Lemma keepsFiles_log_Printf fs0 line : keepsFiles fs0 (log_Printf line : M heap unit).
Proof. apply keepsFiles_same. by intros w o w' [= <- <-]. Qed.

Lemma keepsFiles_log_Fatal {A} fs0 line : keepsFiles fs0 (log_Fatal line : M heap A).
Proof. apply keepsFiles_same. by intros w o w' [= <- <-]. Qed.

Lemma keepsFiles_getPackage fs0 p : keepsFiles fs0 (getPackage p).
Proof.
  apply keepsFiles_same. intros w o w'. unfold getPackage.
  by destruct (packageCache w !! p); intros [= <- <-].
Qed.

Lemma keepsFiles_onCache {A} fs0 (c : heap → outcome (A * heap)) :
  keepsFiles fs0 (onCache c).
Proof.
  apply keepsFiles_same. intros w o w'. unfold onCache.
  by destruct (c (packageCache w)) as [[a hp]| | | |]; intros [= <- <-].
Qed.

Lemma keepsFiles_fingerprintOf fs0 fuel p : keepsFiles fs0 (fingerprintOf E fuel p).
Proof.
  intros w o w' Hs. unfold fingerprintOf. by apply keepsFiles_onCache.
Qed.

Lemma keepsFiles_loadAll fs0 fuel args : keepsFiles fs0 (loadAll E fuel args).
Proof.
  unfold loadAll. apply keepsFiles_bind; [|intros roots; by intros w o w' Hs [= <- <-]].
  unfold packagesForBuild. apply keepsFiles_bind; [apply keepsFiles_onCache|].
  intros pkgs. apply keepsFiles_same. intros w o w'.
  destruct (computeStale _ _ _ _ _) as [[hp lines]| | | |]; try by intros [= <- <-].
  by destruct (bool_decide _); intros [= <- <-].
Qed.

Lemma keepsFiles_forEach {A} fs0 (l : list A) (body : A → M heap unit) :
  (∀ a, keepsFiles fs0 (body a)) → keepsFiles fs0 (forEach l body).
Proof.
  intros Hb. induction l as [|a l IH]; cbn [forEach]; [apply keepsFiles_mret|].
  apply keepsFiles_bind; [apply Hb|by intros _].
Qed.

Section Quiet.

Hypothesis Hquiet : quiet E.

Lemma keepsFiles_exists_ fs0 path : keepsFiles fs0 (exists_ E path).
Proof.
  destruct Hquiet as [Ho Hf]. apply keepsFiles_same. intros w o w'.
  unfold exists_, mbind, os_Stat. rewrite syscall_at by done. cbn.
  by intros [= <- <-].
Qed.

Lemma keepsFiles_os_Mkdir fs0 path mode : keepsFiles fs0 (os_Mkdir E path mode).
Proof.
  destruct Hquiet as [Ho Hf]. intros w o w' Hs.
  unfold os_Mkdir. rewrite syscall_at by done. cbn.
  destruct (files w !! path) eqn:Hp; cbn; intros [= <- <-]; cbn; [done|].
  apply insert_subseteq_r; [|done]. by eapply lookup_weaken_None.
Qed.

Lemma keepsFiles_linkOrCopy fs0 src dst : keepsFiles fs0 (linkOrCopy E src dst).
Proof.
  intros w o w' Hs Hrun.
  destruct (linkOrCopy_writes_destination src dst w o w' Hquiet Hrun)
    as [->|[Hdst [g ->]]]; [done|].
  apply insert_subseteq_r; [|done]. by eapply lookup_weaken_None.
Qed.

Lemma keepsFiles_save fs0 fuel args : keepsFiles fs0 (save E fuel args).
Proof.
  unfold save.
  apply keepsFiles_bind; [apply keepsFiles_log_Printf|intros _].
  apply keepsFiles_bind; [apply keepsFiles_os_Mkdir|intros r].
  apply keepsFiles_bind.
  { destruct r as [err|]; [|apply keepsFiles_mret].
    destruct (IsExist err); [apply keepsFiles_mret|apply keepsFiles_log_Fatal]. }
  intros _. apply keepsFiles_bind; [apply keepsFiles_loadAll|intros pkgs].
  apply keepsFiles_bind; [apply keepsFiles_log_Printf|intros _].
  apply keepsFiles_forEach. intros p.
  apply keepsFiles_bind; [apply keepsFiles_getPackage|intros pkg].
  destruct (Standard pkg && negb (race pkg)); [apply keepsFiles_mret|].
  apply keepsFiles_bind.
  { destruct (Stale pkg); [apply keepsFiles_mret|apply keepsFiles_exists_]. }
  intros there. destruct (negb there); [apply keepsFiles_log_Printf|].
  apply keepsFiles_bind; [apply keepsFiles_fingerprintOf|intros fp].
  apply keepsFiles_bind; [apply keepsFiles_exists_|intros there'].
  apply keepsFiles_bind; [|intros tag; apply keepsFiles_log_Printf].
  destruct there'; [apply keepsFiles_mret|].
  apply keepsFiles_bind; [apply keepsFiles_linkOrCopy|intros err].
  destruct err; [apply keepsFiles_log_Fatal|apply keepsFiles_mret].
Qed.

End Quiet.

(** X22.  In a run without interference [save] only adds files: however
    it ends, every file that existed before it still exists, with the
    same bytes, permission bits and modification time. *)
Theorem save_only_adds fuel args (w : World heap) o w' :
  quiet E → save E fuel args w = (o, w') →
  ∀ path f, files w !! path = Some f → files w' !! path = Some f.
Proof.
  intros Hq Hrun path f Hf.
  by apply (lookup_weaken (files w) (files w') path f Hf),
           (keepsFiles_save Hq (files w) fuel args w o w').
Qed.

(** X23.  The round trip of an artifact through the store, with the
    calls of [save] and [restore] in their order and without
    interference: inserting the artifact under a name of the cache,
    removing the artifact, creating its directory, inserting the cache
    entry at the place of the artifact and setting its times succeeds,
    and gives the artifact its bytes back, with the time of the restore. *)
Theorem store_round_trip target entry (w : World heap) f :
  quiet E → files w !! target = Some f → IsDir f = false →
  files w !! entry = None → entry ≠ filepath_Dir target → target ≠ filepath_Dir target →
  ∃ w' g,
    (e1 <~ linkOrCopy E target entry ;;;
     u <~ os_Remove E target ;;;
     u <~ os_MkdirAll E (filepath_Dir target) 493 ;;;
     e2 <~ linkOrCopy E entry target ;;;
     r <~ os_Chtimes E target (now E) ;;;
     mret (e1, e2, r)) w
    = (Done (None, None, inr ()), w')
    ∧ files w' !! target = Some g ∧ data g = data f ∧ modTime g = now E
    ∧ IsDir g = false.
Proof.
  intros Hq Htarget Hfile Hentry Hne1 Hne2.
  assert (target ≠ entry) as Hne by congruence.
  destruct Hq as [Ho Hf].
  destruct (linkOrCopy_fresh target entry w f Ho Hf Htarget Hfile Hentry)
    as (w1 & g1 & Hrun1 & Hfiles1 & Hdata1 & Hdir1 & _).
  unfold mbind at 1. rewrite Hrun1.
  unfold mbind at 1, os_Remove. rewrite syscall_at by done. cbn.
  rewrite Hfiles1, lookup_insert_ne, Htarget by done. cbn.
  unfold mbind at 1, os_MkdirAll. rewrite syscall_at by done. cbn.
  set (fs2 := delete target (<[entry := g1]> (files w))).
  set (fs3 := (match fs2 !! filepath_Dir target with
               | Some f0 => if IsDir f0 then (inr (), fs2) else (inl EEXIST, fs2)
               | None => (inr (), <[filepath_Dir target := mkFile "" 493 (now E) true]> fs2)
               end).2).
  assert (fs3 !! entry = Some g1 ∧ fs3 !! target = None) as [Hentry3 Htarget3].
  { assert (fs2 !! entry = Some g1 ∧ fs2 !! target = None) as [H1 H2].
    { unfold fs2. by rewrite lookup_delete_ne, lookup_insert_eq, lookup_delete_eq. }
    unfold fs3. destruct (fs2 !! filepath_Dir target) as [f0|]; [by destruct (IsDir f0)|].
    cbn. by rewrite !lookup_insert_ne. }
  match goal with
  | |- context [mbind (linkOrCopy E entry target) ?k ?w2] =>
      destruct (linkOrCopy_fresh entry target w2 g1 Ho Hf) as
        (w3 & g3 & Hrun3 & Hfiles3 & Hdata3 & Hdir3 & _);
      [exact Hentry3|exact Hdir1|exact Htarget3|];
      unfold mbind at 1; rewrite Hrun3
  end.
  unfold mbind at 1, os_Chtimes. rewrite syscall_at by done. cbn.
  rewrite Hfiles3, lookup_insert_eq. cbn.
  eexists _, _. split; [reflexivity|]. cbn. rewrite lookup_insert_eq.
  split_and!; [done|cbn; congruence|done|done].
Qed.


End Store.

(** ** The store on concrete worlds *)

Lemma quiet_env : quiet Examples.env.
Proof. split; intros; reflexivity. Qed.

Lemma quiet_envOtherDevice : quiet Examples.envOtherDevice.
Proof. split; intros; reflexivity. Qed.

Lemma linkOrCopy_copies_witness :
  ∃ w' g,
    linkOrCopy Examples.envOtherDevice "/w/pkg/a.a" "/cache/k" Examples.worldAB
    = (Done None, w')
    ∧ files w' = <["/cache/k" := g]> Examples.filesAB
    ∧ data g = "A" ∧ IsDir g = false ∧ perm g = Z.land 420 511
    ∧ packageCache w' = Examples.heapAB ∧ logged w' = [].
Proof.
  apply (linkOrCopy_copies Examples.envOtherDevice "/w/pkg/a.a" "/cache/k" Examples.worldAB
           (Examples.file "A" 20) quiet_envOtherDevice); reflexivity.
Defined.

Lemma linkOrCopy_missing_source_witness :
  ∃ w', linkOrCopy Examples.env "/w/pkg/c.a" "/cache/k" Examples.worldAB
        = (Done (Some ENOENT), w')
        ∧ files w' = Examples.filesAB ∧ packageCache w' = Examples.heapAB ∧ logged w' = [].
Proof.
  apply (linkOrCopy_missing_source Examples.env "/w/pkg/c.a" "/cache/k" Examples.worldAB
           quiet_env); reflexivity.
Defined.

Lemma linkOrCopy_failed_copy_leaves_entry_witness :
  ∃ w', linkOrCopy Examples.envCopyFails "/w/pkg/a.a" "/cache/k" Examples.worldAB
        = (Done (Some EIO), w')
        ∧ files w' = <["/cache/k" := mkFile "" (Z.land 420 511) 1000 false]> Examples.filesAB.
Proof.
  apply (linkOrCopy_failed_copy_leaves_entry Examples.envCopyFails "/w/pkg/a.a" "/cache/k"
           Examples.worldAB (Examples.file "A" 20) EIO); try reflexivity.
  intros i Hi. do 6 (destruct i as [|i]; [reflexivity|]). lia.
Defined.

Lemma linkOrCopy_failed_chmod_cleans_up_witness :
  ∃ w', linkOrCopy Examples.envChmodFails "/w/pkg/a.a" "/cache/k" Examples.worldAB
        = (Done (Some EPERM), w')
        ∧ files w' = Examples.filesAB.
Proof.
  apply (linkOrCopy_failed_chmod_cleans_up Examples.envChmodFails "/w/pkg/a.a" "/cache/k"
           Examples.worldAB (Examples.file "A" 20) EPERM); try reflexivity.
  intros i Hi. do 5 (destruct i as [|i]; [reflexivity|]). lia.
Defined.

Lemma save_only_adds_witness :
  files (save Examples.env 5 ["a"] Examples.worldAB).2 !! "/w/pkg/a.a"
  = Some (Examples.file "A" 20).
Proof.
  apply (save_only_adds Examples.env 5 ["a"] Examples.worldAB
           (save Examples.env 5 ["a"] Examples.worldAB).1
           (save Examples.env 5 ["a"] Examples.worldAB).2 quiet_env).
  - apply surjective_pairing.
  - reflexivity.
Defined.

Lemma store_round_trip_witness :
  ∃ w' g,
    (e1 <~ linkOrCopy Examples.env "/w/pkg/a.a" "/cache/k" ;;;
     u <~ os_Remove Examples.env "/w/pkg/a.a" ;;;
     u <~ os_MkdirAll Examples.env "/w/pkg" 493 ;;;
     e2 <~ linkOrCopy Examples.env "/cache/k" "/w/pkg/a.a" ;;;
     r <~ os_Chtimes Examples.env "/w/pkg/a.a" 1000 ;;;
     mret (e1, e2, r)) Examples.worldAB
    = (Done (None, None, inr ()), w')
    ∧ files w' !! "/w/pkg/a.a" = Some g ∧ data g = "A" ∧ modTime g = 1000
    ∧ IsDir g = false.
Proof.
  apply (store_round_trip Examples.env "/w/pkg/a.a" "/cache/k" Examples.worldAB
           (Examples.file "A" 20) quiet_env); try reflexivity; vm_compute; discriminate.
Defined.


End PkgMore.

(** * The order of the map of dependencies *)

Module OrderFacts.
Import Pkg PkgSpec PkgFacts PkgMore.

(** The loader of the model is the one that ranges in the order of
    [map_to_list] and sorts by insertion. *)
Lemma loadImport_loadImportOrd E fuel :
  loadImport E fuel
  = loadImportOrd E (λ _ m, (map_to_list m).*2) (λ _, sortPackageList) fuel.
Proof. reflexivity. Qed.

Lemma loadArgs_loadArgsOrd E fuel args set pkgs (hp : heap) :
  loadArgs E fuel args set pkgs hp
  = loadArgsOrd E (λ _ m, (map_to_list m).*2) (λ _, sortPackageList) fuel args set pkgs hp.
Proof. reflexivity. Qed.

Lemma deps_in_heap_alter (hp : heap) f p :
  (∀ pk, deps (f pk) = deps pk) → deps_in_heap hp → deps_in_heap (alter f p hp).
Proof.
  intros Hf Hhp k pk d Hk Hd.
  assert (is_Some (hp !! d)) as Hin.
  { destruct (decide (k = p)) as [->|Hne].
    - rewrite lookup_alter_eq in Hk. destruct (hp !! p) as [pk0|] eqn:Hp; [|done].
      injection Hk as <-. rewrite Hf in Hd. by apply (Hhp p pk0 d).
    - rewrite lookup_alter_ne in Hk by done. by apply (Hhp k pk d). }
  by apply lookup_alter_is_Some.
Qed.

Lemma deps_in_heap_set_deps (hp : heap) l p :
  (∀ d, d ∈ l → is_Some (hp !! d)) → deps_in_heap hp →
  deps_in_heap (alter (set_deps l) p hp).
Proof.
  intros Hl Hhp k pk d Hk Hd. apply lookup_alter_is_Some.
  destruct (decide (k = p)) as [->|Hne].
  - rewrite lookup_alter_eq in Hk. destruct (hp !! p) as [pk0|] eqn:Hp; [|done].
    injection Hk as <-. by apply Hl.
  - rewrite lookup_alter_ne in Hk by done. by apply (Hhp k pk d).
Qed.

(** What the loader keeps: the units are filed under their import
    paths, the dependencies are in the heap, and no unit is removed. *)
Lemma kept_alter (hp0 hp : heap) f p :
  (∀ pk, ImportPath (f pk) = ImportPath pk) → (∀ pk, deps (f pk) = deps pk) →
  filed hp ∧ deps_in_heap hp ∧ dom hp0 ⊆ dom hp →
  filed (alter f p hp) ∧ deps_in_heap (alter f p hp) ∧ dom hp0 ⊆ dom (alter f p hp).
Proof.
  intros H1 H2 (Hf & Hd & Hdom). split_and!.
  - by apply filed_alter.
  - by apply deps_in_heap_alter.
  - by rewrite dom_alter_L.
Qed.

Ltac keeps_field :=
  let pk := fresh "pk" in
  intros pk; simpl; try done; destruct (Error pk); done.

Section Order.

Context (E : Env).
Context (r1 r2 : string → gmap string string → list string).
Context (s1 s2 : string → heap → list string → list string).
Hypothesis Hr1 : rangeOrder r1.
Hypothesis Hr2 : rangeOrder r2.
Hypothesis Hs1 : sortContract s1.
Hypothesis Hs2 : sortContract s2.

(** On a heap whose units are filed under their import paths, the
    sorted slice of the values of the map does not depend on the order
    of the range, nor on the sort. *)
Lemma sorted_range_unique p (hp : heap) (dmap : gmap string string) :
  filed hp → (∀ k v, dmap !! k = Some v → is_Some (hp !! v)) →
  s1 p hp (r1 p dmap) = s2 p hp (r2 p dmap).
Proof.
  intros Hf Hv.
  assert (∀ a, a ∈ r1 p dmap → ImportPathOf hp a = a) as Hkey.
  { intros a Ha. rewrite (Hr1 p dmap) in Ha.
    apply list_elem_of_fmap in Ha as ([k v] & -> & Hkv%elem_of_map_to_list).
    destruct (Hv k v Hkv) as [pk Hpk]. unfold ImportPathOf. simpl. rewrite Hpk. simpl.
    by apply Hf. }
  apply (sortSort_unique hp (r1 p dmap) (r2 p dmap)); [| |apply Hs1|apply Hs2].
  - by rewrite (Hr1 p dmap), (Hr2 p dmap).
  - intros a b Ha Hb. by rewrite (Hkey a Ha), (Hkey b Hb).
Qed.

Lemma sorted_range_values p (hp : heap) (dmap : gmap string string) d :
  d ∈ s2 p hp (r2 p dmap) → ∃ k, dmap !! k = Some d.
Proof.
  destruct (Hs2 p hp (r2 p dmap)) as [Hperm _]. rewrite <-Hperm, (Hr2 p dmap).
  intros ([k v] & -> & Hkv%elem_of_map_to_list)%list_elem_of_fmap. by exists k.
Qed.

Lemma dmap_values (g : string → string) path p1 l (dmap : gmap string string) (h : heap) :
  (∀ k v, dmap !! k = Some v → is_Some (h !! v)) → is_Some (h !! p1) →
  (∀ d, d ∈ l → is_Some (h !! d)) →
  ∀ k v, foldl (λ m dep, <[g dep := dep]> m) (<[path := p1]> dmap) l !! k = Some v →
         is_Some (h !! v).
Proof.
  intros Hv Hp1 Hl k v [Hkv|Hin]%foldl_insert_lookup; [|by apply Hl].
  apply lookup_insert_Some in Hkv as [[_ <-]|[_ Hkv]]; [done|by apply (Hv k)].
Qed.

Ltac split_ifs :=
  repeat match goal with
         | |- context [if ?c then _ else _] => destruct c
         end.

Lemma loadImports_order (rec1 rec2 : loader) ctx stk p (hp0 : heap) :
  agree rec1 rec2 →
  ∀ paths imps (dmap : gmap string string) (hp : heap),
    filed hp ∧ deps_in_heap hp ∧ dom hp0 ⊆ dom hp →
    (∀ k v, dmap !! k = Some v → is_Some (hp !! v)) →
    loadImports rec1 ctx stk p paths imps dmap hp
    = loadImports rec2 ctx stk p paths imps dmap hp
    ∧ match loadImports rec2 ctx stk p paths imps dmap hp with
      | Done (_, dmap', hp') =>
          (filed hp' ∧ deps_in_heap hp' ∧ dom hp0 ⊆ dom hp')
          ∧ ∀ k v, dmap' !! k = Some v → is_Some (hp' !! v)
      | _ => True
      end.
Proof.
  intros Hrec. induction paths as [|path paths IH]; intros imps dmap hp Hk Hv;
    cbn [loadImports]; [by split|].
  destruct (decide (path = "C")); [by apply IH|].
  destruct (hp !! p) as [pk|]; [|by split].
  destruct Hk as (Hf & Hd & Hdom).
  destruct (Hrec ctx path (Dir pk) stk
              (default [] (Build.ImportPos (Package_ pk) !! path)) hp Hf Hd) as [Heq Hpost].
  rewrite Heq.
  destruct (rec2 _ _ _ _ _ _) as [[p1 hp1]| | | |]; try by split.
  cbn [obind]. destruct Hpost as (Hf1 & Hd1 & Hdom1).
  destruct (hp1 !! p1) as [pk1|] eqn:Hp1; [|by split].
  destruct (hp1 !! p) as [pkp|]; [|by split].
  assert (filed hp1 ∧ deps_in_heap hp1 ∧ dom hp0 ⊆ dom hp1) as Hk1
    by (split_and!; [done|done|set_solver]).
  assert (∀ (h : heap) (g : string → string) path' k v,
            dom hp1 ⊆ dom h →
            foldl (λ m dep, <[g dep := dep]> m) (<[path' := p1]> dmap) (deps pk1) !! k = Some v →
            is_Some (h !! v)) as Hv1.
  { intros h g path' k v Hh Hkv. apply elem_of_dom, Hh, elem_of_dom.
    apply (dmap_values g path' p1 (deps pk1) dmap hp1) with (k := k); [| | |done].
    - intros k' v' Hkv'. apply elem_of_dom, Hdom1, elem_of_dom. by apply (Hv k').
    - by eexists.
    - intros d Hin. by apply (Hd1 p1 pk1 d). }
  destruct (local pk1).
  - destruct (negb (local pkp) && bool_decide (Error pkp = None)); apply IH.
    + split_ifs; repeat (apply kept_alter; [keeps_field|keeps_field|]); exact Hk1.
    + intros k v. apply Hv1. split_ifs; by rewrite ?dom_alter_L.
    + split_ifs; repeat (apply kept_alter; [keeps_field|keeps_field|]); exact Hk1.
    + intros k v. apply Hv1. split_ifs; by rewrite ?dom_alter_L.
  - apply IH.
    + split_ifs; repeat (apply kept_alter; [keeps_field|keeps_field|]); exact Hk1.
    + intros k v. apply Hv1. split_ifs; by rewrite ?dom_alter_L.
Qed.

Lemma loadOrd_order (rec1 rec2 : loader) ctx stk p bp err (hp0 hp : heap) :
  agree rec1 rec2 → Build.ImportPath bp = p →
  (∀ k pk, hp !! k = Some pk → k ≠ p → ImportPath pk = k) →
  deps_in_heap hp → dom hp0 ⊆ dom hp →
  loadOrd E r1 s1 rec1 ctx stk p bp err hp = loadOrd E r2 s2 rec2 ctx stk p bp err hp
  ∧ match loadOrd E r2 s2 rec2 ctx stk p bp err hp with
    | Done hp' => filed hp' ∧ deps_in_heap hp' ∧ dom hp0 ⊆ dom hp'
    | _ => True
    end.
Proof.
  intros Hrec Hbp Hhp Hd Hdom. unfold loadOrd.
  match goal with
  | |- context [alter ?f p hp] =>
      assert (filed (alter f p hp) ∧ deps_in_heap (alter f p hp)
              ∧ dom hp0 ⊆ dom (alter f p hp)) as H1;
      [|set (hp1 := alter f p hp) in *; clearbody hp1]
  end.
  { split_and!.
    - intros k pk. destruct (decide (k = p)) as [->|Hne].
      + rewrite lookup_alter_eq. destruct (hp !! p); [|done]. by intros [= <-].
      + rewrite lookup_alter_ne by done. intros Hk. by apply Hhp.
    - apply deps_in_heap_alter; [keeps_field|done].
    - by rewrite dom_alter_L. }
  destruct err as [msg|].
  { split; [done|]. apply kept_alter; [keeps_field|keeps_field|done]. }
  destruct (hp1 !! p) as [pk1|]; [|by split].
  match goal with
  | |- context [loadImports rec1 ctx stk p ?ps [] ∅ (alter ?f p hp1)] =>
      destruct (loadImports_order rec1 rec2 ctx stk p hp0 Hrec ps [] ∅ (alter f p hp1))
        as [Heq Hpost];
      [apply kept_alter; [keeps_field|keeps_field|done]
      |by intros k v; rewrite lookup_empty
      |];
      rewrite Heq;
      destruct (loadImports rec2 ctx stk p ps [] ∅ (alter f p hp1))
        as [[[imps dmap] hp3]| | | |]; try by split
  end.
  cbn [obind]. cbv zeta. destruct Hpost as [Hk3 Hv3].
  set (hp4 := alter (set_imports (Some imps)) p hp3).
  assert (filed hp4 ∧ deps_in_heap hp4 ∧ dom hp0 ⊆ dom hp4) as Hk4
    by (apply kept_alter; [keeps_field|keeps_field|done]).
  assert (∀ k v, dmap !! k = Some v → is_Some (hp4 !! v)) as Hv4
    by (intros k v Hkv; apply lookup_alter_is_Some; by apply (Hv3 k)).
  rewrite (sorted_range_unique p hp4 dmap) by tauto.
  split; [reflexivity|].
  assert (filed (alter (set_deps (s2 p hp4 (r2 p dmap))) p hp4)
          ∧ deps_in_heap (alter (set_deps (s2 p hp4 (r2 p dmap))) p hp4)
          ∧ dom hp0 ⊆ dom (alter (set_deps (s2 p hp4 (r2 p dmap))) p hp4)) as Hk5.
  { destruct Hk4 as (A & B & C). split_and!.
    - apply filed_alter; [keeps_field|done].
    - apply deps_in_heap_set_deps; [|done].
      intros d (k & Hkd)%sorted_range_values. by apply (Hv4 k).
    - by rewrite dom_alter_L. }
  split_ifs; repeat (apply kept_alter; [keeps_field|keeps_field|]); exact Hk5.
Qed.

Lemma loadImportOrd_order fuel :
  agree (loadImportOrd E r1 s1 fuel) (loadImportOrd E r2 s2 fuel).
Proof.
  induction fuel as [|fuel IH]; intros ctx path srcDir stk pos hp Hf Hd; [by split|].
  cbn [loadImportOrd].
  set (p := if contains (Build.BuildTags ctx) "race" then _ else _). clearbody p.
  destruct (hp !! p) as [pk|] eqn:Hp.
  { split; [done|].
    destruct (reusePackage_edges p (push stk path) hp pk Hp) as (f & Heq & Hedge).
    split_and!.
    - by apply reusePackage_filed.
    - rewrite Heq. apply deps_in_heap_alter; [intros pk0; apply Hedge|done].
    - by rewrite Heq, dom_alter_L. }
  destruct (Import E ctx path srcDir) as [bp err].
  match goal with
  | |- context [loadOrd E r1 s1 _ ?c ?s p ?b ?e ?h] =>
      destruct (loadOrd_order (loadImportOrd E r1 s1 fuel) (loadImportOrd E r2 s2 fuel)
                  c s p b e hp h IH) as [Heq Hpost];
      [by destruct (decide (gobin E = ""))
      |intros k pk Hk Hne; rewrite lookup_alter_ne, lookup_insert_ne in Hk by done;
       by apply Hf
      |
      |rewrite dom_alter_L, dom_insert_L; set_solver
      |rewrite Heq;
       destruct (loadOrd E r2 s2 (loadImportOrd E r2 s2 fuel) c s p b e h)
         as [hp3| | | |]; try by split]
  end.
  { apply deps_in_heap_alter; [keeps_field|]. intros k pk d Hk Hdd.
    apply lookup_insert_is_Some'. right.
    destruct (decide (k = p)) as [->|Hne].
    - rewrite lookup_insert_eq in Hk. injection Hk as <-. by apply elem_of_nil in Hdd.
    - rewrite lookup_insert_ne in Hk by done. by apply (Hd k pk d). }
  cbn [obind]. split; [done|]. destruct pos as [|q pos]; [done|].
  apply kept_alter; [keeps_field|keeps_field|done].
Qed.

Lemma loadArgsOrd_order fuel args :
  ∀ set pkgs (hp : heap),
    filed hp → deps_in_heap hp →
    loadArgsOrd E r1 s1 fuel args set pkgs hp = loadArgsOrd E r2 s2 fuel args set pkgs hp.
Proof.
  induction args as [|arg args IH]; intros set pkgs hp Hf Hd; cbn [loadArgsOrd]; [done|].
  destruct (bool_decide (arg ∈ set)); [by apply IH|].
  unfold loadPackageOrd.
  match goal with
  | |- context [loadImportOrd E r1 s1 fuel ?c ?b ?d ?s ?ps hp] =>
      destruct (loadImportOrd_order fuel c b d s ps hp Hf Hd) as [Heq Hpost];
      rewrite Heq;
      destruct (loadImportOrd E r2 s2 fuel c b d s ps hp) as [[k hp1]| | | |]; try done
  end.
  cbn [obind]. destruct Hpost as (Hf1 & Hd1 & _). by apply IH.
Qed.

End Order.

Lemma rangeOrder_model : rangeOrder (λ _ m, (map_to_list m).*2).
Proof. by intros p m. Qed.

Lemma rangeOrder_reverse : rangeOrder Examples.rangeReverse.
Proof.
  intros p m. unfold Examples.rangeReverse.
  destruct (decide (p = "A")); [apply reverse_Permutation|done].
Qed.

Lemma sortContract_sortPackageList : sortContract (λ _, sortPackageList).
Proof. intros p hp l. apply sortPackageList_sortSort. Qed.

(** C2.  The digest of a unit does not depend on the order in which
    the loader ranges over its map of dependencies, nor on what the
    unstable sort does with the slice.  Whatever orders of the range
    and whatever sorts that meet the contract of [sort.Sort] two runs
    have, in each call of [load], the loader, started from the empty
    cache on the
    same arguments with the same provider, ends the same way and
    builds the same cache, the one of the model; so loading and then
    [Fingerprint], on the same files, end the same way, with the same
    digest and the same memoised fingerprints. *)
Theorem Fingerprint_independent_of_map_order E fs r1 s1 r2 s2 fuel args :
  rangeOrder r1 → sortContract s1 → rangeOrder r2 → sortContract s2 →
  loadArgsOrd E r1 s1 fuel args ∅ [] ∅ = loadArgsOrd E r2 s2 fuel args ∅ [] ∅
  ∧ loadArgsOrd E r1 s1 fuel args ∅ [] ∅ = loadArgs E fuel args ∅ [] ∅
  ∧ ∀ fuel' p,
      ('(pkgs, hp) ← loadArgsOrd E r1 s1 fuel args ∅ [] ∅ ;;; Fingerprint E fs fuel' p hp)
      = ('(pkgs, hp) ← loadArgsOrd E r2 s2 fuel args ∅ [] ∅ ;;; Fingerprint E fs fuel' p hp).
Proof.
  intros Hr1 Hs1 Hr2 Hs2.
  assert (filed (∅ : heap)) as Hf by (intros k pk Hk; by rewrite lookup_empty in Hk).
  assert (deps_in_heap (∅ : heap)) as Hd by (intros k pk d Hk; by rewrite lookup_empty in Hk).
  assert (loadArgsOrd E r1 s1 fuel args ∅ [] ∅ = loadArgsOrd E r2 s2 fuel args ∅ [] ∅) as Heq
    by (by apply loadArgsOrd_order).
  split_and!; [exact Heq| |by intros fuel' p; rewrite Heq].
  rewrite loadArgs_loadArgsOrd.
  apply loadArgsOrd_order; [done|apply rangeOrder_model|done|apply sortContract_sortPackageList
                           |done|done].
Qed.

Lemma Fingerprint_independent_of_map_order_witness :
  loadArgsOrd Examples.envCycle Examples.rangeReverse (λ _, sortPackageList)
    15 ["A"; "D"] ∅ [] ∅
  = loadArgsOrd Examples.envCycle (λ _ m, (map_to_list m).*2) (λ _, sortPackageList)
      15 ["A"; "D"] ∅ [] ∅
  ∧ loadArgsOrd Examples.envCycle Examples.rangeReverse (λ _, sortPackageList)
      15 ["A"; "D"] ∅ [] ∅
    = loadArgs Examples.envCycle 15 ["A"; "D"] ∅ [] ∅
  ∧ ∀ fuel' p,
      ('(pkgs, hp) ← loadArgsOrd Examples.envCycle Examples.rangeReverse
                      (λ _, sortPackageList) 15 ["A"; "D"] ∅ [] ∅ ;;;
       Fingerprint Examples.envCycle ∅ fuel' p hp)
      = ('(pkgs, hp) ← loadArgsOrd Examples.envCycle (λ _ m, (map_to_list m).*2)
                         (λ _, sortPackageList) 15 ["A"; "D"] ∅ [] ∅ ;;;
         Fingerprint Examples.envCycle ∅ fuel' p hp).
Proof.
  apply (Fingerprint_independent_of_map_order Examples.envCycle ∅
           Examples.rangeReverse (λ _, sortPackageList)
           (λ _ m, (map_to_list m).*2) (λ _, sortPackageList)
           15 ["A"; "D"] rangeOrder_reverse sortContract_sortPackageList
           rangeOrder_model sortContract_sortPackageList).
Defined.

End OrderFacts.

(** * The first revision of main.go *)

Module GoListFacts.
Import GoList GoListSpec.

(** ** [isStdLib] *)

Lemma IndexByte_append_None b c s :
  IndexByte b c = None →
  IndexByte (b +:+ s) c
  = match IndexByte s c with Some i => Some (String.length b + i)%nat | None => None end.
Proof.
  induction b as [|a b IH]; simpl.
  - intros _. change ("" +:+ s) with s. by destruct (IndexByte s c).
  - destruct (decide (a = c)); [done|]. destruct (IndexByte b c); [done|].
    intros _. rewrite IH by done. by destruct (IndexByte s c).
Qed.

Lemma IndexByte_append_Some b c s i :
  IndexByte b c = Some i → IndexByte (b +:+ s) c = Some i.
Proof.
  revert i. induction b as [|a b IH]; simpl; [done|]. intros i.
  destruct (decide (a = c)); [done|]. destruct (IndexByte b c) as [j|]; [|done].
  intros [= <-]. by rewrite (IH j).
Qed.

Lemma IndexByte_lt s c i : IndexByte s c = Some i → (i < String.length s)%nat.
Proof.
  revert i. induction s as [|a s IH]; simpl; [done|]. intros i.
  destruct (decide (a = c)); [intros [= <-]; lia|].
  destruct (IndexByte s c) as [j|]; [|done]. intros [= <-]. specialize (IH j eq_refl). lia.
Qed.

(** X25.  [isStdLib] takes for a package of the standard library every
    name without a dot, and every name without a slash, even one with
    a dot; a name is not of the standard library exactly when its first
    element, up to the first slash, holds a dot. *)
Theorem isStdLib_first_element :
  (∀ s, IndexByte s "."%char = None → isStdLib s = true)
  ∧ (∀ s, IndexByte s "/"%char = None → isStdLib s = true)
  ∧ (∀ host rest, IndexByte host "/"%char = None →
       isStdLib (host +:+ "/" +:+ rest)
       = bool_decide (IndexByte host "."%char = None)).
Proof.
  split_and!.
  - intros s Hs. unfold isStdLib. by rewrite Hs.
  - intros s Hs. unfold isStdLib. rewrite Hs. by destruct (IndexByte s ".").
  - intros host rest Hslash. unfold isStdLib.
    change ("/" +:+ rest) with (String "/"%char rest).
    rewrite (IndexByte_append_None host "/"%char _ Hslash). simpl.
    destruct (IndexByte host "."%char) as [i|] eqn:Hdot.
    + rewrite (IndexByte_append_Some host "."%char _ i Hdot).
      apply IndexByte_lt in Hdot. rewrite (bool_decide_eq_false_2 (Some i = None)) by done.
      apply bool_decide_eq_false. lia.
    + rewrite (IndexByte_append_None host "."%char _ Hdot). simpl.
      destruct (IndexByte rest "."%char) as [j|]; simpl; [|done].
      apply bool_decide_eq_true. lia.
Qed.


(** ** [Fingerprint] of the first revision *)

Section Fingerprint.

Context (E : Env) (fs : FS).

Lemma addFiles_input pk files h c :
  PkgSpec.filesInput E fs (Dir pk) files = Some c →
  addFiles E fs pk h files = Done (h +:+ c).
Proof.
  revert h c. induction files as [|file files IH]; intros h c;
    cbn [PkgSpec.filesInput addFiles].
  { intros [= <-]. by rewrite append_empty_r. }
  unfold addFile. destruct (fs !! _) as [f|]; [|discriminate].
  destruct (IsDir f); [discriminate|].
  destruct (PkgSpec.filesInput E fs (Dir pk) files) as [rest|]; [|discriminate].
  intros [= <-]. cbn [obind]. rewrite (IH _ rest eq_refl).
  unfold hashWrite. by rewrite !append_assoc.
Qed.

Lemma filesInput_app dir l1 l2 c :
  PkgSpec.filesInput E fs dir (l1 ++ l2) = Some c →
  ∃ c1 c2, PkgSpec.filesInput E fs dir l1 = Some c1
           ∧ PkgSpec.filesInput E fs dir l2 = Some c2 ∧ c = c1 +:+ c2.
Proof.
  revert c. induction l1 as [|x l1 IH]; intros c; cbn [app PkgSpec.filesInput].
  { intros Hc. by exists "", c. }
  destruct (fs !! _) as [f|]; [|discriminate]. destruct (IsDir f); [discriminate|].
  destruct (PkgSpec.filesInput E fs dir (l1 ++ l2)) as [rest|] eqn:Hrest; [|discriminate].
  intros [= <-]. destruct (IH rest eq_refl) as (c1 & c2 & -> & -> & ->).
  eexists _, _. split_and!; [reflexivity..|]. cbn [option_bind mbind option_ret mret].
  by rewrite !append_assoc.
Qed.

Lemma fingerprintDeps_memo (rec : string → heap → outcome (string * heap))
    (pkgs : heap) ds h a :
  (∀ d dk fp, pkgs !! d = Some dk → fingerprint dk = Some fp → rec d pkgs = Done (fp, pkgs)) →
  depsMemo pkgs ds = Some a →
  fingerprintDeps rec ds h pkgs = Done (inr (h +:+ a), pkgs).
Proof.
  intros Hrec. revert h a. induction ds as [|d ds IH]; intros h a;
    cbn [depsMemo fingerprintDeps].
  { intros [= <-]. by rewrite append_empty_r. }
  destruct (isStdLib d); [apply IH|].
  destruct (pkgs !! d) as [dk|] eqn:Hd; [|discriminate]. cbn.
  destruct (fingerprint dk) as [fp|] eqn:Hfp; [|discriminate]. cbn.
  rewrite (Hrec d dk fp Hd Hfp). cbn [obind].
  destruct (decide (fp = "")); [discriminate|].
  destruct (depsMemo pkgs ds) as [rest|]; [|discriminate]. cbn.
  intros [= <-]. rewrite (IH _ rest eq_refl). unfold hashWrite. by rewrite append_assoc.
Qed.

Lemma fingerprintDeps_missing (rec : string → heap → outcome (string * heap))
    (pkgs : heap) pre d post h :
  Forall (λ x, isStdLib x = true) pre → isStdLib d = false → pkgs !! d = None →
  fingerprintDeps rec (pre ++ d :: post) h pkgs = Fatal (d +:+ " not found!").
Proof.
  intros Hpre Hd Hnone. induction Hpre as [|y pre Hy _ IH]; cbn [app fingerprintDeps].
  - by rewrite Hd, Hnone.
  - by rewrite Hy.
Qed.

(** X26.  The first revision hashes, for a package whose dependencies
    outside the standard library have their fingerprint already: the
    Go version, the operating system, the architecture and the import
    path; the name and the content of each source file, the ten lists
    of files in the order of the code; the five lists of cgo flags;
    and the fingerprints of the dependencies outside the standard
    library, in the order of [Deps].  The digest is stored in the
    package and nothing else of the map changes. *)
Theorem Fingerprint_first_revision_input fuel p (pkgs : heap) pk c a :
  pkgs !! p = Some pk → fingerprint pk = None →
  PkgSpec.filesInput E fs (Dir pk) (allFiles pk) = Some c →
  depsMemo pkgs (Deps pk) = Some a →
  Fingerprint E fs (S (S fuel)) p pkgs
  = Done (hashSumHex (digestInput E pk c a),
          <[p := set_fingerprint (Some (hashSumHex (digestInput E pk c a))) pk]> pkgs).
Proof.
  intros Hp Hnone Hfiles Hdeps. unfold allFiles in Hfiles.
  repeat match type of Hfiles with
         | PkgSpec.filesInput _ _ _ (_ ++ _) = Some _ =>
             let c1 := fresh "c" in let H1 := fresh "Hc" in
             apply filesInput_app in Hfiles as (c1 & ? & H1 & Hfiles & ->)
         end.
  cbn [Fingerprint]. rewrite Hp, Hnone.
  repeat match goal with
         | H : PkgSpec.filesInput _ _ _ ?l = Some _ |- context [addFiles E fs pk ?h ?l] =>
             rewrite (addFiles_input pk l h _ H); cbn [obind]; clear H
         end.
  rewrite (fingerprintDeps_memo (Fingerprint E fs (S fuel)) pkgs (Deps pk) _ a); [|  |done].
  2:{ intros d dk fp Hd Hfp. cbn [Fingerprint]. by rewrite Hd, Hfp. }
  cbn [obind]. unfold addFlags. rewrite !foldl_hashWrite.
  assert (∀ u v, hashSumHex u = hashSumHex v →
                 Done (hashSumHex u, alter (set_fingerprint (Some (hashSumHex u))) p pkgs)
                 = Done (hashSumHex v, <[p := set_fingerprint (Some (hashSumHex v)) pk]> pkgs))
    as Hfin.
  { intros u v ->. do 2 f_equal. apply map_eq. intros k.
    destruct (decide (k = p)) as [->|Hne].
    - by rewrite lookup_alter_eq, lookup_insert_eq, Hp.
    - by rewrite lookup_alter_ne, lookup_insert_ne. }
  apply Hfin. f_equal. unfold digestInput, allFlags.
  rewrite !concat_app, !append_assoc. reflexivity.
Qed.

(** X27.  A dependency outside the standard library that is not in the
    map stops the run: when the files of the package can be read and
    the dependencies before it are of the standard library, the call
    ends in the fatal error that names the dependency, and no digest is
    returned. *)
Theorem Fingerprint_missing_dependency fuel p (pkgs : heap) pk c pre d post :
  pkgs !! p = Some pk → fingerprint pk = None →
  PkgSpec.filesInput E fs (Dir pk) (allFiles pk) = Some c →
  Deps pk = pre ++ d :: post → Forall (λ x, isStdLib x = true) pre →
  isStdLib d = false → pkgs !! d = None →
  Fingerprint E fs (S fuel) p pkgs = Fatal (d +:+ " not found!").
Proof.
  intros Hp Hnone Hfiles Hdeps Hpre Hd Hmiss. unfold allFiles in Hfiles.
  repeat match type of Hfiles with
         | PkgSpec.filesInput _ _ _ (_ ++ _) = Some _ =>
             let c1 := fresh "c" in let H1 := fresh "Hc" in
             apply filesInput_app in Hfiles as (c1 & ? & H1 & Hfiles & ->)
         end.
  cbn [Fingerprint]. rewrite Hp, Hnone.
  repeat match goal with
         | H : PkgSpec.filesInput _ _ _ ?l = Some _ |- context [addFiles E fs pk ?h ?l] =>
             rewrite (addFiles_input pk l h _ H); cbn [obind]; clear H
         end.
  rewrite Hdeps, (fingerprintDeps_missing _ pkgs pre d post _ Hpre Hd Hmiss). reflexivity.
Qed.

End Fingerprint.

(** ** [loadPackages] and [load] *)

Section Load.

Context (goList : string → string + Package).

Lemma loadEach_stuck (f : string → heap → outcome (string * heap)) ds (o : outcome heap) :
  (∀ h, o ≠ Done h) → loadEach f ds o = o.
Proof.
  intros Ho. induction ds as [|d ds IH]; [reflexivity|].
  unfold loadEach in *. cbn [foldl].
  destruct o as [h| | | |]; [by destruct (Ho h)|exact IH..].
Qed.

(** An invariant of the loop, indexed by the import paths done. *)
Lemma loadEach_inv (I : list string → heap → Prop)
    (f : string → heap → outcome (string * heap)) ds :
  ∀ pre h hN,
    I pre h →
    (∀ pre d h, I pre h → isStdLib d = true → I (pre ++ [d]) h) →
    (∀ pre d h q h', I pre h → isStdLib d = false → f d h = Done (q, h') →
                     I (pre ++ [d]) h') →
    loadEach f ds (Done h) = Done hN → I (pre ++ ds) hN.
Proof.
  induction ds as [|d ds IH]; intros pre h hN HI Hstd Hstep.
  { unfold loadEach. cbn [foldl]. intros [= <-]. by rewrite app_nil_r. }
  unfold loadEach. cbn [foldl obind].
  change (foldl ?g ?o ds) with (loadEach f ds o).
  replace (pre ++ d :: ds) with ((pre ++ [d]) ++ ds) by by rewrite <-app_assoc.
  destruct (isStdLib d) eqn:Hd.
  - apply IH; [by apply Hstd|done..].
  - destruct (f d h) as [[q h']| | | |] eqn:Hf; cbn [obind];
      try (rewrite loadEach_stuck by done; discriminate).
    apply IH; [by eapply Hstep|done..].
Qed.

Lemma loadPackages_unfold fuel importPath (pkgs : heap) :
  loadPackages goList (S fuel) importPath pkgs
  = match pkgs !! importPath with
    | Some _ => Done (importPath, pkgs)
    | None =>
        match goList importPath with
        | inl msg => Fatal msg
        | inr pkg =>
            pkgs ← loadEach (loadPackages goList fuel) (Deps pkg)
                     (Done (<[ImportPath pkg := pkg]> pkgs)) ;;;
            Done (ImportPath pkg, pkgs)
        end
    end.
Proof. reflexivity. Qed.

(** [loadPackages] files every package under its import path, removes
    no key, and returns a key of the map. *)
Lemma loadPackages_filed fuel :
  ∀ importPath (pkgs : heap) k pkgs',
    filed pkgs → loadPackages goList fuel importPath pkgs = Done (k, pkgs') →
    filed pkgs' ∧ dom pkgs ⊆ dom pkgs' ∧ is_Some (pkgs' !! k).
Proof.
  induction fuel as [|fuel IH]; intros ip pkgs k pkgs' Hfiled; [done|].
  rewrite loadPackages_unfold. destruct (pkgs !! ip) as [pk|] eqn:Hip.
  { intros [= <- <-]. by rewrite Hip. }
  destruct (goList ip) as [msg|pkg]; [done|].
  destruct (loadEach _ _ _) as [hN| | | |] eqn:Hloop; try done. cbn [obind].
  intros [= <- <-].
  pose proof (loadEach_inv
                (λ _ h, filed h ∧ dom (<[ImportPath pkg := pkg]> pkgs) ⊆ dom h)
                (loadPackages goList fuel) (Deps pkg) [] (<[ImportPath pkg := pkg]> pkgs) hN) as Hinv.
  destruct Hinv as [HfN HdN]; [| | |exact Hloop|].
  - split; [|done]. intros k pk. destruct (decide (k = ImportPath pkg)) as [->|Hne].
    + rewrite lookup_insert_eq. by intros [= <-].
    + rewrite lookup_insert_ne by done. apply Hfiled.
  - done.
  - intros _ d h q h' [Hf Hd] _ Hrun. destruct (IH d h q h' Hf Hrun) as (? & ? & _).
    split; [done|]. set_solver.
  - split_and!; [done|set_solver|].
    apply elem_of_dom. apply HdN. rewrite dom_insert. set_solver.
Qed.

Hypothesis Hcan : canonical goList.

(** With a canonical [go list], a call for an import path outside the
    standard library overwrites nothing, and the map stays closed under
    the dependencies outside the standard library. *)
Lemma loadPackages_closed fuel :
  ∀ S importPath (pkgs : heap) k pkgs',
    depsLoaded S pkgs → loadPackages goList fuel importPath pkgs = Done (k, pkgs') →
    depsLoaded S pkgs' ∧ dom pkgs ⊆ dom pkgs' ∧ is_Some (pkgs' !! k)
    ∧ (isStdLib importPath = false → pkgs ⊆ pkgs' ∧ k = importPath).
Proof.
  induction fuel as [|fuel IH]; intros S ip pkgs k pkgs' Hcl; [done|].
  rewrite loadPackages_unfold. destruct (pkgs !! ip) as [pk|] eqn:Hip.
  { intros [= <- <-]. rewrite Hip. by split_and!. }
  destruct (goList ip) as [msg|pkg] eqn:Hgo; [done|].
  destruct (loadEach _ _ _) as [hN| | | |] eqn:Hloop; try done. cbn [obind].
  intros [= <- <-].
  set (pkgs1 := <[ImportPath pkg := pkg]> pkgs) in *.
  pose proof (loadEach_inv
                (λ pre h, depsLoaded (S ∪ {[ImportPath pkg]}) h ∧ pkgs1 ⊆ h
                          ∧ ∀ d, d ∈ pre → isStdLib d = false → is_Some (h !! d))
                (loadPackages goList fuel) (Deps pkg) [] pkgs1 hN) as Hinv.
  destruct Hinv as (HclN & HsubN & HdepsN); [| | |exact Hloop|].
  - split_and!; [|done|by intros d Hd%elem_of_nil].
    intros k pk d Hk Hnot Hd Hstd.
    assert (k ≠ ImportPath pkg) as Hne by set_solver.
    unfold pkgs1 in Hk. rewrite lookup_insert_ne in Hk by done.
    destruct (Hcl k pk d Hk) as [x Hx]; [set_solver|done|done|].
    unfold pkgs1. destruct (decide (d = ImportPath pkg)) as [->|Hnd].
    + rewrite lookup_insert_eq. by eexists.
    + rewrite lookup_insert_ne by done. by eexists.
  - intros pre d h (H1 & H2 & H3) Hstd. split_and!; [done|done|].
    intros d' [Hd'| ->%list_elem_of_singleton]%elem_of_app Hs; [by apply H3|congruence].
  - intros pre d h q h' (H1 & H2 & H3) Hstd Hrun.
    destruct (IH _ d h q h' H1 Hrun) as (H1' & Hdom & Hq & Hsub).
    destruct (Hsub Hstd) as [Hsub' ->].
    split_and!; [done|by transitivity h|].
    intros d' [Hd'| ->%list_elem_of_singleton]%elem_of_app Hs; [|done].
    destruct (H3 d' Hd' Hs) as [x Hx]. exists x. by apply (lookup_weaken h h').
  - assert (hN !! ImportPath pkg = Some pkg) as Hroot.
    { apply (lookup_weaken pkgs1 hN); [|done]. unfold pkgs1. apply lookup_insert_eq. }
    split_and!.
    + intros k pk d Hk Hnot Hd Hstd.
      destruct (decide (k = ImportPath pkg)) as [->|Hne].
      * rewrite Hroot in Hk. injection Hk as <-. by apply HdepsN.
      * apply (HclN k pk d Hk); [set_solver|done|done].
    + intros x Hx. apply elem_of_dom. apply elem_of_dom in Hx as [y Hy].
      destruct (decide (x = ImportPath pkg)) as [->|Hne]; [by eexists|].
      exists y. apply (lookup_weaken pkgs1 hN); [|done].
      unfold pkgs1. by rewrite lookup_insert_ne.
    + by eexists.
    + intros Hstd. pose proof (Hcan ip pkg Hstd Hgo) as Hpath. split; [|done].
      transitivity pkgs1; [|done]. unfold pkgs1. apply insert_subseteq. by rewrite Hpath.
Qed.

End Load.

(** ** The package list of [load] *)

Lemma insertSorted_keys_perm (pkgs : heap) x l : insertSorted pkgs x l ≡ₚ x :: l.
Proof.
  induction l as [|y l IH]; [reflexivity|]. cbn [insertSorted].
  destruct (String.ltb _ _); [|reflexivity]. rewrite IH. apply Permutation_swap.
Qed.

Lemma filed_key (pkgs : heap) k :
  filed pkgs → is_Some (pkgs !! k) → from_option ImportPath "" (pkgs !! k) = k.
Proof. intros Hf [pk Hk]. rewrite Hk. by apply Hf. Qed.

Lemma insertSorted_keys_sorted (pkgs : heap) x l :
  filed pkgs → is_Some (pkgs !! x) → Forall (λ y, is_Some (pkgs !! y)) l → x ∉ l →
  StronglySorted (λ a b, String.ltb a b = true) l →
  StronglySorted (λ a b, String.ltb a b = true) (insertSorted pkgs x l).
Proof.
  intros Hf Hx. induction l as [|y l IH]; intros Hl Hnot Hs; cbn [insertSorted].
  { repeat constructor. }
  apply Forall_cons in Hl as [Hy Hl]. apply not_elem_of_cons in Hnot as [Hne Hnot].
  apply StronglySorted_inv in Hs as [Hs Hall].
  rewrite (filed_key pkgs y Hf Hy), (filed_key pkgs x Hf Hx).
  destruct (String.ltb y x) eqn:Hyx.
  - constructor; [by apply IH|]. rewrite insertSorted_keys_perm. by constructor.
  - destruct (PkgMore.ltb_total x y Hne) as [Hxy|Hxy]; [|congruence].
    constructor; [by constructor|]. constructor; [done|].
    eapply Forall_impl; [exact Hall|]. intros z Hz. by apply (PkgMore.ltb_trans x y z).
Qed.

Lemma sortKeys_sorted (pkgs : heap) ks :
  filed pkgs → NoDup ks → Forall (λ y, is_Some (pkgs !! y)) ks →
  foldr (insertSorted pkgs) [] ks ≡ₚ ks
  ∧ StronglySorted (λ a b, String.ltb a b = true) (foldr (insertSorted pkgs) [] ks).
Proof.
  intros Hf. induction ks as [|k ks IH]; intros Hnd Hall; cbn [foldr].
  { split; [reflexivity|constructor]. }
  apply NoDup_cons in Hnd as [Hnot Hnd]. apply Forall_cons in Hall as [Hk Hall].
  destruct (IH Hnd Hall) as [Hperm Hsorted]. split.
  - rewrite insertSorted_keys_perm. by constructor.
  - apply insertSorted_keys_sorted; [done|done| | |done].
    + by rewrite Hperm.
    + by rewrite Hperm.
Qed.

Lemma filed_empty : filed (∅ : heap).
Proof. intros k pk Hk. by rewrite lookup_empty in Hk. Qed.

Lemma load_inv goList fuel dir pkgMap pkgList :
  load goList fuel dir = Done (pkgMap, pkgList) →
  ∃ root m1,
    loadPackages goList fuel dir ∅ = Done (root, m1)
    ∧ (∃ tests, loadEach (loadPackages goList fuel) tests (Done m1) = Done pkgMap)
    ∧ pkgList = foldr (insertSorted pkgMap) [] (map_to_list pkgMap).*1.
Proof.
  unfold load. destruct (loadPackages goList fuel dir ∅) as [[root m1]| | | |]; try done.
  cbn [obind].
  match goal with
  | |- context [foldl ?g (Done m1) ?ts] =>
      change (foldl g (Done m1) ts) with (loadEach (loadPackages goList fuel) ts (Done m1));
      destruct (loadEach (loadPackages goList fuel) ts (Done m1)) as [m2| | | |] eqn:Hloop;
      try done
  end.
  cbn [obind]. intros [= <- <-]. exists root, m1. split; [done|]. split; [by eexists|done].
Qed.

(** X28.  With a [go list] that answers a request for an import path
    outside the standard library with the package of that path,
    [loadPackages] loads what the package needs: when the map holds,
    for each of its packages, the dependencies outside the standard
    library, so does the map after the call; no key is removed, and the
    returned package is in the map. *)
Theorem loadPackages_loads_dependencies goList fuel importPath (pkgs : heap) k pkgs' :
  canonical goList →
  (∀ x pk d, pkgs !! x = Some pk → d ∈ Deps pk → isStdLib d = false → is_Some (pkgs !! d)) →
  loadPackages goList fuel importPath pkgs = Done (k, pkgs') →
  is_Some (pkgs' !! k)
  ∧ (∀ x, is_Some (pkgs !! x) → is_Some (pkgs' !! x))
  ∧ (∀ x pk d, pkgs' !! x = Some pk → d ∈ Deps pk → isStdLib d = false →
               is_Some (pkgs' !! d)).
Proof.
  intros Hcan Hcl Hrun.
  destruct (loadPackages_closed goList Hcan fuel ∅ importPath pkgs k pkgs')
    as (Hcl' & Hdom & Hk & _); [|done|].
  { intros x pk d Hx _. exact (Hcl x pk d Hx). }
  split_and!; [done| |].
  - intros x Hx. apply elem_of_dom. apply Hdom. by apply elem_of_dom.
  - intros x pk d Hx. apply (Hcl' x pk d Hx). set_solver.
Qed.

Lemma load_keys goList fuel dir pkgMap pkgList :
  load goList fuel dir = Done (pkgMap, pkgList) →
  filed pkgMap
  ∧ (∀ k, k ∈ (map_to_list pkgMap).*1 ↔ is_Some (pkgMap !! k))
  ∧ pkgList = foldr (insertSorted pkgMap) [] (map_to_list pkgMap).*1.
Proof.
  intros (root & m1 & Hroot & [tests Hloop] & ->)%load_inv.
  destruct (loadPackages_filed goList fuel dir ∅ root m1 filed_empty Hroot) as (Hf1 & _ & _).
  split_and!; [| |done].
  - pose proof (loadEach_inv (λ _ h, filed h) (loadPackages goList fuel) tests [] m1 pkgMap)
      as Hinv.
    apply Hinv; [done|done| |done].
    intros _ d h q h' Hh _ Hrun. by destruct (loadPackages_filed goList fuel d h q h' Hh Hrun).
  - intros k. rewrite list_elem_of_fmap. split.
    + intros ([k' v] & -> & Hkv%elem_of_map_to_list). by eexists.
    + intros [v Hv]. exists (k, v). split; [done|]. by apply elem_of_map_to_list.
Qed.

(** X29.  The list that [load] returns is the map in order: every
    package of the map is filed under its own import path, the list
    holds each key of the map once, and it ascends strictly in the
    order of the import paths. *)
Theorem load_sorted_keys goList fuel dir pkgMap pkgList :
  load goList fuel dir = Done (pkgMap, pkgList) →
  (∀ k pk, pkgMap !! k = Some pk → ImportPath pk = k)
  ∧ (∀ k, k ∈ pkgList ↔ is_Some (pkgMap !! k))
  ∧ StronglySorted (λ a b, String.ltb a b = true) pkgList.
Proof.
  intros (Hf & Hkeys & ->)%load_keys.
  destruct (sortKeys_sorted pkgMap (map_to_list pkgMap).*1 Hf) as [Hperm Hsorted].
  { apply NoDup_fst_map_to_list. }
  { apply Forall_forall. intros k. apply Hkeys. }
  split_and!; [exact Hf| |exact Hsorted].
  intros k. by rewrite Hperm.
Qed.

(** X30.  With such a [go list], the list that [load] returns is closed
    under the dependencies outside the standard library: each of them
    is itself in the list. *)
Theorem load_lists_dependencies goList fuel dir pkgMap pkgList :
  canonical goList →
  load goList fuel dir = Done (pkgMap, pkgList) →
  ∀ k pk d, pkgMap !! k = Some pk → d ∈ Deps pk → isStdLib d = false → d ∈ pkgList.
Proof.
  intros Hcan Hrun.
  destruct (load_keys goList fuel dir pkgMap pkgList Hrun) as (Hf & Hkeys & Hlist).
  assert (∀ k, is_Some (pkgMap !! k) → k ∈ pkgList) as Hin.
  { intros k Hk. rewrite Hlist.
    destruct (sortKeys_sorted pkgMap (map_to_list pkgMap).*1 Hf) as [Hperm _].
    - apply NoDup_fst_map_to_list.
    - apply Forall_forall. intros x. apply Hkeys.
    - rewrite Hperm. by apply Hkeys. }
  apply load_inv in Hrun as (root & m1 & Hroot & [tests Hloop] & _).
  destruct (loadPackages_closed goList Hcan fuel ∅ dir ∅ root m1) as (Hcl1 & _);
    [by intros x pk d Hx; rewrite lookup_empty in Hx|done|].
  assert (depsLoaded ∅ pkgMap) as Hcl.
  { pose proof (loadEach_inv (λ _ h, depsLoaded ∅ h) (loadPackages goList fuel) tests []
                  m1 pkgMap) as Hinv.
    apply Hinv; [done|done| |done].
    intros _ d h q h' Hh _ Hrun.
    by destruct (loadPackages_closed goList Hcan fuel ∅ d h q h' Hh Hrun). }
  intros k pk d Hk Hd Hstd. apply Hin. apply (Hcl k pk d Hk); [set_solver|done|done].
Qed.

(** ** The first revision on a concrete workspace *)

Lemma goListXY_canonical : canonical Examples.goListXY.
Proof.
  intros d pkg _. unfold Examples.goListXY.
  destruct (decide (d = "x.io/a")) as [->|]; [by intros [= <-]|].
  destruct (decide (d = "x.io/b")) as [->|]; [by intros [= <-]|done].
Qed.

Lemma Fingerprint_first_revision_input_witness :
  Fingerprint Examples.env Examples.filesXY 2 "x.io/a" Examples.heapXYmemo
  = Done (hashSumHex (digestInput Examples.env
                        (Examples.gpkg "x.io/a" ["a.go"] ["fmt"; "x.io/b"] None)
                        ("a.go" +:+ "package a") Examples.digestB),
          <["x.io/a" := Examples.gpkg "x.io/a" ["a.go"] ["fmt"; "x.io/b"]
                          (Some (hashSumHex (digestInput Examples.env
                             (Examples.gpkg "x.io/a" ["a.go"] ["fmt"; "x.io/b"] None)
                             ("a.go" +:+ "package a") Examples.digestB)))]>
            Examples.heapXYmemo).
Proof.
  apply (Fingerprint_first_revision_input Examples.env Examples.filesXY 0 "x.io/a"
           Examples.heapXYmemo (Examples.gpkg "x.io/a" ["a.go"] ["fmt"; "x.io/b"] None)
           ("a.go" +:+ "package a") Examples.digestB);
    vm_compute; reflexivity.
Defined.

Lemma Fingerprint_missing_dependency_witness :
  Fingerprint Examples.env Examples.filesXY 1 "x.io/a" Examples.heapX
  = Fatal "x.io/b not found!".
Proof.
  apply (Fingerprint_missing_dependency Examples.env Examples.filesXY 0 "x.io/a"
           Examples.heapX (Examples.gpkg "x.io/a" ["a.go"] ["fmt"; "x.io/b"] None)
           ("a.go" +:+ "package a") ["fmt"] "x.io/b" []);
    try reflexivity.
  by constructor.
Defined.

Lemma loadPackages_loads_dependencies_witness :
  is_Some (Examples.heapXY !! "x.io/a")
  ∧ (∀ x, is_Some ((∅ : heap) !! x) → is_Some (Examples.heapXY !! x))
  ∧ (∀ x pk d, Examples.heapXY !! x = Some pk → d ∈ Deps pk → isStdLib d = false →
               is_Some (Examples.heapXY !! d)).
Proof.
  apply (loadPackages_loads_dependencies Examples.goListXY 5 "x.io/a" ∅ "x.io/a"
           Examples.heapXY goListXY_canonical).
  - intros x pk d Hx. by rewrite lookup_empty in Hx.
  - vm_compute. reflexivity.
Defined.

Lemma load_sorted_keys_witness :
  (∀ k pk, Examples.heapXY !! k = Some pk → ImportPath pk = k)
  ∧ (∀ k, k ∈ ["x.io/a"; "x.io/b"] ↔ is_Some (Examples.heapXY !! k))
  ∧ StronglySorted (λ a b, String.ltb a b = true) ["x.io/a"; "x.io/b"].
Proof.
  apply (load_sorted_keys Examples.goListXY 5 "x.io/a" Examples.heapXY
           ["x.io/a"; "x.io/b"]).
  vm_compute. reflexivity.
Defined.

Lemma load_lists_dependencies_witness :
  "x.io/b" ∈ ["x.io/a"; "x.io/b"].
Proof.
  apply (load_lists_dependencies Examples.goListXY 5 "x.io/a" Examples.heapXY
           ["x.io/a"; "x.io/b"] goListXY_canonical
           ltac:(vm_compute; reflexivity) "x.io/a"
           (Examples.gpkg "x.io/a" ["a.go"] ["fmt"; "x.io/b"] None) "x.io/b").
  - reflexivity.
  - apply list_elem_of_further, list_elem_of_here.
  - reflexivity.
Defined.

End GoListFacts.
